(** * The chunk defragmentation policy of the balancer

    A shallow embedding of
    [src/mongo/db/s/balancer/balancer_defragmentation_policy_impl.cpp]:
    the three defragmentation phases ([MergeChunksPhase],
    [MoveAndMergeChunksPhase], [SplitChunksPhase]) and the policy object
    [BalancerDefragmentationPolicyImpl] that drives them.

    Conventions of the embedding.
    - Fixed-width integers are [Z] with the wrap-around written out
      ([wrapU64], [wrapS64], [wrapS32]).
    - [std::map] and [stdx::unordered_map] are [gmap]; [std::unordered_set]
      is [gset]; [std::vector] and [std::list] are [list].
    - A [std::list<ChunkRangeInfo>::iterator] is the identity of a list node:
      every node carries a natural number given to it when it is created,
      and an iterator is that number.  Dereferencing an iterator whose node
      is gone is undefined in C++ and is [Fatal] here.
    - The catalog, the cluster statistics and the persistence layer are
      external: their answers come from an [Env] record.
    - A function that may throw returns a [Result]: [Ok] with its value and
      the state, [Throw] (a [DBException], with the state as mutated so far)
      or [Fatal] (a failed [invariant], [std::out_of_range], undefined
      behaviour).
    - The two [while] loops of the policy object whose end is not structural
      take fuel; [OutOfFuel] is the result of a run that was given too
      little. *)

From stdpp Require Import gmap strings list.
From Stdlib Require Import ZArith Lia Sorted.

Open Scope Z_scope.

(** ** Integers *)

Definition wrapU64 (z : Z) : Z := z mod 2 ^ 64.
Definition wrapS64 (z : Z) : Z := (z + 2 ^ 63) mod 2 ^ 64 - 2 ^ 63.
Definition wrapU32 (z : Z) : Z := z mod 2 ^ 32.
Definition wrapS32 (z : Z) : Z := (z + 2 ^ 31) mod 2 ^ 32 - 2 ^ 31.

(** ** Results of functions that may throw *)

Inductive Result (S A : Type) : Type :=
| Ok (a : A) (s : S)
| Throw (s : S)
| Fatal
| OutOfFuel.
Arguments Ok {S A} a s.
Arguments Throw {S A} s.
Arguments Fatal {S A}.
Arguments OutOfFuel {S A}.

(** ** Values shared by the phases *)

Abbreviation ShardId := string (only parsing).
Abbreviation UUID := N (only parsing).
Abbreviation NamespaceString := string (only parsing).

(** A BSON document used as a shard key value.  [woCompare] orders
    documents; the order is carried by [woKey].  [objsize] is the size of the
    document in bytes. *)
Record BSONObj := mkBSONObj { woKey : Z; objsize : Z }.

Definition woCompare (a b : BSONObj) : Z :=
  match woKey a ?= woKey b with
  | Lt => -1
  | Eq => 0
  | Gt => 1
  end.

#[global] Instance BSONObj_eq_dec : EqDecision BSONObj.
Proof. solve_decision. Defined.

(** Modelled from the spec: [ChunkRange] is declared in
    [mongo/s/catalog/type_chunk.h], which is not among the sources; it is the
    half-open interval [[min, max)] of the spec's data model. *)
Record ChunkRange := mkChunkRange { getMin : BSONObj; getMax : BSONObj }.

Definition containsKey (r : ChunkRange) (key : BSONObj) : bool :=
  (woCompare (getMin r) key <=? 0) && (woCompare key (getMax r) <? 0).

#[global] Instance ChunkRange_eq_dec : EqDecision ChunkRange.
Proof. solve_decision. Defined.

(** [ChunkVersion] (src/mongo/s/chunk_version.h): the combined major and
    minor version, the epoch and the timestamp. *)
Record ChunkVersion := mkChunkVersion { _combined : Z; _epoch : Z; _timestamp : Z }.

(** Modelled from the spec: [ChunkType] (type_chunk.h) as far as the policy
    reads it. *)
Record ChunkType := mkChunkType {
  ct_collectionUUID : UUID;
  ct_range : ChunkRange;
  ct_version : option ChunkVersion;
  ct_shard : ShardId;
  ct_estimatedSizeBytes : option Z
}.

Inductive DefragmentationPhaseEnum :=
| kMergeChunks
| kMoveAndMergeChunks
| kSplitChunks
| kFinished.

#[global] Instance DefragmentationPhaseEnum_eq_dec : EqDecision DefragmentationPhaseEnum.
Proof. solve_decision. Defined.

(** Modelled from the spec: [CollectionType] (type_collection.h) as far as
    the policy reads it. *)
Record CollectionType := mkCollectionType {
  coll_uuid : UUID;
  coll_nss : NamespaceString;
  coll_keyPattern : BSONObj;
  coll_epoch : Z;
  coll_timestamp : Z;
  coll_defragmentCollection : bool;
  coll_defragmentationPhase : option DefragmentationPhaseEnum;
  coll_maxChunkSizeBytes : option Z
}.

(** Modelled from the spec: [ClusterStatistics::ShardStatistics]
    (cluster_statistics.h). *)
Record ShardStatistics := mkShardStatistics {
  stat_shardId : ShardId;
  stat_currSizeBytes : Z;
  stat_maxSizeBytes : Z;
  stat_isDraining : bool
}.

(** Modelled from the spec: [ZoneInfo] (balancer_policy.h) is the spec's
    ZoneMap, a function from chunk ranges to zone tags derived from the
    catalog's tag ranges: the tag of the first tag range that covers the chunk
    range, the empty tag when there is none. *)
Abbreviation ZoneInfo := (list (ChunkRange * string)) (only parsing).

Definition zoneCovers (zr : ChunkRange) (r : ChunkRange) : bool :=
  (woCompare (getMin zr) (getMin r) <=? 0) && (woCompare (getMax r) (getMax zr) <=? 0).

Fixpoint getZoneForChunk (zones : ZoneInfo) (r : ChunkRange) : string :=
  match zones with
  | [] => EmptyString
  | (zr, tag) :: rest => if zoneCovers zr r then tag else getZoneForChunk rest r
  end.

(** ** Status of an action

    Modelled from the spec: the error codes ([ErrorCodes], generated from
    error_codes.yml) are not among the sources.  A code is one of the two
    stale-routing codes the policy names, a code of the category
    [RetriableError], or any other code. *)
Inductive ErrorCode :=
| StaleShardVersion
| StaleConfig
| InRetriableCategory (code : Z)
| OtherError (code : Z).

Inductive Status :=
| StatusOK
| StatusError (code : ErrorCode).

Definition isOK (s : Status) : bool :=
  match s with StatusOK => true | StatusError _ => false end.

Definition isRetriableForDefragmentation (error : Status) : bool :=
  match error with
  | StatusError (InRetriableCategory _) => true
  | StatusError StaleShardVersion => true
  | StatusError StaleConfig => true
  | _ => false
  end.

(** [handleActionResult]: the three continuations are the three updates of
    the phase; logging is left out. *)
Definition handleActionResult {A : Type} (status : Status)
    (onSuccess onRetriableError onNonRetriableError : A) : A :=
  if isOK status then onSuccess
  else if isRetriableForDefragmentation status then onRetriableError
  else onNonRetriableError.

(** ** Actions *)

Record MergeInfo := mkMergeInfo {
  merge_shardId : ShardId;
  merge_nss : NamespaceString;
  merge_uuid : UUID;
  merge_collectionVersion : ChunkVersion;
  merge_chunkRange : ChunkRange
}.

Record DataSizeInfo := mkDataSizeInfo {
  ds_shardId : ShardId;
  ds_nss : NamespaceString;
  ds_uuid : UUID;
  ds_chunkRange : ChunkRange;
  ds_version : ChunkVersion;
  ds_keyPattern : BSONObj;
  ds_estimatedValue : bool
}.

Abbreviation SplitPoints := (list BSONObj) (only parsing).

Record AutoSplitVectorInfo := mkAutoSplitVectorInfo {
  asv_shardId : ShardId;
  asv_nss : NamespaceString;
  asv_uuid : UUID;
  asv_collectionVersion : ChunkVersion;
  asv_keyPattern : BSONObj;
  asv_minKey : BSONObj;
  asv_maxKey : BSONObj;
  asv_maxChunkSizeBytes : Z
}.

Record SplitInfoWithKeyPattern := mkSplitInfoWithKeyPattern {
  split_shardId : ShardId;
  split_nss : NamespaceString;
  split_collectionVersion : ChunkVersion;
  split_minKey : BSONObj;
  split_maxKey : BSONObj;
  split_splitKeys : SplitPoints;
  split_uuid : UUID;
  split_keyPattern : BSONObj
}.

Record MigrateInfo := mkMigrateInfo {
  mig_to : ShardId;
  mig_nss : NamespaceString;
  mig_uuid : UUID;
  mig_from : ShardId;
  mig_minKey : BSONObj;
  mig_maxKey : BSONObj;
  mig_version : ChunkVersion
}.

Inductive EndOfActionStream := mkEndOfActionStream.

Inductive DefragmentationAction :=
| ActMergeInfo (a : MergeInfo)
| ActDataSizeInfo (a : DataSizeInfo)
| ActAutoSplitVectorInfo (a : AutoSplitVectorInfo)
| ActSplitInfoWithKeyPattern (a : SplitInfoWithKeyPattern)
| ActMigrateInfo (a : MigrateInfo)
| ActEndOfActionStream (a : EndOfActionStream).

Record DataSizeResponse := mkDataSizeResponse { sizeBytes : Z; numObjects : Z }.

(** [DefragmentationActionResponse]: a [Status], a
    [StatusWith<DataSizeResponse>] or a [StatusWith<SplitPoints>]. *)
Inductive DefragmentationActionResponse :=
| RespStatus (s : Status)
| RespDataSize (s : Status) (v : DataSizeResponse)
| RespSplitPoints (s : Status) (v : SplitPoints).

(** ** The environment: catalog, statistics, persistence

    [None] and [false] stand for a call that throws a [DBException].  The
    last two fields are constants declared in headers that are not among
    the sources ([BSONObjMaxUserSize] in the BSON library,
    [kMaxConcurrentOperations] in balancer_defragmentation_policy_impl.h). *)
Record Env := mkEnv {
  env_getCollection : UUID -> option CollectionType;
  env_getChunks : UUID -> option (list ChunkType);
  env_getChunksOfShard : UUID -> ShardId -> option (list ChunkType);
  env_addTagsFromCatalog : NamespaceString -> option ZoneInfo;
  env_getCollStats : NamespaceString -> option (list ShardStatistics);
  env_balancerMaxChunkSizeBytes : option Z;
  env_setChunkEstimatedSize : ChunkType -> Z -> bool;
  env_persistPhaseUpdate : DefragmentationPhaseEnum -> UUID -> bool;
  BSONObjMaxUserSize : Z;
  kMaxConcurrentOperations : Z
}.

(** [getShardVersion]: the newest chunk of the shard (the catalog query is
    sorted by [lastmod] descending, limit 1) gives the version. *)
Definition getShardVersion (env : Env) (shardId : ShardId) (uuid : UUID)
    : option ChunkVersion :=
  match env_getCollection env uuid with
  | None => None
  | Some coll =>
      match env_getChunksOfShard env (coll_uuid coll) shardId with
      | Some (front :: _) => ct_version front
      | _ => None
      end
  end.

Definition getCollectionChunks (env : Env) (coll : CollectionType)
    : option (list ChunkType) :=
  env_getChunks env (coll_uuid coll).

Definition getCollectionMaxChunkSizeBytes (env : Env) (coll : CollectionType)
    : option Z :=
  match env_balancerMaxChunkSizeBytes env with
  | None => None
  | Some configured =>
      Some (wrapU64 (match coll_maxChunkSizeBytes coll with
                     | Some v => v
                     | None => configured
                     end))
  end.

(** [std::list::sort] with a comparator: insertion from the right, each
    element placed after the elements the comparator puts before it.  How
    the library orders elements that compare equal is its own choice. *)
Fixpoint insert_sorted {A : Type} (comp : A -> A -> bool) (x : A) (l : list A) : list A :=
  match l with
  | [] => [x]
  | y :: l' => if comp y x then y :: insert_sorted comp x l' else x :: y :: l'
  end.

Definition list_sort {A : Type} (comp : A -> A -> bool) (l : list A) : list A :=
  foldr (insert_sorted comp) [] l.

(** [std::map::begin]: the entry with the least key. *)
Definition map_begin {A : Type} (m : gmap ShardId A) : option (ShardId * A) :=
  foldr (fun kv acc =>
           match acc with
           | None => Some kv
           | Some kv' => if String.ltb (fst kv) (fst kv') then Some kv else Some kv'
           end) None (map_to_list m).

(** ** MoveAndMergeChunksPhase *)

Module MoveAndMergeChunksPhase.

Abbreviation ChunkRangeInfoIterator := nat (only parsing).

(** Internal representation of the chunk metadata required to generate a
    [MoveAndMergeRequest]. *)
Record ChunkRangeInfo := mkChunkRangeInfo {
  range : ChunkRange;
  shard : ShardId;
  estimatedSizeBytes : Z;
  busyInOperation : bool
}.

Record ShardInfo := mkShardInfo {
  currentSizeBytes : Z;
  maxSizeBytes : Z;
  draining : bool
}.

Definition canReceiveNewChunks (s : ShardInfo) : bool :=
  if draining s then false
  else (maxSizeBytes s =? 0) || (currentSizeBytes s <? maxSizeBytes s).

(** The nodes of the [std::list], in list order, each with its identity. *)
Abbreviation ChunkRangeInfos := (list (ChunkRangeInfoIterator * ChunkRangeInfo)) (only parsing).

Record MoveAndMergeRequest := mkMoveAndMergeRequest {
  chunkToMove : ChunkRangeInfoIterator;
  chunkToMergeWith : ChunkRangeInfoIterator;
  _isChunkToMergeLeftSibling : bool
}.

#[global] Instance MoveAndMergeRequest_eq_dec : EqDecision MoveAndMergeRequest.
Proof. solve_decision. Defined.

Record t := mk {
  _nss : NamespaceString;
  _uuid : UUID;
  _collectionChunks : ChunkRangeInfos;
  _smallChunksByShard : gmap ShardId (list ChunkRangeInfoIterator);
  _shardInfos : gmap ShardId ShardInfo;
  _shardProcessingOrder : list ShardId;
  _outstandingMigrations : list MoveAndMergeRequest;
  _actionableMerges : list MoveAndMergeRequest;
  _outstandingMerges : list MoveAndMergeRequest;
  _zoneInfo : ZoneInfo;
  _smallChunkSizeThresholdBytes : Z;
  _aborted : bool;
  _nextPhase : DefragmentationPhaseEnum
}.

Definition kSmallChunkSizeThresholdPctg : Z := 25.

(** *** Field updates *)

Definition with_collectionChunks (v : ChunkRangeInfos) (st : t) : t :=
  mk (_nss st) (_uuid st) v (_smallChunksByShard st) (_shardInfos st)
     (_shardProcessingOrder st) (_outstandingMigrations st) (_actionableMerges st)
     (_outstandingMerges st) (_zoneInfo st) (_smallChunkSizeThresholdBytes st)
     (_aborted st) (_nextPhase st).

Definition with_smallChunksByShard (v : gmap ShardId (list ChunkRangeInfoIterator)) (st : t) : t :=
  mk (_nss st) (_uuid st) (_collectionChunks st) v (_shardInfos st)
     (_shardProcessingOrder st) (_outstandingMigrations st) (_actionableMerges st)
     (_outstandingMerges st) (_zoneInfo st) (_smallChunkSizeThresholdBytes st)
     (_aborted st) (_nextPhase st).

Definition with_shardInfos (v : gmap ShardId ShardInfo) (st : t) : t :=
  mk (_nss st) (_uuid st) (_collectionChunks st) (_smallChunksByShard st) v
     (_shardProcessingOrder st) (_outstandingMigrations st) (_actionableMerges st)
     (_outstandingMerges st) (_zoneInfo st) (_smallChunkSizeThresholdBytes st)
     (_aborted st) (_nextPhase st).

Definition with_shardProcessingOrder (v : list ShardId) (st : t) : t :=
  mk (_nss st) (_uuid st) (_collectionChunks st) (_smallChunksByShard st) (_shardInfos st)
     v (_outstandingMigrations st) (_actionableMerges st)
     (_outstandingMerges st) (_zoneInfo st) (_smallChunkSizeThresholdBytes st)
     (_aborted st) (_nextPhase st).

Definition with_outstandingMigrations (v : list MoveAndMergeRequest) (st : t) : t :=
  mk (_nss st) (_uuid st) (_collectionChunks st) (_smallChunksByShard st) (_shardInfos st)
     (_shardProcessingOrder st) v (_actionableMerges st)
     (_outstandingMerges st) (_zoneInfo st) (_smallChunkSizeThresholdBytes st)
     (_aborted st) (_nextPhase st).

Definition with_actionableMerges (v : list MoveAndMergeRequest) (st : t) : t :=
  mk (_nss st) (_uuid st) (_collectionChunks st) (_smallChunksByShard st) (_shardInfos st)
     (_shardProcessingOrder st) (_outstandingMigrations st) v
     (_outstandingMerges st) (_zoneInfo st) (_smallChunkSizeThresholdBytes st)
     (_aborted st) (_nextPhase st).

Definition with_outstandingMerges (v : list MoveAndMergeRequest) (st : t) : t :=
  mk (_nss st) (_uuid st) (_collectionChunks st) (_smallChunksByShard st) (_shardInfos st)
     (_shardProcessingOrder st) (_outstandingMigrations st) (_actionableMerges st)
     v (_zoneInfo st) (_smallChunkSizeThresholdBytes st)
     (_aborted st) (_nextPhase st).

Definition with_aborted (v : bool) (st : t) : t :=
  mk (_nss st) (_uuid st) (_collectionChunks st) (_smallChunksByShard st) (_shardInfos st)
     (_shardProcessingOrder st) (_outstandingMigrations st) (_actionableMerges st)
     (_outstandingMerges st) (_zoneInfo st) (_smallChunkSizeThresholdBytes st)
     v (_nextPhase st).

Definition with_nextPhase (v : DefragmentationPhaseEnum) (st : t) : t :=
  mk (_nss st) (_uuid st) (_collectionChunks st) (_smallChunksByShard st) (_shardInfos st)
     (_shardProcessingOrder st) (_outstandingMigrations st) (_actionableMerges st)
     (_outstandingMerges st) (_zoneInfo st) (_smallChunkSizeThresholdBytes st)
     (_aborted st) v.

(** *** Iterators into [_collectionChunks] *)

(** [*it]; [None] when the node is gone. *)
Fixpoint deref (l : ChunkRangeInfos) (it : ChunkRangeInfoIterator) : option ChunkRangeInfo :=
  match l with
  | [] => None
  | (i, c) :: l' => if decide (i = it) then Some c else deref l' it
  end.

(** The position of the node in the list. *)
Fixpoint position (l : ChunkRangeInfos) (it : ChunkRangeInfoIterator) : option nat :=
  match l with
  | [] => None
  | (i, _) :: l' => if decide (i = it) then Some 0%nat else S <$> position l' it
  end.

(** Assignment through the iterator. *)
Fixpoint update (f : ChunkRangeInfo -> ChunkRangeInfo) (it : ChunkRangeInfoIterator)
    (l : ChunkRangeInfos) : ChunkRangeInfos :=
  match l with
  | [] => []
  | (i, c) :: l' => if decide (i = it) then (i, f c) :: l' else (i, c) :: update f it l'
  end.

(** [std::list::erase(it)]. *)
Fixpoint erase (it : ChunkRangeInfoIterator) (l : ChunkRangeInfos) : ChunkRangeInfos :=
  match l with
  | [] => []
  | (i, c) :: l' => if decide (i = it) then l' else (i, c) :: erase it l'
  end.

Definition set_busyInOperation (b : bool) (c : ChunkRangeInfo) : ChunkRangeInfo :=
  mkChunkRangeInfo (range c) (shard c) (estimatedSizeBytes c) b.

Definition set_range (r : ChunkRange) (c : ChunkRangeInfo) : ChunkRangeInfo :=
  mkChunkRangeInfo r (shard c) (estimatedSizeBytes c) (busyInOperation c).

Definition set_estimatedSizeBytes (z : Z) (c : ChunkRangeInfo) : ChunkRangeInfo :=
  mkChunkRangeInfo (range c) (shard c) z (busyInOperation c).

Definition set_currentSizeBytes (z : Z) (s : ShardInfo) : ShardInfo :=
  mkShardInfo z (maxSizeBytes s) (draining s).

(** [compareChunkRangeInfoIterators]. *)
Definition compareChunkRangeInfoIterators (l : ChunkRangeInfos)
    (lhs rhs : ChunkRangeInfoIterator) : bool :=
  match deref l lhs, deref l rhs with
  | Some a, Some b => estimatedSizeBytes a <? estimatedSizeBytes b
  | _, _ => false
  end.

(** *** MoveAndMergeRequest *)

(** The constructor reads both chunks to set [_isChunkToMergeLeftSibling]. *)
Definition newMoveAndMergeRequest (l : ChunkRangeInfos)
    (move mergeWith : ChunkRangeInfoIterator) : option MoveAndMergeRequest :=
  m ← deref l move;
  w ← deref l mergeWith;
  Some (mkMoveAndMergeRequest move mergeWith
          (bool_decide (woCompare (getMax (range w)) (getMin (range m)) = 0))).

Definition asMigrateInfo (l : ChunkRangeInfos) (r : MoveAndMergeRequest)
    (collUuid : UUID) (nss : NamespaceString) (version : ChunkVersion) : option MigrateInfo :=
  m ← deref l (chunkToMove r);
  w ← deref l (chunkToMergeWith r);
  Some (mkMigrateInfo (shard w) nss collUuid (shard m)
          (getMin (range m)) (getMax (range m)) version).

Definition asMergedRange (l : ChunkRangeInfos) (r : MoveAndMergeRequest) : option ChunkRange :=
  m ← deref l (chunkToMove r);
  w ← deref l (chunkToMergeWith r);
  Some (mkChunkRange
          (if _isChunkToMergeLeftSibling r then getMin (range w) else getMin (range m))
          (if _isChunkToMergeLeftSibling r then getMax (range m) else getMax (range w))).

Definition asMergeInfo (l : ChunkRangeInfos) (r : MoveAndMergeRequest)
    (collUuid : UUID) (nss : NamespaceString) (version : ChunkVersion) : option MergeInfo :=
  w ← deref l (chunkToMergeWith r);
  merged ← asMergedRange l r;
  Some (mkMergeInfo (shard w) nss collUuid version merged).

Definition getSourceShard (l : ChunkRangeInfos) (r : MoveAndMergeRequest) : option ShardId :=
  shard <$> deref l (chunkToMove r).

Definition getDestinationShard (l : ChunkRangeInfos) (r : MoveAndMergeRequest) : option ShardId :=
  shard <$> deref l (chunkToMergeWith r).

Definition getMigrationMinKey (l : ChunkRangeInfos) (r : MoveAndMergeRequest) : option BSONObj :=
  (fun c => getMin (range c)) <$> deref l (chunkToMove r).

(** Returns [uint64_t]. *)
Definition getMovedDataSizeBytes (l : ChunkRangeInfos) (r : MoveAndMergeRequest) : option Z :=
  (fun c => wrapU64 (estimatedSizeBytes c)) <$> deref l (chunkToMove r).

(** *** Construction *)

Definition _abort (nextPhase : DefragmentationPhaseEnum) (st : t) : t :=
  with_shardProcessingOrder []
    (with_smallChunksByShard ∅
       (with_actionableMerges []
          (with_nextPhase nextPhase (with_aborted true st)))).

(** Loads the routing table; the boolean is false when a chunk without an
    estimated size stopped the loading.  The size goes through a [uint64_t]
    local before it is stored as [long long]. *)
Fixpoint loadChunks (n : nat) (chunks : list ChunkType) : ChunkRangeInfos * bool :=
  match chunks with
  | [] => ([], true)
  | c :: rest =>
      match ct_estimatedSizeBytes c with
      | None => ([], false)
      | Some sz =>
          let '(l, ok) := loadChunks (S n) rest in
          ((n, mkChunkRangeInfo (ct_range c) (ct_shard c) (wrapS64 (wrapU64 sz)) false) :: l, ok)
      end
  end.

(** Compose the index of small chunks. *)
Definition indexSmallChunks (threshold : Z) (l : ChunkRangeInfos)
    : gmap ShardId (list ChunkRangeInfoIterator) :=
  foldl (fun m p =>
           if estimatedSizeBytes (snd p) <=? threshold
           then <[shard (snd p) := default [] (m !! shard (snd p)) ++ [fst p]]> m
           else m) ∅ l.

(** [shardInfos.emplace] keeps the first entry of a shard. *)
Definition emplaceShardInfos (stats : list ShardStatistics) : gmap ShardId ShardInfo :=
  foldl (fun m s =>
           match m !! stat_shardId s with
           | Some _ => m
           | None => <[stat_shardId s :=
                         mkShardInfo (stat_currSizeBytes s) (stat_maxSizeBytes s)
                                     (stat_isDraining s)]> m
           end) ∅ stats.

(** The comparator of [_shardProcessingOrder.sort].  [_shardInfos.at] throws
    for a shard that is not in the map: [sortShardProcessingOrder] checks
    that first. *)
Definition shardOrderComp (infos : gmap ShardId ShardInfo) (lhs rhs : ShardId) : bool :=
  match infos !! lhs, infos !! rhs with
  | Some a, Some b => currentSizeBytes b <=? currentSizeBytes a
  | _, _ => false
  end.

Definition sortShardProcessingOrder (infos : gmap ShardId ShardInfo) (order : list ShardId)
    : option (list ShardId) :=
  if forallb (fun s => bool_decide (is_Some (infos !! s))) order
  then Some (list_sort (shardOrderComp infos) order)
  else None.

(** The constructor. *)
Definition new (nss : NamespaceString) (uuid : UUID) (collectionChunks : list ChunkType)
    (shardInfos : gmap ShardId ShardInfo) (collectionZones : ZoneInfo)
    (smallChunkSizeThresholdBytes : Z) : t :=
  let threshold := wrapS64 smallChunkSizeThresholdBytes in
  let st0 := mk nss uuid [] ∅ shardInfos [] [] [] [] collectionZones threshold
                false kSplitChunks in
  let '(chunks, ok) := loadChunks 0 collectionChunks in
  if negb ok then _abort kMergeChunks (with_collectionChunks chunks st0)
  else
    let small := indexSmallChunks threshold chunks in
    let small := list_sort (compareChunkRangeInfoIterators chunks) <$> small in
    let order := list_sort (shardOrderComp shardInfos) (fst <$> map_to_list shardInfos) in
    with_shardProcessingOrder order
      (with_smallChunksByShard small (with_collectionChunks chunks st0)).

(** [build]: [None] when a catalog read throws. *)
Definition build (env : Env) (coll : CollectionType)
    (collectionShardStats : list ShardStatistics) : option t :=
  collectionZones ← env_addTagsFromCatalog env (coll_nss coll);
  let shardInfos := emplaceShardInfos collectionShardStats in
  collectionChunks ← getCollectionChunks env coll;
  maxChunkSizeBytes ← getCollectionMaxChunkSizeBytes env coll;
  let smallChunkSizeThresholdBytes :=
    wrapU64 ((maxChunkSizeBytes / 100) * kSmallChunkSizeThresholdPctg) in
  Some (new (coll_nss coll) (coll_uuid coll) collectionChunks shardInfos collectionZones
            smallChunkSizeThresholdBytes).

Definition getType (st : t) : DefragmentationPhaseEnum := kMoveAndMergeChunks.

Definition getNextPhase (st : t) : DefragmentationPhaseEnum := _nextPhase st.

Definition isComplete (st : t) : bool :=
  bool_decide (_smallChunksByShard st = ∅) &&
  bool_decide (_outstandingMigrations st = []) &&
  bool_decide (_actionableMerges st = []) &&
  bool_decide (_outstandingMerges st = []).

(** *** Siblings *)

(** The lambda [canBeMoveAndMerged] of [_getChunkSiblings]; [None] when
    [_shardInfos.at] throws. *)
Definition canBeMoveAndMerged (st : t) (chunk sibling : ChunkRangeInfo) : option bool :=
  let onSameZone :=
    bool_decide (getZoneForChunk (_zoneInfo st) (range chunk) =
                 getZoneForChunk (_zoneInfo st) (range sibling)) in
  destinationAvailable ←
    (if decide (shard chunk = shard sibling) then Some true
     else canReceiveNewChunks <$> (_shardInfos st !! shard sibling));
  Some (onSameZone && destinationAvailable).

(** Returns the list of siblings that are eligible to be move&merged with
    the specified chunk, based on shard zones and data capacity: the right
    sibling first, then the left one. *)
Definition _getChunkSiblings (st : t) (chunkIt : ChunkRangeInfoIterator)
    : option (list ChunkRangeInfoIterator) :=
  idx ← position (_collectionChunks st) chunkIt;
  chunk ← deref (_collectionChunks st) chunkIt;
  right ←
    match _collectionChunks st !! S idx with
    | Some (rightSibling, info) =>
        ok ← canBeMoveAndMerged st chunk info;
        Some (if ok : bool then [rightSibling] else [])
    | None => Some []
    end;
  left ←
    match idx with
    | O => Some []
    | S idx' =>
        match _collectionChunks st !! idx' with
        | Some (leftSibling, info) =>
            ok ← canBeMoveAndMerged st chunk info;
            Some (if ok : bool then [leftSibling] else [])
        | None => None
        end
    end;
  Some (right ++ left).

(** The siblings that are neither busy nor on a used shard. *)
Fixpoint availableSiblings (st : t) (usedShards : gset ShardId)
    (candidateSiblings : list ChunkRangeInfoIterator) : option (list ChunkRangeInfoIterator) :=
  match candidateSiblings with
  | [] => Some []
  | sibling :: rest =>
      info ← deref (_collectionChunks st) sibling;
      others ← availableSiblings st usedShards rest;
      Some (if negb (busyInOperation info) && bool_decide (shard info ∉ usedShards)
            then sibling :: others else others)
  end.

(** The loop of [_findNextSmallChunkInShard] over the small chunks of the
    shard: the list as the loop leaves it, and the chunk found with its
    siblings. *)
Fixpoint findInSmallChunks (st : t) (usedShards : gset ShardId)
    (smallChunksInShard : list ChunkRangeInfoIterator)
    : option (list ChunkRangeInfoIterator *
              option (ChunkRangeInfoIterator * list ChunkRangeInfoIterator)) :=
  match smallChunksInShard with
  | [] => Some ([], None)
  | candidateIt :: rest =>
      candidate ← deref (_collectionChunks st) candidateIt;
      if busyInOperation candidate then
        r ← findInSmallChunks st usedShards rest;
        Some (candidateIt :: fst r, snd r)
      else
        candidateSiblings ← _getChunkSiblings st candidateIt;
        match candidateSiblings with
        | [] => findInSmallChunks st usedShards rest
        | _ :: _ =>
            smallChunkSiblings ← availableSiblings st usedShards candidateSiblings;
            match smallChunkSiblings with
            | _ :: _ => Some (candidateIt :: rest, Some (candidateIt, smallChunkSiblings))
            | [] =>
                r ← findInSmallChunks st usedShards rest;
                Some (candidateIt :: fst r, snd r)
            end
        end
  end.

(** Computes whether there is a chunk in the specified shard that can be
    moved&merged with one or both of its siblings, clearing the internal
    state from elements that cannot be processed by the phase.  [None] is a
    fatal error. *)
Definition _findNextSmallChunkInShard (shardId : ShardId) (usedShards : gset ShardId) (st : t)
    : option (option (ChunkRangeInfoIterator * list ChunkRangeInfoIterator) * t) :=
  match _smallChunksByShard st !! shardId with
  | None => Some (None, st)
  | Some smallChunksInShard =>
      r ← findInSmallChunks st usedShards smallChunksInShard;
      match snd r with
      | Some found =>
          Some (Some found,
                with_smallChunksByShard (<[shardId := fst r]> (_smallChunksByShard st)) st)
      | None =>
          Some (None,
                with_smallChunksByShard
                  (match fst r with
                   | [] => delete shardId (_smallChunksByShard st)
                   | _ :: _ => <[shardId := fst r]> (_smallChunksByShard st)
                   end) st)
      end
  end.

Definition kNoMoveRequired : Z := Z.shiftl 1 4.
Definition kConvenientMove : Z := Z.shiftl 1 3.
Definition kMergeSolvesTwoPendingChunks : Z := Z.shiftl 1 2.
Definition kMergeSolvesOnePendingChunk : Z := Z.shiftl 1 1.

Definition _rankMergeableSibling (st : t)
    (chunkTobeMovedAndMerged mergeableSibling : ChunkRangeInfo) : Z :=
  let ranking := 0 in
  let ranking :=
    if decide (shard chunkTobeMovedAndMerged = shard mergeableSibling)
    then wrapU32 (ranking + kNoMoveRequired)
    else if estimatedSizeBytes chunkTobeMovedAndMerged <? estimatedSizeBytes mergeableSibling
         then wrapU32 (ranking + kConvenientMove)
         else ranking in
  let estimatedMergedSize :=
    wrapS64 (estimatedSizeBytes chunkTobeMovedAndMerged + estimatedSizeBytes mergeableSibling) in
  if _smallChunkSizeThresholdBytes st <? estimatedMergedSize
  then wrapU32 (ranking +
                (if estimatedSizeBytes mergeableSibling <? _smallChunkSizeThresholdBytes st
                 then kMergeSolvesTwoPendingChunks
                 else kMergeSolvesOnePendingChunk))
  else ranking.

(** [std::find] and [erase] on a list of iterators. *)
Fixpoint removeFirst (it : ChunkRangeInfoIterator) (l : list ChunkRangeInfoIterator)
    : list ChunkRangeInfoIterator :=
  match l with
  | [] => []
  | x :: l' => if decide (x = it) then l' else x :: removeFirst it l'
  end.

Definition _removeIteratorFromSmallChunks (chunkIt : ChunkRangeInfoIterator)
    (parentShard : ShardId) (st : t) : t :=
  match _smallChunksByShard st !! parentShard with
  | None => st
  | Some smallChunksInShard =>
      if bool_decide (chunkIt ∈ smallChunksInShard) then
        match removeFirst chunkIt smallChunksInShard with
        | [] => with_smallChunksByShard (delete parentShard (_smallChunksByShard st)) st
        | l => with_smallChunksByShard (<[parentShard := l]> (_smallChunksByShard st)) st
        end
      else st
  end.

(** *** popNextMigration *)

(** The choice of the target among the candidate siblings
    ([front] against [back]); [None] is a fatal error. *)
Definition chooseTargetSibling (st : t) (nextSmallChunk : ChunkRangeInfoIterator)
    (candidateSiblings : list ChunkRangeInfoIterator) : option ChunkRangeInfoIterator :=
  if bool_decide (length candidateSiblings ≤ 2)%nat then
    targetSibling ← head candidateSiblings;
    challenger ← last candidateSiblings;
    if decide (targetSibling = challenger) then Some targetSibling
    else
      small ← deref (_collectionChunks st) nextSmallChunk;
      target ← deref (_collectionChunks st) targetSibling;
      chall ← deref (_collectionChunks st) challenger;
      let targetScore := _rankMergeableSibling st small target in
      let challengerScore := _rankMergeableSibling st small chall in
      if targetScore <? challengerScore then Some challenger
      else if challengerScore =? targetScore then
        challInfo ← _shardInfos st !! shard chall;
        targetInfo ← _shardInfos st !! shard target;
        Some (if currentSizeBytes challInfo <? currentSizeBytes targetInfo
              then challenger else targetSibling)
      else Some targetSibling
  else None.

(** The body of the loop once a chunk and its siblings are found: choose the
    target, mark the chunks busy, use the shards, register the request. *)
Definition buildMigration (env : Env) (nextSmallChunk : ChunkRangeInfoIterator)
    (candidateSiblings : list ChunkRangeInfoIterator) (usedShards : gset ShardId) (st : t)
    : Result (t * gset ShardId) (option MigrateInfo) :=
  match chooseTargetSibling st nextSmallChunk candidateSiblings with
  | None => Fatal
  | Some targetSibling =>
      match deref (_collectionChunks st) nextSmallChunk,
            deref (_collectionChunks st) targetSibling with
      | Some small, Some target =>
          let chunks :=
            update (set_busyInOperation true) targetSibling
              (update (set_busyInOperation true) nextSmallChunk (_collectionChunks st)) in
          let st := with_collectionChunks chunks st in
          let usedShards := {[shard target]} ∪ ({[shard small]} ∪ usedShards) in
          match getShardVersion env (shard small) (_uuid st) with
          | None => Throw (st, usedShards)
          | Some smallChunkVersion =>
              match newMoveAndMergeRequest chunks nextSmallChunk targetSibling with
              | None => Fatal
              | Some request =>
                  let st := with_outstandingMigrations
                              (_outstandingMigrations st ++ [request]) st in
                  match asMigrateInfo chunks request (_uuid st) (_nss st) smallChunkVersion with
                  | None => Fatal
                  | Some info => Ok (Some info) (st, usedShards)
                  end
              end
          end
      | _, _ => Fatal
      end
  end.

(** The loop over [_shardProcessingOrder]. *)
Fixpoint popNextMigrationFrom (env : Env) (order : list ShardId)
    (usedShards : gset ShardId) (st : t) : Result (t * gset ShardId) (option MigrateInfo) :=
  match order with
  | [] => Ok None (st, usedShards)
  | shardId :: rest =>
      if bool_decide (shardId ∈ usedShards) then popNextMigrationFrom env rest usedShards st
      else
        match _findNextSmallChunkInShard shardId usedShards st with
        | None => Fatal
        | Some (None, st') => popNextMigrationFrom env rest usedShards st'
        | Some (Some (nextSmallChunk, candidateSiblings), st') =>
            buildMigration env nextSmallChunk candidateSiblings usedShards st'
        end
  end.

Definition popNextMigration (env : Env) (usedShards : gset ShardId) (st : t)
    : Result (t * gset ShardId) (option MigrateInfo) :=
  popNextMigrationFrom env (_shardProcessingOrder st) usedShards st.

(** *** popNextStreamableAction *)

Definition popNextStreamableAction (env : Env) (st : t)
    : Result t (option DefragmentationAction) :=
  match _actionableMerges st with
  | [] => Ok None st
  | nextRequest :: rest =>
      let st := with_actionableMerges rest
                  (with_outstandingMerges (_outstandingMerges st ++ [nextRequest]) st) in
      match getDestinationShard (_collectionChunks st) nextRequest with
      | None => Fatal
      | Some destination =>
          match getShardVersion env destination (_uuid st) with
          | None => Throw st
          | Some version =>
              match asMergeInfo (_collectionChunks st) nextRequest (_uuid st) (_nss st) version with
              | None => Fatal
              | Some info => Ok (Some (ActMergeInfo info)) st
              end
          end
      end
  end.

(** *** applyActionResult *)

(** [std::find_if] followed by [erase]: the first request the predicate
    accepts and the list without it.  The outer [None] is a fatal error of
    the predicate, the inner one is [end()]. *)
Fixpoint extractFirst (p : MoveAndMergeRequest -> option bool) (l : list MoveAndMergeRequest)
    : option (option (MoveAndMergeRequest * list MoveAndMergeRequest)) :=
  match l with
  | [] => Some None
  | r :: l' =>
      b ← p r;
      if b : bool then Some (Some (r, l'))
      else
        res ← extractFirst p l';
        Some (match res with
              | None => None
              | Some (m, l'') => Some (m, r :: l'')
              end)
  end.

Definition matchesMigration (st : t) (migrationAction : MigrateInfo)
    (request : MoveAndMergeRequest) : option bool :=
  k ← getMigrationMinKey (_collectionChunks st) request;
  Some (bool_decide (woCompare (mig_minKey migrationAction) k = 0)).

Definition matchesMerge (st : t) (mergeAction : MergeInfo)
    (request : MoveAndMergeRequest) : option bool :=
  k ← getMigrationMinKey (_collectionChunks st) request;
  Some (containsKey (merge_chunkRange mergeAction) k).

(** [onSuccess] of a migration. *)
Definition onMigrationSuccess (moveRequest : MoveAndMergeRequest) (st : t) : option t :=
  transferredAmount ← getMovedDataSizeBytes (_collectionChunks st) moveRequest;
  source ← getSourceShard (_collectionChunks st) moveRequest;
  sourceInfo ← _shardInfos st !! source;
  let infos :=
    <[source := set_currentSizeBytes
                  (wrapU64 (currentSizeBytes sourceInfo - transferredAmount)) sourceInfo]>
      (_shardInfos st) in
  destination ← getDestinationShard (_collectionChunks st) moveRequest;
  destinationInfo ← infos !! destination;
  let infos :=
    <[destination := set_currentSizeBytes
                       (wrapU64 (currentSizeBytes destinationInfo + transferredAmount))
                       destinationInfo]> infos in
  order ← sortShardProcessingOrder infos (_shardProcessingOrder st);
  Some (with_actionableMerges (_actionableMerges st ++ [moveRequest])
          (with_shardProcessingOrder order (with_shardInfos infos st))).

(** [onRetriableError] of a migration. *)
Definition onMigrationRetriableError (moveRequest : MoveAndMergeRequest) (st : t) : option t :=
  _ ← deref (_collectionChunks st) (chunkToMove moveRequest);
  let chunks := update (set_busyInOperation false) (chunkToMove moveRequest)
                  (_collectionChunks st) in
  _ ← deref chunks (chunkToMergeWith moveRequest);
  Some (with_collectionChunks
          (update (set_busyInOperation false) (chunkToMergeWith moveRequest) chunks) st).

(** Keep the list of small chunk iterators in the recipient sorted. *)
Definition sortSmallChunksOf (recipient : ShardId) (st : t) : option t :=
  match _smallChunksByShard st !! recipient with
  | None => Some st
  | Some smallChunksInRecipient =>
      if forallb (fun it => bool_decide (is_Some (deref (_collectionChunks st) it)))
           smallChunksInRecipient
      then Some (with_smallChunksByShard
                   (<[recipient := list_sort (compareChunkRangeInfoIterators (_collectionChunks st))
                                     smallChunksInRecipient]> (_smallChunksByShard st)) st)
      else None
  end.

(** [onSuccess] of a merge. *)
Definition onMergeSuccess (mergeRequest : MoveAndMergeRequest) (st : t) : option t :=
  let mergedChunk := chunkToMergeWith mergeRequest in
  let chunkToDelete := chunkToMove mergeRequest in
  mergedRange ← asMergedRange (_collectionChunks st) mergeRequest;
  let chunks := update (set_range mergedRange) mergedChunk (_collectionChunks st) in
  merged ← deref chunks mergedChunk;
  deleted ← deref chunks chunkToDelete;
  let chunks :=
    update (set_estimatedSizeBytes
              (wrapS64 (estimatedSizeBytes merged + estimatedSizeBytes deleted)))
           mergedChunk chunks in
  let chunks := update (set_busyInOperation false) mergedChunk chunks in
  deleted ← deref chunks chunkToDelete;
  let deletedChunkShard := shard deleted in
  let chunks := erase chunkToDelete chunks in
  let st := with_collectionChunks chunks st in
  let st := _removeIteratorFromSmallChunks chunkToDelete deletedChunkShard st in
  merged ← deref (_collectionChunks st) mergedChunk;
  if _smallChunkSizeThresholdBytes st <? estimatedSizeBytes merged
  then Some (_removeIteratorFromSmallChunks mergedChunk (shard merged) st)
  else sortSmallChunksOf (shard merged) st.

Definition fromOption {S A : Type} (a : A) (o : option S) : Result S A :=
  match o with
  | Some s => Ok a s
  | None => Fatal
  end.

Definition applyMigrationResult (migrationAction : MigrateInfo)
    (response : DefragmentationActionResponse) (st : t) : Result t unit :=
  match response with
  | RespStatus migrationResponse =>
      match extractFirst (matchesMigration st migrationAction) (_outstandingMigrations st) with
      | Some (Some (moveRequest, rest)) =>
          let st := with_outstandingMigrations rest st in
          if _aborted st then Ok tt st
          else
            handleActionResult migrationResponse
              (fromOption tt (onMigrationSuccess moveRequest st))
              (fromOption tt (onMigrationRetriableError moveRequest st))
              (Ok tt (_abort kMergeChunks st))
      | _ => Fatal
      end
  | _ => Fatal
  end.

Definition applyMergeResult (mergeAction : MergeInfo)
    (response : DefragmentationActionResponse) (st : t) : Result t unit :=
  match response with
  | RespStatus mergeResponse =>
      match extractFirst (matchesMerge st mergeAction) (_outstandingMerges st) with
      | Some (Some (mergeRequest, rest)) =>
          let st := with_outstandingMerges rest st in
          if _aborted st then Ok tt st
          else
            handleActionResult mergeResponse
              (fromOption tt (onMergeSuccess mergeRequest st))
              (Ok tt (with_actionableMerges (_actionableMerges st ++ [mergeRequest]) st))
              (Ok tt (_abort kMergeChunks st))
      | _ => Fatal
      end
  | _ => Fatal
  end.

Definition applyActionResult (action : DefragmentationAction)
    (response : DefragmentationActionResponse) (st : t) : Result t unit :=
  match action with
  | ActMigrateInfo migrationAction => applyMigrationResult migrationAction response st
  | ActMergeInfo mergeAction => applyMergeResult mergeAction response st
  | _ => Throw st
  end.

End MoveAndMergeChunksPhase.

(** ** MergeChunksPhase *)

Module MergeChunksPhase.

Record PendingActions := mkPendingActions {
  rangesToMerge : list ChunkRange;
  rangesWithoutDataSize : list ChunkRange
}.

Record t := mk {
  _nss : NamespaceString;
  _uuid : UUID;
  _shardKey : BSONObj;
  _pendingActionsByShards : gmap ShardId PendingActions;
  _outstandingActions : Z;
  _aborted : bool;
  _nextPhase : DefragmentationPhaseEnum
}.

Definition with_pendingActionsByShards (v : gmap ShardId PendingActions) (st : t) : t :=
  mk (_nss st) (_uuid st) (_shardKey st) v (_outstandingActions st) (_aborted st)
     (_nextPhase st).

Definition with_outstandingActions (v : Z) (st : t) : t :=
  mk (_nss st) (_uuid st) (_shardKey st) (_pendingActionsByShards st) v (_aborted st)
     (_nextPhase st).

(** [m[shardId]] of [std::map]: the entry, value-initialised when absent. *)
Definition entry (m : gmap ShardId PendingActions) (shardId : ShardId) : PendingActions :=
  default (mkPendingActions [] []) (m !! shardId).

Definition areConsecutive (collectionZones : ZoneInfo) (firstChunk secondChunk : ChunkType)
    : bool :=
  bool_decide (ct_shard firstChunk = ct_shard secondChunk) &&
  bool_decide (getZoneForChunk collectionZones (ct_range firstChunk) =
               getZoneForChunk collectionZones (ct_range secondChunk)) &&
  bool_decide (woCompare (getMax (ct_range firstChunk)) (getMin (ct_range secondChunk)) = 0).

(** The inner loop of [build]: [lowerRangeBound] moves down while the chunk
    before it is consecutive.  The chunks are given from the last one down;
    the result is the lower bound, whether it moved, and the chunks below. *)
Fixpoint lowerBoundOfRange (collectionZones : ZoneInfo) (lowerRangeBound : ChunkType)
    (moved : bool) (below : list ChunkType) : ChunkType * bool * list ChunkType :=
  match below with
  | [] => (lowerRangeBound, moved, [])
  | prev :: below' =>
      if areConsecutive collectionZones prev lowerRangeBound
      then lowerBoundOfRange collectionZones prev true below'
      else (lowerRangeBound, moved, below)
  end.

(** The outer loop of [build], over the chunks from the last one down: every
    turn erases the range it found, so the number of chunks is fuel enough. *)
Fixpoint findPendingActions (fuel : nat) (collectionZones : ZoneInfo)
    (collectionChunks : list ChunkType) (pendingActionsByShards : gmap ShardId PendingActions)
    : gmap ShardId PendingActions :=
  match fuel, collectionChunks with
  | S fuel', upperRangeBound :: below =>
      let '(lowerRangeBound, moved, rest) :=
        lowerBoundOfRange collectionZones upperRangeBound false below in
      let shardId := ct_shard upperRangeBound in
      let e := entry pendingActionsByShards shardId in
      let pendingActionsByShards :=
        if moved : bool then
          <[shardId := mkPendingActions
                         (rangesToMerge e ++
                          [mkChunkRange (getMin (ct_range lowerRangeBound))
                                        (getMax (ct_range upperRangeBound))])
                         (rangesWithoutDataSize e)]> pendingActionsByShards
        else
          match ct_estimatedSizeBytes upperRangeBound with
          | None =>
              <[shardId := mkPendingActions
                             (rangesToMerge e)
                             (rangesWithoutDataSize e ++
                              [mkChunkRange (getMin (ct_range upperRangeBound))
                                            (getMax (ct_range upperRangeBound))])]>
                pendingActionsByShards
          | Some _ => pendingActionsByShards
          end in
      findPendingActions fuel' collectionZones rest pendingActionsByShards
  | _, _ => pendingActionsByShards
  end.

(** [build]: [None] when a catalog read throws. *)
Definition build (env : Env) (coll : CollectionType) : option t :=
  collectionChunks ← getCollectionChunks env coll;
  collectionZones ← env_addTagsFromCatalog env (coll_nss coll);
  let pendingActionsByShards :=
    findPendingActions (length collectionChunks) collectionZones (reverse collectionChunks) ∅ in
  Some (mk (coll_nss coll) (coll_uuid coll) (coll_keyPattern coll) pendingActionsByShards
           0 false kMoveAndMergeChunks).

Definition getType (st : t) : DefragmentationPhaseEnum := kMergeChunks.

Definition getNextPhase (st : t) : DefragmentationPhaseEnum := _nextPhase st.

Definition popNextStreamableAction (env : Env) (st : t)
    : Result t (option DefragmentationAction) :=
  match map_begin (_pendingActionsByShards st) with
  | None => Ok None st
  | Some (shardId, pendingActions) =>
      match getShardVersion env shardId (_uuid st) with
      | None => Throw st
      | Some shardVersion =>
          let '(nextAction, pendingActions) :=
            if bool_decide (length (rangesToMerge pendingActions) <
                            length (rangesWithoutDataSize pendingActions))%nat
            then
              match last (rangesWithoutDataSize pendingActions) with
              | Some rangeToMeasure =>
                  (Some (ActDataSizeInfo
                           (mkDataSizeInfo shardId (_nss st) (_uuid st) rangeToMeasure
                                           shardVersion (_shardKey st) false)),
                   mkPendingActions (rangesToMerge pendingActions)
                                    (removelast (rangesWithoutDataSize pendingActions)))
              | None => (None, pendingActions)
              end
            else
              match last (rangesToMerge pendingActions) with
              | Some rangeToMerge =>
                  (Some (ActMergeInfo
                           (mkMergeInfo shardId (_nss st) (_uuid st) shardVersion rangeToMerge)),
                   mkPendingActions (removelast (rangesToMerge pendingActions))
                                    (rangesWithoutDataSize pendingActions))
              | None => (None, pendingActions)
              end in
          match nextAction with
          | Some _ =>
              let pending :=
                match rangesToMerge pendingActions, rangesWithoutDataSize pendingActions with
                | [], [] => delete shardId (_pendingActionsByShards st)
                | _, _ => <[shardId := pendingActions]> (_pendingActionsByShards st)
                end in
              Ok nextAction
                 (with_pendingActionsByShards pending
                    (with_outstandingActions (wrapU64 (_outstandingActions st + 1)) st))
          | None => Ok None st
          end
      end
  end.

Definition popNextMigration (env : Env) (usedShards : gset ShardId) (st : t)
    : Result (t * gset ShardId) (option MigrateInfo) :=
  Ok None (st, usedShards).

Definition _abort (nextPhase : DefragmentationPhaseEnum) (st : t) : t :=
  mk (_nss st) (_uuid st) (_shardKey st) ∅ (_outstandingActions st) true nextPhase.

(** The [ScopeGuard] of [applyActionResult]: the counter goes down on every
    way out. *)
Definition scopedGuard (st : t) : t :=
  with_outstandingActions (wrapU64 (_outstandingActions st - 1)) st.

Definition applyActionResult (env : Env) (action : DefragmentationAction)
    (response : DefragmentationActionResponse) (st : t) : Result t unit :=
  if _aborted st then Ok tt (scopedGuard st)
  else
    match action with
    | ActMergeInfo mergeAction =>
        match response with
        | RespStatus mergeResponse =>
            let shardingPendingActions :=
              entry (_pendingActionsByShards st) (merge_shardId mergeAction) in
            let st := with_pendingActionsByShards
                        (<[merge_shardId mergeAction := shardingPendingActions]>
                           (_pendingActionsByShards st)) st in
            handleActionResult mergeResponse
              (Ok tt (scopedGuard
                 (with_pendingActionsByShards
                    (<[merge_shardId mergeAction :=
                         mkPendingActions
                           (rangesToMerge shardingPendingActions)
                           (rangesWithoutDataSize shardingPendingActions ++
                            [merge_chunkRange mergeAction])]> (_pendingActionsByShards st)) st)))
              (Ok tt (scopedGuard
                 (with_pendingActionsByShards
                    (<[merge_shardId mergeAction :=
                         mkPendingActions
                           (rangesToMerge shardingPendingActions ++
                            [merge_chunkRange mergeAction])
                           (rangesWithoutDataSize shardingPendingActions)]>
                       (_pendingActionsByShards st)) st)))
              (Ok tt (scopedGuard (_abort (getType st) st)))
        | _ => Fatal
        end
    | ActDataSizeInfo dataSizeAction =>
        match response with
        | RespDataSize status value =>
            handleActionResult status
              (let chunk := mkChunkType (ds_uuid dataSizeAction) (ds_chunkRange dataSizeAction)
                                        (Some (ds_version dataSizeAction))
                                        (ds_shardId dataSizeAction) None in
               if env_setChunkEstimatedSize env chunk (sizeBytes value)
               then Ok tt (scopedGuard st)
               else Throw (scopedGuard st))
              (let shardingPendingActions :=
                 entry (_pendingActionsByShards st) (ds_shardId dataSizeAction) in
               Ok tt (scopedGuard
                 (with_pendingActionsByShards
                    (<[ds_shardId dataSizeAction :=
                         mkPendingActions
                           (rangesToMerge shardingPendingActions)
                           (rangesWithoutDataSize shardingPendingActions ++
                            [ds_chunkRange dataSizeAction])]> (_pendingActionsByShards st)) st)))
              (Ok tt (scopedGuard (_abort (getType st) st)))
        | _ => Fatal
        end
    | _ => Throw (scopedGuard st)
    end.

Definition isComplete (st : t) : bool :=
  bool_decide (_pendingActionsByShards st = ∅) && (_outstandingActions st =? 0).

End MergeChunksPhase.

(** ** SplitChunksPhase *)

Module SplitChunksPhase.

Record PendingActions := mkPendingActions {
  rangesToFindSplitPoints : list ChunkRange;
  rangesToSplit : list (ChunkRange * SplitPoints)
}.

Record t := mk {
  _nss : NamespaceString;
  _uuid : UUID;
  _shardKey : BSONObj;
  _maxChunkSizeBytes : Z;
  _pendingActionsByShards : gmap ShardId PendingActions;
  _outstandingActions : Z;
  _aborted : bool;
  _nextPhase : DefragmentationPhaseEnum
}.

Definition with_pendingActionsByShards (v : gmap ShardId PendingActions) (st : t) : t :=
  mk (_nss st) (_uuid st) (_shardKey st) (_maxChunkSizeBytes st) v (_outstandingActions st)
     (_aborted st) (_nextPhase st).

Definition with_outstandingActions (v : Z) (st : t) : t :=
  mk (_nss st) (_uuid st) (_shardKey st) (_maxChunkSizeBytes st) (_pendingActionsByShards st) v
     (_aborted st) (_nextPhase st).

(** [m[shardId]] of [std::map]: the entry, value-initialised when absent. *)
Definition entry (m : gmap ShardId PendingActions) (shardId : ShardId) : PendingActions :=
  default (mkPendingActions [] []) (m !! shardId).

(** Issue AutoSplitVector for all chunks with estimated size greater than max
    chunk size or with no estimated size. *)
Definition findPendingActions (maxChunkSizeBytes : Z) (collectionChunks : list ChunkType)
    : gmap ShardId PendingActions :=
  foldl (fun pendingActionsByShards chunk =>
           if match ct_estimatedSizeBytes chunk with
              | None => true
              | Some chunkSize => maxChunkSizeBytes <? wrapU64 chunkSize
              end
           then
             let e := entry pendingActionsByShards (ct_shard chunk) in
             <[ct_shard chunk :=
                 mkPendingActions
                   (rangesToFindSplitPoints e ++
                    [mkChunkRange (getMin (ct_range chunk)) (getMax (ct_range chunk))])
                   (rangesToSplit e)]> pendingActionsByShards
           else pendingActionsByShards) ∅ collectionChunks.

(** [build]: [None] when a catalog read throws.  The constructor takes the
    maximum chunk size as [long long]. *)
Definition build (env : Env) (coll : CollectionType) : option t :=
  collectionChunks ← env_getChunks env (coll_uuid coll);
  maxChunkSizeBytes ← getCollectionMaxChunkSizeBytes env coll;
  Some (mk (coll_nss coll) (coll_uuid coll) (coll_keyPattern coll)
           (wrapS64 maxChunkSizeBytes)
           (findPendingActions maxChunkSizeBytes collectionChunks)
           0 false kFinished).

Definition getType (st : t) : DefragmentationPhaseEnum := kSplitChunks.

Definition getNextPhase (st : t) : DefragmentationPhaseEnum := _nextPhase st.

Definition popNextStreamableAction (env : Env) (st : t)
    : Result t (option DefragmentationAction) :=
  match map_begin (_pendingActionsByShards st) with
  | None => Ok None st
  | Some (shardId, pendingActions) =>
      match getShardVersion env shardId (_uuid st) with
      | None => Throw st
      | Some shardVersion =>
          let '(nextAction, pendingActions) :=
            match last (rangesToSplit pendingActions) with
            | Some (rangeToSplit, splitPoints) =>
                (Some (ActSplitInfoWithKeyPattern
                         (mkSplitInfoWithKeyPattern shardId (_nss st) shardVersion
                            (getMin rangeToSplit) (getMax rangeToSplit) splitPoints
                            (_uuid st) (_shardKey st))),
                 mkPendingActions (rangesToFindSplitPoints pendingActions)
                                  (removelast (rangesToSplit pendingActions)))
            | None =>
                match last (rangesToFindSplitPoints pendingActions) with
                | Some rangeToAutoSplit =>
                    (Some (ActAutoSplitVectorInfo
                             (mkAutoSplitVectorInfo shardId (_nss st) (_uuid st) shardVersion
                                (_shardKey st) (getMin rangeToAutoSplit)
                                (getMax rangeToAutoSplit) (_maxChunkSizeBytes st))),
                     mkPendingActions (removelast (rangesToFindSplitPoints pendingActions))
                                      (rangesToSplit pendingActions))
                | None => (None, pendingActions)
                end
            end in
          match nextAction with
          | Some _ =>
              let pending :=
                match rangesToFindSplitPoints pendingActions, rangesToSplit pendingActions with
                | [], [] => delete shardId (_pendingActionsByShards st)
                | _, _ => <[shardId := pendingActions]> (_pendingActionsByShards st)
                end in
              Ok nextAction
                 (with_pendingActionsByShards pending
                    (with_outstandingActions (wrapU64 (_outstandingActions st + 1)) st))
          | None => Ok None st
          end
      end
  end.

Definition popNextMigration (env : Env) (usedShards : gset ShardId) (st : t)
    : Result (t * gset ShardId) (option MigrateInfo) :=
  Ok None (st, usedShards).

(** [std::accumulate] over the sizes of the split points, in [int]. *)
Definition totalSize (splitPoints : SplitPoints) : Z :=
  foldl (fun size obj => wrapS32 (size + objsize obj)) 0 splitPoints.

Definition moreSplitPointsToReceive (env : Env) (splitPoints : SplitPoints) : bool :=
  BSONObjMaxUserSize env - 4096 <=? totalSize splitPoints.

Definition _abort (nextPhase : DefragmentationPhaseEnum) (st : t) : t :=
  mk (_nss st) (_uuid st) (_shardKey st) (_maxChunkSizeBytes st) ∅ (_outstandingActions st)
     true nextPhase.

(** The [ScopeGuard] of [applyActionResult]. *)
Definition scopedGuard (st : t) : t :=
  with_outstandingActions (wrapU64 (_outstandingActions st - 1)) st.

(** [onSuccess] of an AutoSplitVector action. *)
Definition onAutoSplitVectorSuccess (env : Env) (autoSplitVectorAction : AutoSplitVectorInfo)
    (splitPoints : SplitPoints) (st : t) : t :=
  match last splitPoints with
  | None => st
  | Some back =>
      let pendingActions :=
        entry (_pendingActionsByShards st) (asv_shardId autoSplitVectorAction) in
      let pendingActions :=
        mkPendingActions
          (rangesToFindSplitPoints pendingActions)
          (rangesToSplit pendingActions ++
           [(mkChunkRange (asv_minKey autoSplitVectorAction) (asv_maxKey autoSplitVectorAction),
             splitPoints)]) in
      let pendingActions :=
        if moreSplitPointsToReceive env splitPoints
        then mkPendingActions
               (rangesToFindSplitPoints pendingActions ++
                [mkChunkRange back (asv_maxKey autoSplitVectorAction)])
               (rangesToSplit pendingActions)
        else pendingActions in
      with_pendingActionsByShards
        (<[asv_shardId autoSplitVectorAction := pendingActions]> (_pendingActionsByShards st)) st
  end.

Definition applyActionResult (env : Env) (action : DefragmentationAction)
    (response : DefragmentationActionResponse) (st : t) : Result t unit :=
  if _aborted st then Ok tt (scopedGuard st)
  else
    match action with
    | ActAutoSplitVectorInfo autoSplitVectorAction =>
        match response with
        | RespSplitPoints status splitPoints =>
            handleActionResult status
              (Ok tt (scopedGuard
                        (onAutoSplitVectorSuccess env autoSplitVectorAction splitPoints st)))
              (let pendingActions :=
                 entry (_pendingActionsByShards st) (asv_shardId autoSplitVectorAction) in
               Ok tt (scopedGuard
                 (with_pendingActionsByShards
                    (<[asv_shardId autoSplitVectorAction :=
                         mkPendingActions
                           (rangesToFindSplitPoints pendingActions ++
                            [mkChunkRange (asv_minKey autoSplitVectorAction)
                                          (asv_maxKey autoSplitVectorAction)])
                           (rangesToSplit pendingActions)]> (_pendingActionsByShards st)) st)))
              (Ok tt (scopedGuard (_abort (getType st) st)))
        | _ => Fatal
        end
    | ActSplitInfoWithKeyPattern splitAction =>
        match response with
        | RespStatus splitResponse =>
            handleActionResult splitResponse
              (Ok tt (scopedGuard st))
              (let pendingActions :=
                 entry (_pendingActionsByShards st) (split_shardId splitAction) in
               Ok tt (scopedGuard
                 (with_pendingActionsByShards
                    (<[split_shardId splitAction :=
                         mkPendingActions
                           (rangesToFindSplitPoints pendingActions)
                           (rangesToSplit pendingActions ++
                            [(mkChunkRange (split_minKey splitAction) (split_maxKey splitAction),
                              split_splitKeys splitAction)])]> (_pendingActionsByShards st)) st)))
              (Ok tt (scopedGuard (_abort (getType st) st)))
        | _ => Fatal
        end
    | _ => Throw (scopedGuard st)
    end.

Definition isComplete (st : t) : bool :=
  bool_decide (_pendingActionsByShards st = ∅) && (_outstandingActions st =? 0).

End SplitChunksPhase.

(** ** DefragmentationPhase: the interface of the three phases *)

Inductive DefragmentationPhase :=
| MergeChunks (p : MergeChunksPhase.t)
| MoveAndMergeChunks (p : MoveAndMergeChunksPhase.t)
| SplitChunks (p : SplitChunksPhase.t).

Definition mapState {S S' A : Type} (f : S -> S') (r : Result S A) : Result S' A :=
  match r with
  | Ok a s => Ok a (f s)
  | Throw s => Throw (f s)
  | Fatal => Fatal
  | OutOfFuel => OutOfFuel
  end.

Module Phase.

Definition getType (ph : DefragmentationPhase) : DefragmentationPhaseEnum :=
  match ph with
  | MergeChunks p => MergeChunksPhase.getType p
  | MoveAndMergeChunks p => MoveAndMergeChunksPhase.getType p
  | SplitChunks p => SplitChunksPhase.getType p
  end.

Definition getNextPhase (ph : DefragmentationPhase) : DefragmentationPhaseEnum :=
  match ph with
  | MergeChunks p => MergeChunksPhase.getNextPhase p
  | MoveAndMergeChunks p => MoveAndMergeChunksPhase.getNextPhase p
  | SplitChunks p => SplitChunksPhase.getNextPhase p
  end.

Definition popNextStreamableAction (env : Env) (ph : DefragmentationPhase)
    : Result DefragmentationPhase (option DefragmentationAction) :=
  match ph with
  | MergeChunks p => mapState MergeChunks (MergeChunksPhase.popNextStreamableAction env p)
  | MoveAndMergeChunks p =>
      mapState MoveAndMergeChunks (MoveAndMergeChunksPhase.popNextStreamableAction env p)
  | SplitChunks p => mapState SplitChunks (SplitChunksPhase.popNextStreamableAction env p)
  end.

Definition popNextMigration (env : Env) (usedShards : gset ShardId) (ph : DefragmentationPhase)
    : Result (DefragmentationPhase * gset ShardId) (option MigrateInfo) :=
  match ph with
  | MergeChunks p =>
      mapState (fun s => (MergeChunks (fst s), snd s))
               (MergeChunksPhase.popNextMigration env usedShards p)
  | MoveAndMergeChunks p =>
      mapState (fun s => (MoveAndMergeChunks (fst s), snd s))
               (MoveAndMergeChunksPhase.popNextMigration env usedShards p)
  | SplitChunks p =>
      mapState (fun s => (SplitChunks (fst s), snd s))
               (SplitChunksPhase.popNextMigration env usedShards p)
  end.

Definition applyActionResult (env : Env) (action : DefragmentationAction)
    (response : DefragmentationActionResponse) (ph : DefragmentationPhase)
    : Result DefragmentationPhase unit :=
  match ph with
  | MergeChunks p =>
      mapState MergeChunks (MergeChunksPhase.applyActionResult env action response p)
  | MoveAndMergeChunks p =>
      mapState MoveAndMergeChunks (MoveAndMergeChunksPhase.applyActionResult action response p)
  | SplitChunks p =>
      mapState SplitChunks (SplitChunksPhase.applyActionResult env action response p)
  end.

Definition isComplete (ph : DefragmentationPhase) : bool :=
  match ph with
  | MergeChunks p => MergeChunksPhase.isComplete p
  | MoveAndMergeChunks p => MoveAndMergeChunksPhase.isComplete p
  | SplitChunks p => SplitChunksPhase.isComplete p
  end.

End Phase.

(** ** BalancerDefragmentationPolicyImpl *)

Module BalancerDefragmentationPolicyImpl.

(** The promise of the parked consumer.  What the consumer receives when the
    promise is fulfilled is a result of the call that fulfils it. *)
Inductive Promise := mkPromise.

(** What [getNextStreamingAction] returns: a ready future or one that waits
    for the promise. *)
Inductive SemiFuture :=
| makeReady (action : DefragmentationAction)
| pending.

(** The members of the class.  A [std::unique_ptr<DefragmentationPhase>] is
    an [option]: [None] is [nullptr].  The type of the counter is declared in
    the header, which is not among the sources: it is an integer here. *)
Record t := mk {
  _defragmentationStates : gmap UUID (option DefragmentationPhase);
  _concurrentStreamingOps : Z;
  _nextStreamingActionPromise : option Promise;
  _streamClosed : bool
}.

Definition with_defragmentationStates (v : gmap UUID (option DefragmentationPhase)) (st : t) : t :=
  mk v (_concurrentStreamingOps st) (_nextStreamingActionPromise st) (_streamClosed st).

Definition with_concurrentStreamingOps (v : Z) (st : t) : t :=
  mk (_defragmentationStates st) v (_nextStreamingActionPromise st) (_streamClosed st).

Definition with_nextStreamingActionPromise (v : option Promise) (st : t) : t :=
  mk (_defragmentationStates st) (_concurrentStreamingOps st) v (_streamClosed st).

Definition with_streamClosed (v : bool) (st : t) : t :=
  mk (_defragmentationStates st) (_concurrentStreamingOps st) (_nextStreamingActionPromise st) v.

Definition erase (uuid : UUID) (st : t) : t :=
  with_defragmentationStates (delete uuid (_defragmentationStates st)) st.

Definition assign (uuid : UUID) (phase : option DefragmentationPhase) (st : t) : t :=
  with_defragmentationStates (<[uuid := phase]> (_defragmentationStates st)) st.

(** [_transitionPhases]: a [DBException] of the persistence or of the build
    is caught and leaves [nullptr]. *)
Definition _transitionPhases (env : Env) (coll : CollectionType)
    (nextPhase : DefragmentationPhaseEnum) (shouldPersistPhase : bool)
    : option DefragmentationPhase :=
  if shouldPersistPhase && negb (env_persistPhaseUpdate env nextPhase (coll_uuid coll))
  then None
  else
    match nextPhase with
    | kMergeChunks => MergeChunks <$> MergeChunksPhase.build env coll
    | kMoveAndMergeChunks =>
        collectionShardStats ← env_getCollStats env (coll_nss coll);
        MoveAndMergeChunks <$> MoveAndMergeChunksPhase.build env coll collectionShardStats
    | kSplitChunks => SplitChunks <$> SplitChunksPhase.build env coll
    | kFinished => None
    end.

(** [while (phase && phase->isComplete()) phase = _transitionPhases(...)];
    [None] when the fuel runs out. *)
Fixpoint transitionWhileComplete (fuel : nat) (env : Env) (coll : CollectionType)
    (phase : option DefragmentationPhase) : option (option DefragmentationPhase) :=
  match phase with
  | None => Some None
  | Some p =>
      if Phase.isComplete p then
        match fuel with
        | O => None
        | S fuel' =>
            transitionWhileComplete fuel' env coll
              (_transitionPhases env coll (Phase.getNextPhase p) true)
        end
      else Some phase
  end.

Definition _initializeCollectionState (fuel : nat) (env : Env) (coll : CollectionType) (st : t)
    : Result t unit :=
  let phaseToBuild := default kMergeChunks (coll_defragmentationPhase coll) in
  let collectionPhase :=
    _transitionPhases env coll phaseToBuild
      (negb (bool_decide (is_Some (coll_defragmentationPhase coll)))) in
  match transitionWhileComplete fuel env coll collectionPhase with
  | None => OutOfFuel
  | Some None => Ok tt st
  | Some (Some phase) => Ok tt (assign (coll_uuid coll) (Some phase) st)
  end.

Definition _refreshDefragmentationPhaseFor (fuel : nat) (env : Env) (collUuid : UUID) (st : t)
    : Result t unit :=
  match _defragmentationStates st !! collUuid with
  | None => Fatal
  | Some currentPhase =>
      if match currentPhase with
         | Some p => Phase.isComplete p
         | None => false
         end
      then
        match env_getCollection env collUuid with
        | None => Throw st
        | Some coll =>
            match transitionWhileComplete fuel env coll currentPhase with
            | None => OutOfFuel
            | Some phase => Ok tt (assign collUuid phase st)
            end
        end
      else Ok tt st
  end.

(** The loop of [_nextStreamingAction] over the collections. *)
Fixpoint nextStreamingActionFrom (fuel : nat) (env : Env) (uuids : list UUID) (st : t)
    : Result t (option DefragmentationAction) :=
  match uuids with
  | [] => Ok None st
  | uuid :: rest =>
      match _refreshDefragmentationPhaseFor fuel env uuid st with
      | Ok _ st =>
          match _defragmentationStates st !! uuid with
          | Some (Some phase) =>
              match Phase.popNextStreamableAction env phase with
              | Ok (Some nextAction) phase => Ok (Some nextAction) (assign uuid (Some phase) st)
              | Ok None phase => nextStreamingActionFrom fuel env rest (assign uuid (Some phase) st)
              | Throw _ => nextStreamingActionFrom fuel env rest (erase uuid st)
              | Fatal => Fatal
              | OutOfFuel => OutOfFuel
              end
          | Some None => nextStreamingActionFrom fuel env rest (erase uuid st)
          | None => Fatal
          end
      | Throw st => nextStreamingActionFrom fuel env rest (erase uuid st)
      | Fatal => Fatal
      | OutOfFuel => OutOfFuel
      end
  end.

(** [_nextStreamingAction].  When no collection gives an action and the
    stream is closed the source assigns [boost::optional<EndOfActionStream>()]
    to the result: a default-constructed optional, which holds no value, so
    the conversion to [boost::optional<DefragmentationAction>] holds none
    either. *)
Definition _nextStreamingAction (fuel : nat) (env : Env) (st : t)
    : Result t (option DefragmentationAction) :=
  match nextStreamingActionFrom fuel env (fst <$> map_to_list (_defragmentationStates st)) st with
  | Ok None st =>
      let noAction : option DefragmentationAction := None in
      let noAction :=
        if _streamClosed st
        then ActEndOfActionStream <$> (None : option EndOfActionStream)
        else noAction in
      Ok noAction st
  | r => r
  end.

Definition getNextStreamingAction (fuel : nat) (env : Env) (st : t) : Result t SemiFuture :=
  let park st := Ok pending (with_nextStreamingActionPromise (Some mkPromise) st) in
  if _concurrentStreamingOps st <? kMaxConcurrentOperations env then
    match _nextStreamingAction fuel env st with
    | Ok (Some action) st =>
        Ok (makeReady action) (with_concurrentStreamingOps (_concurrentStreamingOps st + 1) st)
    | Ok None st => park st
    | Throw st => Throw st
    | Fatal => Fatal
    | OutOfFuel => OutOfFuel
    end
  else park st.

(** [_processEndOfAction]: the value is what the parked consumer receives,
    if its promise is fulfilled. *)
Definition _processEndOfAction (fuel : nat) (env : Env) (st : t)
    : Result t (option DefragmentationAction) :=
  let lower st := Ok None (with_concurrentStreamingOps (_concurrentStreamingOps st - 1) st) in
  match _nextStreamingActionPromise st with
  | Some _ =>
      match _nextStreamingAction fuel env st with
      | Ok (Some nextStreamingAction) st =>
          Ok (Some nextStreamingAction) (with_nextStreamingActionPromise None st)
      | Ok None st => lower st
      | r => r
      end
  | None => lower st
  end.

(** The body shared by the five [acknowledge...Result] functions. *)
Definition acknowledge (fuel : nat) (env : Env) (uuid : UUID) (action : DefragmentationAction)
    (result : DefragmentationActionResponse) (st : t)
    : Result t (option DefragmentationAction) :=
  match _defragmentationStates st !! uuid with
  | None => Ok None st
  | Some None => Fatal
  | Some (Some phase) =>
      match Phase.applyActionResult env action result phase with
      | Ok _ phase => _processEndOfAction fuel env (assign uuid (Some phase) st)
      | Throw phase => Throw (assign uuid (Some phase) st)
      | Fatal => Fatal
      | OutOfFuel => OutOfFuel
      end
  end.

Definition acknowledgeMergeResult (fuel : nat) (env : Env) (action : MergeInfo)
    (result : Status) (st : t) : Result t (option DefragmentationAction) :=
  acknowledge fuel env (merge_uuid action) (ActMergeInfo action) (RespStatus result) st.

Definition acknowledgeDataSizeResult (fuel : nat) (env : Env) (action : DataSizeInfo)
    (status : Status) (value : DataSizeResponse) (st : t)
    : Result t (option DefragmentationAction) :=
  acknowledge fuel env (ds_uuid action) (ActDataSizeInfo action) (RespDataSize status value) st.

Definition acknowledgeAutoSplitVectorResult (fuel : nat) (env : Env)
    (action : AutoSplitVectorInfo) (status : Status) (value : SplitPoints) (st : t)
    : Result t (option DefragmentationAction) :=
  acknowledge fuel env (asv_uuid action) (ActAutoSplitVectorInfo action)
              (RespSplitPoints status value) st.

Definition acknowledgeSplitResult (fuel : nat) (env : Env) (action : SplitInfoWithKeyPattern)
    (result : Status) (st : t) : Result t (option DefragmentationAction) :=
  acknowledge fuel env (split_uuid action) (ActSplitInfoWithKeyPattern action)
              (RespStatus result) st.

Definition acknowledgeMoveResult (fuel : nat) (env : Env) (action : MigrateInfo)
    (result : Status) (st : t) : Result t (option DefragmentationAction) :=
  acknowledge fuel env (mig_uuid action) (ActMigrateInfo action) (RespStatus result) st.

(** [closeActionStream]: the value is what the parked consumer receives. *)
Definition closeActionStream (st : t) : option DefragmentationAction * t :=
  let st := with_defragmentationStates ∅ st in
  let fulfilled :=
    match _nextStreamingActionPromise st with
    | Some _ => Some (ActEndOfActionStream mkEndOfActionStream)
    | None => None
    end in
  (fulfilled, with_streamClosed true (with_nextStreamingActionPromise None st)).

Definition refreshCollectionDefragmentationStatus (fuel : nat) (env : Env)
    (coll : CollectionType) (st : t) : Result t (option DefragmentationAction) :=
  let uuid := coll_uuid coll in
  if coll_defragmentCollection coll &&
     negb (bool_decide (is_Some (_defragmentationStates st !! uuid)))
  then
    match _initializeCollectionState fuel env coll st with
    | Ok _ st =>
        match _nextStreamingActionPromise st with
        | Some _ =>
            match _nextStreamingAction fuel env st with
            | Ok (Some nextStreamingAction) st =>
                Ok (Some nextStreamingAction)
                   (with_nextStreamingActionPromise None
                      (with_concurrentStreamingOps (_concurrentStreamingOps st + 1) st))
            | r => r
            end
        | None => Ok None st
        end
    | Throw st => Throw st
    | Fatal => Fatal
    | OutOfFuel => OutOfFuel
    end
  else if negb (coll_defragmentCollection coll) &&
          bool_decide (is_Some (_defragmentationStates st !! uuid))
  then
    let _ := _transitionPhases env coll kFinished true in
    Ok None (erase uuid st)
  else Ok None st.

(** One turn of the [for] loop of [selectChunksToMove] over the collections. *)
Fixpoint selectChunksFrom (fuel : nat) (env : Env) (uuids : list UUID)
    (chunksToMove : list MigrateInfo) (usedShards : gset ShardId) (st : t)
    : Result (t * gset ShardId) (list MigrateInfo) :=
  match uuids with
  | [] => Ok chunksToMove (st, usedShards)
  | uuid :: rest =>
      match _refreshDefragmentationPhaseFor fuel env uuid st with
      | Ok _ st =>
          match _defragmentationStates st !! uuid with
          | Some (Some collDefragmentationPhase) =>
              match Phase.popNextMigration env usedShards collDefragmentationPhase with
              | Ok actionableMigration (phase, usedShards) =>
                  selectChunksFrom fuel env rest
                    (match actionableMigration with
                     | Some m => chunksToMove ++ [m]
                     | None => chunksToMove
                     end) usedShards (assign uuid (Some phase) st)
              | Throw (_, usedShards) =>
                  selectChunksFrom fuel env rest chunksToMove usedShards (erase uuid st)
              | Fatal => Fatal
              | OutOfFuel => OutOfFuel
              end
          | Some None => selectChunksFrom fuel env rest chunksToMove usedShards (erase uuid st)
          | None => Fatal
          end
      | Throw st => selectChunksFrom fuel env rest chunksToMove usedShards (erase uuid st)
      | Fatal => Fatal
      | OutOfFuel => OutOfFuel
      end
  end.

(** The [while (!done)] loop of [selectChunksToMove]; [refreshFuel] is the
    fuel of the phase transitions inside. *)
Fixpoint selectChunksRounds (fuel refreshFuel : nat) (env : Env)
    (chunksToMove : list MigrateInfo) (usedShards : gset ShardId) (st : t)
    : Result (t * gset ShardId) (list MigrateInfo) :=
  match fuel with
  | O => OutOfFuel
  | S fuel' =>
      let selectedChunksFromPreviousRound := length chunksToMove in
      match selectChunksFrom refreshFuel env (fst <$> map_to_list (_defragmentationStates st))
              chunksToMove usedShards st with
      | Ok chunksToMove (st, usedShards) =>
          if bool_decide (length chunksToMove = selectedChunksFromPreviousRound)
          then Ok chunksToMove (st, usedShards)
          else selectChunksRounds fuel' refreshFuel env chunksToMove usedShards st
      | r => r
      end
  end.

Definition selectChunksToMove (fuel : nat) (env : Env) (usedShards : gset ShardId) (st : t)
    : Result (t * gset ShardId) (list MigrateInfo) :=
  selectChunksRounds fuel fuel env [] usedShards st.

End BalancerDefragmentationPolicyImpl.


(** ** ChunkVersion (src/mongo/s/chunk_version.h)

    The methods of [ChunkVersion] that the header defines.  [_combined] is a
    [uint64_t]: the major version in the high half, the minor one in the low
    half.  [OID] and [Timestamp] are declared in headers that are not among
    the sources: both are numbers here, compared as the classes compare
    (an [OID] by its bytes, a [Timestamp] by seconds then increment), with
    0 for the value-initialised ones.  The parsing and the serialisation are
    declared in the header and defined elsewhere. *)

Module chunk_version.

Section Constants.

(** [Timestamp::max()] and the epoch [OID::init(Date_t(), true)] gives to
    [IGNORED()] are not in the sources. *)
Variable Timestamp_max : Z.
Variable OID_ignored : Z.

(** [ChunkVersion(uint32_t major, uint32_t minor, epoch, timestamp)]. *)
Definition new (major minor epoch timestamp : Z) : ChunkVersion :=
  mkChunkVersion
    (Z.lor (wrapU64 (wrapU32 minor)) (wrapU64 (Z.shiftl (wrapU64 (wrapU32 major)) 32)))
    epoch timestamp.

(** [ChunkVersion()]. *)
Definition newDefault : ChunkVersion := new 0 0 0 0.

Definition UNSHARDED : ChunkVersion := newDefault.

Definition IGNORED : ChunkVersion :=
  let version := newDefault in
  mkChunkVersion (_combined version) OID_ignored Timestamp_max.

Definition toLong (v : ChunkVersion) : Z := _combined v.

Definition isSet (v : ChunkVersion) : bool := 0 <? _combined v.

Definition majorVersion (v : ChunkVersion) : Z := wrapU32 (Z.shiftr (_combined v) 32).

Definition minorVersion (v : ChunkVersion) : Z := wrapU32 (Z.land (_combined v) 0xFFFFFFFF).

Definition epoch (v : ChunkVersion) : Z := _epoch v.

Definition getTimestamp (v : ChunkVersion) : Z := _timestamp v.

Definition isIgnoredVersion (version : ChunkVersion) : bool :=
  (majorVersion version =? 0) && (minorVersion version =? 0) &&
  (getTimestamp version =? getTimestamp IGNORED).

Definition is50IgnoredOrUnsharded (v : ChunkVersion) : bool :=
  (_combined v =? 0) && ((_epoch v =? epoch UNSHARDED) || (_epoch v =? epoch IGNORED)).

(** [incMajor]: [None] is the [uassert] 31180.  The sum is a [uint32_t]. *)
Definition incMajor (v : ChunkVersion) : option ChunkVersion :=
  if majorVersion v =? 2 ^ 32 - 1 then None
  else Some (mkChunkVersion
               (wrapU64 (Z.shiftl (wrapU64 (wrapU32 (majorVersion v + 1))) 32))
               (_epoch v) (_timestamp v)).

(** [incMinor]: [None] is the [uassert] 31181. *)
Definition incMinor (v : ChunkVersion) : option ChunkVersion :=
  if minorVersion v =? 2 ^ 32 - 1 then None
  else Some (mkChunkVersion (wrapU64 (_combined v + 1)) (_epoch v) (_timestamp v)).

(** [operator==]: the epoch is not compared. *)
Definition operator_eq (v otherVersion : ChunkVersion) : bool :=
  (getTimestamp otherVersion =? getTimestamp v) && (_combined otherVersion =? _combined v).

Definition operator_ne (v otherVersion : ChunkVersion) : bool :=
  negb (operator_eq otherVersion v).

(** [isSameCollection(const Timestamp&)]. *)
Definition isSameCollection (v : ChunkVersion) (timestamp : Z) : bool :=
  getTimestamp v =? timestamp.

(** [isSameCollection(const ChunkVersion&)]. *)
Definition isSameCollectionAs (v other : ChunkVersion) : bool :=
  isSameCollection v (getTimestamp other).

Definition isWriteCompatibleWith (v other : ChunkVersion) : bool :=
  isSameCollectionAs v other && (majorVersion v =? majorVersion other).

Definition isNotComparableWith (v other : ChunkVersion) : bool :=
  operator_eq v UNSHARDED || operator_eq other UNSHARDED ||
  operator_eq v IGNORED || operator_eq other IGNORED.

Definition isOlderThan (v otherVersion : ChunkVersion) : bool :=
  if isNotComparableWith v otherVersion then false
  else if negb (getTimestamp v =? getTimestamp otherVersion)
       then getTimestamp v <? getTimestamp otherVersion
       else if negb (majorVersion v =? majorVersion otherVersion)
            then majorVersion v <? majorVersion otherVersion
            else minorVersion v <? minorVersion otherVersion.

Definition isOlderOrEqualThan (v otherVersion : ChunkVersion) : bool :=
  isOlderThan v otherVersion || operator_eq v otherVersion.

End Constants.

(** [_combined] holds a [uint64_t]. *)
Definition valid (v : ChunkVersion) : Prop := 0 <= _combined v < 2 ^ 64.

End chunk_version.
(** * Invariants and traces

    The predicates the properties below are stated with. *)

Module Invariants.

Import MoveAndMergeChunksPhase.

(** Every list of the second index is a sublist of the list the first index
    has for the same shard. *)
Definition smallIndexShrinks (m' m : gmap ShardId (list ChunkRangeInfoIterator)) : Prop :=
  forall s l', m' !! s = Some l' -> exists l, m !! s = Some l /\ l' `sublist_of` l.

(** The nodes of the chunk list have distinct identities, and the index of
    small chunks lists, without repetition and under the shard that owns
    them, nodes that are in the chunk list. *)
Definition wf (st : t) : Prop :=
  NoDup (_collectionChunks st).*1 /\
  forall s l, _smallChunksByShard st !! s = Some l ->
    NoDup l /\
    forall it, it ∈ l ->
      exists c, deref (_collectionChunks st) it = Some c /\ shard c = s.

(** [wf] as a test. *)
Definition wfb (st : t) : bool :=
  bool_decide (NoDup (_collectionChunks st).*1) &&
  forallb (fun entry =>
             bool_decide (NoDup (snd entry)) &&
             forallb (fun it =>
                        match deref (_collectionChunks st) it with
                        | Some c => bool_decide (shard c = fst entry)
                        | None => false
                        end) (snd entry))
          (map_to_list (_smallChunksByShard st)).

(** *** Traces of a MoveAndMergeChunks phase

    What a call of the phase shows: the migration [popNextMigration] returns
    and the request it registers for it, the action
    [popNextStreamableAction] returns and the request it moves to the
    outstanding merges, and the action and the status of an acknowledged
    migration or merge with the request the phase matches them with. *)
Inductive Event :=
| EvMigration (r : MoveAndMergeRequest) (info : MigrateInfo)
| EvMigrationAck (r : MoveAndMergeRequest) (migrationAction : MigrateInfo) (status : Status)
| EvMerge (r : MoveAndMergeRequest) (action : DefragmentationAction)
| EvMergeAck (r : MoveAndMergeRequest) (mergeAction : MergeInfo) (status : Status).

(** One call of the phase, with any environment and any arguments, that
    leaves a state: calls that return and calls that throw. *)
Inductive step : t -> option Event -> t -> Prop :=
| step_migration env usedShards st info st' usedShards' r :
    popNextMigration env usedShards st = Ok (Some info) (st', usedShards') ->
    last (_outstandingMigrations st') = Some r ->
    step st (Some (EvMigration r info)) st'
| step_no_migration env usedShards st st' usedShards' :
    popNextMigration env usedShards st = Ok None (st', usedShards') ->
    step st None st'
| step_migration_throws env usedShards st st' usedShards' :
    popNextMigration env usedShards st = Throw (st', usedShards') ->
    step st None st'
| step_merge env st action st' r rest :
    _actionableMerges st = r :: rest ->
    popNextStreamableAction env st = Ok (Some action) st' ->
    step st (Some (EvMerge r action)) st'
| step_no_merge env st st' :
    popNextStreamableAction env st = Ok None st' ->
    step st None st'
| step_merge_throws env st st' :
    popNextStreamableAction env st = Throw st' ->
    step st None st'
| step_migration_ack st migrationAction status r rest st' :
    extractFirst (matchesMigration st migrationAction) (_outstandingMigrations st) =
      Some (Some (r, rest)) ->
    applyActionResult (ActMigrateInfo migrationAction) (RespStatus status) st = Ok tt st' ->
    step st (Some (EvMigrationAck r migrationAction status)) st'
| step_merge_ack st mergeAction status r rest st' :
    extractFirst (matchesMerge st mergeAction) (_outstandingMerges st) =
      Some (Some (r, rest)) ->
    applyActionResult (ActMergeInfo mergeAction) (RespStatus status) st = Ok tt st' ->
    step st (Some (EvMergeAck r mergeAction status)) st'
| step_unexpected_ack st action response st' :
    applyActionResult action response st = Throw st' ->
    step st None st'.

(** The events of a sequence of calls, oldest first. *)
Inductive run : t -> list Event -> t -> Prop :=
| run_start st : run st [] st
| run_step st tr st1 ev st2 :
    run st tr st1 -> step st1 ev st2 -> run st (tr ++ option_list ev) st2.

(** The requests the phase holds and the chunk nodes they name. *)
Definition requests (st : t) : list MoveAndMergeRequest :=
  _outstandingMigrations st ++ _actionableMerges st ++ _outstandingMerges st.

Definition chunksOf (r : MoveAndMergeRequest) : list ChunkRangeInfoIterator :=
  [chunkToMove r; chunkToMergeWith r].

(** The chunks of the requests are distinct nodes, busy as long as they are
    in the chunk list. *)
Definition requestsBusy (st : t) : Prop :=
  NoDup (requests st ≫= chunksOf) /\
  forall r it c,
    r ∈ requests st -> it ∈ chunksOf r ->
    deref (_collectionChunks st) it = Some c -> busyInOperation c = true.

(** The migration is the one of the request: it moves the chunk of the
    request, with its range, from its shard to the shard of the chunk the
    request merges it with. *)
Definition migrationOf (st : t) (r : MoveAndMergeRequest) (info : MigrateInfo) : Prop :=
  exists cmove cwith,
    deref (_collectionChunks st) (chunkToMove r) = Some cmove /\
    deref (_collectionChunks st) (chunkToMergeWith r) = Some cwith /\
    mig_from info = shard cmove /\ mig_to info = shard cwith /\
    mig_minKey info = getMin (range cmove) /\ mig_maxKey info = getMax (range cmove) /\
    mig_uuid info = _uuid st /\ mig_nss info = _nss st.

(** The action is the merge that follows the migration: a merge of the same
    collection, on the shard the migration moved the chunk to, over a range
    that ends where the moved chunk ends when the chunk it is merged with is
    its left sibling, and starts where the moved chunk starts otherwise. *)
Definition mergeOf (r : MoveAndMergeRequest) (info : MigrateInfo)
    (action : DefragmentationAction) : Prop :=
  exists m,
    action = ActMergeInfo m /\
    merge_shardId m = mig_to info /\
    merge_uuid m = mig_uuid info /\ merge_nss m = mig_nss info /\
    if _isChunkToMergeLeftSibling r
    then getMax (merge_chunkRange m) = mig_maxKey info
    else getMin (merge_chunkRange m) = mig_minKey info.

(** At position [i] of the trace the migration [info] of [r] is acknowledged
    with success: the migration was returned at [k], a migration with its
    minimum key was acknowledged with success at [j], and no migration of [r]
    was returned again between [j] and [i]. *)
Definition migrated (tr : list Event) (r : MoveAndMergeRequest) (info : MigrateInfo)
    (i : nat) : Prop :=
  exists k j acked,
    (k < j)%nat /\ (j < i)%nat /\
    tr !! k = Some (EvMigration r info) /\
    tr !! j = Some (EvMigrationAck r acked StatusOK) /\
    woCompare (mig_minKey acked) (mig_minKey info) = 0 /\
    forall k' info', (j < k')%nat -> (k' < i)%nat -> tr !! k' <> Some (EvMigration r info').

(** What the trace says about the requests the phase holds. *)
Definition history (tr : list Event) (st : t) : Prop :=
  (forall r, r ∈ _outstandingMigrations st ->
     exists info, EvMigration r info ∈ tr /\ migrationOf st r info) /\
  (forall r, r ∈ _actionableMerges st ++ _outstandingMerges st ->
     exists info, migrated tr r info (length tr) /\ migrationOf st r info).

(** The invariant of the runs of a phase. *)
Definition invariant (tr : list Event) (st : t) : Prop :=
  NoDup (_collectionChunks st).*1 /\
  requestsBusy st /\
  history tr st /\
  forall i r action, tr !! i = Some (EvMerge r action) ->
    exists info, migrated tr r info i /\ mergeOf r info action.

(** *** The policy *)

Definition isEndOfActionStream (a : DefragmentationAction) : bool :=
  match a with
  | ActEndOfActionStream _ => true
  | _ => false
  end.

(** The shards of the chunks of a phase: the shards a migration of the phase
    can name. *)
Definition phaseShards (ph : DefragmentationPhase) : gset ShardId :=
  match ph with
  | MoveAndMergeChunks p => list_to_set ((fun q => shard (snd q)) <$> _collectionChunks p)
  | _ => ∅
  end.

(** The shards of the chunks the catalog has for a collection. *)
Definition catalogShards (env : Env) (uuid : UUID) : gset ShardId :=
  match env_getCollection env uuid with
  | Some coll =>
      match getCollectionChunks env coll with
      | Some chunks => list_to_set (ct_shard <$> chunks)
      | None => ∅
      end
  | None => ∅
  end.

(** The shards known to the policy: those of the phases it holds and those
    the catalog has for the collections it defragments. *)
Definition knownShards (env : Env) (st : BalancerDefragmentationPolicyImpl.t)
    : gset ShardId :=
  ⋃ ((fun entry => catalogShards env (fst entry) ∪ from_option phaseShards ∅ (snd entry))
       <$> map_to_list (BalancerDefragmentationPolicyImpl._defragmentationStates st)).

Definition covered (U : gset ShardId) (env : Env) (st : BalancerDefragmentationPolicyImpl.t)
    : Prop :=
  forall uuid oph,
    BalancerDefragmentationPolicyImpl._defragmentationStates st !! uuid = Some oph ->
    catalogShards env uuid ⊆ U /\ from_option phaseShards ∅ oph ⊆ U.

(** Every MoveAndMergeChunks phase of the policy is well-formed. *)
Definition wfPolicy (st : BalancerDefragmentationPolicyImpl.t) : Prop :=
  forall uuid p,
    BalancerDefragmentationPolicyImpl._defragmentationStates st !! uuid =
      Some (Some (MoveAndMergeChunks p)) ->
    wf p.

Definition wfPolicyb (st : BalancerDefragmentationPolicyImpl.t) : bool :=
  forallb (fun entry =>
             match snd entry with
             | Some (MoveAndMergeChunks p) => wfb p
             | _ => true
             end)
          (map_to_list (BalancerDefragmentationPolicyImpl._defragmentationStates st)).

(** The two shards of a migration. *)
Definition migrationShards (m : MigrateInfo) : gset ShardId := {[mig_from m; mig_to m]}.

(** No shard takes part in two migrations of the list. *)
Definition exclusive (chunksToMove : list MigrateInfo) : Prop :=
  forall i j mi mj,
    i <> j -> chunksToMove !! i = Some mi -> chunksToMove !! j = Some mj ->
    migrationShards mi ## migrationShards mj.

(** What a part of [selectChunksToMove] adds to the list and to the set of
    used shards, [U] being the shards known: the migrations selected share
    no shard, each one has its shards in [U], free before and used after,
    and each one takes a shard out of those still free. *)
Definition selects (U : gset ShardId)
    (chunksToMove : list MigrateInfo) (usedShards : gset ShardId)
    (chunksToMove' : list MigrateInfo) (usedShards' : gset ShardId) : Prop :=
  exists selected,
    chunksToMove' = chunksToMove ++ selected /\
    usedShards ⊆ usedShards' /\
    exclusive selected /\
    (forall m, m ∈ selected ->
       migrationShards m ⊆ U /\ migrationShards m ⊆ usedShards' /\
       migrationShards m ## usedShards) /\
    (length selected + size (U ∖ usedShards') <= size (U ∖ usedShards))%nat.

End Invariants.

(** ** Invariants of the MergeChunks and SplitChunks phases *)

Module PhaseInvariants.

(** No shard of a MergeChunks phase has an entry without a range. *)
Definition mergePending (st : MergeChunksPhase.t) : Prop :=
  forall shardId e,
    MergeChunksPhase._pendingActionsByShards st !! shardId = Some e ->
    MergeChunksPhase.rangesToMerge e <> [] \/ MergeChunksPhase.rangesWithoutDataSize e <> [].

(** [mergePending] as a test. *)
Definition mergePendingb (st : MergeChunksPhase.t) : bool :=
  forallb (fun kv =>
             negb (bool_decide (MergeChunksPhase.rangesToMerge (snd kv) = [])) ||
             negb (bool_decide (MergeChunksPhase.rangesWithoutDataSize (snd kv) = [])))
          (map_to_list (MergeChunksPhase._pendingActionsByShards st)).

(** No shard of a SplitChunks phase has an entry without a range. *)
Definition splitPending (st : SplitChunksPhase.t) : Prop :=
  forall shardId e,
    SplitChunksPhase._pendingActionsByShards st !! shardId = Some e ->
    SplitChunksPhase.rangesToFindSplitPoints e <> [] \/ SplitChunksPhase.rangesToSplit e <> [].

(** [splitPending] as a test. *)
Definition splitPendingb (st : SplitChunksPhase.t) : bool :=
  forallb (fun kv =>
             negb (bool_decide (SplitChunksPhase.rangesToFindSplitPoints (snd kv) = [])) ||
             negb (bool_decide (SplitChunksPhase.rangesToSplit (snd kv) = [])))
          (map_to_list (SplitChunksPhase._pendingActionsByShards st)).

(** The data the statistics of a MoveAndMergeChunks phase account for. *)
Definition totalCurrentSizeBytes
    (infos : gmap ShardId MoveAndMergeChunksPhase.ShardInfo) : Z :=
  foldr Z.add 0 (MoveAndMergeChunksPhase.currentSizeBytes <$> (map_to_list infos).*2).

End PhaseInvariants.

(** ** Invariants of the MoveAndMergeChunks phase *)

Module MoveAndMergeInvariants.

Import MoveAndMergeChunksPhase.

(** Two nodes that are next to each other in the chunk list. *)
Definition adjacent (chunks : ChunkRangeInfos) (a b : ChunkRangeInfoIterator) : Prop :=
  exists i ca cb,
    (chunks !! i = Some (a, ca) /\ chunks !! S i = Some (b, cb)) \/
    (chunks !! i = Some (b, cb) /\ chunks !! S i = Some (a, ca)).

(** No shard of the index of small chunks has an empty list. *)
Definition nonEmptyIndex (m : gmap ShardId (list ChunkRangeInfoIterator)) : Prop :=
  forall s l, m !! s = Some l -> l <> [].

(** Every list of the index of small chunks has a chunk, and no chunk it
    lists is above the threshold of small chunks. *)
Definition smallIndexSound (st : t) : Prop :=
  forall s l, _smallChunksByShard st !! s = Some l ->
    l <> [] /\
    forall it c, it ∈ l -> deref (_collectionChunks st) it = Some c ->
      estimatedSizeBytes c <= _smallChunkSizeThresholdBytes st.

(** The chunk lists that differ in the flags of the chunks only. *)
Definition sameChunks (l1 l2 : ChunkRangeInfos) : Prop :=
  l1.*1 = l2.*1 /\
  forall it, (fun c => (shard c, estimatedSizeBytes c)) <$> deref l1 it =
             (fun c => (shard c, estimatedSizeBytes c)) <$> deref l2 it.

(** Every shard of a chunk has its statistics. *)
Definition shardsKnown (st : t) : Prop :=
  forall it c, deref (_collectionChunks st) it = Some c ->
    is_Some (_shardInfos st !! shard c).

(** [shardsKnown] as a test. *)
Definition shardsKnownb (st : t) : bool :=
  forallb (fun p => bool_decide (is_Some (_shardInfos st !! shard (snd p))))
          (_collectionChunks st).

End MoveAndMergeInvariants.

(** ** The policy *)

Module PolicyInvariants.

(** The parts of the policy a loop over the collections leaves alone, and
    the collections it leaves. *)
Definition within (st' st : BalancerDefragmentationPolicyImpl.t) : Prop :=
  BalancerDefragmentationPolicyImpl._concurrentStreamingOps st' = BalancerDefragmentationPolicyImpl._concurrentStreamingOps st /\
  BalancerDefragmentationPolicyImpl._nextStreamingActionPromise st' = BalancerDefragmentationPolicyImpl._nextStreamingActionPromise st /\
  BalancerDefragmentationPolicyImpl._streamClosed st' = BalancerDefragmentationPolicyImpl._streamClosed st /\
  forall uuid, is_Some (BalancerDefragmentationPolicyImpl._defragmentationStates st' !! uuid) ->
               is_Some (BalancerDefragmentationPolicyImpl._defragmentationStates st !! uuid).

End PolicyInvariants.
(** * Scenarios

    Concrete collections, used to run the definitions. *)

Module Scenario.

Definition key (k : Z) : BSONObj := mkBSONObj k 16.

Definition rangeOf (lo hi : Z) : ChunkRange := mkChunkRange (key lo) (key hi).

Definition version : ChunkVersion := mkChunkVersion 1 7 7.

Definition chunk (lo hi : Z) (shardId : ShardId) (size : option Z) : ChunkType :=
  mkChunkType 1%N (rangeOf lo hi) (Some version) shardId size.

Definition collection (phase : option DefragmentationPhaseEnum) : CollectionType :=
  mkCollectionType 1%N "db.coll" (key 0) 7 7 true phase None.

(** A catalog that holds [chunks] for the collection, cluster statistics
    [stats], no zones, and the balancer's maximum chunk size. *)
Definition envOf (chunks : list ChunkType) (stats : list ShardStatistics) (maxChunkSize : Z)
    : Env :=
  mkEnv (fun uuid => if decide (uuid = 1%N) then Some (collection None) else None)
        (fun uuid => if decide (uuid = 1%N) then Some chunks else None)
        (fun uuid shardId =>
           if decide (uuid = 1%N)
           then Some (filter (fun c => ct_shard c = shardId) chunks)
           else None)
        (fun _ => Some [])
        (fun _ => Some stats)
        (Some maxChunkSize)
        (fun _ _ => true)
        (fun _ _ => true)
        (16 * 1024 * 1024)
        50.

(** Scenario S2 of the specification: a small chunk on shard A next to a
    small chunk on shard B. *)
Definition chunksS2 : list ChunkType :=
  [chunk 0 10 "A" (Some 5); chunk 10 20 "B" (Some 5); chunk 20 30 "B" (Some 80)].

Definition statsS2 : list ShardStatistics :=
  [mkShardStatistics "A" 5 0 false; mkShardStatistics "B" 85 0 false].

Definition envS2 : Env := envOf chunksS2 statsS2 100.

(** The same collection with a maximum chunk size of 103 bytes. *)
Definition env103 : Env := envOf chunksS2 statsS2 103.

(** A small chunk on shard B between a chunk on shard A and a chunk on
    shard C. *)
Definition chunksThree : list ChunkType :=
  [chunk 0 10 "A" (Some 30); chunk 10 20 "B" (Some 5); chunk 20 30 "C" (Some 5)].

Definition statsThree : list ShardStatistics :=
  [mkShardStatistics "A" 30 0 false; mkShardStatistics "B" 5 0 false;
   mkShardStatistics "C" 5 0 false].

Definition phaseThree : MoveAndMergeChunksPhase.t :=
  MoveAndMergeChunksPhase.new "db.coll" 1%N chunksThree
    (MoveAndMergeChunksPhase.emplaceShardInfos statsThree) [] 25.

(** Scenario S1 of the specification: two adjacent chunks on shard A. *)
Definition chunksS1 : list ChunkType :=
  [chunk 0 10 "A" (Some 5); chunk 10 20 "A" (Some 5); chunk 20 30 "B" (Some 5)].

Definition envS1 : Env := envOf chunksS1 statsS2 100.

(** The MergeChunks phase of S1 once its merge action is out. *)
Definition mergePhaseS1 : MergeChunksPhase.t :=
  MergeChunksPhase.mk "db.coll" 1%N (key 0) ∅ 1 false kMoveAndMergeChunks.

Definition mergeS1 : MergeInfo := mkMergeInfo "A" "db.coll" 1%N version (rangeOf 0 20).

Definition permissionError : Status := StatusError (OtherError 13).

(** A SplitChunks phase with one AutoSplitVector action out, and a response
    whose single key is [BSONObjMaxUserSize - 4096] bytes long. *)
Definition splitPhase : SplitChunksPhase.t :=
  SplitChunksPhase.mk "db.coll" 1%N (key 0) 100 ∅ 1 false kFinished.

Definition autoSplitVector : AutoSplitVectorInfo :=
  mkAutoSplitVectorInfo "A" "db.coll" 1%N version (key 0) (key 0) (key 30) 100.

Definition longKey : BSONObj := mkBSONObj 15 (16 * 1024 * 1024 - 4096).

(** A policy that defragments no collection. *)
Definition idlePolicy (ops : Z) (closed : bool) : BalancerDefragmentationPolicyImpl.t :=
  BalancerDefragmentationPolicyImpl.mk ∅ ops None closed.

(** Two small adjacent chunks on a shard that is draining. *)
Definition chunksDraining : list ChunkType :=
  [chunk 0 10 "A" (Some 5); chunk 10 20 "A" (Some 5)].

Definition statsDraining : list ShardStatistics := [mkShardStatistics "A" 10 0 true].

Definition envDraining : Env := envOf chunksDraining statsDraining 100.

Definition phaseDraining : MoveAndMergeChunksPhase.t :=
  MoveAndMergeChunksPhase.new "db.coll" 1%N chunksDraining
    (MoveAndMergeChunksPhase.emplaceShardInfos statsDraining) [] 25.

(** The MoveAndMergeChunks phase of scenario S2. *)
Definition phaseS2 : MoveAndMergeChunksPhase.t :=
  MoveAndMergeChunksPhase.new "db.coll" 1%N chunksS2
    (MoveAndMergeChunksPhase.emplaceShardInfos statsS2) [] 25.

(** The first migration of [phaseThree] and the state it leaves. *)
Definition envThree : Env := envOf chunksThree statsThree 100.

Definition migrationThree : MigrateInfo :=
  mkMigrateInfo "A" "db.coll" 1%N "B" (key 10) (key 20) version.

Definition afterMigrationThree : MoveAndMergeChunksPhase.t * gset ShardId :=
  match MoveAndMergeChunksPhase.popNextMigration envThree ∅ phaseThree with
  | Ok _ s => s
  | _ => (phaseThree, ∅)
  end.

(** [phaseThree] after the migration is acknowledged and the merge is out. *)
Definition afterMigrationAckThree : MoveAndMergeChunksPhase.t :=
  match MoveAndMergeChunksPhase.applyActionResult (ActMigrateInfo migrationThree)
          (RespStatus StatusOK) (fst afterMigrationThree) with
  | Ok _ s => s
  | _ => phaseThree
  end.

Definition mergingThree : MoveAndMergeChunksPhase.t :=
  match MoveAndMergeChunksPhase.popNextStreamableAction envThree afterMigrationAckThree with
  | Ok _ s => s
  | _ => phaseThree
  end.

Definition mergeThree : MergeInfo := mkMergeInfo "A" "db.coll" 1%N version (rangeOf 0 20).

Definition requestThree : MoveAndMergeChunksPhase.MoveAndMergeRequest :=
  MoveAndMergeChunksPhase.mkMoveAndMergeRequest 1 0 true.

(** A policy that defragments the collection of [phaseThree]. *)
Definition policyThree : BalancerDefragmentationPolicyImpl.t :=
  BalancerDefragmentationPolicyImpl.mk {[1%N := Some (MoveAndMergeChunks phaseThree)]}
    0 None false.

(** The MergeChunks phase of S1 as built: the two chunks of shard A are to
    be merged. *)
Definition mergeBuiltS1 : MergeChunksPhase.t :=
  MergeChunksPhase.mk "db.coll" 1%N (key 0)
    {["A" := MergeChunksPhase.mkPendingActions [rangeOf 0 20] []]}
    0 false kMoveAndMergeChunks.

Definition staleConfig : Status := StatusError StaleConfig.

(** A SplitChunks phase that has the range [[0, 30)] of shard A to search
    for split points. *)
Definition splitBuilt : SplitChunksPhase.t :=
  SplitChunksPhase.mk "db.coll" 1%N (key 0) 100
    {["A" := SplitChunksPhase.mkPendingActions [rangeOf 0 30] []]}
    0 false kFinished.

(** A collection with one chunk that has no size. *)
Definition chunksUnsized : list ChunkType := [chunk 0 30 "A" None].

Definition envUnsized : Env := envOf chunksUnsized statsS2 100.

(** [phaseThree] after its migration ends in an error that cannot be
    retried. *)
Definition abortedThree : MoveAndMergeChunksPhase.t :=
  match MoveAndMergeChunksPhase.applyActionResult (ActMigrateInfo migrationThree)
          (RespStatus permissionError) (fst afterMigrationThree) with
  | Ok _ s => s
  | _ => phaseThree
  end.

(** A policy that has the migration of [phaseThree] in flight. *)
Definition policyMigratingThree : BalancerDefragmentationPolicyImpl.t :=
  BalancerDefragmentationPolicyImpl.mk
    {[1%N := Some (MoveAndMergeChunks (fst afterMigrationThree))]} 1 None false.

(** Two small chunks, on shards B and D, each after a larger chunk. *)
Definition chunksFour : list ChunkType :=
  [chunk 0 10 "A" (Some 30); chunk 10 20 "B" (Some 5);
   chunk 20 30 "C" (Some 30); chunk 30 40 "D" (Some 5)].

Definition statsFour : list ShardStatistics :=
  [mkShardStatistics "A" 30 0 false; mkShardStatistics "B" 5 0 false;
   mkShardStatistics "C" 40 0 false; mkShardStatistics "D" 5 0 false].

Definition phaseFour : MoveAndMergeChunksPhase.t :=
  MoveAndMergeChunksPhase.new "db.coll" 1%N chunksFour
    (MoveAndMergeChunksPhase.emplaceShardInfos statsFour) [] 25.

Definition envFour : Env := envOf chunksFour statsFour 100.

(** The two migrations of [phaseFour], their requests, and the merge that
    follows the first one. *)
Definition migrationFourD : MigrateInfo :=
  mkMigrateInfo "C" "db.coll" 1%N "D" (key 30) (key 40) version.

Definition migrationFourB : MigrateInfo :=
  mkMigrateInfo "A" "db.coll" 1%N "B" (key 10) (key 20) version.

Definition requestFourD : MoveAndMergeChunksPhase.MoveAndMergeRequest :=
  MoveAndMergeChunksPhase.mkMoveAndMergeRequest 3 2 true.

Definition requestFourB : MoveAndMergeChunksPhase.MoveAndMergeRequest :=
  MoveAndMergeChunksPhase.mkMoveAndMergeRequest 1 0 true.

Definition mergeFour : MergeInfo := mkMergeInfo "C" "db.coll" 1%N version (rangeOf 20 40).

(** The state a call on [phaseFour] or on a state that follows it leaves. *)
Definition stateOf {A : Type} (r : Result MoveAndMergeChunksPhase.t A)
    : MoveAndMergeChunksPhase.t :=
  match r with
  | Ok _ s => s
  | _ => phaseFour
  end.

(** [phaseFour] after both migrations are out, ... *)
Definition migratingFour : MoveAndMergeChunksPhase.t :=
  match MoveAndMergeChunksPhase.popNextMigration envFour ∅ phaseFour with
  | Ok _ (s, _) =>
      match MoveAndMergeChunksPhase.popNextMigration envFour ∅ s with
      | Ok _ (s', _) => s'
      | _ => phaseFour
      end
  | _ => phaseFour
  end.

(** ... after the first one is acknowledged and its merge is out, ... *)
Definition mergingFour : MoveAndMergeChunksPhase.t :=
  stateOf (MoveAndMergeChunksPhase.popNextStreamableAction envFour
             (stateOf (MoveAndMergeChunksPhase.applyActionResult
                         (ActMigrateInfo migrationFourD) (RespStatus StatusOK) migratingFour))).

(** ... and after the second migration failed with an error that is not
    retried: the phase is aborted while the merge is still outstanding. *)
Definition abortedFour : MoveAndMergeChunksPhase.t :=
  stateOf (MoveAndMergeChunksPhase.applyActionResult
             (ActMigrateInfo migrationFourB) (RespStatus permissionError) mergingFour).

End Scenario.
(** * Properties *)

Section MoveAndMergeChunksPhaseProperties.

Import MoveAndMergeChunksPhase.

(** ** The threshold of small chunks *)

Lemma wrapU64_small z : 0 <= z < 2 ^ 64 -> wrapU64 z = z.
Proof. intros H. unfold wrapU64. apply Z.mod_small. exact H. Qed.

Lemma wrapS64_small z : - 2 ^ 63 <= z < 2 ^ 63 -> wrapS64 z = z.
Proof. intros H. unfold wrapS64. rewrite Z.mod_small; lia. Qed.

Lemma wrapU64_range z : 0 <= wrapU64 z < 2 ^ 64.
Proof. unfold wrapU64. apply Z.mod_pos_bound. lia. Qed.

Lemma new_threshold nss uuid chunks infos zones threshold :
  _smallChunkSizeThresholdBytes (new nss uuid chunks infos zones threshold) =
  wrapS64 threshold.
Proof.
  unfold new. destruct (loadChunks 0 chunks) as [l ok]. destruct ok; reflexivity.
Qed.

Lemma getCollectionMaxChunkSizeBytes_range env coll m :
  getCollectionMaxChunkSizeBytes env coll = Some m -> 0 <= m < 2 ^ 64.
Proof.
  unfold getCollectionMaxChunkSizeBytes.
  destruct (env_balancerMaxChunkSizeBytes env); [|discriminate].
  intros [= <-]. apply wrapU64_range.
Qed.

(** C4. The threshold of small chunks that [build] gives the phase is
    [(maxChunkSizeBytes / 100) * 25] in integer arithmetic, for every maximum
    chunk size; for a maximum chunk size of 103 it is 25. *)
Theorem build_smallChunkSizeThreshold env coll stats phase maxChunkSizeBytes :
  getCollectionMaxChunkSizeBytes env coll = Some maxChunkSizeBytes ->
  build env coll stats = Some phase ->
  _smallChunkSizeThresholdBytes phase = (maxChunkSizeBytes / 100) * 25 /\
  (maxChunkSizeBytes = 103 -> _smallChunkSizeThresholdBytes phase = 25).
Proof.
  intros Hmax Hbuild.
  assert (Hthr : _smallChunkSizeThresholdBytes phase = (maxChunkSizeBytes / 100) * 25).
  { pose proof (getCollectionMaxChunkSizeBytes_range _ _ _ Hmax) as Hr.
    unfold build in Hbuild. rewrite Hmax in Hbuild.
    destruct (env_addTagsFromCatalog env (coll_nss coll)); [|discriminate].
    destruct (getCollectionChunks env coll); [|discriminate].
    simpl in Hbuild. injection Hbuild as <-.
    rewrite new_threshold. unfold kSmallChunkSizeThresholdPctg.
    assert (0 <= maxChunkSizeBytes / 100 < 2 ^ 58).
    { split; [apply Z.div_pos; lia|]. apply Z.div_lt_upper_bound; lia. }
    rewrite wrapU64_small by lia. apply wrapS64_small. lia. }
  split; [exact Hthr|]. intros ->. rewrite Hthr. reflexivity.
Qed.

Lemma build_smallChunkSizeThreshold_witness :
  exists phase,
    build Scenario.env103 (Scenario.collection None) Scenario.statsS2 = Some phase /\
    _smallChunkSizeThresholdBytes phase = 25.
Proof.
  destruct (build Scenario.env103 (Scenario.collection None) Scenario.statsS2)
    as [phase|] eqn:Hb; [|vm_compute in Hb; discriminate].
  exists phase. split; [reflexivity|].
  assert (Hm : getCollectionMaxChunkSizeBytes Scenario.env103 (Scenario.collection None)
               = Some 103) by reflexivity.
  exact (proj2 (build_smallChunkSizeThreshold _ _ _ _ _ Hm Hb) eq_refl).
Defined.

(** ** The rank of a mergeable sibling and the choice of the target *)

(** The rank as the specification writes it. *)
Lemma _rankMergeableSibling_value st c s :
  - 2 ^ 63 <= estimatedSizeBytes c + estimatedSizeBytes s < 2 ^ 63 ->
  _rankMergeableSibling st c s =
    (if decide (shard c = shard s) then 16 else 0) +
    (if bool_decide (shard c ≠ shard s) && (estimatedSizeBytes c <? estimatedSizeBytes s)
     then 8 else 0) +
    (if _smallChunkSizeThresholdBytes st <? estimatedSizeBytes c + estimatedSizeBytes s
     then (if estimatedSizeBytes s <? _smallChunkSizeThresholdBytes st then 4 else 2)
     else 0).
Proof.
  intros Hsum. unfold _rankMergeableSibling.
  rewrite (wrapS64_small _ Hsum).
  destruct (decide (shard c = shard s)) as [Heq|Hne].
  - rewrite bool_decide_eq_false_2 by (intros H; exact (H Heq)). simpl.
    destruct (_ <? estimatedSizeBytes c + _); [|reflexivity].
    destruct (estimatedSizeBytes s <? _); reflexivity.
  - rewrite (bool_decide_eq_true_2 _ Hne). simpl.
    destruct (estimatedSizeBytes c <? estimatedSizeBytes s);
      (destruct (_ <? estimatedSizeBytes c + _); [|reflexivity]);
      destruct (estimatedSizeBytes s <? _); reflexivity.
Qed.

(** ** Iterators *)

Lemma deref_update f it it' l :
  deref (update f it l) it' =
  if decide (it = it') then f <$> deref l it else deref l it'.
Proof.
  induction l as [|[i c] l IH]; simpl.
  - destruct (decide (it = it')); reflexivity.
  - destruct (decide (i = it)) as [->|Hi]; simpl.
    + destruct (decide (it = it')) as [->|Hne]; simpl.
      * destruct (decide (it' = it')); [reflexivity|contradiction].
      * destruct (decide (it = it')); [contradiction|reflexivity].
    + destruct (decide (i = it')) as [->|Hi'].
      * destruct (decide (it = it')) as [->|_]; [contradiction|reflexivity].
      * exact IH.
Qed.

Lemma deref_update_ne f it it' l : it <> it' -> deref (update f it l) it' = deref l it'.
Proof. intros H. rewrite deref_update. destruct (decide (it = it')); [contradiction|reflexivity]. Qed.

Lemma deref_update_eq f it l : deref (update f it l) it = f <$> deref l it.
Proof. rewrite deref_update. destruct (decide (it = it)); [reflexivity|contradiction]. Qed.

Lemma fst_update f it (l : ChunkRangeInfos) : (update f it l).*1 = l.*1.
Proof.
  induction l as [|[i c] l IH]; simpl; [reflexivity|].
  destruct (decide (i = it)); simpl; [reflexivity|]. f_equal. exact IH.
Qed.

Lemma deref_Some_elem l it c : deref l it = Some c -> (it, c) ∈ l.
Proof.
  induction l as [|[i c'] l IH]; simpl; [discriminate|].
  destruct (decide (i = it)) as [->|_].
  - intros [= ->]. left.
  - intros H. right. auto.
Qed.

Lemma deref_None_not_elem l it : deref l it = None -> it ∉ l.*1.
Proof.
  induction l as [|[i c'] l IH]; simpl.
  - intros _. apply not_elem_of_nil.
  - destruct (decide (i = it)) as [->|Hne]; [discriminate|].
    intros H. apply not_elem_of_cons. split; [congruence|auto].
Qed.

Lemma lookup_deref (l : ChunkRangeInfos) n it c :
  NoDup l.*1 -> l !! n = Some (it, c) -> deref l it = Some c.
Proof.
  revert n. induction l as [|[i c'] l IH]; intros n Hnd Hl; [discriminate|].
  simpl in Hnd. apply NoDup_cons in Hnd as [Hni Hnd].
  destruct n as [|n]; simpl in *.
  - injection Hl as -> ->. destruct (decide (it = it)); [reflexivity|contradiction].
  - destruct (decide (i = it)) as [->|_]; [|eauto].
    exfalso. apply Hni. apply list_elem_of_fmap. exists (it, c).
    split; [reflexivity|]. eapply list_elem_of_lookup_2. exact Hl.
Qed.

Lemma position_lookup (l : ChunkRangeInfos) it n :
  position l it = Some n -> exists c, l !! n = Some (it, c) /\ deref l it = Some c.
Proof.
  revert n. induction l as [|[i c'] l IH]; intros n; simpl; [discriminate|].
  destruct (decide (i = it)) as [->|Hne].
  - intros [= <-]. eauto.
  - destruct (position l it) as [m|] eqn:Hp; simpl; [|discriminate].
    intros [= <-]. destruct (IH m eq_refl) as (c & H1 & H2). eauto.
Qed.

(** ** Siblings and destinations *)

Lemma _getChunkSiblings_mergeable st chunkIt siblings :
  NoDup (_collectionChunks st).*1 ->
  _getChunkSiblings st chunkIt = Some siblings ->
  exists chunk,
    deref (_collectionChunks st) chunkIt = Some chunk /\
    forall s, s ∈ siblings ->
      s <> chunkIt /\
      exists info, deref (_collectionChunks st) s = Some info /\
                   canBeMoveAndMerged st chunk info = Some true.
Proof.
  intros Hnd. unfold _getChunkSiblings.
  destruct (position (_collectionChunks st) chunkIt) as [idx|] eqn:Hpos; [|discriminate].
  destruct (position_lookup _ _ _ Hpos) as (chunk & Hidx & Hchunk).
  simpl. rewrite Hchunk. simpl.
  assert (Hdistinct : forall n s info, n <> idx ->
             _collectionChunks st !! n = Some (s, info) -> s <> chunkIt).
  { intros n s info Hn Hl ->.
    apply Hn. eapply NoDup_lookup; [exact Hnd| |].
    - rewrite list_lookup_fmap, Hl. reflexivity.
    - rewrite list_lookup_fmap, Hidx. reflexivity. }
  destruct (_collectionChunks st !! S idx) as [[rightSibling rinfo]|] eqn:Hr.
  - destruct (canBeMoveAndMerged st chunk rinfo) as [okr|] eqn:Hokr; [|discriminate]. simpl.
    destruct idx as [|idx'].
    + simpl. intros [= <-]. exists chunk. split; [reflexivity|].
      intros s Hs. rewrite app_nil_r in Hs. destruct okr; [|inversion Hs].
      apply list_elem_of_singleton in Hs as ->.
      split; [eapply Hdistinct; [|exact Hr]; lia|].
      exists rinfo. split; [eapply lookup_deref; eauto|exact Hokr].
    + destruct (_collectionChunks st !! idx') as [[leftSibling linfo]|] eqn:Hl; [|discriminate].
      destruct (canBeMoveAndMerged st chunk linfo) as [okl|] eqn:Hokl; [|discriminate]. simpl.
      intros [= <-]. exists chunk. split; [reflexivity|].
      intros s Hs. apply elem_of_app in Hs as [Hs|Hs].
      * destruct okr; [|inversion Hs]. apply list_elem_of_singleton in Hs as ->.
        split; [eapply Hdistinct; [|exact Hr]; lia|].
        exists rinfo. split; [eapply lookup_deref; eauto|exact Hokr].
      * destruct okl; [|inversion Hs]. apply list_elem_of_singleton in Hs as ->.
        split; [eapply Hdistinct; [|exact Hl]; lia|].
        exists linfo. split; [eapply lookup_deref; eauto|exact Hokl].
  - simpl. destruct idx as [|idx'].
    + simpl. intros [= <-]. exists chunk. split; [reflexivity|]. intros s Hs. inversion Hs.
    + destruct (_collectionChunks st !! idx') as [[leftSibling linfo]|] eqn:Hl; [|discriminate].
      destruct (canBeMoveAndMerged st chunk linfo) as [okl|] eqn:Hokl; [|discriminate]. simpl.
      intros [= <-]. exists chunk. split; [reflexivity|].
      intros s Hs. destruct okl; [|inversion Hs]. apply list_elem_of_singleton in Hs as ->.
      split; [eapply Hdistinct; [|exact Hl]; lia|].
      exists linfo. split; [eapply lookup_deref; eauto|exact Hokl].
Qed.

Lemma availableSiblings_spec st usedShards candidates available :
  availableSiblings st usedShards candidates = Some available ->
  forall s, s ∈ available ->
    s ∈ candidates /\
    exists info, deref (_collectionChunks st) s = Some info /\
                 busyInOperation info = false /\ shard info ∉ usedShards.
Proof.
  revert available. induction candidates as [|c l IH]; intros available; simpl.
  - intros [= <-] s Hs. inversion Hs.
  - destruct (deref (_collectionChunks st) c) as [info|] eqn:Hc; [|discriminate]. simpl.
    destruct (availableSiblings st usedShards l) as [others|]; [|discriminate]. simpl.
    intros [= <-] s Hs.
    destruct (negb (busyInOperation info) && bool_decide (shard info ∉ usedShards)) eqn:Hok.
    + apply elem_of_cons in Hs as [->|Hs].
      * split; [left|]. exists info. apply andb_true_iff in Hok as [Hb Hu].
        apply negb_true_iff in Hb. apply bool_decide_eq_true in Hu. auto.
      * destruct (IH _ eq_refl s Hs) as [H1 H2]. split; [right; exact H1|exact H2].
    + destruct (IH _ eq_refl s Hs) as [H1 H2]. split; [right; exact H1|exact H2].
Qed.

Lemma findInSmallChunks_sublist st usedShards l l' r :
  findInSmallChunks st usedShards l = Some (l', r) -> l' `sublist_of` l.
Proof.
  revert l' r. induction l as [|c l IH]; intros l' r; simpl.
  - intros [= <- <-]. constructor.
  - destruct (deref (_collectionChunks st) c) as [candidate|]; [|discriminate]. simpl.
    destruct (busyInOperation candidate).
    + destruct (findInSmallChunks st usedShards l) as [[l1 r1]|]; [|discriminate]. simpl.
      intros [= <- <-]. apply sublist_skip. eauto.
    + destruct (_getChunkSiblings st c) as [[|s sibs]|]; [| |discriminate];
        cbn -[availableSiblings].
      * intros H. apply sublist_cons. eauto.
      * destruct (availableSiblings st usedShards (s :: sibs)) as [[|a avail]|];
          [| |discriminate]; simpl.
        -- destruct (findInSmallChunks st usedShards l) as [[l1 r1]|]; [|discriminate]. simpl.
           intros [= <- <-]. apply sublist_skip. eauto.
        -- intros [= <- <-]. reflexivity.
Qed.

Lemma findInSmallChunks_found st usedShards l l' c siblings :
  NoDup (_collectionChunks st).*1 ->
  findInSmallChunks st usedShards l = Some (l', Some (c, siblings)) ->
  c ∈ l /\ siblings <> [] /\
  exists candidate,
    deref (_collectionChunks st) c = Some candidate /\
    busyInOperation candidate = false /\
    forall s, s ∈ siblings ->
      s <> c /\
      exists info, deref (_collectionChunks st) s = Some info /\
                   canBeMoveAndMerged st candidate info = Some true /\
                   busyInOperation info = false /\ shard info ∉ usedShards.
Proof.
  intros Hnd. revert l'. induction l as [|x l IH]; intros l'; simpl; [discriminate|].
  destruct (deref (_collectionChunks st) x) as [candidate|] eqn:Hx; [|discriminate]. simpl.
  destruct (busyInOperation candidate) eqn:Hbusy.
  - destruct (findInSmallChunks st usedShards l) as [[l1 r1]|]; [|discriminate]. simpl.
    intros [= <- ->]. destruct (IH _ eq_refl) as (H1 & H2). split; [right; exact H1|exact H2].
  - destruct (_getChunkSiblings st x) as [[|s sibs]|] eqn:Hsib; [| |discriminate];
      cbn -[availableSiblings].
    + intros H. destruct (IH _ H) as (H1 & H2). split; [right; exact H1|exact H2].
    + destruct (availableSiblings st usedShards (s :: sibs)) as [[|a avail]|] eqn:Hav;
        [| |discriminate]; simpl.
      * destruct (findInSmallChunks st usedShards l) as [[l1 r1]|]; [|discriminate]. simpl.
        intros [= <- ->]. destruct (IH _ eq_refl) as (H1 & H2).
        split; [right; exact H1|exact H2].
      * intros [= <- <- <-]. split; [left|]. split; [discriminate|].
        exists candidate. split; [exact Hx|]. split; [exact Hbusy|].
        intros s' Hs'.
        destruct (availableSiblings_spec _ _ _ _ Hav s' Hs') as (Hin & info & Hd & Hb & Hu).
        destruct (_getChunkSiblings_mergeable _ _ _ Hnd Hsib) as (chunk & Hchunk & Hall).
        rewrite Hx in Hchunk. injection Hchunk as <-.
        destruct (Hall s' Hin) as (Hne & info' & Hd' & Hok).
        rewrite Hd in Hd'. injection Hd' as <-.
        split; [exact Hne|]. exists info. auto.
Qed.

Lemma _findNextSmallChunkInShard_frame shardId usedShards st r st' :
  _findNextSmallChunkInShard shardId usedShards st = Some (r, st') ->
  st' = with_smallChunksByShard (_smallChunksByShard st') st.
Proof.
  unfold _findNextSmallChunkInShard.
  destruct (_smallChunksByShard st !! shardId) as [small|].
  - destruct (findInSmallChunks st usedShards small) as [[l1 [found|]]|]; simpl;
      [| |discriminate]; intros [= <- <-]; reflexivity.
  - intros [= <- <-]. destruct st; reflexivity.
Qed.

Lemma _findNextSmallChunkInShard_found shardId usedShards st c siblings st' :
  NoDup (_collectionChunks st).*1 ->
  _findNextSmallChunkInShard shardId usedShards st = Some (Some (c, siblings), st') ->
  (exists small, _smallChunksByShard st !! shardId = Some small /\ c ∈ small) /\
  siblings <> [] /\
  exists candidate,
    deref (_collectionChunks st) c = Some candidate /\
    busyInOperation candidate = false /\
    forall s, s ∈ siblings ->
      s <> c /\
      exists info, deref (_collectionChunks st) s = Some info /\
                   canBeMoveAndMerged st candidate info = Some true /\
                   busyInOperation info = false /\ shard info ∉ usedShards.
Proof.
  intros Hnd. unfold _findNextSmallChunkInShard.
  destruct (_smallChunksByShard st !! shardId) as [small|]; [|discriminate].
  destruct (findInSmallChunks st usedShards small) as [[l1 [found|]]|] eqn:Hf; simpl;
    [| |discriminate]; [|discriminate].
  intros [= -> <-].
  destruct (findInSmallChunks_found _ _ _ _ _ _ Hnd Hf) as (H1 & H2).
  split; [eauto|exact H2].
Qed.

Lemma chooseTargetSibling_elem st small siblings target :
  chooseTargetSibling st small siblings = Some target -> target ∈ siblings.
Proof.
  unfold chooseTargetSibling.
  destruct (bool_decide _); [|discriminate].
  destruct (head siblings) as [front|] eqn:Hfront; [|discriminate]. simpl.
  destruct (last siblings) as [back|] eqn:Hback; [|discriminate]. simpl.
  assert (Hf : front ∈ siblings).
  { destruct siblings; [discriminate|]. injection Hfront as ->. left. }
  assert (Hb : back ∈ siblings).
  { apply last_Some in Hback as [l' ->]. apply elem_of_app. right. left. }
  destruct (decide (front = back)); [intros [= <-]; exact Hf|].
  destruct (deref _ small); [|discriminate]. simpl.
  destruct (deref _ front) as [cfront|]; [|discriminate]. simpl.
  destruct (deref _ back) as [cback|]; [|discriminate]. simpl.
  destruct (_ <? _); [intros [= <-]; exact Hb|].
  destruct (_ =? _); [|intros [= <-]; exact Hf].
  destruct (_shardInfos st !! shard cback); [|discriminate]. simpl.
  destruct (_shardInfos st !! shard cfront); [|discriminate]. simpl.
  destruct (_ <? _); intros [= <-]; assumption.
Qed.

(** ** popNextMigration *)

Import Invariants.

Lemma smallIndexShrinks_refl m : smallIndexShrinks m m.
Proof. intros s l H. exists l. split; [exact H|reflexivity]. Qed.

Lemma smallIndexShrinks_trans m1 m2 m3 :
  smallIndexShrinks m1 m2 -> smallIndexShrinks m2 m3 -> smallIndexShrinks m1 m3.
Proof.
  intros H12 H23 s l1 H1. destruct (H12 s l1 H1) as (l2 & H2 & Hs12).
  destruct (H23 s l2 H2) as (l3 & H3 & Hs23). exists l3. split; [exact H3|].
  etransitivity; eassumption.
Qed.

Lemma _findNextSmallChunkInShard_shrinks shardId usedShards st r st' :
  _findNextSmallChunkInShard shardId usedShards st = Some (r, st') ->
  smallIndexShrinks (_smallChunksByShard st') (_smallChunksByShard st).
Proof.
  unfold _findNextSmallChunkInShard.
  destruct (_smallChunksByShard st !! shardId) as [small|] eqn:Hsmall.
  - destruct (findInSmallChunks st usedShards small) as [[l1 found]|] eqn:Hf; [|discriminate].
    pose proof (findInSmallChunks_sublist _ _ _ _ _ Hf) as Hsub. simpl.
    assert (Hins : smallIndexShrinks (<[shardId := l1]> (_smallChunksByShard st))
                                     (_smallChunksByShard st)).
    { intros s l'. destruct (decide (shardId = s)) as [<-|Hne].
      - rewrite lookup_insert_eq. intros [= <-]. eauto.
      - rewrite lookup_insert_ne by exact Hne. intros H. exists l'. split; [exact H|reflexivity]. }
    assert (Hdel : smallIndexShrinks (delete shardId (_smallChunksByShard st))
                                     (_smallChunksByShard st)).
    { intros s l'. destruct (decide (shardId = s)) as [<-|Hne].
      - rewrite lookup_delete_eq. discriminate.
      - rewrite lookup_delete_ne by exact Hne. intros H. exists l'. split; [exact H|reflexivity]. }
    destruct found as [found|]; intros [= <- <-]; simpl; [exact Hins|].
    destruct l1; [exact Hdel|exact Hins].
  - intros [= <- <-]. apply smallIndexShrinks_refl.
Qed.

Lemma deref_set_busy b it it' l :
  deref (update (set_busyInOperation b) it l) it' =
  (fun c => if decide (it = it') then set_busyInOperation b c else c) <$> deref l it'.
Proof.
  rewrite deref_update. destruct (decide (it = it')) as [->|_]; [reflexivity|].
  destruct (deref l it'); reflexivity.
Qed.

(** What [buildMigration] does when it returns a migration. *)
Lemma buildMigration_Ok env small siblings usedShards st info st' usedShards' :
  buildMigration env small siblings usedShards st = Ok (Some info) (st', usedShards') ->
  exists target csmall ctarget,
    chooseTargetSibling st small siblings = Some target /\
    deref (_collectionChunks st) small = Some csmall /\
    deref (_collectionChunks st) target = Some ctarget /\
    st' = with_outstandingMigrations
            (_outstandingMigrations st ++
             [mkMoveAndMergeRequest small target
                (bool_decide (woCompare (getMax (range ctarget)) (getMin (range csmall)) = 0))])
            (with_collectionChunks
               (update (set_busyInOperation true) target
                  (update (set_busyInOperation true) small (_collectionChunks st))) st) /\
    usedShards' = {[shard ctarget]} ∪ ({[shard csmall]} ∪ usedShards) /\
    mig_to info = shard ctarget /\ mig_from info = shard csmall /\
    mig_minKey info = getMin (range csmall) /\ mig_uuid info = _uuid st.
Proof.
  unfold buildMigration.
  destruct (chooseTargetSibling st small siblings) as [target|]; [|discriminate].
  destruct (deref (_collectionChunks st) small) as [csmall|] eqn:Hs; [|discriminate].
  destruct (deref (_collectionChunks st) target) as [ctarget|] eqn:Ht; [|discriminate].
  cbn -[update]. destruct (getShardVersion _ _ _) as [v|]; [|discriminate].
  unfold newMoveAndMergeRequest, asMigrateInfo. cbn -[update].
  rewrite !deref_set_busy, Hs, Ht. cbn -[update].
  rewrite !deref_set_busy, Hs, Ht. cbn -[update].
  intros [= <- <- <-].
  exists target, csmall, ctarget.
  repeat split; try assumption; try reflexivity;
    repeat (destruct (decide _)); try contradiction; reflexivity.
Qed.

(** What [popNextMigration] does when it returns a migration. *)
Lemma popNextMigrationFrom_Some env order usedShards st info st' usedShards' :
  NoDup (_collectionChunks st).*1 ->
  popNextMigrationFrom env order usedShards st = Ok (Some info) (st', usedShards') ->
  exists shardId smallList small target csmall ctarget smallIndex,
    (shardId ∈ order) /\ (shardId ∉ usedShards) /\
    _smallChunksByShard st !! shardId = Some smallList /\ (small ∈ smallList) /\
    deref (_collectionChunks st) small = Some csmall /\
    deref (_collectionChunks st) target = Some ctarget /\
    target <> small /\
    busyInOperation csmall = false /\ busyInOperation ctarget = false /\
    (shard ctarget ∉ usedShards) /\
    canBeMoveAndMerged st csmall ctarget = Some true /\
    smallIndexShrinks smallIndex (_smallChunksByShard st) /\
    st' = with_outstandingMigrations
            (_outstandingMigrations st ++
             [mkMoveAndMergeRequest small target
                (bool_decide (woCompare (getMax (range ctarget)) (getMin (range csmall)) = 0))])
            (with_collectionChunks
               (update (set_busyInOperation true) target
                  (update (set_busyInOperation true) small (_collectionChunks st)))
               (with_smallChunksByShard smallIndex st)) /\
    usedShards' = {[shard ctarget]} ∪ ({[shard csmall]} ∪ usedShards) /\
    mig_to info = shard ctarget /\ mig_from info = shard csmall /\
    mig_minKey info = getMin (range csmall) /\ mig_uuid info = _uuid st.
Proof.
  revert st. induction order as [|shardId rest IH]; intros st Hnd; simpl; [discriminate|].
  destruct (bool_decide (shardId ∈ usedShards)) eqn:Hused.
  - intros H. destruct (IH st Hnd H) as (s & H').
    exists s. destruct H' as (l & sm & tg & cs & ctg & idx & Hin & Hrest).
    exists l, sm, tg, cs, ctg, idx. split; [right; exact Hin|exact Hrest].
  - apply bool_decide_eq_false in Hused.
    destruct (_findNextSmallChunkInShard shardId usedShards st) as [[[[c sibs]|] st1]|] eqn:Hfind;
      [| |discriminate].
    + intros Hbuild.
      destruct (_findNextSmallChunkInShard_found _ _ _ _ _ _ Hnd Hfind)
        as ((smallList & Hsmall & Hc) & Hne & candidate & Hcand & Hbusy & Hsibs).
      pose proof (_findNextSmallChunkInShard_frame _ _ _ _ _ Hfind) as Hframe.
      pose proof (_findNextSmallChunkInShard_shrinks _ _ _ _ _ Hfind) as Hshr.
      destruct (buildMigration_Ok _ _ _ _ _ _ _ _ Hbuild)
        as (target & csmall & ctarget & Hchoose & Hds & Hdt & Hst' & Hused' & Hto & Hfrom
            & Hmin & Huuid).
      rewrite Hframe in Hds, Hdt, Hst', Huuid. simpl in Hds, Hdt, Huuid.
      rewrite Hcand in Hds. injection Hds as <-.
      apply chooseTargetSibling_elem in Hchoose.
      destruct (Hsibs target Hchoose) as (Hneq & info' & Hd' & Hok & Hb' & Hu').
      rewrite Hdt in Hd'. injection Hd' as <-.
      exists shardId, smallList, c, target, candidate, ctarget, (_smallChunksByShard st1).
      split_and!; try assumption; try reflexivity; try (by left).
    + intros H.
      pose proof (_findNextSmallChunkInShard_frame _ _ _ _ _ Hfind) as Hframe.
      pose proof (_findNextSmallChunkInShard_shrinks _ _ _ _ _ Hfind) as Hshr.
      assert (Hnd1 : NoDup (_collectionChunks st1).*1) by (rewrite Hframe; exact Hnd).
      destruct (IH st1 Hnd1 H)
        as (s & l1 & sm & tg & cs & ctg & idx & Hin & Hnu & Hl1 & Hsm & Hds & Hdt & Hneq
            & Hb1 & Hb2 & Hu & Hok & Hshr' & Hst' & Hrest).
      destruct (Hshr s l1 Hl1) as (l & Hl & Hsub).
      rewrite Hframe in Hds, Hdt, Hok, Hst', Hrest. simpl in Hds, Hdt, Hrest.
      exists s, l, sm, tg, cs, ctg, idx.
      split_and!; try assumption; try (apply Hrest).
      * right; exact Hin.
      * eapply elem_of_sublist; eassumption.
      * eapply smallIndexShrinks_trans; eassumption.
Qed.

Lemma canReceiveNewChunks_true i :
  canReceiveNewChunks i = true ->
  draining i = false /\ (maxSizeBytes i = 0 \/ currentSizeBytes i < maxSizeBytes i).
Proof.
  unfold canReceiveNewChunks. destruct (draining i); [discriminate|].
  intros H. split; [reflexivity|]. apply orb_true_iff in H as [H|H].
  - left. apply Z.eqb_eq. exact H.
  - right. apply Z.ltb_lt. exact H.
Qed.

Lemma canBeMoveAndMerged_other_shard st chunk sibling :
  canBeMoveAndMerged st chunk sibling = Some true ->
  shard chunk <> shard sibling ->
  exists i, _shardInfos st !! shard sibling = Some i /\ canReceiveNewChunks i = true.
Proof.
  unfold canBeMoveAndMerged. intros H Hne.
  destruct (decide (shard chunk = shard sibling)); [contradiction|].
  destruct (_shardInfos st !! shard sibling) as [i|]; [|discriminate].
  simpl in H. injection H as H. apply andb_true_iff in H as [_ H]. eauto.
Qed.

(** C8, as amended.  The destination of a migration that [popNextMigration]
    returns is the shard of the chunk to move itself (the target sibling is on
    the same shard) or a shard that is not draining and whose size is below
    its maximum, when it has one; and a sibling on another shard is mergeable
    only when its shard can receive new chunks, that is
    [!draining && (maxSizeBytes == 0 || currentSizeBytes < maxSizeBytes)]. *)
Theorem popNextMigration_destination env usedShards st info st' usedShards' :
  NoDup (_collectionChunks st).*1 ->
  popNextMigration env usedShards st = Ok (Some info) (st', usedShards') ->
  (mig_to info = mig_from info \/
   exists i, _shardInfos st !! mig_to info = Some i /\ draining i = false /\
             (maxSizeBytes i = 0 \/ currentSizeBytes i < maxSizeBytes i)) /\
  (forall chunk sibling,
      canBeMoveAndMerged st chunk sibling = Some true ->
      shard chunk <> shard sibling ->
      exists i, _shardInfos st !! shard sibling = Some i /\
                canReceiveNewChunks i =
                  negb (draining i) &&
                  ((maxSizeBytes i =? 0) || (currentSizeBytes i <? maxSizeBytes i)) /\
                canReceiveNewChunks i = true).
Proof.
  intros Hnd Hpop. split.
  - destruct (popNextMigrationFrom_Some _ _ _ _ _ _ _ Hnd Hpop)
      as (s & l & sm & tg & cs & ctg & idx & _ & _ & _ & _ & _ & _ & _ & _ & _ & _ & Hok
          & _ & _ & _ & Hto & Hfrom & _).
    rewrite Hto, Hfrom.
    destruct (decide (shard cs = shard ctg)) as [Heq|Hne]; [left; congruence|].
    right. destruct (canBeMoveAndMerged_other_shard _ _ _ Hok Hne) as (i & Hi & Hrecv).
    exists i. split; [exact Hi|]. apply canReceiveNewChunks_true. exact Hrecv.
  - intros chunk sibling Hok Hne.
    destruct (canBeMoveAndMerged_other_shard _ _ _ Hok Hne) as (i & Hi & Hrecv).
    exists i. split; [exact Hi|]. split; [|exact Hrecv].
    unfold canReceiveNewChunks. destruct (draining i); reflexivity.
Qed.

(** ** The rank of the siblings and the target of a migration *)

Lemma _getChunkSiblings_index idx st it :
  _getChunkSiblings (with_smallChunksByShard idx st) it = _getChunkSiblings st it.
Proof. reflexivity. Qed.

Lemma availableSiblings_index idx st usedShards l :
  availableSiblings (with_smallChunksByShard idx st) usedShards l =
  availableSiblings st usedShards l.
Proof.
  induction l as [|s l IH]; simpl; [reflexivity|]. rewrite IH. reflexivity.
Qed.

Lemma chooseTargetSibling_index idx st small l :
  chooseTargetSibling (with_smallChunksByShard idx st) small l =
  chooseTargetSibling st small l.
Proof. reflexivity. Qed.

Lemma _getChunkSiblings_NoDup st chunkIt siblings :
  NoDup (_collectionChunks st).*1 ->
  _getChunkSiblings st chunkIt = Some siblings -> NoDup siblings.
Proof.
  intros Hnd. unfold _getChunkSiblings.
  destruct (position (_collectionChunks st) chunkIt) as [idx|] eqn:Hpos; [|discriminate].
  destruct (position_lookup _ _ _ Hpos) as (chunk & Hidx & Hchunk).
  simpl. rewrite Hchunk. simpl.
  assert (Hdistinct : forall n n' s s' info info', n <> n' ->
             _collectionChunks st !! n = Some (s, info) ->
             _collectionChunks st !! n' = Some (s', info') -> s <> s').
  { intros n n' s s' info info' Hn Hl Hl' ->.
    apply Hn. eapply NoDup_lookup; [exact Hnd| |].
    - rewrite list_lookup_fmap, Hl. reflexivity.
    - rewrite list_lookup_fmap, Hl'. reflexivity. }
  destruct (_collectionChunks st !! S idx) as [[rightSibling rinfo]|] eqn:Hr.
  - destruct (canBeMoveAndMerged st chunk rinfo) as [okr|]; [|discriminate]. simpl.
    destruct idx as [|idx'].
    + simpl. intros [= <-]. rewrite app_nil_r.
      destruct okr; [apply NoDup_singleton|constructor].
    + destruct (_collectionChunks st !! idx') as [[leftSibling linfo]|] eqn:Hl; [|discriminate].
      destruct (canBeMoveAndMerged st chunk linfo) as [okl|]; [|discriminate]. simpl.
      intros [= <-]. destruct okr, okl; simpl;
        try apply NoDup_singleton; try constructor.
      * apply not_elem_of_cons. split; [|apply not_elem_of_nil].
        eapply Hdistinct; [|exact Hr|exact Hl]. lia.
      * apply NoDup_singleton.
  - simpl. destruct idx as [|idx'].
    + simpl. intros [= <-]. constructor.
    + destruct (_collectionChunks st !! idx') as [[leftSibling linfo]|] eqn:Hl; [|discriminate].
      destruct (canBeMoveAndMerged st chunk linfo) as [okl|]; [|discriminate]. simpl.
      intros [= <-]. destruct okl; [apply NoDup_singleton|constructor].
Qed.

(** The siblings that survive the filter are the siblings that are in no
    operation and on a shard that is not in use, in the order of the
    siblings. *)
Lemma availableSiblings_filter st usedShards candidates available :
  availableSiblings st usedShards candidates = Some available ->
  available `sublist_of` candidates /\
  forall s, s ∈ available <->
    s ∈ candidates /\
    exists info, deref (_collectionChunks st) s = Some info /\
                 busyInOperation info = false /\ shard info ∉ usedShards.
Proof.
  revert available. induction candidates as [|c l IH]; intros available; simpl.
  - intros [= <-]. split; [constructor|]. intros s. split.
    + intros Hs. inversion Hs.
    + intros [Hs _]. inversion Hs.
  - destruct (deref (_collectionChunks st) c) as [info|] eqn:Hc; [|discriminate]. simpl.
    destruct (availableSiblings st usedShards l) as [others|]; [|discriminate]. simpl.
    destruct (IH _ eq_refl) as [Hsub Hiff].
    intros [= <-].
    destruct (negb (busyInOperation info) && bool_decide (shard info ∉ usedShards)) eqn:Hok.
    + apply andb_true_iff in Hok as [Hb Hu].
      apply negb_true_iff in Hb. apply bool_decide_eq_true in Hu.
      split; [apply sublist_skip; exact Hsub|]. intros s. split.
      * intros Hs. apply elem_of_cons in Hs as [->|Hs].
        -- split; [left|]. exists info. auto.
        -- apply Hiff in Hs as [H1 H2]. split; [right; exact H1|exact H2].
      * intros [Hs (info' & Hd & Hb' & Hu')]. apply elem_of_cons in Hs as [->|Hs]; [left|].
        right. apply Hiff. split; [exact Hs|]. exists info'. auto.
    + split; [apply sublist_cons; exact Hsub|]. intros s. split.
      * intros Hs. apply Hiff in Hs as [H1 H2]. split; [right; exact H1|exact H2].
      * intros [Hs (info' & Hd & Hb' & Hu')]. apply Hiff.
        apply elem_of_cons in Hs as [->|Hs].
        -- exfalso. rewrite Hc in Hd. injection Hd as <-.
           rewrite Hb' in Hok. simpl in Hok.
           apply bool_decide_eq_false in Hok. contradiction.
        -- split; [exact Hs|]. exists info'. auto.
Qed.

Lemma findInSmallChunks_candidates st usedShards l l' c candidates :
  findInSmallChunks st usedShards l = Some (l', Some (c, candidates)) ->
  exists siblings,
    _getChunkSiblings st c = Some siblings /\
    availableSiblings st usedShards siblings = Some candidates /\ candidates <> [].
Proof.
  revert l'. induction l as [|x l IH]; intros l'; simpl; [discriminate|].
  destruct (deref (_collectionChunks st) x) as [candidate|] eqn:Hx; [|discriminate]. simpl.
  destruct (busyInOperation candidate) eqn:Hbusy.
  - destruct (findInSmallChunks st usedShards l) as [[l1 r1]|]; [|discriminate]. simpl.
    intros [= <- ->]. exact (IH _ eq_refl).
  - destruct (_getChunkSiblings st x) as [[|s sibs]|] eqn:Hsib; [| |discriminate];
      cbn -[availableSiblings].
    + intros H. exact (IH _ H).
    + destruct (availableSiblings st usedShards (s :: sibs)) as [[|a avail]|] eqn:Hav;
        [| |discriminate]; simpl.
      * destruct (findInSmallChunks st usedShards l) as [[l1 r1]|]; [|discriminate]. simpl.
        intros [= <- ->]. exact (IH _ eq_refl).
      * intros [= <- <- <-]. exists (s :: sibs). split; [exact Hsib|].
        split; [exact Hav|discriminate].
Qed.

Lemma _findNextSmallChunkInShard_candidates shardId usedShards st c candidates st' :
  _findNextSmallChunkInShard shardId usedShards st = Some (Some (c, candidates), st') ->
  exists siblings,
    _getChunkSiblings st c = Some siblings /\
    availableSiblings st usedShards siblings = Some candidates /\ candidates <> [].
Proof.
  unfold _findNextSmallChunkInShard.
  destruct (_smallChunksByShard st !! shardId) as [small|]; [|discriminate].
  destruct (findInSmallChunks st usedShards small) as [[l1 [found|]]|] eqn:Hf; simpl;
    [| |discriminate]; [|discriminate].
  intros [= -> <-]. exact (findInSmallChunks_candidates _ _ _ _ _ _ Hf).
Qed.

(** The request of the migration [popNextMigration] returns: its target is
    the choice among the siblings of the chunk that survive the filter. *)
Lemma popNextMigrationFrom_choice env order usedShards st info st' usedShards' :
  popNextMigrationFrom env order usedShards st = Ok (Some info) (st', usedShards') ->
  exists r siblings candidates,
    _outstandingMigrations st' = _outstandingMigrations st ++ [r] /\
    _getChunkSiblings st (chunkToMove r) = Some siblings /\
    availableSiblings st usedShards siblings = Some candidates /\
    candidates <> [] /\
    chooseTargetSibling st (chunkToMove r) candidates = Some (chunkToMergeWith r).
Proof.
  revert st. induction order as [|shardId rest IH]; intros st; simpl; [discriminate|].
  destruct (bool_decide (shardId ∈ usedShards)); [apply IH|].
  destruct (_findNextSmallChunkInShard shardId usedShards st) as [[[[c sibs]|] st1]|] eqn:Hfind;
    [| |discriminate];
    pose proof (_findNextSmallChunkInShard_frame _ _ _ _ _ Hfind) as Hframe.
  - intros Hbuild.
    destruct (_findNextSmallChunkInShard_candidates _ _ _ _ _ _ Hfind)
      as (siblings & Hsib & Hav & Hne).
    destruct (buildMigration_Ok _ _ _ _ _ _ _ _ Hbuild)
      as (target & csmall & ctarget & Hchoose & _ & _ & Hst' & _).
    rewrite Hframe, chooseTargetSibling_index in Hchoose.
    rewrite Hframe in Hst'.
    eexists _, siblings, sibs. split; [rewrite Hst'; reflexivity|]. simpl.
    split_and!; assumption.
  - intros H. destruct (IH _ H) as (r & siblings & candidates & Hout & Hsib & Hav & Hne & Hch).
    rewrite Hframe in Hout, Hsib, Hav, Hch.
    rewrite _getChunkSiblings_index in Hsib. rewrite availableSiblings_index in Hav.
    rewrite chooseTargetSibling_index in Hch. simpl in Hout.
    exists r, siblings, candidates. split_and!; assumption.
Qed.

(** The choice of [popNextMigration] between the candidates. *)
Lemma chooseTargetSibling_rule st small csmall candidates target :
  NoDup candidates -> candidates <> [] ->
  deref (_collectionChunks st) small = Some csmall ->
  chooseTargetSibling st small candidates = Some target ->
  candidates = [target] \/
  exists a b ca cb,
    candidates = [a; b] /\ a <> b /\
    deref (_collectionChunks st) a = Some ca /\
    deref (_collectionChunks st) b = Some cb /\
    (_rankMergeableSibling st csmall cb < _rankMergeableSibling st csmall ca -> target = a) /\
    (_rankMergeableSibling st csmall ca < _rankMergeableSibling st csmall cb -> target = b) /\
    (_rankMergeableSibling st csmall ca = _rankMergeableSibling st csmall cb ->
       exists ia ib,
         _shardInfos st !! shard ca = Some ia /\ _shardInfos st !! shard cb = Some ib /\
         (currentSizeBytes ib < currentSizeBytes ia -> target = b) /\
         (currentSizeBytes ia <= currentSizeBytes ib -> target = a)).
Proof.
  intros Hnd Hne Hs. unfold chooseTargetSibling.
  destruct (bool_decide (length candidates ≤ 2)%nat) eqn:Hlen; [|discriminate].
  apply bool_decide_eq_true in Hlen.
  destruct candidates as [|a [|b [|c l]]]; [contradiction| | |simpl in Hlen; lia].
  - simpl. destruct (decide (a = a)); [|contradiction]. intros [= <-]. left. reflexivity.
  - apply NoDup_cons in Hnd as [Hab _]. apply not_elem_of_cons in Hab as [Hab _].
    simpl. destruct (decide (a = b)) as [E|_]; [contradiction|].
    rewrite Hs. simpl.
    destruct (deref (_collectionChunks st) a) as [ca|] eqn:Ha; [|discriminate]. simpl.
    destruct (deref (_collectionChunks st) b) as [cb|] eqn:Hb; [|discriminate]. simpl.
    intros Hchoice. right. exists a, b, ca, cb.
    split; [reflexivity|]. split; [exact Hab|]. split; [exact Ha|]. split; [exact Hb|].
    destruct (_rankMergeableSibling st csmall ca <? _rankMergeableSibling st csmall cb) eqn:Hlt.
    + apply Z.ltb_lt in Hlt. injection Hchoice as <-.
      split_and!; intros; try lia; reflexivity.
    + apply Z.ltb_ge in Hlt.
      destruct (_rankMergeableSibling st csmall cb =? _rankMergeableSibling st csmall ca)
        eqn:Heq.
      * apply Z.eqb_eq in Heq.
        destruct (_shardInfos st !! shard cb) as [ib|]; [|discriminate]. simpl in Hchoice.
        destruct (_shardInfos st !! shard ca) as [ia|]; [|discriminate]. simpl in Hchoice.
        injection Hchoice as <-.
        split_and!; try (intros; lia).
        intros _. exists ia, ib. split; [reflexivity|]. split; [reflexivity|].
        destruct (currentSizeBytes ib <? currentSizeBytes ia) eqn:Hc.
        -- apply Z.ltb_lt in Hc. split; intros; [reflexivity|lia].
        -- apply Z.ltb_ge in Hc. split; intros; [lia|reflexivity].
      * apply Z.eqb_neq in Heq. injection Hchoice as <-.
        split_and!; intros; try lia; reflexivity.
Qed.

(** C7. The rank of a sibling is 16 for the same shard, plus 8 for another
    shard when the candidate is strictly smaller than the sibling, plus, when
    the two sizes together exceed the threshold, 4 if the sibling is below
    the threshold and 2 otherwise.  The migration [popNextMigration] returns
    moves its chunk to the shard of the target of its request, which is
    chosen among the siblings of the chunk that survive the filter (in no
    operation, on a shard not in use): the only one, or of two the one of
    strictly higher rank, and on equal ranks the one whose shard has the
    smaller [currentSizeBytes] (the first one when these are equal too). *)
Theorem popNextMigration_rank_and_target env usedShards st info st' usedShards' :
  NoDup (_collectionChunks st).*1 ->
  Forall (fun p => - 2 ^ 62 <= estimatedSizeBytes (snd p) < 2 ^ 62) (_collectionChunks st) ->
  popNextMigration env usedShards st = Ok (Some info) (st', usedShards') ->
  let rank c s :=
    (if decide (shard c = shard s) then 16 else 0) +
    (if bool_decide (shard c ≠ shard s) && (estimatedSizeBytes c <? estimatedSizeBytes s)
     then 8 else 0) +
    (if _smallChunkSizeThresholdBytes st <? estimatedSizeBytes c + estimatedSizeBytes s
     then (if estimatedSizeBytes s <? _smallChunkSizeThresholdBytes st then 4 else 2)
     else 0) in
  (forall it c sibling s,
     deref (_collectionChunks st) it = Some c ->
     deref (_collectionChunks st) sibling = Some s ->
     _rankMergeableSibling st c s = rank c s) /\
  exists r csmall ctarget siblings candidates,
    _outstandingMigrations st' = _outstandingMigrations st ++ [r] /\
    deref (_collectionChunks st) (chunkToMove r) = Some csmall /\
    deref (_collectionChunks st) (chunkToMergeWith r) = Some ctarget /\
    mig_from info = shard csmall /\ mig_to info = shard ctarget /\
    mig_minKey info = getMin (range csmall) /\
    _getChunkSiblings st (chunkToMove r) = Some siblings /\
    availableSiblings st usedShards siblings = Some candidates /\
    (forall s, s ∈ candidates <->
       s ∈ siblings /\
       exists cs, deref (_collectionChunks st) s = Some cs /\
                  busyInOperation cs = false /\ shard cs ∉ usedShards) /\
    (candidates = [chunkToMergeWith r] \/
     exists a b ca cb,
       candidates = [a; b] /\ a <> b /\
       deref (_collectionChunks st) a = Some ca /\
       deref (_collectionChunks st) b = Some cb /\
       (rank csmall cb < rank csmall ca -> chunkToMergeWith r = a) /\
       (rank csmall ca < rank csmall cb -> chunkToMergeWith r = b) /\
       (rank csmall ca = rank csmall cb ->
          exists ia ib,
            _shardInfos st !! shard ca = Some ia /\ _shardInfos st !! shard cb = Some ib /\
            (currentSizeBytes ib < currentSizeBytes ia -> chunkToMergeWith r = b) /\
            (currentSizeBytes ia <= currentSizeBytes ib -> chunkToMergeWith r = a))).
Proof.
  intros Hnd Hsizes Hpop rank.
  assert (Hrank : forall it c sibling s,
            deref (_collectionChunks st) it = Some c ->
            deref (_collectionChunks st) sibling = Some s ->
            _rankMergeableSibling st c s = rank c s).
  { intros it c sibling s Hc Hs. apply _rankMergeableSibling_value.
    rewrite Forall_forall in Hsizes.
    pose proof (Hsizes _ (deref_Some_elem _ _ _ Hc)) as H1.
    pose proof (Hsizes _ (deref_Some_elem _ _ _ Hs)) as H2.
    simpl in H1, H2. lia. }
  split; [exact Hrank|].
  destruct (popNextMigrationFrom_Some _ _ _ _ _ _ _ Hnd Hpop)
    as (s & l & sm & tg & cs & ctg & idx & _ & _ & _ & _ & Hds & Hdt & _
        & _ & _ & _ & _ & _ & Hst' & _ & Hto & Hfrom & Hmin & _).
  destruct (popNextMigrationFrom_choice _ _ _ _ _ _ _ Hpop)
    as (r & siblings & candidates & Hout & Hsib & Hav & Hne & Hchoose).
  assert (Hr : r = mkMoveAndMergeRequest sm tg
                 (bool_decide (woCompare (getMax (range ctg)) (getMin (range cs)) = 0))).
  { rewrite Hst' in Hout. simpl in Hout. apply app_inj_tail in Hout as [_ Hout].
    symmetry. exact Hout. }
  destruct (availableSiblings_filter _ _ _ _ Hav) as [Hsub Hiff].
  pose proof (_getChunkSiblings_NoDup _ _ _ Hnd Hsib) as Hnds.
  assert (Hndc : NoDup candidates) by (eapply sublist_NoDup; eassumption).
  exists r, cs, ctg, siblings, candidates. rewrite Hr in *. simpl in *.
  split_and!; try assumption.
  destruct (chooseTargetSibling_rule st sm cs candidates tg Hndc Hne Hds Hchoose)
    as [Hone|(a & b & ca & cb & Hc & Hab & Ha & Hb & H1 & H2 & H3)]; [left; exact Hone|].
  right. exists a, b, ca, cb.
  rewrite <- (Hrank sm cs a ca Hds Ha), <- (Hrank sm cs b cb Hds Hb).
  split_and!; assumption.
Qed.

(** ** A successful merge *)

Lemma deref_erase_ne it it' l : it <> it' -> deref (erase it l) it' = deref l it'.
Proof.
  intros Hne. induction l as [|[i c] l IH]; simpl; [reflexivity|].
  destruct (decide (i = it)) as [->|Hi]; simpl.
  - destruct (decide (it = it')); [contradiction|reflexivity].
  - destruct (decide (i = it')); [reflexivity|exact IH].
Qed.

Lemma erase_sublist it (l : ChunkRangeInfos) : erase it l `sublist_of` l.
Proof.
  induction l as [|[i c] l IH]; simpl; [constructor|].
  destruct (decide (i = it)); [apply sublist_cons; reflexivity|apply sublist_skip; exact IH].
Qed.

Lemma erase_not_elem it (l : ChunkRangeInfos) : NoDup l.*1 -> it ∉ (erase it l).*1.
Proof.
  induction l as [|[i c] l IH]; simpl; intros Hnd.
  - apply not_elem_of_nil.
  - apply NoDup_cons in Hnd as [Hni Hnd].
    destruct (decide (i = it)) as [->|Hi]; simpl; [exact Hni|].
    apply not_elem_of_cons. split; [congruence|auto].
Qed.

Lemma erase_NoDup it (l : ChunkRangeInfos) : NoDup l.*1 -> NoDup (erase it l).*1.
Proof.
  intros Hnd. eapply sublist_NoDup; [exact Hnd|]. apply fmap_sublist, erase_sublist.
Qed.

Lemma removeFirst_sublist it l : removeFirst it l `sublist_of` l.
Proof.
  induction l as [|x l IH]; simpl; [constructor|].
  destruct (decide (x = it)); [apply sublist_cons; reflexivity|apply sublist_skip; exact IH].
Qed.

Lemma removeFirst_not_elem it l : NoDup l -> it ∉ removeFirst it l.
Proof.
  induction l as [|x l IH]; simpl; intros Hnd.
  - apply not_elem_of_nil.
  - apply NoDup_cons in Hnd as [Hni Hnd].
    destruct (decide (x = it)) as [->|Hx]; [exact Hni|].
    apply not_elem_of_cons. split; [congruence|auto].
Qed.

Lemma insert_sorted_perm {A} (comp : A -> A -> bool) x l : insert_sorted comp x l ≡ₚ x :: l.
Proof.
  induction l as [|y l IH]; simpl; [reflexivity|].
  destruct (comp y x); [|reflexivity]. rewrite IH. apply Permutation_swap.
Qed.

Lemma list_sort_perm {A} (comp : A -> A -> bool) l : list_sort comp l ≡ₚ l.
Proof.
  unfold list_sort. induction l as [|x l IH]; simpl; [reflexivity|].
  rewrite insert_sorted_perm. rewrite IH. reflexivity.
Qed.

Lemma _removeIteratorFromSmallChunks_frame it s st :
  _removeIteratorFromSmallChunks it s st =
  with_smallChunksByShard (_smallChunksByShard (_removeIteratorFromSmallChunks it s st)) st.
Proof.
  unfold _removeIteratorFromSmallChunks.
  destruct (_smallChunksByShard st !! s) as [l|]; [|destruct st; reflexivity].
  destruct (bool_decide (it ∈ l)); [|destruct st; reflexivity].
  destruct (removeFirst it l); reflexivity.
Qed.

Lemma _removeIteratorFromSmallChunks_shrinks it s st :
  smallIndexShrinks (_smallChunksByShard (_removeIteratorFromSmallChunks it s st))
                    (_smallChunksByShard st).
Proof.
  unfold _removeIteratorFromSmallChunks.
  destruct (_smallChunksByShard st !! s) as [l|] eqn:Hl; [|apply smallIndexShrinks_refl].
  destruct (bool_decide (it ∈ l)); [|apply smallIndexShrinks_refl].
  pose proof (removeFirst_sublist it l) as Hsub.
  destruct (removeFirst it l) as [|x l'] eqn:Hr; simpl; intros s' l1.
  - destruct (decide (s = s')) as [<-|Hne].
    + rewrite lookup_delete_eq. discriminate.
    + rewrite lookup_delete_ne by exact Hne. intros H. exists l1. split; [exact H|reflexivity].
  - destruct (decide (s = s')) as [<-|Hne].
    + rewrite lookup_insert_eq. intros [= <-]. eauto.
    + rewrite lookup_insert_ne by exact Hne. intros H. exists l1. split; [exact H|reflexivity].
Qed.

Lemma _removeIteratorFromSmallChunks_removed it s st l l' :
  _smallChunksByShard st !! s = Some l -> NoDup l ->
  _smallChunksByShard (_removeIteratorFromSmallChunks it s st) !! s = Some l' ->
  it ∉ l'.
Proof.
  intros Hl Hnd. unfold _removeIteratorFromSmallChunks. rewrite Hl.
  destruct (bool_decide (it ∈ l)) eqn:Hin.
  - pose proof (removeFirst_not_elem it l Hnd) as Hni.
    destruct (removeFirst it l) as [|x l1]; simpl.
    + rewrite lookup_delete_eq. discriminate.
    + rewrite lookup_insert_eq. intros [= <-]. exact Hni.
  - apply bool_decide_eq_false in Hin. rewrite Hl. intros [= <-]. exact Hin.
Qed.

Lemma sortSmallChunksOf_spec s st st' :
  sortSmallChunksOf s st = Some st' ->
  st' = with_smallChunksByShard (_smallChunksByShard st') st /\
  forall s' l', _smallChunksByShard st' !! s' = Some l' ->
    exists l, _smallChunksByShard st !! s' = Some l /\ l' ≡ₚ l.
Proof.
  unfold sortSmallChunksOf.
  destruct (_smallChunksByShard st !! s) as [l|] eqn:Hl.
  - destruct (forallb _ l); [|discriminate]. intros [= <-]. split; [reflexivity|].
    simpl. intros s' l'. destruct (decide (s = s')) as [<-|Hne].
    + rewrite lookup_insert_eq. intros [= <-]. exists l. split; [exact Hl|apply list_sort_perm].
    + rewrite lookup_insert_ne by exact Hne. intros H. exists l'. split; [exact H|reflexivity].
  - intros [= <-]. split; [destruct st; reflexivity|].
    intros s' l' H. exists l'. split; [exact H|reflexivity].
Qed.

Lemma sortSmallChunksOf_Some s st :
  (forall l, _smallChunksByShard st !! s = Some l ->
     forall it, it ∈ l -> is_Some (deref (_collectionChunks st) it)) ->
  is_Some (sortSmallChunksOf s st).
Proof.
  intros Hvalid. unfold sortSmallChunksOf.
  destruct (_smallChunksByShard st !! s) as [l|] eqn:Hl; [|eauto].
  destruct (forallb _ l) eqn:Hall; [eauto|].
  exfalso. apply not_true_iff_false in Hall. apply Hall.
  apply forallb_forall. intros it Hit. apply list_elem_of_In in Hit.
  apply bool_decide_eq_true. apply (Hvalid l eq_refl it Hit).
Qed.

(** What [onMergeSuccess] does to the chunk list and to the index of small
    chunks. *)
Lemma onMergeSuccess_spec st request cmove cwith :
  wf st ->
  chunkToMove request <> chunkToMergeWith request ->
  deref (_collectionChunks st) (chunkToMove request) = Some cmove ->
  deref (_collectionChunks st) (chunkToMergeWith request) = Some cwith ->
  exists st',
    onMergeSuccess request st = Some st' /\
    st' = with_smallChunksByShard (_smallChunksByShard st')
            (with_collectionChunks (_collectionChunks st') st) /\
    deref (_collectionChunks st') (chunkToMergeWith request) =
      Some (mkChunkRangeInfo
              (mkChunkRange
                 (if _isChunkToMergeLeftSibling request
                  then getMin (range cwith) else getMin (range cmove))
                 (if _isChunkToMergeLeftSibling request
                  then getMax (range cmove) else getMax (range cwith)))
              (shard cwith)
              (wrapS64 (estimatedSizeBytes cwith + estimatedSizeBytes cmove))
              false) /\
    (chunkToMove request ∉ (_collectionChunks st').*1) /\
    NoDup (_collectionChunks st').*1 /\
    (forall it, it <> chunkToMove request -> it <> chunkToMergeWith request ->
       deref (_collectionChunks st') it = deref (_collectionChunks st) it) /\
    (forall s l', _smallChunksByShard st' !! s = Some l' ->
       (chunkToMove request ∉ l') /\
       exists l, _smallChunksByShard st !! s = Some l /\ NoDup l' /\
                 forall x, x ∈ l' -> x ∈ l).
Proof.
  intros [Hnd Hsmall] Hne Hm Hw.
  unfold onMergeSuccess, asMergedRange. rewrite Hm, Hw. cbn -[update erase wrapS64].
  rewrite deref_update_eq, Hw. cbn -[update erase wrapS64].
  rewrite deref_update_ne, Hm by congruence. cbn -[update erase wrapS64].
  rewrite !deref_update_ne, Hm by congruence. cbn -[update erase wrapS64].
  set (merged := mkChunkRangeInfo
              (mkChunkRange
                 (if _isChunkToMergeLeftSibling request
                  then getMin (range cwith) else getMin (range cmove))
                 (if _isChunkToMergeLeftSibling request
                  then getMax (range cmove) else getMax (range cwith)))
              (shard cwith)
              (wrapS64 (estimatedSizeBytes cwith + estimatedSizeBytes cmove))
              false).
  set (chunks := erase (chunkToMove request) _).
  assert (Hmerged : deref chunks (chunkToMergeWith request) = Some merged).
  { unfold chunks. rewrite deref_erase_ne by exact Hne.
    rewrite !deref_update_eq, Hw. reflexivity. }
  assert (Hgone : chunkToMove request ∉ chunks.*1).
  { unfold chunks. apply erase_not_elem. rewrite !fst_update. exact Hnd. }
  assert (Hnd' : NoDup chunks.*1).
  { unfold chunks. apply erase_NoDup. rewrite !fst_update. exact Hnd. }
  assert (Hother : forall it, it <> chunkToMove request -> it <> chunkToMergeWith request ->
             deref chunks it = deref (_collectionChunks st) it).
  { intros it H1 H2. unfold chunks. rewrite deref_erase_ne by congruence.
    rewrite !deref_update_ne by congruence. reflexivity. }
  set (st1 := _removeIteratorFromSmallChunks (chunkToMove request) (shard cmove)
                (with_collectionChunks chunks st)).
  assert (Hframe1 : st1 = with_smallChunksByShard (_smallChunksByShard st1)
                            (with_collectionChunks chunks st)).
  { unfold st1. rewrite <- _removeIteratorFromSmallChunks_frame. reflexivity. }
  assert (Hchunks1 : _collectionChunks st1 = chunks) by (rewrite Hframe1; reflexivity).
  assert (Hsmall1 : forall s l', _smallChunksByShard st1 !! s = Some l' ->
             (chunkToMove request ∉ l') /\
             exists l, _smallChunksByShard st !! s = Some l /\ NoDup l' /\
                       forall x, x ∈ l' -> x ∈ l).
  { intros s l' Hl'.
    destruct (_removeIteratorFromSmallChunks_shrinks (chunkToMove request) (shard cmove)
                (with_collectionChunks chunks st) s l' Hl') as (l & Hl & Hsub).
    simpl in Hl. destruct (Hsmall s l Hl) as [Hndl Hkeys].
    split.
    - destruct (decide (s = shard cmove)) as [->|Hs].
      + eapply (_removeIteratorFromSmallChunks_removed _ _ (with_collectionChunks chunks st));
          [exact Hl|exact Hndl|exact Hl'].
      + intros Hin. destruct (Hkeys _ (elem_of_sublist _ _ _ Hin Hsub)) as (c & Hc & Hsc).
        rewrite Hm in Hc. injection Hc as <-. congruence.
    - exists l. split; [exact Hl|]. split; [eapply sublist_NoDup; eassumption|].
      intros x Hx. eapply elem_of_sublist; eassumption. }
  fold st1. rewrite Hchunks1, Hmerged. cbn -[wrapS64].
  destruct (_smallChunkSizeThresholdBytes st1 <? _).
  - eexists. split; [reflexivity|].
    set (st2 := _removeIteratorFromSmallChunks _ _ st1).
    assert (Hframe2 : st2 = with_smallChunksByShard (_smallChunksByShard st2) st1).
    { apply _removeIteratorFromSmallChunks_frame. }
    assert (Hchunks2 : _collectionChunks st2 = chunks).
    { rewrite Hframe2. simpl. exact Hchunks1. }
    rewrite Hchunks2.
    split; [rewrite Hframe2 at 1; rewrite Hframe1 at 1; reflexivity|].
    split; [exact Hmerged|]. split; [exact Hgone|]. split; [exact Hnd'|].
    split; [exact Hother|].
    intros s l' Hl'.
    destruct (_removeIteratorFromSmallChunks_shrinks _ _ st1 s l' Hl') as (l1 & Hl1 & Hsub).
    destruct (Hsmall1 s l1 Hl1) as (Hni & l & Hl & Hndl1 & Hincl).
    split; [intros Hin; apply Hni; eapply elem_of_sublist; eassumption|].
    exists l. split; [exact Hl|]. split; [eapply sublist_NoDup; eassumption|].
    intros x Hx. apply Hincl. eapply elem_of_sublist; eassumption.
  - destruct (sortSmallChunksOf_Some (shard merged) st1) as [st2 Hst2].
    { intros l Hl it Hit. rewrite Hchunks1.
      destruct (Hsmall1 _ _ Hl) as (Hni & l0 & Hl0 & _ & Hincl).
      destruct (Hsmall _ _ Hl0) as [_ Hkeys].
      destruct (Hkeys it (Hincl it Hit)) as (c & Hc & _).
      destruct (decide (it = chunkToMergeWith request)) as [->|Hitw]; [rewrite Hmerged; eauto|].
      rewrite Hother; [rewrite Hc; eauto| |exact Hitw].
      intros ->. exact (Hni Hit). }
    exists st2. split; [exact Hst2|].
    destruct (sortSmallChunksOf_spec _ _ _ Hst2) as [Hframe2 Hperm].
    assert (Hchunks2 : _collectionChunks st2 = chunks).
    { rewrite Hframe2. simpl. exact Hchunks1. }
    rewrite Hchunks2.
    split; [rewrite Hframe2 at 1; rewrite Hframe1 at 1; reflexivity|].
    split; [exact Hmerged|]. split; [exact Hgone|]. split; [exact Hnd'|].
    split; [exact Hother|].
    intros s l' Hl'. destruct (Hperm s l' Hl') as (l1 & Hl1 & Hp).
    destruct (Hsmall1 s l1 Hl1) as (Hni & l & Hl & Hndl1 & Hincl).
    split; [rewrite Hp; exact Hni|].
    exists l. split; [exact Hl|]. split; [rewrite Hp; exact Hndl1|].
    intros x Hx. apply Hincl. rewrite <- Hp. exact Hx.
Qed.

Lemma wfb_wf st : wfb st = true -> wf st.
Proof.
  unfold wfb, wf. intros H. apply andb_true_iff in H as [Hnd Hall].
  split; [apply bool_decide_eq_true in Hnd; exact Hnd|].
  intros s l Hl. rewrite forallb_forall in Hall.
  specialize (Hall (s, l)). simpl in Hall.
  assert (Hin : In (s, l) (map_to_list (_smallChunksByShard st))).
  { apply list_elem_of_In. apply elem_of_map_to_list. exact Hl. }
  apply Hall in Hin. apply andb_true_iff in Hin as [Hndl Hits].
  split; [apply bool_decide_eq_true in Hndl; exact Hndl|].
  intros it Hit. rewrite forallb_forall in Hits.
  apply list_elem_of_In in Hit. apply Hits in Hit.
  destruct (deref (_collectionChunks st) it) as [c|]; [|discriminate].
  exists c. split; [reflexivity|]. apply bool_decide_eq_true in Hit. exact Hit.
Qed.

Lemma woCompare_eq a b : woCompare a b = 0 <-> woKey a = woKey b.
Proof.
  unfold woCompare.
  destruct (Z.compare_spec (woKey a) (woKey b)); split; intros; try discriminate; lia.
Qed.

Lemma woCompare_lt a b : woCompare a b < 0 <-> woKey a < woKey b.
Proof.
  unfold woCompare. destruct (Z.compare_spec (woKey a) (woKey b)); lia.
Qed.

Lemma woCompare_le a b : woCompare a b <= 0 <-> woKey a <= woKey b.
Proof.
  unfold woCompare. destruct (Z.compare_spec (woKey a) (woKey b)); lia.
Qed.

Lemma extractFirst_Some p l r rest :
  extractFirst p l = Some (Some (r, rest)) ->
  r ∈ l /\ rest `sublist_of` l /\ p r = Some true /\ l ≡ₚ r :: rest.
Proof.
  revert rest. induction l as [|x l IH]; intros rest; simpl; [discriminate|].
  destruct (p x) as [[|]|] eqn:Hp; simpl; [| |discriminate].
  - intros [= <- <-]. split; [left|]. split; [apply sublist_cons; reflexivity|].
    split; [exact Hp|reflexivity].
  - destruct (extractFirst p l) as [[[m l'']|]|]; simpl; [| discriminate|discriminate].
    intros [= <- <-]. destruct (IH _ eq_refl) as (H1 & H2 & H3 & H4).
    split; [right; exact H1|]. split; [apply sublist_skip; exact H2|].
    split; [exact H3|]. rewrite H4. apply Permutation_swap.
Qed.

(** C3. In a MoveAndMergeChunks phase that is not aborted, a merge
    acknowledged with success leaves the chunk the request merges with (its
    ranges adjacent to the moved chunk's) with the range from the smaller
    minimum to the larger maximum of the two chunks, with the sum of their
    estimated sizes and not busy; the moved chunk is gone from the chunk list
    and from the index of small chunks.  In an aborted phase the
    acknowledgement takes the request out of the outstanding merges and
    leaves everything else, the two chunks included, as it is. *)
Theorem merge_success st mergeAction request rest cmove cwith :
  wf st ->
  extractFirst (matchesMerge st mergeAction) (_outstandingMerges st) =
    Some (Some (request, rest)) ->
  chunkToMove request <> chunkToMergeWith request ->
  deref (_collectionChunks st) (chunkToMove request) = Some cmove ->
  deref (_collectionChunks st) (chunkToMergeWith request) = Some cwith ->
  _isChunkToMergeLeftSibling request =
    bool_decide (woCompare (getMax (range cwith)) (getMin (range cmove)) = 0) ->
  woCompare (getMin (range cmove)) (getMax (range cmove)) < 0 ->
  woCompare (getMin (range cwith)) (getMax (range cwith)) < 0 ->
  woCompare (getMax (range cwith)) (getMin (range cmove)) = 0 \/
  woCompare (getMax (range cmove)) (getMin (range cwith)) = 0 ->
  - 2 ^ 63 <= estimatedSizeBytes cwith + estimatedSizeBytes cmove < 2 ^ 63 ->
  (_aborted st = true ->
   applyActionResult (ActMergeInfo mergeAction) (RespStatus StatusOK) st =
     Ok tt (with_outstandingMerges rest st)) /\
  (_aborted st = false ->
   exists st' merged,
     applyActionResult (ActMergeInfo mergeAction) (RespStatus StatusOK) st = Ok tt st' /\
     deref (_collectionChunks st') (chunkToMergeWith request) = Some merged /\
     range merged =
       mkChunkRange
         (if woCompare (getMin (range cwith)) (getMin (range cmove)) <=? 0
          then getMin (range cwith) else getMin (range cmove))
         (if woCompare (getMax (range cmove)) (getMax (range cwith)) <=? 0
          then getMax (range cwith) else getMax (range cmove)) /\
     estimatedSizeBytes merged = estimatedSizeBytes cwith + estimatedSizeBytes cmove /\
     busyInOperation merged = false /\
     shard merged = shard cwith /\
     (chunkToMove request ∉ (_collectionChunks st').*1) /\
     deref (_collectionChunks st') (chunkToMove request) = None /\
     (forall s l, _smallChunksByShard st' !! s = Some l -> chunkToMove request ∉ l) /\
     _outstandingMerges st' = rest).
Proof.
  intros Hwf Hextract Hne Hm Hw Hflag Hnm Hnw Hadj Hsum.
  split; intros Hab.
  { unfold applyActionResult, applyMergeResult. rewrite Hextract.
    cbn -[onMergeSuccess]. rewrite Hab. reflexivity. }
  unfold applyActionResult, applyMergeResult. rewrite Hextract.
  cbn -[onMergeSuccess]. rewrite Hab. unfold handleActionResult. cbn -[onMergeSuccess].
  set (st0 := with_outstandingMerges rest st).
  assert (Hwf0 : wf st0) by exact Hwf.
  destruct (onMergeSuccess_spec st0 request cmove cwith Hwf0 Hne Hm Hw)
    as (st' & Hrun & Hframe & Hmerged & Hgone & Hnd' & _ & Hsmall).
  rewrite Hrun. simpl.
  eexists st', _. split; [reflexivity|]. split; [exact Hmerged|].
  assert (Hd : deref (_collectionChunks st') (chunkToMove request) = None).
  { destruct (deref (_collectionChunks st') (chunkToMove request)) as [c|] eqn:Hc;
      [|reflexivity].
    exfalso. apply Hgone. apply list_elem_of_fmap. exists (chunkToMove request, c).
    split; [reflexivity|]. apply deref_Some_elem. exact Hc. }
  split_and!; try reflexivity; try assumption.
  - simpl. rewrite Hflag.
    apply woCompare_lt in Hnm, Hnw.
    destruct Hadj as [Hleft|Hright].
    + rewrite (bool_decide_eq_true_2 _ Hleft). apply woCompare_eq in Hleft.
      assert (H1 : (woCompare (getMin (range cwith)) (getMin (range cmove)) <=? 0) = true).
      { apply Z.leb_le, woCompare_le. lia. }
      assert (H2 : (woCompare (getMax (range cmove)) (getMax (range cwith)) <=? 0) = false).
      { apply Z.leb_nle. rewrite woCompare_le. lia. }
      rewrite H1, H2. reflexivity.
    + apply woCompare_eq in Hright.
      rewrite bool_decide_eq_false_2 by (rewrite woCompare_eq; lia).
      assert (H1 : (woCompare (getMin (range cwith)) (getMin (range cmove)) <=? 0) = false).
      { apply Z.leb_nle. rewrite woCompare_le. lia. }
      assert (H2 : (woCompare (getMax (range cmove)) (getMax (range cwith)) <=? 0) = true).
      { apply Z.leb_le, woCompare_le. lia. }
      rewrite H1, H2. reflexivity.
  - simpl. apply wrapS64_small. exact Hsum.
  - intros s l Hl. apply (Hsmall s l Hl).
  - rewrite Hframe. reflexivity.
Qed.

(** ** What each call does to the state *)

Lemma buildMigration_Throw env small siblings usedShards st st' usedShards' :
  buildMigration env small siblings usedShards st = Throw (st', usedShards') ->
  exists target,
    st' = with_collectionChunks
            (update (set_busyInOperation true) target
               (update (set_busyInOperation true) small (_collectionChunks st))) st /\
    usedShards ⊆ usedShards'.
Proof.
  unfold buildMigration.
  destruct (chooseTargetSibling st small siblings) as [target|]; [|discriminate].
  destruct (deref (_collectionChunks st) small) as [csmall|]; [|discriminate].
  destruct (deref (_collectionChunks st) target) as [ctarget|]; [|discriminate].
  cbn -[update]. destruct (getShardVersion _ _ _) as [v|].
  - destruct (newMoveAndMergeRequest _ _ _); [|discriminate].
    destruct (asMigrateInfo _ _ _ _ _); discriminate.
  - intros [= <- <-]. exists target. split; [reflexivity|]. set_solver.
Qed.

Lemma buildMigration_not_None env small siblings usedShards st s :
  buildMigration env small siblings usedShards st <> Ok None s.
Proof.
  unfold buildMigration.
  destruct (chooseTargetSibling st small siblings) as [target|]; [|discriminate].
  destruct (deref (_collectionChunks st) small) as [csmall|]; [|discriminate].
  destruct (deref (_collectionChunks st) target) as [ctarget|]; [|discriminate].
  cbn -[update]. destruct (getShardVersion _ _ _) as [v|]; [|discriminate].
  destruct (newMoveAndMergeRequest _ _ _); [|discriminate].
  destruct (asMigrateInfo _ _ _ _ _); discriminate.
Qed.

Lemma popNextMigrationFrom_None env order usedShards st st' usedShards' :
  popNextMigrationFrom env order usedShards st = Ok None (st', usedShards') ->
  st' = with_smallChunksByShard (_smallChunksByShard st') st /\
  smallIndexShrinks (_smallChunksByShard st') (_smallChunksByShard st) /\
  usedShards' = usedShards.
Proof.
  revert st. induction order as [|shardId rest IH]; intros st; simpl.
  - intros [= <- <-]. split; [destruct st; reflexivity|].
    split; [apply smallIndexShrinks_refl|reflexivity].
  - destruct (bool_decide (shardId ∈ usedShards)); [apply IH|].
    destruct (_findNextSmallChunkInShard shardId usedShards st) as [[[[c sibs]|] st1]|] eqn:Hfind;
      [| |discriminate].
    + intros H. exfalso. exact (buildMigration_not_None _ _ _ _ _ _ H).
    + intros H. destruct (IH _ H) as (Hframe & Hshr & Hused).
      pose proof (_findNextSmallChunkInShard_frame _ _ _ _ _ Hfind) as Hframe1.
      pose proof (_findNextSmallChunkInShard_shrinks _ _ _ _ _ Hfind) as Hshr1.
      split; [rewrite Hframe, Hframe1; reflexivity|].
      split; [eapply smallIndexShrinks_trans; eassumption|exact Hused].
Qed.

Lemma popNextMigrationFrom_Throw env order usedShards st st' usedShards' :
  popNextMigrationFrom env order usedShards st = Throw (st', usedShards') ->
  exists small target,
    st' = with_collectionChunks
            (update (set_busyInOperation true) target
               (update (set_busyInOperation true) small (_collectionChunks st)))
            (with_smallChunksByShard (_smallChunksByShard st') st) /\
    smallIndexShrinks (_smallChunksByShard st') (_smallChunksByShard st) /\
    usedShards ⊆ usedShards'.
Proof.
  revert st. induction order as [|shardId rest IH]; intros st; simpl; [discriminate|].
  destruct (bool_decide (shardId ∈ usedShards)); [apply IH|].
  destruct (_findNextSmallChunkInShard shardId usedShards st) as [[[[c sibs]|] st1]|] eqn:Hfind;
    [| |discriminate];
    pose proof (_findNextSmallChunkInShard_frame _ _ _ _ _ Hfind) as Hframe1;
    pose proof (_findNextSmallChunkInShard_shrinks _ _ _ _ _ Hfind) as Hshr1.
  - intros H. destruct (buildMigration_Throw _ _ _ _ _ _ _ H) as (target & Hst' & Hsub).
    exists c, target. rewrite Hframe1 in Hst'. rewrite Hst'.
    split; [reflexivity|]. split; [exact Hshr1|exact Hsub].
  - intros H. destruct (IH _ H) as (small & target & Hframe & Hshr & Hused).
    exists small, target. split; [rewrite Hframe, Hframe1; reflexivity|].
    split; [eapply smallIndexShrinks_trans; eassumption|exact Hused].
Qed.

Lemma popNextStreamableAction_spec env st :
  match popNextStreamableAction env st with
  | Ok (Some _) st' | Throw st' =>
      exists r rest,
        _actionableMerges st = r :: rest /\
        st' = with_actionableMerges rest
                (with_outstandingMerges (_outstandingMerges st ++ [r]) st)
  | Ok None st' => st' = st /\ _actionableMerges st = []
  | _ => True
  end.
Proof.
  unfold popNextStreamableAction.
  destruct (_actionableMerges st) as [|r rest]; [split; reflexivity|].
  cbn -[getDestinationShard getShardVersion asMergeInfo].
  destruct (getDestinationShard _ r) as [d|]; [|exact I].
  destruct (getShardVersion env d _) as [v|]; [|eauto].
  destruct (asMergeInfo _ _ _ _ _); [eauto|exact I].
Qed.

Lemma popNextStreamableAction_moves env st st' :
  (exists action, popNextStreamableAction env st = Ok (Some action) st') \/
  popNextStreamableAction env st = Throw st' ->
  exists r rest,
    _actionableMerges st = r :: rest /\
    st' = with_actionableMerges rest (with_outstandingMerges (_outstandingMerges st ++ [r]) st).
Proof.
  pose proof (popNextStreamableAction_spec env st) as Hspec.
  intros [[a H]|H]; rewrite H in Hspec; exact Hspec.
Qed.

Lemma popNextStreamableAction_None env st st' :
  popNextStreamableAction env st = Ok None st' -> st' = st.
Proof.
  pose proof (popNextStreamableAction_spec env st) as Hspec.
  intros H. rewrite H in Hspec. apply Hspec.
Qed.

Lemma onMigrationSuccess_frame r st st' :
  onMigrationSuccess r st = Some st' ->
  st' = with_actionableMerges (_actionableMerges st ++ [r])
          (with_shardProcessingOrder (_shardProcessingOrder st')
             (with_shardInfos (_shardInfos st') st)).
Proof.
  unfold onMigrationSuccess.
  destruct (getMovedDataSizeBytes _ r); [|discriminate]. cbn.
  destruct (getSourceShard _ r); [|discriminate]. cbn.
  destruct (_shardInfos st !! _); [|discriminate]. cbn.
  destruct (getDestinationShard _ r); [|discriminate]. cbn.
  destruct (_ !! _); [|discriminate]. cbn.
  destruct (sortShardProcessingOrder _ _); [|discriminate]. cbn.
  intros [= <-]. reflexivity.
Qed.

Lemma onMigrationRetriableError_frame r st st' :
  onMigrationRetriableError r st = Some st' ->
  st' = with_collectionChunks
          (update (set_busyInOperation false) (chunkToMergeWith r)
             (update (set_busyInOperation false) (chunkToMove r) (_collectionChunks st))) st.
Proof.
  unfold onMigrationRetriableError. intros H.
  destruct (deref (_collectionChunks st) (chunkToMove r)); [|discriminate].
  cbn -[update] in H.
  destruct (deref _ (chunkToMergeWith r)); [|discriminate].
  cbn -[update] in H. injection H as <-. reflexivity.
Qed.

Lemma update_update f g it (l : ChunkRangeInfos) :
  update f it (update g it l) = update (fun c => f (g c)) it l.
Proof.
  induction l as [|[i c] l IH]; simpl; [reflexivity|].
  destruct (decide (i = it)) as [->|Hne]; simpl.
  - destruct (decide (it = it)); [reflexivity|contradiction].
  - destruct (decide (i = it)); [contradiction|]. f_equal. exact IH.
Qed.

Lemma onMergeSuccess_frame r st st' :
  onMergeSuccess r st = Some st' ->
  exists f,
    st' = with_smallChunksByShard (_smallChunksByShard st')
            (with_collectionChunks
               (erase (chunkToMove r)
                  (update (fun c => set_busyInOperation false (f c)) (chunkToMergeWith r)
                     (_collectionChunks st))) st).
Proof.
  unfold onMergeSuccess.
  destruct (asMergedRange _ r) as [mergedRange|]; [|discriminate]. cbn -[update erase wrapS64].
  destruct (deref _ (chunkToMergeWith r)) as [merged|]; [|discriminate].
  cbn -[update erase wrapS64].
  destruct (deref _ (chunkToMove r)) as [deleted|]; [|discriminate].
  cbn -[update erase wrapS64].
  destruct (deref _ (chunkToMove r)) as [deleted'|]; [|discriminate].
  cbn -[update erase wrapS64].
  rewrite !update_update.
  set (st0 := with_collectionChunks _ st).
  set (st1 := _removeIteratorFromSmallChunks _ _ st0).
  assert (Hframe1 : st1 = with_smallChunksByShard (_smallChunksByShard st1) st0)
    by apply _removeIteratorFromSmallChunks_frame.
  destruct (deref (_collectionChunks st1) _) as [merged'|]; [|discriminate].
  cbn -[update erase wrapS64].
  destruct (_ <? _).
  - intros [= <-].
    exists (fun c => set_estimatedSizeBytes
                       (wrapS64 (estimatedSizeBytes merged + estimatedSizeBytes deleted))
                       (set_range mergedRange c)).
    set (st2 := _removeIteratorFromSmallChunks _ _ st1).
    assert (Hframe2 : st2 = with_smallChunksByShard (_smallChunksByShard st2) st1)
      by apply _removeIteratorFromSmallChunks_frame.
    clearbody st2 st1. subst st0. rewrite Hframe2, Hframe1. reflexivity.
  - intros H. apply sortSmallChunksOf_spec in H as [H _].
    exists (fun c => set_estimatedSizeBytes
                       (wrapS64 (estimatedSizeBytes merged + estimatedSizeBytes deleted))
                       (set_range mergedRange c)).
    clearbody st1. subst st0. rewrite H, Hframe1. reflexivity.
Qed.

(** ** Merges come after successful migrations *)

Lemma buildMigration_maxKey env small siblings usedShards st info st' usedShards' :
  buildMigration env small siblings usedShards st = Ok (Some info) (st', usedShards') ->
  exists csmall,
    deref (_collectionChunks st) small = Some csmall /\
    mig_maxKey info = getMax (range csmall) /\ mig_nss info = _nss st.
Proof.
  unfold buildMigration.
  destruct (chooseTargetSibling st small siblings) as [target|]; [|discriminate].
  destruct (deref (_collectionChunks st) small) as [csmall|] eqn:Hs; [|discriminate].
  destruct (deref (_collectionChunks st) target) as [ctarget|] eqn:Ht; [|discriminate].
  cbn -[update]. destruct (getShardVersion _ _ _) as [v|]; [|discriminate].
  unfold newMoveAndMergeRequest, asMigrateInfo. cbn -[update].
  rewrite !deref_set_busy, Hs, Ht. cbn -[update].
  rewrite !deref_set_busy, Hs, Ht. cbn -[update].
  intros [= <- <- <-].
  exists csmall. repeat split; repeat (destruct (decide _)); reflexivity.
Qed.

(** The request [popNextMigration] registers and the keys of its migration. *)
Lemma popNextMigrationFrom_keys env order usedShards st info st' usedShards' :
  popNextMigrationFrom env order usedShards st = Ok (Some info) (st', usedShards') ->
  exists r csmall,
    _outstandingMigrations st' = _outstandingMigrations st ++ [r] /\
    deref (_collectionChunks st) (chunkToMove r) = Some csmall /\
    mig_maxKey info = getMax (range csmall) /\ mig_nss info = _nss st.
Proof.
  revert st. induction order as [|shardId rest IH]; intros st; simpl; [discriminate|].
  destruct (bool_decide (shardId ∈ usedShards)); [apply IH|].
  destruct (_findNextSmallChunkInShard shardId usedShards st) as [[[[c sibs]|] st1]|] eqn:Hfind;
    [| |discriminate];
    pose proof (_findNextSmallChunkInShard_frame _ _ _ _ _ Hfind) as Hframe.
  - intros Hbuild.
    destruct (buildMigration_Ok _ _ _ _ _ _ _ _ Hbuild)
      as (target & csmall & ctarget & _ & _ & _ & Hst' & _).
    destruct (buildMigration_maxKey _ _ _ _ _ _ _ _ Hbuild) as (csmall' & Hds' & Hmax & Hnss).
    rewrite Hframe in Hds', Hst', Hnss. simpl in Hds', Hnss.
    eexists _, csmall'. split; [rewrite Hst'; reflexivity|]. simpl.
    split; [exact Hds'|]. split; assumption.
  - intros H. destruct (IH _ H) as (r & csmall & Hout & Hd & Hmax & Hnss).
    rewrite Hframe in Hout, Hd, Hnss. simpl in Hout, Hd, Hnss.
    exists r, csmall. split_and!; assumption.
Qed.

Lemma keys_set_busy b it (l : ChunkRangeInfos) it' :
  (fun c => (range c, shard c)) <$> deref (update (set_busyInOperation b) it l) it' =
  (fun c => (range c, shard c)) <$> deref l it'.
Proof.
  rewrite deref_set_busy. destruct (deref l it') as [c|]; [|reflexivity]. simpl.
  destruct (decide (it = it')); reflexivity.
Qed.

(** A migration stays the one of its request as long as the two chunks of
    the request keep their ranges and their shards. *)
Lemma migrationOf_frame st st' r info :
  _uuid st' = _uuid st -> _nss st' = _nss st ->
  (forall it, it ∈ chunksOf r ->
     (fun c => (range c, shard c)) <$> deref (_collectionChunks st') it =
     (fun c => (range c, shard c)) <$> deref (_collectionChunks st) it) ->
  migrationOf st r info -> migrationOf st' r info.
Proof.
  intros Huuid Hnss Hkeys (cm & cw & Hm & Hw & Hfrom & Hto & Hmin & Hmax & Hu & Hn).
  pose proof (Hkeys (chunkToMove r) ltac:(left)) as Hkm.
  pose proof (Hkeys (chunkToMergeWith r) ltac:(right; left)) as Hkw.
  rewrite Hm in Hkm. rewrite Hw in Hkw.
  destruct (deref (_collectionChunks st') (chunkToMove r)) as [cm'|] eqn:Hm';
    [|discriminate].
  destruct (deref (_collectionChunks st') (chunkToMergeWith r)) as [cw'|] eqn:Hw';
    [|discriminate].
  simpl in Hkm, Hkw. injection Hkm as Hrm Hsm. injection Hkw as Hrw Hsw.
  exists cm', cw'. rewrite Hrm, Hsm, Hsw, Huuid, Hnss.
  split_and!; assumption.
Qed.

Lemma migrationOf_same_chunks st st' r info :
  _uuid st' = _uuid st -> _nss st' = _nss st ->
  _collectionChunks st' = _collectionChunks st ->
  migrationOf st r info -> migrationOf st' r info.
Proof.
  intros Hu Hn Hc. apply migrationOf_frame; [exact Hu|exact Hn|].
  intros it _. rewrite Hc. reflexivity.
Qed.

(** The merge [popNextStreamableAction] returns is the one of the first
    actionable request. *)
Lemma popNextStreamableAction_mergeOf env st action st' r rest info :
  _actionableMerges st = r :: rest ->
  popNextStreamableAction env st = Ok (Some action) st' ->
  migrationOf st r info ->
  mergeOf r info action.
Proof.
  intros Hact Hpop (cm & cw & Hm & Hw & Hfrom & Hto & Hmin & Hmax & Hu & Hn).
  unfold popNextStreamableAction in Hpop. rewrite Hact in Hpop.
  unfold getDestinationShard, asMergeInfo, asMergedRange in Hpop. simpl in Hpop.
  rewrite Hm, Hw in Hpop. simpl in Hpop.
  destruct (getShardVersion env (shard cw) (_uuid st)) as [v|]; [|discriminate].
  injection Hpop as <- _.
  eexists. split; [reflexivity|]. simpl. split_and!; try congruence.
  destruct (_isChunkToMergeLeftSibling r); simpl; congruence.
Qed.

Lemma migrated_app tr l r info i :
  migrated tr r info i -> (i <= length tr)%nat -> migrated (tr ++ l) r info i.
Proof.
  intros (k & j & acked & Hkj & Hji & Hk & Hj & Hkey & Hno) Hi.
  exists k, j, acked. split_and!; try assumption.
  - rewrite lookup_app_l by lia. exact Hk.
  - rewrite lookup_app_l by lia. exact Hj.
  - intros k' info' H1 H2. rewrite lookup_app_l by lia. apply Hno; assumption.
Qed.

Lemma migrated_snoc tr ev r info :
  migrated tr r info (length tr) -> (forall info', ev <> EvMigration r info') ->
  migrated (tr ++ [ev]) r info (length (tr ++ [ev])).
Proof.
  intros (k & j & acked & Hkj & Hji & Hk & Hj & Hkey & Hno) Hev.
  exists k, j, acked. rewrite length_app. simpl. split_and!; try assumption; try lia.
  - rewrite lookup_app_l by lia. exact Hk.
  - rewrite lookup_app_l by lia. exact Hj.
  - intros k' info' H1 H2. destruct (decide (k' = length tr)) as [->|Hne].
    + rewrite lookup_app_r by lia. rewrite Nat.sub_diag. simpl.
      intros [= Heq]. exact (Hev info' Heq).
    + rewrite lookup_app_l by lia. apply Hno; lia.
Qed.

Lemma merges_snoc tr ev :
  (forall i r action, tr !! i = Some (EvMerge r action) ->
     exists info, migrated tr r info i /\ mergeOf r info action) ->
  (forall r action, ev = EvMerge r action ->
     exists info, migrated tr r info (length tr) /\ mergeOf r info action) ->
  forall i r action, (tr ++ [ev]) !! i = Some (EvMerge r action) ->
    exists info, migrated (tr ++ [ev]) r info i /\ mergeOf r info action.
Proof.
  intros Hold Hnew i r action Hi.
  destruct (decide (i < length tr)%nat) as [Hlt|Hge].
  - rewrite lookup_app_l in Hi by exact Hlt.
    destruct (Hold i r action Hi) as (info & Hmig & Hmerge).
    exists info. split; [apply migrated_app; [exact Hmig|lia]|exact Hmerge].
  - rewrite lookup_app_r in Hi by lia.
    destruct (i - length tr)%nat as [|n] eqn:Hn; simpl in Hi; [|discriminate].
    injection Hi as ->. assert (i = length tr) as -> by lia.
    destruct (Hnew r action eq_refl) as (info & Hmig & Hmerge).
    exists info. split; [apply migrated_app; [exact Hmig|lia]|exact Hmerge].
Qed.

Lemma requestsBusy_perm st st' :
  _collectionChunks st' = _collectionChunks st ->
  requests st' ≡ₚ requests st ->
  requestsBusy st -> requestsBusy st'.
Proof.
  intros Hchunks Hperm [Hnd Hbusy]. split.
  - rewrite Hperm. exact Hnd.
  - intros r it c Hr Hit Hc. rewrite Hchunks in Hc. rewrite Hperm in Hr. eauto.
Qed.

Lemma requestsBusy_sublist st st' :
  _collectionChunks st' = _collectionChunks st ->
  requests st' `sublist_of` requests st ->
  requestsBusy st -> requestsBusy st'.
Proof.
  intros Hchunks Hsub [Hnd Hbusy]. split.
  - eapply sublist_NoDup; [exact Hnd|]. apply bind_sublist. exact Hsub.
  - intros r it c Hr Hit Hc. rewrite Hchunks in Hc.
    eapply Hbusy; [eapply elem_of_sublist; eassumption|exact Hit|exact Hc].
Qed.

Lemma deref_set_busy_true small target chunks it c :
  deref (update (set_busyInOperation true) target
           (update (set_busyInOperation true) small chunks)) it = Some c ->
  exists c0,
    deref chunks it = Some c0 /\
    (busyInOperation c0 = true -> busyInOperation c = true) /\
    (it = small \/ it = target -> busyInOperation c = true).
Proof.
  rewrite !deref_set_busy. destruct (deref chunks it) as [c0|]; [|discriminate].
  simpl. intros [= <-]. exists c0. split; [reflexivity|].
  destruct (decide (target = it)), (decide (small = it)); simpl; split; intros; try reflexivity;
    try assumption; destruct H; congruence.
Qed.

Lemma requestsBusy_set_busy small target st st' :
  _collectionChunks st' =
    update (set_busyInOperation true) target
      (update (set_busyInOperation true) small (_collectionChunks st)) ->
  requests st' = requests st ->
  requestsBusy st -> requestsBusy st'.
Proof.
  intros Hchunks Hreq [Hnd Hbusy]. split; [rewrite Hreq; exact Hnd|].
  intros r it c Hr Hit Hc. rewrite Hchunks in Hc. rewrite Hreq in Hr.
  destruct (deref_set_busy_true _ _ _ _ _ Hc) as (c0 & Hc0 & Himp & _).
  apply Himp. eauto.
Qed.

Lemma not_busy_not_requested st it c :
  requestsBusy st ->
  deref (_collectionChunks st) it = Some c -> busyInOperation c = false ->
  it ∉ requests st ≫= chunksOf.
Proof.
  intros [_ Hbusy] Hc Hb Hin. apply list_elem_of_bind in Hin as (r & Hit & Hr).
  rewrite (Hbusy r it c Hr Hit Hc) in Hb. discriminate.
Qed.

(** The invariant after [popNextMigration] returned a migration. *)
Lemma invariant_migration tr env usedShards st info st' usedShards' r :
  invariant tr st ->
  popNextMigration env usedShards st = Ok (Some info) (st', usedShards') ->
  last (_outstandingMigrations st') = Some r ->
  invariant (tr ++ [EvMigration r info]) st'.
Proof.
  intros (Hnd & Hbusy & [Hh1 Hh2] & Hmerges) Hpop Hlast.
  destruct (popNextMigrationFrom_Some _ _ _ _ _ _ _ Hnd Hpop)
    as (s & l & small & target & csmall & ctarget & idx & _ & _ & _ & _ & Hds & Hdt & Hne
        & Hbs & Hbt & _ & _ & _ & Hst' & _ & Hto & Hfrom & Hmin & Huuid).
  destruct (popNextMigrationFrom_keys _ _ _ _ _ _ _ Hpop)
    as (r' & cs' & Hout & Hd' & Hmax & Hnss).
  set (r0 := mkMoveAndMergeRequest small target _) in Hst'.
  assert (Hr : r = r0).
  { rewrite Hst' in Hlast. simpl in Hlast. rewrite last_snoc in Hlast. congruence. }
  subst r.
  assert (Hr' : r' = r0).
  { rewrite Hst' in Hout. simpl in Hout. apply app_inj_tail in Hout as [_ Hout].
    symmetry. exact Hout. }
  subst r'. simpl in Hd'. rewrite Hds in Hd'. injection Hd' as <-.
  assert (Hreq : requests st' ≡ₚ r0 :: requests st).
  { rewrite Hst'. unfold requests. simpl. rewrite <- app_assoc. simpl.
    symmetry. apply Permutation_cons_app. reflexivity. }
  pose proof (not_busy_not_requested _ _ _ Hbusy Hds Hbs) as Hsmall.
  pose proof (not_busy_not_requested _ _ _ Hbusy Hdt Hbt) as Htarget.
  assert (Hkeep : forall r1 info1, migrationOf st r1 info1 -> migrationOf st' r1 info1).
  { intros r1 info1. apply migrationOf_frame; rewrite Hst'; simpl; try reflexivity.
    intros it _. rewrite !keys_set_busy. reflexivity. }
  assert (Hnew : migrationOf st' r0 info).
  { exists (set_busyInOperation true csmall), (set_busyInOperation true ctarget).
    rewrite Hst'. simpl. rewrite !deref_set_busy, Hds, Hdt. simpl.
    destruct (decide (target = small)) as [E|_]; [contradiction|].
    destruct (decide (small = small)) as [_|E]; [|contradiction].
    destruct (decide (target = target)) as [_|E]; [|contradiction].
    destruct (decide (small = target)) as [E|_]; [congruence|].
    split_and!; try reflexivity; assumption. }
  split_and!.
  - rewrite Hst'. simpl. rewrite !fst_update. exact Hnd.
  - split.
    + rewrite Hreq. simpl. apply NoDup_cons. split.
      * apply not_elem_of_cons. split; [congruence|exact Hsmall].
      * apply NoDup_cons. split; [exact Htarget|apply Hbusy].
    + intros r it c Hr Hit Hc. rewrite Hst' in Hc. simpl in Hc.
      destruct (deref_set_busy_true _ _ _ _ _ Hc) as (c0 & Hc0 & Himp & Hnew').
      rewrite Hreq in Hr. apply elem_of_cons in Hr as [->|Hr].
      * apply Hnew'. apply elem_of_cons in Hit as [->|Hit]; [left; reflexivity|].
        apply list_elem_of_singleton in Hit as ->. right; reflexivity.
      * apply Himp. destruct Hbusy as [_ Hb]. eauto.
  - split.
    + intros r Hr. rewrite Hst' in Hr. simpl in Hr.
      apply elem_of_app in Hr as [Hr|Hr].
      * destruct (Hh1 r Hr) as (info1 & Hin & Hof). exists info1.
        split; [apply elem_of_app; left; exact Hin|apply Hkeep; exact Hof].
      * apply list_elem_of_singleton in Hr as ->. exists info.
        split; [apply elem_of_app; right; left|exact Hnew].
    + intros r Hr. rewrite Hst' in Hr. simpl in Hr.
      destruct (Hh2 r Hr) as (info1 & Hmig & Hof). exists info1.
      split; [|apply Hkeep; exact Hof].
      apply migrated_snoc; [exact Hmig|].
      intros info' [= Heq _]. apply Hsmall. apply list_elem_of_bind. exists r.
      split; [rewrite <- Heq; left|].
      unfold requests. apply elem_of_app. right. exact Hr.
  - apply merges_snoc; [exact Hmerges|]. intros r action [=].
Qed.

(** The invariant after a call of [popNextMigration] without a migration. *)
Lemma invariant_no_migration tr env usedShards st st' usedShards' :
  invariant tr st ->
  popNextMigration env usedShards st = Ok None (st', usedShards') \/
  popNextMigration env usedShards st = Throw (st', usedShards') ->
  invariant tr st'.
Proof.
  intros (Hnd & Hbusy & [Hh1 Hh2] & Hmerges) [Hpop|Hpop].
  - destruct (popNextMigrationFrom_None _ _ _ _ _ _ Hpop) as (Hst' & _).
    assert (Hkeep : forall r1 info1, migrationOf st r1 info1 -> migrationOf st' r1 info1).
    { intros r1 info1. apply migrationOf_same_chunks; rewrite Hst'; reflexivity. }
    split_and!; try assumption.
    + rewrite Hst'. exact Hnd.
    + eapply requestsBusy_perm; [| |exact Hbusy]; rewrite Hst'; reflexivity.
    + split; intros r Hr; rewrite Hst' in Hr; simpl in Hr.
      * destruct (Hh1 r Hr) as (info1 & Hin & Hof). eauto.
      * destruct (Hh2 r Hr) as (info1 & Hmig & Hof). eauto.
  - destruct (popNextMigrationFrom_Throw _ _ _ _ _ _ Hpop) as (small & target & Hst' & _).
    assert (Hkeep : forall r1 info1, migrationOf st r1 info1 -> migrationOf st' r1 info1).
    { intros r1 info1. apply migrationOf_frame; rewrite Hst'; simpl; try reflexivity.
      intros it _. rewrite !keys_set_busy. reflexivity. }
    split_and!; try assumption.
    + rewrite Hst'. simpl. rewrite !fst_update. exact Hnd.
    + eapply (requestsBusy_set_busy small target); [| |exact Hbusy]; rewrite Hst'; reflexivity.
    + split; intros r Hr; rewrite Hst' in Hr; simpl in Hr.
      * destruct (Hh1 r Hr) as (info1 & Hin & Hof). eauto.
      * destruct (Hh2 r Hr) as (info1 & Hmig & Hof). eauto.
Qed.

(** The invariant after [popNextStreamableAction] moved a request to the
    outstanding merges. *)
Lemma invariant_merge_moved tr st st' r rest :
  invariant tr st ->
  _actionableMerges st = r :: rest ->
  st' = with_actionableMerges rest (with_outstandingMerges (_outstandingMerges st ++ [r]) st) ->
  invariant tr st' /\
  exists info, migrated tr r info (length tr) /\ migrationOf st r info.
Proof.
  intros (Hnd & Hbusy & [Hh1 Hh2] & Hmerges) Hact Hst'.
  assert (Hperm : _actionableMerges st' ++ _outstandingMerges st' ≡ₚ
                  _actionableMerges st ++ _outstandingMerges st).
  { rewrite Hst', Hact. simpl. rewrite app_assoc. rewrite <- Permutation_cons_append.
    reflexivity. }
  assert (Hkeep : forall r1 info1, migrationOf st r1 info1 -> migrationOf st' r1 info1).
  { intros r1 info1. apply migrationOf_same_chunks; rewrite Hst'; reflexivity. }
  split.
  - split_and!; try assumption.
    + rewrite Hst'. exact Hnd.
    + eapply requestsBusy_perm; [| |exact Hbusy]; [rewrite Hst'; reflexivity|].
      unfold requests. rewrite Hperm. rewrite Hst'. reflexivity.
    + split.
      * intros r' Hr'. rewrite Hst' in Hr'. simpl in Hr'.
        destruct (Hh1 r' Hr') as (info1 & Hin & Hof). eauto.
      * intros r' Hr'. rewrite Hperm in Hr'.
        destruct (Hh2 r' Hr') as (info1 & Hmig & Hof). eauto.
  - apply Hh2. rewrite Hact. left.
Qed.

Lemma applyMigrationResult_cases st migrationAction status r rest st' :
  extractFirst (matchesMigration st migrationAction) (_outstandingMigrations st) =
    Some (Some (r, rest)) ->
  applyActionResult (ActMigrateInfo migrationAction) (RespStatus status) st = Ok tt st' ->
  (_aborted st = true /\ st' = with_outstandingMigrations rest st) \/
  (_aborted st = false /\ status = StatusOK /\
   onMigrationSuccess r (with_outstandingMigrations rest st) = Some st') \/
  (_aborted st = false /\ status <> StatusOK /\
   onMigrationRetriableError r (with_outstandingMigrations rest st) = Some st') \/
  (_aborted st = false /\ status <> StatusOK /\
   st' = _abort kMergeChunks (with_outstandingMigrations rest st)).
Proof.
  intros Hextract. unfold applyActionResult, applyMigrationResult. rewrite Hextract.
  cbn -[onMigrationSuccess onMigrationRetriableError _abort].
  destruct (_aborted st); [intros [= <-]; left; auto|].
  unfold handleActionResult. destruct status as [|code]; simpl isOK; cbv iota.
  - destruct (onMigrationSuccess _ _) as [s|]; [|discriminate].
    intros [= <-]. right. left. auto.
  - destruct (isRetriableForDefragmentation _).
    + destruct (onMigrationRetriableError _ _) as [s|]; [|discriminate].
      intros [= <-]. right. right. left. split_and!; [reflexivity|discriminate|reflexivity].
    + intros [= <-]. right. right. right. split_and!; [reflexivity|discriminate|reflexivity].
Qed.

Lemma applyMergeResult_cases st mergeAction status r rest st' :
  extractFirst (matchesMerge st mergeAction) (_outstandingMerges st) =
    Some (Some (r, rest)) ->
  applyActionResult (ActMergeInfo mergeAction) (RespStatus status) st = Ok tt st' ->
  (_aborted st = true /\ st' = with_outstandingMerges rest st) \/
  (_aborted st = false /\ status = StatusOK /\
   onMergeSuccess r (with_outstandingMerges rest st) = Some st') \/
  (_aborted st = false /\ status <> StatusOK /\
   st' = with_actionableMerges (_actionableMerges st ++ [r])
           (with_outstandingMerges rest st)) \/
  (_aborted st = false /\ status <> StatusOK /\
   st' = _abort kMergeChunks (with_outstandingMerges rest st)).
Proof.
  intros Hextract. unfold applyActionResult, applyMergeResult. rewrite Hextract.
  cbn -[onMergeSuccess _abort].
  destruct (_aborted st); [intros [= <-]; left; auto|].
  unfold handleActionResult. destruct status as [|code]; simpl isOK; cbv iota.
  - destruct (onMergeSuccess _ _) as [s|]; [|discriminate].
    intros [= <-]. right. left. auto.
  - destruct (isRetriableForDefragmentation _).
    + intros [= <-]. right. right. left. split_and!; [reflexivity|discriminate|reflexivity].
    + intros [= <-]. right. right. right. split_and!; [reflexivity|discriminate|reflexivity].
Qed.

Lemma applyActionResult_Throw action response st st' :
  applyActionResult action response st = Throw st' -> st' = st.
Proof.
  unfold applyActionResult, applyMigrationResult, applyMergeResult, handleActionResult.
  destruct action; try (intros [= <-]; reflexivity).
  - destruct response; try discriminate.
    destruct (extractFirst _ _) as [[[r rest]|]|]; try discriminate.
    cbn -[onMergeSuccess _abort]. destruct (_aborted st); [discriminate|].
    destruct (isOK s); [destruct (onMergeSuccess _ _); discriminate|].
    destruct (isRetriableForDefragmentation s); discriminate.
  - destruct response; try discriminate.
    destruct (extractFirst _ _) as [[[r rest]|]|]; try discriminate.
    cbn -[onMigrationSuccess onMigrationRetriableError _abort].
    destruct (_aborted st); [discriminate|].
    destruct (isOK s); [destruct (onMigrationSuccess _ _); discriminate|].
    destruct (isRetriableForDefragmentation s); [|discriminate].
    destruct (onMigrationRetriableError _ _); discriminate.
Qed.

Lemma NoDup_bind_disjoint (l l' : list MoveAndMergeRequest) r :
  l ≡ₚ r :: l' -> NoDup (l ≫= chunksOf) ->
  forall r' it, r' ∈ l' -> it ∈ chunksOf r' -> it ∉ chunksOf r.
Proof.
  intros Hperm Hnd r' it Hr' Hit Hin. rewrite Hperm in Hnd. simpl in Hnd.
  change (NoDup (chunksOf r ++ (l' ≫= chunksOf))) in Hnd.
  apply NoDup_app in Hnd as (_ & Hdisj & _).
  apply (Hdisj it Hin). apply list_elem_of_bind. exists r'. split; assumption.
Qed.

Lemma deref_set_busy_false m w chunks it :
  it <> m -> it <> w ->
  deref (update (set_busyInOperation false) w (update (set_busyInOperation false) m chunks)) it
  = deref chunks it.
Proof. intros H1 H2. rewrite !deref_update_ne by congruence. reflexivity. Qed.

Lemma not_in_chunksOf it r :
  it ∉ chunksOf r -> it <> chunkToMove r /\ it <> chunkToMergeWith r.
Proof.
  intros H. split; intros ->; apply H; [left|right; left].
Qed.

Lemma matchesMigration_key st migrationAction r info :
  matchesMigration st migrationAction r = Some true ->
  migrationOf st r info ->
  woCompare (mig_minKey migrationAction) (mig_minKey info) = 0.
Proof.
  intros Hmatch (cm & cw & Hm & _ & _ & _ & Hmin & _).
  unfold matchesMigration, getMigrationMinKey in Hmatch. rewrite Hm in Hmatch.
  simpl in Hmatch. injection Hmatch as Hmatch. apply bool_decide_eq_true in Hmatch.
  rewrite Hmin. exact Hmatch.
Qed.

(** The invariant after the acknowledgement of a migration. *)
Lemma invariant_migration_ack tr st migrationAction status r rest st' :
  invariant tr st ->
  extractFirst (matchesMigration st migrationAction) (_outstandingMigrations st) =
    Some (Some (r, rest)) ->
  applyActionResult (ActMigrateInfo migrationAction) (RespStatus status) st = Ok tt st' ->
  invariant (tr ++ [EvMigrationAck r migrationAction status]) st'.
Proof.
  intros (Hnd & Hbusy & [Hh1 Hh2] & Hmerges) Hextract Happly.
  destruct (extractFirst_Some _ _ _ _ Hextract) as (Hr & Hsub & Hmatch & Hperm).
  assert (Hall : requests st ≡ₚ r :: (rest ++ _actionableMerges st ++ _outstandingMerges st)).
  { unfold requests. rewrite Hperm. reflexivity. }
  assert (Hsubreq : (rest ++ _actionableMerges st ++ _outstandingMerges st)
                      `sublist_of` requests st).
  { unfold requests. apply sublist_app; [exact Hsub|reflexivity]. }
  assert (Hold : forall r' info',
            migrated tr r' info' (length tr) ->
            migrated (tr ++ [EvMigrationAck r migrationAction status])
                     r' info' (length (tr ++ [EvMigrationAck r migrationAction status]))).
  { intros r' info' Hmig. apply migrated_snoc; [exact Hmig|discriminate]. }
  assert (Hm' : forall i r0 action,
            (tr ++ [EvMigrationAck r migrationAction status]) !! i = Some (EvMerge r0 action) ->
            exists info, migrated (tr ++ [EvMigrationAck r migrationAction status]) r0 info i /\
                         mergeOf r0 info action).
  { apply merges_snoc; [exact Hmerges|]. intros r0 action [=]. }
  assert (Hhist : forall st1,
            _outstandingMigrations st1 = rest ->
            (forall r1 info1, migrationOf st r1 info1 -> migrationOf st1 r1 info1) ->
            (forall r', r' ∈ _actionableMerges st1 ++ _outstandingMerges st1 ->
               r' ∈ _actionableMerges st ++ _outstandingMerges st \/
               (r' = r /\ status = StatusOK)) ->
            history (tr ++ [EvMigrationAck r migrationAction status]) st1).
  { intros st1 Hrest Hkeep Hmerged. split.
    - intros r' Hr'. rewrite Hrest in Hr'.
      destruct (Hh1 r' (elem_of_sublist _ _ _ Hr' Hsub)) as (info1 & Hin & Hof).
      exists info1. split; [apply elem_of_app; left; exact Hin|apply Hkeep; exact Hof].
    - intros r' Hr'. destruct (Hmerged r' Hr') as [Hin|[-> ->]].
      + destruct (Hh2 r' Hin) as (info1 & Hmig & Hof). exists info1.
        split; [apply Hold; exact Hmig|apply Hkeep; exact Hof].
      + destruct (Hh1 r Hr) as (info1 & Hin & Hof). exists info1.
        split; [|apply Hkeep; exact Hof].
        apply list_elem_of_lookup in Hin as [k Hk].
        pose proof (lookup_lt_Some _ _ _ Hk) as Hlt.
        exists k, (length tr), migrationAction. rewrite length_app. simpl.
        split_and!; try lia.
        * rewrite lookup_app_l by lia. exact Hk.
        * rewrite lookup_app_r by lia. rewrite Nat.sub_diag. reflexivity.
        * exact (matchesMigration_key _ _ _ _ Hmatch Hof). }
  destruct (applyMigrationResult_cases _ _ _ _ _ _ Hextract Happly)
    as [[Hab ->]|[(Hab & Hst & Hok)|[(Hab & Hst & Hretr)|(Hab & Hst & ->)]]].
  - split_and!; try assumption.
    + eapply requestsBusy_sublist; [| |exact Hbusy]; [reflexivity|exact Hsubreq].
    + apply Hhist; [reflexivity| |intros r' Hr'; left; exact Hr'].
      intros r1 info1. apply migrationOf_same_chunks; reflexivity.
  - apply onMigrationSuccess_frame in Hok. split_and!; try assumption.
    + rewrite Hok. exact Hnd.
    + eapply requestsBusy_perm; [| |exact Hbusy]; [rewrite Hok; reflexivity|].
      rewrite Hall, Hok. unfold requests. simpl. rewrite <- !app_assoc. simpl.
      rewrite <- Permutation_middle. rewrite <- Permutation_middle. reflexivity.
    + apply Hhist; [rewrite Hok; reflexivity| |].
      * intros r1 info1. apply migrationOf_same_chunks; rewrite Hok; reflexivity.
      * intros r' Hr'. rewrite Hok in Hr'. simpl in Hr'. rewrite <- app_assoc in Hr'.
        apply elem_of_app in Hr' as [Hr'|Hr']; [left; apply elem_of_app; left; exact Hr'|].
        apply elem_of_cons in Hr' as [->|Hr']; [right; split; [reflexivity|exact Hst]|].
        left. apply elem_of_app. right. exact Hr'.
  - apply onMigrationRetriableError_frame in Hretr. split_and!; try assumption.
    + rewrite Hretr. simpl. rewrite !fst_update. exact Hnd.
    + split.
      * rewrite Hretr. eapply sublist_NoDup; [apply Hbusy|]. apply bind_sublist. exact Hsubreq.
      * intros r' it c Hr' Hit Hc. rewrite Hretr in Hr', Hc. simpl in Hc.
        pose proof (NoDup_bind_disjoint _ _ _ Hall (proj1 Hbusy) r' it Hr' Hit) as Hni.
        apply not_in_chunksOf in Hni as [H1 H2].
        rewrite deref_set_busy_false in Hc by assumption.
        destruct Hbusy as [_ Hb]. eapply Hb; [|exact Hit|exact Hc].
        eapply elem_of_sublist; [exact Hr'|exact Hsubreq].
    + apply Hhist; [rewrite Hretr; reflexivity| |].
      * intros r1 info1. apply migrationOf_frame; rewrite Hretr; simpl; try reflexivity.
        intros it _. rewrite !keys_set_busy. reflexivity.
      * intros r' Hr'. rewrite Hretr in Hr'. left. exact Hr'.
  - split_and!; try assumption.
    + split.
      * eapply sublist_NoDup; [apply Hbusy|]. apply bind_sublist.
        unfold requests. simpl. apply sublist_app; [exact Hsub|].
        apply sublist_inserts_l. reflexivity.
      * intros r' it c Hr' Hit Hc. simpl in Hc.
        destruct Hbusy as [_ Hb]. eapply Hb; [|exact Hit|exact Hc].
        unfold requests in *. simpl in Hr'.
        apply elem_of_app in Hr' as [Hr'|Hr']; apply elem_of_app;
          [left; eapply elem_of_sublist; eassumption|].
        right. apply elem_of_app. right. exact Hr'.
    + apply Hhist; [reflexivity| |].
      * intros r1 info1. apply migrationOf_same_chunks; reflexivity.
      * intros r' Hr'. simpl in Hr'. left. apply elem_of_app. right. exact Hr'.
Qed.

(** The invariant after the acknowledgement of a merge. *)
Lemma invariant_merge_ack tr st mergeAction status r rest st' :
  invariant tr st ->
  extractFirst (matchesMerge st mergeAction) (_outstandingMerges st) =
    Some (Some (r, rest)) ->
  applyActionResult (ActMergeInfo mergeAction) (RespStatus status) st = Ok tt st' ->
  invariant (tr ++ [EvMergeAck r mergeAction status]) st'.
Proof.
  intros (Hnd & Hbusy & [Hh1 Hh2] & Hmerges) Hextract Happly.
  destruct (extractFirst_Some _ _ _ _ Hextract) as (Hr & Hsub & _ & Hperm).
  assert (Hall : requests st ≡ₚ
                 r :: (_outstandingMigrations st ++ _actionableMerges st ++ rest)).
  { unfold requests. rewrite Hperm. rewrite !app_assoc.
    rewrite <- Permutation_middle. reflexivity. }
  assert (Hsubreq : (_outstandingMigrations st ++ _actionableMerges st ++ rest)
                      `sublist_of` requests st).
  { unfold requests. apply sublist_app; [reflexivity|].
    apply sublist_app; [reflexivity|exact Hsub]. }
  assert (Hold : forall r' info',
            migrated tr r' info' (length tr) ->
            migrated (tr ++ [EvMergeAck r mergeAction status])
                     r' info' (length (tr ++ [EvMergeAck r mergeAction status]))).
  { intros r' info' Hmig. apply migrated_snoc; [exact Hmig|discriminate]. }
  assert (Hm' : forall i r0 action,
            (tr ++ [EvMergeAck r mergeAction status]) !! i = Some (EvMerge r0 action) ->
            exists info, migrated (tr ++ [EvMergeAck r mergeAction status]) r0 info i /\
                         mergeOf r0 info action).
  { apply merges_snoc; [exact Hmerges|]. intros r0 action [=]. }
  assert (Hhist : forall st1,
            _outstandingMigrations st1 = _outstandingMigrations st ->
            (forall r', r' ∈ _actionableMerges st1 ++ _outstandingMerges st1 ->
               r' ∈ _actionableMerges st ++ _outstandingMerges st) ->
            (forall r1 info1, r1 ∈ requests st1 ->
               migrationOf st r1 info1 -> migrationOf st1 r1 info1) ->
            history (tr ++ [EvMergeAck r mergeAction status]) st1).
  { intros st1 Hmigs Hmerged Hkeep. split.
    - intros r' Hr'.
      assert (Hreq : r' ∈ requests st1) by (unfold requests; apply elem_of_app; left; exact Hr').
      rewrite Hmigs in Hr'. destruct (Hh1 r' Hr') as (info1 & Hin & Hof).
      exists info1. split; [apply elem_of_app; left; exact Hin|].
      apply Hkeep; [exact Hreq|exact Hof].
    - intros r' Hr'.
      assert (Hreq : r' ∈ requests st1) by (unfold requests; apply elem_of_app; right; exact Hr').
      destruct (Hh2 r' (Hmerged r' Hr')) as (info1 & Hmig & Hof).
      exists info1. split; [apply Hold; exact Hmig|]. apply Hkeep; [exact Hreq|exact Hof]. }
  assert (Hrest : forall r', r' ∈ _actionableMerges st ++ rest ->
            r' ∈ _actionableMerges st ++ _outstandingMerges st).
  { intros r' Hr'. apply elem_of_app in Hr' as [Hr'|Hr']; apply elem_of_app;
      [left; exact Hr'|right; eapply elem_of_sublist; eassumption]. }
  destruct (applyMergeResult_cases _ _ _ _ _ _ Hextract Happly)
    as [[Hab ->]|[(Hab & -> & Hok)|[(Hab & Hst & ->)|(Hab & Hst & ->)]]].
  - split_and!; try assumption.
    + eapply requestsBusy_sublist; [| |exact Hbusy]; [reflexivity|exact Hsubreq].
    + apply Hhist; [reflexivity|exact Hrest|].
      intros r1 info1 _. apply migrationOf_same_chunks; reflexivity.
  - apply onMergeSuccess_frame in Hok as [f Hok]. split_and!; try assumption.
    + rewrite Hok. simpl. apply erase_NoDup. rewrite fst_update. exact Hnd.
    + split.
      * rewrite Hok. eapply sublist_NoDup; [apply Hbusy|]. apply bind_sublist. exact Hsubreq.
      * intros r' it c Hr' Hit Hc. rewrite Hok in Hr', Hc. simpl in Hc.
        pose proof (NoDup_bind_disjoint _ _ _ Hall (proj1 Hbusy) r' it Hr' Hit) as Hni.
        apply not_in_chunksOf in Hni as [H1 H2].
        rewrite deref_erase_ne in Hc by congruence.
        rewrite deref_update_ne in Hc by congruence.
        destruct Hbusy as [_ Hb]. eapply Hb; [|exact Hit|exact Hc].
        eapply elem_of_sublist; [exact Hr'|exact Hsubreq].
    + apply Hhist; [rewrite Hok; reflexivity| |].
      * intros r' Hr'. rewrite Hok in Hr'. apply Hrest. exact Hr'.
      * intros r1 info1 Hr1. rewrite Hok in Hr1.
        apply migrationOf_frame; [rewrite Hok; reflexivity|rewrite Hok; reflexivity|].
        intros it Hit. rewrite Hok. simpl.
        pose proof (NoDup_bind_disjoint _ _ _ Hall (proj1 Hbusy) r1 it Hr1 Hit) as Hni.
        apply not_in_chunksOf in Hni as [H1 H2].
        rewrite deref_erase_ne by congruence.
        rewrite deref_update_ne by congruence. reflexivity.
  - split_and!; try assumption.
    + eapply requestsBusy_perm; [| |exact Hbusy]; [reflexivity|].
      rewrite Hall. unfold requests. simpl. rewrite <- !app_assoc. simpl.
      rewrite <- Permutation_middle. rewrite <- Permutation_middle. reflexivity.
    + apply Hhist; [reflexivity| |].
      * intros r' Hr'. simpl in Hr'. rewrite <- app_assoc in Hr'.
        apply elem_of_app in Hr' as [Hr'|Hr']; [apply elem_of_app; left; exact Hr'|].
        apply elem_of_cons in Hr' as [->|Hr'].
        -- apply elem_of_app. right. exact Hr.
        -- apply elem_of_app. right. eapply elem_of_sublist; eassumption.
      * intros r1 info1 _. apply migrationOf_same_chunks; reflexivity.
  - split_and!; try assumption.
    + split.
      * eapply sublist_NoDup; [apply Hbusy|]. apply bind_sublist.
        unfold requests. simpl. apply sublist_app; [reflexivity|].
        apply sublist_inserts_l. exact Hsub.
      * intros r' it c Hr' Hit Hc. simpl in Hc.
        destruct Hbusy as [_ Hb]. eapply Hb; [|exact Hit|exact Hc].
        unfold requests in *. simpl in Hr'.
        apply elem_of_app in Hr' as [Hr'|Hr']; apply elem_of_app; [left; exact Hr'|].
        right. apply elem_of_app. right. eapply elem_of_sublist; eassumption.
    + apply Hhist; [reflexivity| |].
      * intros r' Hr'. simpl in Hr'. apply elem_of_app. right.
        eapply elem_of_sublist; eassumption.
      * intros r1 info1 _. apply migrationOf_same_chunks; reflexivity.
Qed.

Lemma invariant_step tr st ev st' :
  invariant tr st -> step st ev st' -> invariant (tr ++ option_list ev) st'.
Proof.
  intros Hinv Hstep. destruct Hstep; simpl; rewrite ?app_nil_r.
  - eapply invariant_migration; eassumption.
  - eapply invariant_no_migration; [exact Hinv|left; eassumption].
  - eapply invariant_no_migration; [exact Hinv|right; eassumption].
  - destruct (popNextStreamableAction_moves env st st') as (r' & rest' & Hact & Hst');
      [left; eauto|].
    rewrite H in Hact. injection Hact as <- <-.
    destruct (invariant_merge_moved _ _ _ _ _ Hinv H Hst')
      as ((Hnd & Hbusy & [Hh1 Hh2] & Hmerges) & info & Hmig & Hof).
    pose proof (popNextStreamableAction_mergeOf _ _ _ _ _ _ _ H H0 Hof) as Hmerge.
    split_and!; try assumption.
    + split.
      * intros r' Hr'. destruct (Hh1 r' Hr') as (info1 & Hin & Hof1). exists info1.
        split; [apply elem_of_app; left; exact Hin|exact Hof1].
      * intros r' Hr'. destruct (Hh2 r' Hr') as (info1 & Hmig1 & Hof1). exists info1.
        split; [apply migrated_snoc; [exact Hmig1|discriminate]|exact Hof1].
    + apply merges_snoc; [exact Hmerges|]. intros r' action' [= <- <-].
      exists info. split; assumption.
  - apply popNextStreamableAction_None in H. subst st'. exact Hinv.
  - destruct (popNextStreamableAction_moves env st st') as (r' & rest' & Hact & Hst');
      [right; assumption|].
    apply (invariant_merge_moved _ _ _ _ _ Hinv Hact Hst').
  - eapply invariant_migration_ack; eassumption.
  - eapply invariant_merge_ack; eassumption.
  - apply applyActionResult_Throw in H. subst st'. exact Hinv.
Qed.

Lemma invariant_run st0 tr st :
  run st0 tr st -> invariant [] st0 -> invariant tr st.
Proof.
  induction 1 as [|st0 tr st1 ev st2 Hrun IH Hstep]; intros H0; [exact H0|].
  apply invariant_step with (st := st1); auto.
Qed.

Lemma loadChunks_ids n chunks :
  forall it, it ∈ (fst (loadChunks n chunks)).*1 -> (n <= it)%nat.
Proof.
  revert n. induction chunks as [|c rest IH]; intros n it; simpl.
  - intros H. inversion H.
  - destruct (ct_estimatedSizeBytes c); [|intros H; inversion H].
    specialize (IH (S n)). destruct (loadChunks (S n) rest) as [l ok]. simpl in *.
    intros H. apply elem_of_cons in H as [->|H]; [lia|]. apply IH in H. lia.
Qed.

Lemma loadChunks_NoDup n chunks : NoDup (fst (loadChunks n chunks)).*1.
Proof.
  revert n. induction chunks as [|c rest IH]; intros n; simpl; [constructor|].
  destruct (ct_estimatedSizeBytes c); [|constructor].
  pose proof (loadChunks_ids (S n) rest) as Hids. specialize (IH (S n)).
  destruct (loadChunks (S n) rest) as [l ok]. simpl in *.
  apply NoDup_cons. split; [|exact IH]. intros H. apply Hids in H. lia.
Qed.

Lemma new_invariant nss uuid chunks infos zones threshold :
  invariant [] (new nss uuid chunks infos zones threshold).
Proof.
  unfold new. pose proof (loadChunks_NoDup 0 chunks) as Hnd.
  destruct (loadChunks 0 chunks) as [l ok]. simpl in Hnd.
  assert (Hempty : forall st, requests st = [] -> requestsBusy st).
  { intros st Hreq. unfold requestsBusy. rewrite Hreq. split; [constructor|].
    intros r it c Hr. inversion Hr. }
  destruct ok; simpl; (split_and!; [exact Hnd|apply Hempty; reflexivity| |]).
  - split; intros r Hr; inversion Hr.
  - intros i r action Hi. discriminate.
  - split; intros r Hr; inversion Hr.
  - intros i r action Hi. discriminate.
Qed.

(** C1. In every sequence of calls of a MoveAndMergeChunks phase, from its
    construction on, a merge that [popNextStreamableAction] returns comes
    after the acknowledgement with success of a migration, which itself comes
    after [popNextMigration] returned that migration for the same request,
    and the migration of the request is not returned again in between.  The
    acknowledged migration has the minimum key of the returned one, and the
    merge is the one that follows that migration: a [MergeInfo] of the same
    collection on the shard the chunk was moved to, over a range that has the
    maximum (left sibling) or the minimum key of the moved chunk. *)
Theorem merge_after_acknowledged_migration nss uuid chunks infos zones threshold tr st i r
    action :
  run (new nss uuid chunks infos zones threshold) tr st ->
  tr !! i = Some (EvMerge r action) ->
  exists k j info acked m,
    (k < j)%nat /\ (j < i)%nat /\
    tr !! k = Some (EvMigration r info) /\
    tr !! j = Some (EvMigrationAck r acked StatusOK) /\
    woCompare (mig_minKey acked) (mig_minKey info) = 0 /\
    (forall k' info', (j < k')%nat -> (k' < i)%nat ->
       tr !! k' <> Some (EvMigration r info')) /\
    action = ActMergeInfo m /\
    merge_shardId m = mig_to info /\
    merge_uuid m = mig_uuid info /\ merge_nss m = mig_nss info /\
    (if _isChunkToMergeLeftSibling r
     then getMax (merge_chunkRange m) = mig_maxKey info
     else getMin (merge_chunkRange m) = mig_minKey info).
Proof.
  intros Hrun Hi.
  destruct (invariant_run _ _ _ Hrun (new_invariant _ _ _ _ _ _)) as (_ & _ & _ & Hmerges).
  destruct (Hmerges i r action Hi)
    as (info & (k & j & acked & Hkj & Hji & Hk & Hj & Hkey & Hno) & (m & Hm)).
  exists k, j, info, acked, m. split_and!; try assumption; apply Hm.
Qed.

(** ** The constructor *)

Lemma loadChunks_ok n chunks :
  snd (loadChunks n chunks) = true <->
  Forall (fun c => is_Some (ct_estimatedSizeBytes c)) chunks.
Proof.
  revert n. induction chunks as [|c rest IH]; intros n; simpl.
  - split; [constructor|reflexivity].
  - destruct (ct_estimatedSizeBytes c) as [size|] eqn:Hsize.
    + specialize (IH (S n)). destruct (loadChunks (S n) rest) as [l ok]. simpl in *.
      rewrite IH. split.
      * intros H. constructor; [rewrite Hsize; eauto|exact H].
      * intros H. inversion H. assumption.
    + simpl. split; [discriminate|]. intros H. inversion H as [|? ? Hc _]; subst.
      rewrite Hsize in Hc. destruct Hc. discriminate.
Qed.

Lemma loadChunks_shards n chunks it c :
  (it, c) ∈ fst (loadChunks n chunks) -> shard c ∈ ct_shard <$> chunks.
Proof.
  revert n. induction chunks as [|x rest IH]; intros n; simpl.
  - intros H. inversion H.
  - destruct (ct_estimatedSizeBytes x); [|intros H; inversion H].
    specialize (IH (S n)). destruct (loadChunks (S n) rest) as [l ok]. simpl in *.
    intros H. apply elem_of_cons in H as [[= -> ->]|H]; [left|right; auto].
Qed.

Lemma new_nextPhase nss uuid chunks infos zones threshold :
  (Forall (fun c => is_Some (ct_estimatedSizeBytes c)) chunks /\
   getNextPhase (new nss uuid chunks infos zones threshold) = kSplitChunks) \/
  (~ Forall (fun c => is_Some (ct_estimatedSizeBytes c)) chunks /\
   getNextPhase (new nss uuid chunks infos zones threshold) = kMergeChunks).
Proof.
  unfold new. pose proof (loadChunks_ok 0 chunks) as Hok.
  destruct (loadChunks 0 chunks) as [l ok]. simpl in Hok. destruct ok; simpl.
  - left. split; [apply Hok; reflexivity|reflexivity].
  - right. split; [|reflexivity]. intros H. apply Hok in H. discriminate.
Qed.

Lemma new_chunks nss uuid chunks infos zones threshold :
  _collectionChunks (new nss uuid chunks infos zones threshold) = fst (loadChunks 0 chunks).
Proof. unfold new. destruct (loadChunks 0 chunks) as [l ok]. destruct ok; reflexivity. Qed.

(** The index of small chunks as the constructor composes it. *)
Lemma indexSmallChunks_spec threshold (done rest : ChunkRangeInfos)
    (m : gmap ShardId (list ChunkRangeInfoIterator)) :
  NoDup (done ++ rest).*1 ->
  (forall s l, m !! s = Some l ->
     NoDup l /\ forall it, it ∈ l -> exists c, (it, c) ∈ done /\ shard c = s) ->
  forall s l,
    foldl (fun m p =>
             if estimatedSizeBytes (snd p) <=? threshold
             then <[shard (snd p) := default [] (m !! shard (snd p)) ++ [fst p]]> m
             else m) m rest !! s = Some l ->
    NoDup l /\ forall it, it ∈ l -> exists c, (it, c) ∈ done ++ rest /\ shard c = s.
Proof.
  revert done m. induction rest as [|[i c] rest IH]; intros done m Hnd Hm s l; simpl.
  - rewrite app_nil_r. apply Hm.
  - replace (done ++ (i, c) :: rest) with ((done ++ [(i, c)]) ++ rest)
      by (rewrite <- app_assoc; reflexivity).
    apply IH.
    + rewrite <- app_assoc. exact Hnd.
    + intros s' l'. destruct (estimatedSizeBytes c <=? threshold).
      * destruct (decide (shard c = s')) as [<-|Hne].
        -- rewrite lookup_insert_eq. intros [= <-].
           assert (Hfresh : i ∉ done.*1).
           { rewrite fmap_app in Hnd. simpl in Hnd.
             apply NoDup_app in Hnd as (_ & Hdisj & _). intros Hin.
             apply (Hdisj i Hin). left. }
           destruct (m !! shard c) as [l0|] eqn:Hl0; simpl.
           ++ destruct (Hm _ _ Hl0) as [Hnd0 Hin0]. split.
              ** apply NoDup_app. split; [exact Hnd0|]. split; [|apply NoDup_singleton].
                 intros x Hx Hx'. apply list_elem_of_singleton in Hx' as ->.
                 destruct (Hin0 _ Hx) as (c0 & Hc0 & _). apply Hfresh.
                 apply list_elem_of_fmap. exists (i, c0). split; [reflexivity|exact Hc0].
              ** intros it Hit. apply elem_of_app in Hit as [Hit|Hit].
                 --- destruct (Hin0 _ Hit) as (c0 & Hc0 & Hs). exists c0.
                     split; [apply elem_of_app; left; exact Hc0|exact Hs].
                 --- apply list_elem_of_singleton in Hit as ->. exists c.
                     split; [apply elem_of_app; right; left|reflexivity].
           ++ split; [apply NoDup_singleton|]. intros it Hit.
              apply list_elem_of_singleton in Hit as ->. exists c.
              split; [apply elem_of_app; right; left|reflexivity].
        -- rewrite lookup_insert_ne by exact Hne. intros Hl'.
           destruct (Hm _ _ Hl') as [Hnd0 Hin0]. split; [exact Hnd0|].
           intros it Hit. destruct (Hin0 _ Hit) as (c0 & Hc0 & Hs). exists c0.
           split; [apply elem_of_app; left; exact Hc0|exact Hs].
      * intros Hl'. destruct (Hm _ _ Hl') as [Hnd0 Hin0]. split; [exact Hnd0|].
        intros it Hit. destruct (Hin0 _ Hit) as (c0 & Hc0 & Hs). exists c0.
        split; [apply elem_of_app; left; exact Hc0|exact Hs].
Qed.

Lemma elem_deref (l : ChunkRangeInfos) it c :
  NoDup l.*1 -> (it, c) ∈ l -> deref l it = Some c.
Proof.
  intros Hnd Hin. apply list_elem_of_lookup in Hin as [n Hn].
  eapply lookup_deref; eassumption.
Qed.

(** The constructor gives a well-formed phase. *)
Lemma new_wf nss uuid chunks infos zones threshold :
  wf (new nss uuid chunks infos zones threshold).
Proof.
  unfold new, wf. pose proof (loadChunks_NoDup 0 chunks) as Hnd.
  destruct (loadChunks 0 chunks) as [l ok]. simpl in Hnd.
  destruct ok; simpl; (split; [exact Hnd|]).
  - intros s sorted. rewrite lookup_fmap.
    destruct (indexSmallChunks (wrapS64 threshold) l !! s) as [l0|] eqn:Hl0; [|discriminate].
    simpl. intros [= <-].
    destruct (indexSmallChunks_spec (wrapS64 threshold) [] l ∅ Hnd) with (s := s) (l := l0)
      as [Hnd0 Hin0].
    { intros s' l'. rewrite lookup_empty. discriminate. }
    { exact Hl0. }
    split; [rewrite list_sort_perm; exact Hnd0|].
    intros it Hit. rewrite list_sort_perm in Hit.
    destruct (Hin0 _ Hit) as (c & Hc & Hs). exists c. split; [|exact Hs].
    apply elem_deref; assumption.
  - intros s l0. rewrite lookup_empty. discriminate.
Qed.

(** [popNextMigration] keeps a phase well-formed and the shards of its
    chunks. *)
Lemma wf_set_busy small target idx st :
  wf st ->
  smallIndexShrinks idx (_smallChunksByShard st) ->
  wf (with_collectionChunks
        (update (set_busyInOperation true) target
           (update (set_busyInOperation true) small (_collectionChunks st)))
        (with_smallChunksByShard idx st)).
Proof.
  intros [Hnd Hsmall] Hshr. split; simpl.
  - rewrite !fst_update. exact Hnd.
  - intros s l' Hl'. destruct (Hshr s l' Hl') as (l & Hl & Hsub).
    destruct (Hsmall s l Hl) as [Hndl Hkeys]. split; [eapply sublist_NoDup; eassumption|].
    intros it Hit. destruct (Hkeys it (elem_of_sublist _ _ _ Hit Hsub)) as (c & Hc & Hs).
    rewrite !deref_set_busy, Hc. simpl. eexists. split; [reflexivity|].
    destruct (decide (target = it)), (decide (small = it)); exact Hs.
Qed.

Lemma wf_shrink idx st :
  wf st -> smallIndexShrinks idx (_smallChunksByShard st) ->
  wf (with_smallChunksByShard idx st).
Proof.
  intros [Hnd Hsmall] Hshr. split; simpl; [exact Hnd|].
  intros s l' Hl'. destruct (Hshr s l' Hl') as (l & Hl & Hsub).
  destruct (Hsmall s l Hl) as [Hndl Hkeys]. split; [eapply sublist_NoDup; eassumption|].
  intros it Hit. apply Hkeys. eapply elem_of_sublist; eassumption.
Qed.

Lemma shards_set_busy small target (l : ChunkRangeInfos) :
  (fun p => shard (snd p)) <$>
    update (set_busyInOperation true) target (update (set_busyInOperation true) small l) =
  (fun p => shard (snd p)) <$> l.
Proof.
  assert (H : forall b it (l : ChunkRangeInfos),
             (fun p => shard (snd p)) <$> update (set_busyInOperation b) it l =
             (fun p => shard (snd p)) <$> l).
  { intros b it l0. induction l0 as [|[i c] l0 IH]; simpl; [reflexivity|].
    destruct (decide (i = it)); simpl; [reflexivity|]. f_equal. exact IH. }
  rewrite !H. reflexivity.
Qed.

(** What a call of [popNextMigration] on a well-formed phase leaves. *)
Lemma popNextMigration_summary env usedShards st :
  wf st ->
  match popNextMigration env usedShards st with
  | Ok (Some m) (st', usedShards') =>
      wf st' /\
      phaseShards (MoveAndMergeChunks st') = phaseShards (MoveAndMergeChunks st) /\
      (mig_from m ∉ usedShards) /\ (mig_to m ∉ usedShards) /\
      usedShards' = migrationShards m ∪ usedShards /\
      migrationShards m ⊆ phaseShards (MoveAndMergeChunks st)
  | Ok None (st', usedShards') =>
      wf st' /\
      phaseShards (MoveAndMergeChunks st') = phaseShards (MoveAndMergeChunks st) /\
      usedShards' = usedShards
  | Throw (_, usedShards') => usedShards ⊆ usedShards'
  | _ => True
  end.
Proof.
  intros Hwf.
  destruct (popNextMigration env usedShards st) as [[m|] [st' used']|[st' used']| |] eqn:Hpop;
    [| | |exact I|exact I].
  - destruct (popNextMigrationFrom_Some _ _ _ _ _ _ _ (proj1 Hwf) Hpop)
      as (s & l & small & target & csmall & ctarget & idx & _ & Hnu & Hl & Hsm & Hds & Hdt
          & _ & _ & _ & Htu & _ & Hshr & Hst' & Hused' & Hto & Hfrom & _).
    destruct (proj2 Hwf s l Hl) as [_ Hkeys].
    destruct (Hkeys small Hsm) as (c & Hc & Hs). rewrite Hds in Hc. injection Hc as <-.
    assert (Hin : forall it c0, deref (_collectionChunks st) it = Some c0 ->
              shard c0 ∈ phaseShards (MoveAndMergeChunks st)).
    { intros it c0 H0. simpl. apply elem_of_list_to_set. apply list_elem_of_fmap.
      exists (it, c0). split; [reflexivity|]. apply deref_Some_elem. exact H0. }
    split_and!.
    + rewrite Hst'. apply (wf_set_busy small target idx st Hwf Hshr).
    + rewrite Hst'. simpl. rewrite shards_set_busy. reflexivity.
    + rewrite Hfrom, Hs. exact Hnu.
    + rewrite Hto. exact Htu.
    + rewrite Hused'. unfold migrationShards. rewrite Hto, Hfrom. set_solver.
    + unfold migrationShards. rewrite Hto, Hfrom.
      pose proof (Hin _ _ Hds). pose proof (Hin _ _ Hdt). set_solver.
  - destruct (popNextMigrationFrom_None _ _ _ _ _ _ Hpop) as (Hst' & Hshr & Hused).
    split_and!; [|rewrite Hst'; reflexivity|exact Hused].
    rewrite Hst'. apply wf_shrink; assumption.
  - destruct (popNextMigrationFrom_Throw _ _ _ _ _ _ Hpop) as (_ & _ & _ & _ & Hsub).
    exact Hsub.
Qed.

(** [popNextMigration] has no loop but the one over the shards. *)
Lemma popNextMigration_ends env usedShards st :
  popNextMigration env usedShards st <> OutOfFuel.
Proof.
  unfold popNextMigration. generalize (_shardProcessingOrder st) as order. revert st.
  intros st order. revert st. induction order as [|shardId rest IH]; intros st; simpl.
  - discriminate.
  - destruct (bool_decide (shardId ∈ usedShards)); [apply IH|].
    destruct (_findNextSmallChunkInShard shardId usedShards st) as [[[[it sibs]|] st']|];
      [|apply IH|discriminate].
    unfold buildMigration.
    repeat match goal with
           | |- context [match ?x with _ => _ end] => destruct x
           end; discriminate.
Qed.
End MoveAndMergeChunksPhaseProperties.

(** ** Non-retriable errors in the MergeChunks phase *)

(** C2, as amended.  A non-retriable error of a merge or of a data size
    action aborts a MergeChunks phase that is not aborted yet: the pending
    actions of every shard are cleared, the counter of outstanding actions
    goes down by one, and the next phase is MergeChunks itself, not the
    MoveAndMergeChunks phase that follows a normal completion. *)
Theorem MergeChunksPhase_abort_on_non_retriable_error env action response status st :
  MergeChunksPhase._aborted st = false ->
  isOK status = false ->
  isRetriableForDefragmentation status = false ->
  (exists mergeAction, action = ActMergeInfo mergeAction /\ response = RespStatus status) \/
  (exists dataSizeAction value,
      action = ActDataSizeInfo dataSizeAction /\ response = RespDataSize status value) ->
  exists st',
    MergeChunksPhase.applyActionResult env action response st = Ok tt st' /\
    MergeChunksPhase._aborted st' = true /\
    MergeChunksPhase._pendingActionsByShards st' = ∅ /\
    MergeChunksPhase._outstandingActions st' =
      wrapU64 (MergeChunksPhase._outstandingActions st - 1) /\
    MergeChunksPhase.getNextPhase st' = kMergeChunks.
Proof.
  intros Hab Hok Hretr [(a & -> & ->)|(a & v & -> & ->)];
    unfold MergeChunksPhase.applyActionResult, handleActionResult;
    rewrite Hab, Hok, Hretr; eexists; (split; [reflexivity|]); simpl; auto.
Qed.

(** ** Split points in the SplitChunks phase *)

Lemma totalSize_foldl_sum splitPoints acc :
  Forall (fun obj => 0 <= objsize obj) splitPoints ->
  0 <= acc ->
  acc + foldr (fun obj n => objsize obj + n) 0 splitPoints < 2 ^ 31 ->
  foldl (fun size obj => wrapS32 (size + objsize obj)) acc splitPoints =
  acc + foldr (fun obj n => objsize obj + n) 0 splitPoints.
Proof.
  revert acc. induction splitPoints as [|obj l IH]; intros acc Hall Hacc Hsum; simpl in *.
  - lia.
  - inversion Hall as [|? ? Hobj Hl]; subst.
    assert (Hnn : 0 <= foldr (fun obj n => objsize obj + n) 0 l).
    { clear -Hl. induction Hl; simpl; lia. }
    assert (Hw : wrapS32 (acc + objsize obj) = acc + objsize obj).
    { unfold wrapS32. rewrite Z.mod_small; lia. }
    rewrite Hw. rewrite IH; [lia|assumption|lia|lia].
Qed.

(** C9, as amended.  In a SplitChunks phase that is not aborted, a successful
    AutoSplitVector response with an empty list of keys enqueues nothing; one
    with keys enqueues the queried range with the keys on the [rangesToSplit]
    of the shard, and the range from the last key to the maximum of the
    queried range on its [rangesToFindSplitPoints] if and only if the sizes
    of the keys add up to at least [BSONObjMaxUserSize - 4096]. *)
Theorem SplitChunksPhase_autoSplitVector_success env autoSplitVectorAction splitPoints st :
  SplitChunksPhase._aborted st = false ->
  Forall (fun obj => 0 <= objsize obj) splitPoints ->
  foldr (fun obj n => objsize obj + n) 0 splitPoints < 2 ^ 31 ->
  exists st',
    SplitChunksPhase.applyActionResult env (ActAutoSplitVectorInfo autoSplitVectorAction)
      (RespSplitPoints StatusOK splitPoints) st = Ok tt st' /\
    match last splitPoints with
    | None =>
        SplitChunksPhase._pendingActionsByShards st' =
        SplitChunksPhase._pendingActionsByShards st
    | Some lastKey =>
        let before :=
          SplitChunksPhase.entry (SplitChunksPhase._pendingActionsByShards st)
                                 (asv_shardId autoSplitVectorAction) in
        SplitChunksPhase._pendingActionsByShards st' =
        <[asv_shardId autoSplitVectorAction :=
            SplitChunksPhase.mkPendingActions
              (SplitChunksPhase.rangesToFindSplitPoints before ++
               (if decide (BSONObjMaxUserSize env - 4096 <=
                           foldr (fun obj n => objsize obj + n) 0 splitPoints)
                then [mkChunkRange lastKey (asv_maxKey autoSplitVectorAction)]
                else []))
              (SplitChunksPhase.rangesToSplit before ++
               [(mkChunkRange (asv_minKey autoSplitVectorAction)
                              (asv_maxKey autoSplitVectorAction), splitPoints)])]>
          (SplitChunksPhase._pendingActionsByShards st)
    end.
Proof.
  intros Hab Hall Hsum.
  unfold SplitChunksPhase.applyActionResult, handleActionResult. rewrite Hab. simpl.
  eexists. split; [reflexivity|].
  unfold SplitChunksPhase.onAutoSplitVectorSuccess.
  destruct (last splitPoints) as [lastKey|]; [|reflexivity].
  simpl. f_equal.
  unfold SplitChunksPhase.moreSplitPointsToReceive, SplitChunksPhase.totalSize.
  rewrite totalSize_foldl_sum by (auto; lia). rewrite Z.add_0_l.
  destruct (decide _) as [Hge|Hlt].
  - apply Z.leb_le in Hge. rewrite Hge. reflexivity.
  - apply Z.leb_nle in Hlt. rewrite Hlt. simpl. rewrite app_nil_r.
    destruct (SplitChunksPhase.entry _ _); reflexivity.
Qed.


(** ** What the build of a MergeChunks phase leaves pending *)

Section MergeChunksPhaseBuild.

Import MergeChunksPhase.

Lemma lowerBoundOfRange_moved zones lower below :
  snd (fst (lowerBoundOfRange zones lower true below)) = true.
Proof.
  revert lower. induction below as [|prev below IH]; intros lower; simpl; [reflexivity|].
  destruct (areConsecutive zones prev lower); [apply IH|reflexivity].
Qed.

Lemma lowerBoundOfRange_unmoved zones lower below l rest :
  lowerBoundOfRange zones lower false below = (l, false, rest) -> rest = below.
Proof.
  destruct below as [|prev below]; simpl; [intros [= _ <-]; reflexivity|].
  destruct (areConsecutive zones prev lower); [|intros [= _ <-]; reflexivity].
  intros H. pose proof (lowerBoundOfRange_moved zones prev below) as Hm.
  rewrite H in Hm. discriminate.
Qed.

Lemma lowerBoundOfRange_length zones lower moved below :
  (length (snd (lowerBoundOfRange zones lower moved below)) <= length below)%nat.
Proof.
  revert lower moved. induction below as [|prev below IH]; intros lower moved; simpl; [lia|].
  destruct (areConsecutive zones prev lower); [|simpl; lia].
  specialize (IH prev true). lia.
Qed.

Lemma findPendingActions_non_empty fuel zones chunks pending :
  pending <> ∅ -> findPendingActions fuel zones chunks pending <> ∅.
Proof.
  revert chunks pending. induction fuel as [|fuel IH]; intros chunks pending Hne; simpl;
    [destruct chunks; exact Hne|].
  destruct chunks as [|upper below]; [exact Hne|].
  destruct (lowerBoundOfRange zones upper false below) as [[lower moved] rest].
  apply IH. destruct moved; [apply insert_non_empty|].
  destruct (ct_estimatedSizeBytes upper); [exact Hne|apply insert_non_empty].
Qed.

(** When the build leaves nothing pending every chunk has a size. *)
Lemma findPendingActions_empty fuel zones chunks :
  (length chunks <= fuel)%nat ->
  findPendingActions fuel zones chunks ∅ = ∅ ->
  Forall (fun c => is_Some (ct_estimatedSizeBytes c)) chunks.
Proof.
  revert chunks. induction fuel as [|fuel IH]; intros chunks Hlen; simpl.
  - destruct chunks; [constructor|simpl in Hlen; lia].
  - destruct chunks as [|upper below]; [constructor|].
    destruct (lowerBoundOfRange zones upper false below) as [[lower moved] rest] eqn:Hlb.
    destruct moved.
    + intros H. exfalso. revert H. apply findPendingActions_non_empty. apply insert_non_empty.
    + apply lowerBoundOfRange_unmoved in Hlb. subst rest.
      destruct (ct_estimatedSizeBytes upper) as [size|] eqn:Hsize.
      * intros H. constructor; [rewrite Hsize; eauto|]. apply IH; [simpl in Hlen; lia|exact H].
      * intros H. exfalso. revert H. apply findPendingActions_non_empty.
        apply insert_non_empty.
Qed.

Lemma MergeChunksPhase_build_spec env coll p :
  build env coll = Some p ->
  getNextPhase p = kMoveAndMergeChunks /\
  (isComplete p = true ->
   exists chunks, getCollectionChunks env coll = Some chunks /\
                  Forall (fun c => is_Some (ct_estimatedSizeBytes c)) chunks).
Proof.
  unfold build. destruct (getCollectionChunks env coll) as [chunks|]; [|discriminate].
  simpl. destruct (env_addTagsFromCatalog env (coll_nss coll)) as [zones|]; [|discriminate].
  simpl. intros [= <-]. split; [reflexivity|].
  unfold isComplete. simpl. intros H. apply andb_true_iff in H as [H _].
  apply bool_decide_eq_true in H. exists chunks. split; [reflexivity|].
  apply findPendingActions_empty in H; [|rewrite length_reverse; lia].
  apply Forall_reverse in H. rewrite reverse_involutive in H. exact H.
Qed.

End MergeChunksPhaseBuild.
(** ** Results for a collection that is not defragmented any more *)

Section PolicyProperties.

Import BalancerDefragmentationPolicyImpl.

(** C6. An [acknowledge...Result] call whose action names a collection that
    is not in [_defragmentationStates] changes nothing: the state of the
    policy after the call is the state before it, and no promise is
    fulfilled. *)
Theorem acknowledge_of_absent_collection fuel env st :
  (forall action result,
      _defragmentationStates st !! merge_uuid action = None ->
      acknowledgeMergeResult fuel env action result st = Ok None st) /\
  (forall action status value,
      _defragmentationStates st !! ds_uuid action = None ->
      acknowledgeDataSizeResult fuel env action status value st = Ok None st) /\
  (forall action status value,
      _defragmentationStates st !! asv_uuid action = None ->
      acknowledgeAutoSplitVectorResult fuel env action status value st = Ok None st) /\
  (forall action result,
      _defragmentationStates st !! split_uuid action = None ->
      acknowledgeSplitResult fuel env action result st = Ok None st) /\
  (forall action result,
      _defragmentationStates st !! mig_uuid action = None ->
      acknowledgeMoveResult fuel env action result st = Ok None st).
Proof.
  unfold acknowledgeMergeResult, acknowledgeDataSizeResult, acknowledgeAutoSplitVectorResult,
    acknowledgeSplitResult, acknowledgeMoveResult, acknowledge.
  repeat split; intros; match goal with H : _ !! _ = None |- _ => rewrite H end; reflexivity.
Qed.



(** ** The end of the action stream *)

Import Invariants.

Lemma MergeChunksPhase_action env p a p' :
  MergeChunksPhase.popNextStreamableAction env p = Ok (Some a) p' ->
  isEndOfActionStream a = false.
Proof.
  unfold MergeChunksPhase.popNextStreamableAction.
  destruct (map_begin _) as [[shardId pendingActions]|]; [|discriminate].
  destruct (getShardVersion _ _ _); [|discriminate].
  destruct (bool_decide _).
  - destruct (last _); [|discriminate]. intros [= <- _]. reflexivity.
  - destruct (last _); [|discriminate]. intros [= <- _]. reflexivity.
Qed.

Lemma MoveAndMergeChunksPhase_action env p a p' :
  MoveAndMergeChunksPhase.popNextStreamableAction env p = Ok (Some a) p' ->
  isEndOfActionStream a = false.
Proof.
  unfold MoveAndMergeChunksPhase.popNextStreamableAction.
  destruct (MoveAndMergeChunksPhase._actionableMerges p); [discriminate|].
  destruct (MoveAndMergeChunksPhase.getDestinationShard _ _); [|discriminate].
  destruct (getShardVersion _ _ _); [|discriminate].
  destruct (MoveAndMergeChunksPhase.asMergeInfo _ _ _ _ _); [|discriminate].
  intros [= <- _]. reflexivity.
Qed.

Lemma SplitChunksPhase_action env p a p' :
  SplitChunksPhase.popNextStreamableAction env p = Ok (Some a) p' ->
  isEndOfActionStream a = false.
Proof.
  unfold SplitChunksPhase.popNextStreamableAction.
  destruct (map_begin _) as [[shardId pendingActions]|]; [|discriminate].
  destruct (getShardVersion _ _ _); [|discriminate].
  destruct (last (SplitChunksPhase.rangesToSplit _)) as [[r k]|].
  - intros [= <- _]. reflexivity.
  - destruct (last _); [|discriminate]. intros [= <- _]. reflexivity.
Qed.

Lemma Phase_action env ph a ph' :
  Phase.popNextStreamableAction env ph = Ok (Some a) ph' ->
  isEndOfActionStream a = false.
Proof.
  destruct ph as [p|p|p]; simpl.
  - destruct (MergeChunksPhase.popNextStreamableAction env p) as [[a'|] s| | |] eqn:H;
      try discriminate.
    intros [= <- _]. eapply MergeChunksPhase_action. exact H.
  - destruct (MoveAndMergeChunksPhase.popNextStreamableAction env p) as [[a'|] s| | |] eqn:H;
      try discriminate.
    intros [= <- _]. eapply MoveAndMergeChunksPhase_action. exact H.
  - destruct (SplitChunksPhase.popNextStreamableAction env p) as [[a'|] s| | |] eqn:H;
      try discriminate.
    intros [= <- _]. eapply SplitChunksPhase_action. exact H.
Qed.

Lemma nextStreamingActionFrom_action fuel env uuids st a st' :
  nextStreamingActionFrom fuel env uuids st = Ok (Some a) st' ->
  isEndOfActionStream a = false.
Proof.
  revert st. induction uuids as [|uuid rest IH]; intros st; simpl; [discriminate|].
  destruct (_refreshDefragmentationPhaseFor fuel env uuid st) as [[] st1|st1| |];
    try discriminate; [|apply IH].
  destruct (_defragmentationStates st1 !! uuid) as [[phase|]|]; try discriminate; [|apply IH].
  destruct (Phase.popNextStreamableAction env phase) as [[a'|] ph'|ph'| |] eqn:Hpop;
    try discriminate; try apply IH.
  intros [= <- _]. eapply Phase_action. exact Hpop.
Qed.




(** ** The transitions of a phase end *)

Lemma _transitionPhases_Some env coll nextPhase persist ph :
  _transitionPhases env coll nextPhase persist = Some ph ->
  (exists p, ph = MergeChunks p /\ MergeChunksPhase.build env coll = Some p) \/
  (exists p stats, ph = MoveAndMergeChunks p /\
                   MoveAndMergeChunksPhase.build env coll stats = Some p) \/
  (exists p, ph = SplitChunks p /\ SplitChunksPhase.build env coll = Some p).
Proof.
  unfold _transitionPhases. destruct (_ && _); [discriminate|].
  destruct nextPhase; [| | |discriminate].
  - destruct (MergeChunksPhase.build env coll) as [p|]; simpl; [|discriminate].
    intros [= <-]. left. eauto.
  - destruct (env_getCollStats env (coll_nss coll)) as [stats|]; [|discriminate]. simpl.
    destruct (MoveAndMergeChunksPhase.build env coll stats) as [p|] eqn:Hb; simpl;
      [|discriminate].
    intros [= <-]. right. left. eauto.
  - destruct (SplitChunksPhase.build env coll) as [p|]; simpl; [|discriminate].
    intros [= <-]. right. right. eauto.
Qed.

Lemma _transitionPhases_kind env coll nextPhase persist ph :
  _transitionPhases env coll nextPhase persist = Some ph -> Phase.getType ph = nextPhase.
Proof.
  unfold _transitionPhases. destruct (_ && _); [discriminate|].
  destruct nextPhase; [| | |discriminate].
  - destruct (MergeChunksPhase.build env coll) as [p|]; simpl; [|discriminate].
    intros [= <-]. reflexivity.
  - destruct (env_getCollStats env (coll_nss coll)) as [stats|]; [|discriminate]. simpl.
    destruct (MoveAndMergeChunksPhase.build env coll stats) as [p|] eqn:Hb; simpl;
      [|discriminate].
    intros [= <-]. reflexivity.
  - destruct (SplitChunksPhase.build env coll) as [p|]; simpl; [|discriminate].
    intros [= <-]. reflexivity.
Qed.

Lemma MoveAndMergeChunksPhase_build_spec env coll stats p :
  MoveAndMergeChunksPhase.build env coll stats = Some p ->
  exists chunks,
    getCollectionChunks env coll = Some chunks /\
    MoveAndMergeChunksPhase._collectionChunks p =
      fst (MoveAndMergeChunksPhase.loadChunks 0 chunks) /\
    wf p /\
    ((Forall (fun c => is_Some (ct_estimatedSizeBytes c)) chunks /\
      MoveAndMergeChunksPhase.getNextPhase p = kSplitChunks) \/
     (~ Forall (fun c => is_Some (ct_estimatedSizeBytes c)) chunks /\
      MoveAndMergeChunksPhase.getNextPhase p = kMergeChunks)).
Proof.
  unfold MoveAndMergeChunksPhase.build.
  destruct (env_addTagsFromCatalog env (coll_nss coll)) as [zones|]; [|discriminate]. simpl.
  destruct (getCollectionChunks env coll) as [chunks|]; [|discriminate]. simpl.
  destruct (getCollectionMaxChunkSizeBytes env coll) as [m|]; [|discriminate]. simpl.
  intros [= <-]. exists chunks. split; [reflexivity|].
  split; [apply new_chunks|]. split; [apply new_wf|apply new_nextPhase].
Qed.

Lemma SplitChunksPhase_build_spec env coll p :
  SplitChunksPhase.build env coll = Some p -> SplitChunksPhase.getNextPhase p = kFinished.
Proof.
  unfold SplitChunksPhase.build.
  destruct (env_getChunks env (coll_uuid coll)); [|discriminate]. simpl.
  destruct (getCollectionMaxChunkSizeBytes env coll); [|discriminate]. simpl.
  intros [= <-]. reflexivity.
Qed.

Lemma transitionWhileComplete_to_finished fuel env coll p :
  (1 <= fuel)%nat -> Phase.getNextPhase p = kFinished ->
  transitionWhileComplete fuel env coll (Some p) <> None.
Proof.
  intros Hfuel Hnext. destruct fuel as [|fuel]; [lia|]. simpl.
  destruct (Phase.isComplete p); [|discriminate]. rewrite Hnext.
  unfold _transitionPhases. destruct (_ && _); destruct fuel; simpl; discriminate.
Qed.

Lemma transitionWhileComplete_to_split fuel env coll p :
  (2 <= fuel)%nat -> Phase.getNextPhase p = kSplitChunks ->
  transitionWhileComplete fuel env coll (Some p) <> None.
Proof.
  intros Hfuel Hnext. destruct fuel as [|fuel]; [lia|]. simpl.
  destruct (Phase.isComplete p); [|discriminate]. rewrite Hnext.
  destruct (_transitionPhases env coll kSplitChunks true) as [ph|] eqn:Ht;
    [|destruct fuel; discriminate].
  apply transitionWhileComplete_to_finished; [lia|].
  pose proof (_transitionPhases_kind _ _ _ _ _ Ht) as Hk.
  apply _transitionPhases_Some in Ht as [(p' & -> & Hb)|[(p' & stats & -> & Hb)|(p' & -> & Hb)]];
    try discriminate.
  apply SplitChunksPhase_build_spec in Hb. exact Hb.
Qed.

(** A MoveAndMergeChunks phase as built goes on to the split phase when every
    chunk has a size; otherwise it goes back to a merge phase that has sizes
    to ask for, and so is not complete. *)
Lemma transitionWhileComplete_of_built_MoveAndMergeChunks fuel env coll stats p :
  (2 <= fuel)%nat ->
  MoveAndMergeChunksPhase.build env coll stats = Some p ->
  transitionWhileComplete fuel env coll (Some (MoveAndMergeChunks p)) <> None.
Proof.
  intros Hfuel Hb.
  apply MoveAndMergeChunksPhase_build_spec in Hb as (chunks & Hchunks & _ & _ & Hnext).
  destruct Hnext as [[_ Hnext]|[Hsized Hnext]].
  { apply transitionWhileComplete_to_split; [exact Hfuel|exact Hnext]. }
  destruct fuel as [|fuel]; [lia|]. simpl.
  destruct (MoveAndMergeChunksPhase.isComplete p); [|discriminate]. rewrite Hnext.
  destruct (_transitionPhases env coll kMergeChunks true) as [ph|] eqn:Ht;
    [|destruct fuel; discriminate].
  pose proof (_transitionPhases_kind _ _ _ _ _ Ht) as Hk.
  apply _transitionPhases_Some in Ht as [(p' & -> & Hb)|[(p' & s & -> & Hb)|(p' & -> & Hb)]];
    try discriminate.
  apply MergeChunksPhase_build_spec in Hb as [_ Hcomplete].
  destruct (MergeChunksPhase.isComplete p') eqn:Hc.
  - destruct (Hcomplete eq_refl) as (chunks' & Hchunks' & Hall).
    rewrite Hchunks in Hchunks'. injection Hchunks' as <-. contradiction.
  - destruct fuel; simpl; rewrite Hc; discriminate.
Qed.

Lemma transitionWhileComplete_of_built_MergeChunks fuel env coll p :
  (3 <= fuel)%nat ->
  MergeChunksPhase.build env coll = Some p ->
  transitionWhileComplete fuel env coll (Some (MergeChunks p)) <> None.
Proof.
  intros Hfuel Hb. apply MergeChunksPhase_build_spec in Hb as [Hnext _].
  destruct fuel as [|fuel]; [lia|]. simpl.
  destruct (MergeChunksPhase.isComplete p); [|discriminate]. rewrite Hnext.
  destruct (_transitionPhases env coll kMoveAndMergeChunks true) as [ph|] eqn:Ht;
    [|destruct fuel; discriminate].
  pose proof (_transitionPhases_kind _ _ _ _ _ Ht) as Hk.
  apply _transitionPhases_Some in Ht as [(p' & -> & Hb)|[(p' & s & -> & Hb)|(p' & -> & Hb)]];
    try discriminate.
  apply (transitionWhileComplete_of_built_MoveAndMergeChunks _ _ _ s); [lia|exact Hb].
Qed.

(** The loop of [_refreshDefragmentationPhaseFor] builds at most four phases. *)
Lemma transitionWhileComplete_terminates fuel env coll phase :
  (4 <= fuel)%nat -> transitionWhileComplete fuel env coll phase <> None.
Proof.
  intros Hfuel. destruct phase as [p|]; [|destruct fuel; discriminate].
  destruct fuel as [|fuel]; [lia|]. simpl.
  destruct (Phase.isComplete p); [|discriminate].
  destruct (_transitionPhases env coll (Phase.getNextPhase p) true) as [ph|] eqn:Ht;
    [|destruct fuel; discriminate].
  apply _transitionPhases_Some in Ht as [(p' & -> & Hb)|[(p' & s & -> & Hb)|(p' & -> & Hb)]].
  - apply transitionWhileComplete_of_built_MergeChunks; [lia|exact Hb].
  - apply (transitionWhileComplete_of_built_MoveAndMergeChunks _ _ _ s); [lia|exact Hb].
  - apply transitionWhileComplete_to_finished; [lia|].
    apply SplitChunksPhase_build_spec in Hb. exact Hb.
Qed.

(** The phase the loop leaves is the one it was given or one just built. *)
Lemma transitionWhileComplete_result fuel env coll phase ph :
  transitionWhileComplete fuel env coll phase = Some (Some ph) ->
  phase = Some ph \/
  exists nextPhase persist, _transitionPhases env coll nextPhase persist = Some ph.
Proof.
  revert phase. induction fuel as [|fuel IH]; intros phase; simpl.
  - destruct phase as [p|]; [|discriminate].
    destruct (Phase.isComplete p); [discriminate|]. intros [= ->]. left. reflexivity.
  - destruct phase as [p|]; [|discriminate].
    destruct (Phase.isComplete p); [|intros [= ->]; left; reflexivity].
    intros H. apply IH in H as [H|H]; [|right; exact H]. right. eauto.
Qed.

(** ** The migrations selected *)

Lemma exclusive_nil : exclusive [].
Proof. intros i j mi mj _ H. rewrite lookup_nil in H. discriminate. Qed.

Lemma exclusive_singleton m : exclusive [m].
Proof.
  intros i j mi mj Hij Hi Hj.
  apply lookup_lt_Some in Hi. apply lookup_lt_Some in Hj. simpl in *. lia.
Qed.

Lemma exclusive_app l1 l2 :
  exclusive l1 -> exclusive l2 ->
  (forall m1 m2, m1 ∈ l1 -> m2 ∈ l2 -> migrationShards m1 ## migrationShards m2) ->
  exclusive (l1 ++ l2).
Proof.
  intros H1 H2 H12 i j mi mj Hij Hi Hj.
  apply lookup_app_Some in Hi as [Hi|[Hli Hi]]; apply lookup_app_Some in Hj as [Hj|[Hlj Hj]].
  - apply (H1 i j); assumption.
  - apply H12; [eapply list_elem_of_lookup_2; exact Hi|eapply list_elem_of_lookup_2; exact Hj].
  - symmetry.
    apply H12; [eapply list_elem_of_lookup_2; exact Hj|eapply list_elem_of_lookup_2; exact Hi].
  - apply (H2 (i - length l1)%nat (j - length l1)%nat); [lia|assumption|assumption].
Qed.

Lemma selects_refl U chunksToMove usedShards :
  selects U chunksToMove usedShards chunksToMove usedShards.
Proof.
  exists []. split_and!.
  - rewrite app_nil_r. reflexivity.
  - reflexivity.
  - apply exclusive_nil.
  - intros m Hm. inversion Hm.
  - simpl. lia.
Qed.

Lemma selects_used U chunksToMove usedShards usedShards' :
  usedShards ⊆ usedShards' -> selects U chunksToMove usedShards chunksToMove usedShards'.
Proof.
  intros Hsub. exists []. split_and!.
  - rewrite app_nil_r. reflexivity.
  - exact Hsub.
  - apply exclusive_nil.
  - intros m Hm. inversion Hm.
  - simpl. apply subseteq_size. set_solver.
Qed.

Lemma selects_one U chunksToMove usedShards m :
  mig_from m ∉ usedShards -> mig_to m ∉ usedShards -> migrationShards m ⊆ U ->
  selects U chunksToMove usedShards (chunksToMove ++ [m]) (migrationShards m ∪ usedShards).
Proof.
  intros Hfrom Hto HU. exists [m]. split_and!.
  - reflexivity.
  - set_solver.
  - apply exclusive_singleton.
  - intros m' Hm'. apply list_elem_of_singleton in Hm' as ->. unfold migrationShards in *.
    split_and!; set_solver.
  - simpl. apply subset_size. unfold migrationShards in *.
    split.
    + set_solver.
    + intros Hsub. assert (Hin : mig_from m ∈ U ∖ usedShards) by set_solver.
      apply Hsub in Hin. set_solver.
Qed.

Lemma selects_trans U chunks0 used0 chunks1 used1 chunks2 used2 :
  selects U chunks0 used0 chunks1 used1 -> selects U chunks1 used1 chunks2 used2 ->
  selects U chunks0 used0 chunks2 used2.
Proof.
  intros (new1 & -> & Hsub1 & Hex1 & Hm1 & Hsize1) (new2 & -> & Hsub2 & Hex2 & Hm2 & Hsize2).
  exists (new1 ++ new2). split_and!.
  - rewrite app_assoc. reflexivity.
  - set_solver.
  - apply exclusive_app; [exact Hex1|exact Hex2|].
    intros m1 m2 Hin1 Hin2. destruct (Hm1 _ Hin1) as (_ & Hused1 & _).
    destruct (Hm2 _ Hin2) as (_ & _ & Hfree2). set_solver.
  - intros m Hm. apply elem_of_app in Hm as [Hm|Hm].
    + destruct (Hm1 _ Hm) as (HU & Hused & Hfree). split_and!; [exact HU|set_solver|exact Hfree].
    + destruct (Hm2 _ Hm) as (HU & Hused & Hfree). split_and!; [exact HU|exact Hused|set_solver].
  - rewrite length_app. lia.
Qed.

(** ** The phases of the policy stay well-formed and within the known shards *)

Lemma wfPolicy_erase uuid st : wfPolicy st -> wfPolicy (erase uuid st).
Proof.
  intros Hwf u p. destruct st; simpl. intros H.
  apply lookup_delete_Some in H as [_ H]. exact (Hwf u p H).
Qed.

Lemma wfPolicy_assign uuid phase st :
  wfPolicy st -> (forall p, phase = Some (MoveAndMergeChunks p) -> wf p) ->
  wfPolicy (assign uuid phase st).
Proof.
  intros Hwf Hp u p. destruct st; simpl. intros H.
  apply lookup_insert_Some in H as [[_ H]|[_ H]]; [exact (Hp p H)|exact (Hwf u p H)].
Qed.

Lemma covered_erase U env uuid st : covered U env st -> covered U env (erase uuid st).
Proof.
  intros Hc u oph. destruct st; simpl. intros H.
  apply lookup_delete_Some in H as [_ H]. exact (Hc u oph H).
Qed.

Lemma covered_assign U env uuid phase st :
  covered U env st -> is_Some (_defragmentationStates st !! uuid) ->
  from_option phaseShards ∅ phase ⊆ U ->
  covered U env (assign uuid phase st).
Proof.
  intros Hc [old Hold] Hp u oph. destruct st; simpl in *. intros H.
  apply lookup_insert_Some in H as [[<- <-]|[_ H]]; [|exact (Hc u oph H)].
  split; [exact (proj1 (Hc uuid old Hold))|exact Hp].
Qed.

(** A phase as built is well-formed, and its chunks are those of the catalog. *)
Lemma _transitionPhases_built env coll nextPhase persist ph :
  _transitionPhases env coll nextPhase persist = Some ph ->
  (forall p, ph = MoveAndMergeChunks p -> wf p) /\
  phaseShards ph ⊆ from_option (fun chunks => list_to_set (ct_shard <$> chunks)) ∅
                     (getCollectionChunks env coll).
Proof.
  intros Ht.
  apply _transitionPhases_Some in Ht as [(p' & -> & Hb)|[(p' & s & -> & Hb)|(p' & -> & Hb)]].
  - split; [discriminate|]. simpl. set_solver.
  - apply MoveAndMergeChunksPhase_build_spec in Hb as (chunks & Hchunks & Hl & Hwf & _).
    split; [intros p [= <-]; exact Hwf|]. rewrite Hchunks. simpl. rewrite Hl.
    intros sh Hs. apply elem_of_list_to_set in Hs. apply elem_of_list_to_set.
    apply list_elem_of_fmap in Hs as ([it c] & -> & Hin). simpl.
    exact (loadChunks_shards _ _ _ _ Hin).
  - split; [discriminate|]. simpl. set_solver.
Qed.

Lemma _refreshDefragmentationPhaseFor_spec fuel env U uuid st :
  (4 <= fuel)%nat -> wfPolicy st -> covered U env st ->
  match _refreshDefragmentationPhaseFor fuel env uuid st with
  | Ok _ st' => wfPolicy st' /\ covered U env st'
  | Throw st' => st' = st
  | Fatal => True
  | OutOfFuel => False
  end.
Proof.
  intros Hfuel Hwf Hc. unfold _refreshDefragmentationPhaseFor.
  destruct (_defragmentationStates st !! uuid) as [currentPhase|] eqn:Hcur; [|exact I].
  destruct (match currentPhase with Some p => Phase.isComplete p | None => false end);
    [|split; assumption].
  destruct (env_getCollection env uuid) as [coll|] eqn:Hcoll; [|reflexivity].
  pose proof (transitionWhileComplete_terminates fuel env coll currentPhase Hfuel) as Hterm.
  destruct (transitionWhileComplete fuel env coll currentPhase) as [phase|] eqn:Hphase;
    [|congruence].
  destruct (Hc uuid currentPhase Hcur) as [Hcat Hold].
  destruct phase as [ph|].
  - apply transitionWhileComplete_result in Hphase as [->|(k & b & Ht)].
    + split.
      * apply wfPolicy_assign; [exact Hwf|]. intros p [= ->]. exact (Hwf uuid p Hcur).
      * apply covered_assign; [exact Hc|eauto|exact Hold].
    + apply _transitionPhases_built in Ht as [Hwfp Hsub]. split.
      * apply wfPolicy_assign; [exact Hwf|]. intros p [= ->]. apply Hwfp. reflexivity.
      * apply covered_assign; [exact Hc|eauto|]. simpl.
        unfold catalogShards in Hcat. rewrite Hcoll in Hcat.
        destruct (getCollectionChunks env coll); simpl in Hsub; set_solver.
  - split.
    + apply wfPolicy_assign; [exact Hwf|discriminate].
    + apply covered_assign; [exact Hc|eauto|]. simpl. set_solver.
Qed.

Lemma Phase_popNextMigration_summary env usedShards ph :
  (forall p, ph = MoveAndMergeChunks p -> wf p) ->
  match Phase.popNextMigration env usedShards ph with
  | Ok (Some m) (ph', usedShards') =>
      (forall p, ph' = MoveAndMergeChunks p -> wf p) /\
      phaseShards ph' = phaseShards ph /\
      (mig_from m ∉ usedShards) /\ (mig_to m ∉ usedShards) /\
      usedShards' = migrationShards m ∪ usedShards /\
      migrationShards m ⊆ phaseShards ph
  | Ok None (ph', usedShards') =>
      (forall p, ph' = MoveAndMergeChunks p -> wf p) /\
      phaseShards ph' = phaseShards ph /\ usedShards' = usedShards
  | Throw (_, usedShards') => usedShards ⊆ usedShards'
  | Fatal => True
  | OutOfFuel => False
  end.
Proof.
  intros Hwf. destruct ph as [p|p|p]; simpl.
  - split_and!; [discriminate|reflexivity|reflexivity].
  - pose proof (popNextMigration_summary env usedShards p (Hwf p eq_refl)) as H.
    pose proof (popNextMigration_ends env usedShards p) as Hends.
    destruct (MoveAndMergeChunksPhase.popNextMigration env usedShards p)
      as [[m|] [p' used']|[p' used']| |]; simpl; try exact I; try congruence.
    + destruct H as (Hwf' & Hs & Hfrom & Hto & Hused & Hsub).
      split_and!; try assumption. intros q [= <-]. exact Hwf'.
    + destruct H as (Hwf' & Hs & Hused).
      split_and!; try assumption. intros q [= <-]. exact Hwf'.
    + exact H.
  - split_and!; [discriminate|reflexivity|reflexivity].
Qed.

(** One pass over the collections ends, with the phases still well-formed
    and within the known shards. *)
Lemma selectChunksFrom_spec fuel env U uuids :
  (4 <= fuel)%nat ->
  forall chunksToMove usedShards st,
    wfPolicy st -> covered U env st ->
    match selectChunksFrom fuel env uuids chunksToMove usedShards st with
    | Ok chunksToMove' (st', usedShards') =>
        wfPolicy st' /\ covered U env st' /\
        selects U chunksToMove usedShards chunksToMove' usedShards'
    | Fatal => True
    | _ => False
    end.
Proof.
  intros Hfuel. induction uuids as [|uuid rest IH]; intros chunks used st Hwf Hc; simpl.
  { split_and!; [exact Hwf|exact Hc|apply selects_refl]. }
  pose proof (_refreshDefragmentationPhaseFor_spec fuel env U uuid st Hfuel Hwf Hc) as Hr.
  destruct (_refreshDefragmentationPhaseFor fuel env uuid st) as [[] st1|st1| |];
    [|subst st1; apply IH; [apply wfPolicy_erase|apply covered_erase]; assumption
     |exact I|contradiction].
  destruct Hr as [Hwf1 Hc1].
  destruct (_defragmentationStates st1 !! uuid) as [[ph|]|] eqn:Hph;
    [|apply IH; [apply wfPolicy_erase|apply covered_erase]; assumption|exact I].
  destruct (Hc1 uuid _ Hph) as [_ HphU]. simpl in HphU.
  pose proof (Phase_popNextMigration_summary env used ph
                (fun p Heq => Hwf1 uuid p (eq_trans Hph (f_equal (fun x => Some (Some x)) Heq))))
    as Hpop.
  destruct (Phase.popNextMigration env used ph) as [[m|] [ph' used']|[ph' used']| |];
    [| | |exact I|contradiction].
  - destruct Hpop as (Hwf' & Hs & Hfrom & Hto & -> & Hsub).
    specialize (IH (chunks ++ [m]) (migrationShards m ∪ used) (assign uuid (Some ph') st1)).
    destruct (selectChunksFrom fuel env rest (chunks ++ [m]) (migrationShards m ∪ used)
                (assign uuid (Some ph') st1)) as [chunks2 [st2 used2]|[st2 used2]| |].
    + destruct IH as (Hwf2 & Hc2 & Hsel).
      * apply wfPolicy_assign; [exact Hwf1|]. intros p [= ->]. apply Hwf'. reflexivity.
      * apply covered_assign; [exact Hc1|eauto|]. simpl. rewrite Hs. exact HphU.
      * split_and!; [exact Hwf2|exact Hc2|].
        eapply selects_trans; [|exact Hsel]. apply selects_one; [exact Hfrom|exact Hto|].
        set_solver.
    + apply IH.
      * apply wfPolicy_assign; [exact Hwf1|]. intros p [= ->]. apply Hwf'. reflexivity.
      * apply covered_assign; [exact Hc1|eauto|]. simpl. rewrite Hs. exact HphU.
    + exact I.
    + apply IH.
      * apply wfPolicy_assign; [exact Hwf1|]. intros p [= ->]. apply Hwf'. reflexivity.
      * apply covered_assign; [exact Hc1|eauto|]. simpl. rewrite Hs. exact HphU.
  - destruct Hpop as (Hwf' & Hs & ->). apply IH.
    + apply wfPolicy_assign; [exact Hwf1|]. intros p [= ->]. apply Hwf'. reflexivity.
    + apply covered_assign; [exact Hc1|eauto|]. simpl. rewrite Hs. exact HphU.
  - specialize (IH chunks used' (erase uuid st1)).
    destruct (selectChunksFrom fuel env rest chunks used' (erase uuid st1))
      as [chunks2 [st2 used2]|[st2 used2]| |].
    + destruct IH as (Hwf2 & Hc2 & Hsel);
        [apply wfPolicy_erase; exact Hwf1|apply covered_erase; exact Hc1|].
      split_and!; [exact Hwf2|exact Hc2|].
      eapply selects_trans; [|exact Hsel]. apply selects_used. exact Hpop.
    + apply IH; [apply wfPolicy_erase; exact Hwf1|apply covered_erase; exact Hc1].
    + exact I.
    + apply IH; [apply wfPolicy_erase; exact Hwf1|apply covered_erase; exact Hc1].
Qed.

Lemma covered_knownShards env st : covered (knownShards env st) env st.
Proof.
  intros uuid oph Hlookup. apply elem_of_map_to_list in Hlookup.
  assert (Hsub : catalogShards env uuid ∪ from_option phaseShards ∅ oph ⊆ knownShards env st).
  { intros s Hs. unfold knownShards. apply elem_of_union_list.
    exists (catalogShards env uuid ∪ from_option phaseShards ∅ oph). split; [|exact Hs].
    apply list_elem_of_fmap. exists (uuid, oph). split; [reflexivity|exact Hlookup]. }
  split; set_solver.
Qed.

(** The rounds end: a round that adds a migration takes a shard out of the
    known shards that are still free. *)
Lemma selectChunksRounds_spec refreshFuel env U :
  (4 <= refreshFuel)%nat ->
  forall fuel chunksToMove usedShards st,
    (size (U ∖ usedShards) < fuel)%nat -> wfPolicy st -> covered U env st ->
    match selectChunksRounds fuel refreshFuel env chunksToMove usedShards st with
    | Ok chunksToMove' (st', usedShards') =>
        selects U chunksToMove usedShards chunksToMove' usedShards'
    | Fatal => True
    | _ => False
    end.
Proof.
  intros Hrefresh. induction fuel as [|fuel IH]; intros chunks used st Hfuel Hwf Hc; [lia|].
  simpl.
  pose proof (selectChunksFrom_spec refreshFuel env U
                (fst <$> map_to_list (_defragmentationStates st)) Hrefresh chunks used st Hwf Hc)
    as Hpass.
  destruct (selectChunksFrom refreshFuel env (fst <$> map_to_list (_defragmentationStates st))
              chunks used st) as [chunks1 [st1 used1]|[st1 used1]| |];
    [|contradiction|exact I|contradiction].
  destruct Hpass as (Hwf1 & Hc1 & Hsel).
  destruct (bool_decide (length chunks1 = length chunks)) eqn:Hdone; [exact Hsel|].
  apply bool_decide_eq_false in Hdone.
  assert (Hless : (size (U ∖ used1) < fuel)%nat).
  { destruct Hsel as (selected & -> & _ & _ & _ & Hsize).
    rewrite length_app in Hdone. lia. }
  specialize (IH chunks1 used1 st1 Hless Hwf1 Hc1).
  destruct (selectChunksRounds fuel refreshFuel env chunks1 used1 st1)
    as [chunks2 [st2 used2]|[st2 used2]| |]; [|contradiction|exact I|contradiction].
  eapply selects_trans; [exact Hsel|exact IH].
Qed.

Lemma wfPolicyb_wfPolicy st : wfPolicyb st = true -> wfPolicy st.
Proof.
  unfold wfPolicyb. intros H uuid p Hlookup. apply elem_of_map_to_list in Hlookup.
  rewrite forallb_forall in H. apply list_elem_of_In in Hlookup.
  specialize (H _ Hlookup). simpl in H. apply wfb_wf. exact H.
Qed.

(** C10. A call of [selectChunksToMove] ends: with fuel for four phase
    transitions and one round more than there are known shards still free,
    the model does not run out of fuel and lets no exception out; it returns
    unless an invariant of the code fails.  In the list returned no shard
    takes part in two migrations: the shards of each migration are known to
    the policy, were free when the call began and are used when it ends, so
    the list is no longer than the set of known shards that were free. *)
Theorem selectChunksToMove_terminates env usedShards st fuel :
  wfPolicy st ->
  (4 + size (knownShards env st ∖ usedShards) <= fuel)%nat ->
  match selectChunksToMove fuel env usedShards st with
  | Ok chunksToMove (st', usedShards') =>
      exclusive chunksToMove /\
      (forall m, m ∈ chunksToMove ->
         (mig_from m ∉ usedShards) /\ (mig_to m ∉ usedShards) /\
         migrationShards m ⊆ usedShards' /\
         migrationShards m ⊆ knownShards env st) /\
      usedShards ⊆ usedShards' /\
      (length chunksToMove <= size (knownShards env st ∖ usedShards))%nat
  | Fatal => True
  | _ => False
  end.
Proof.
  intros Hwf Hfuel. unfold selectChunksToMove.
  pose proof (selectChunksRounds_spec fuel env (knownShards env st) ltac:(lia)
                fuel [] usedShards st ltac:(lia) Hwf (covered_knownShards env st)) as H.
  destruct (selectChunksRounds fuel fuel env [] usedShards st)
    as [chunks [st' used']|[st' used']| |]; [|contradiction|exact I|contradiction].
  destruct H as (selected & Heq & Hsub & Hex & Hm & Hsize). simpl in Heq. subst chunks.
  split_and!.
  - exact Hex.
  - intros m Hin. destruct (Hm m Hin) as (HU & Hused & Hfree).
    unfold migrationShards in *. split_and!; [set_solver|set_solver|exact Hused|exact HU].
  - exact Hsub.
  - lia.
Qed.

End PolicyProperties.

(** * ChunkVersion *)

Section ChunkVersionProperties.

Import chunk_version.

Context (Timestamp_max OID_ignored : Z).

Lemma wrapU32_range z : 0 <= wrapU32 z < 2 ^ 32.
Proof. unfold wrapU32. apply Z.mod_pos_bound. lia. Qed.

Lemma wrapU32_small z : 0 <= z < 2 ^ 32 -> wrapU32 z = z.
Proof. intros H. unfold wrapU32. apply Z.mod_small. exact H. Qed.

Lemma shiftr_32 c : Z.shiftr c 32 = c / 2 ^ 32.
Proof. apply Z.shiftr_div_pow2. lia. Qed.

Lemma shiftl_32 c : Z.shiftl c 32 = c * 2 ^ 32.
Proof. apply Z.shiftl_mul_pow2. lia. Qed.

Lemma land_low_32 c : Z.land c 0xFFFFFFFF = c mod 2 ^ 32.
Proof. change 0xFFFFFFFF with (Z.ones 32). apply Z.land_ones. lia. Qed.

(** The two halves of [_combined] do not overlap. *)
Lemma lor_halves lo hi : 0 <= lo < 2 ^ 32 -> Z.lor lo (hi * 2 ^ 32) = lo + hi * 2 ^ 32.
Proof.
  intros Hlo. rewrite <- Z.add_lor_land.
  assert (Hland : Z.land lo (hi * 2 ^ 32) = 0); [|lia].
  apply Z.bits_inj'. intros n Hn. rewrite Z.land_spec, Z.bits_0.
  destruct (Z.lt_ge_cases n 32) as [Hlt|Hge].
  - rewrite <- shiftl_32, Z.shiftl_spec_low by lia. apply andb_false_r.
  - assert (Hbit : Z.testbit lo n = false); [|rewrite Hbit; reflexivity].
    destruct (Z.eq_dec lo 0) as [->|Hne]; [apply Z.bits_0|].
    apply Z.bits_above_log2; [lia|].
    assert (Z.log2 lo < 32); [|lia]. apply Z.log2_lt_pow2; lia.
Qed.

Lemma majorVersion_valid v : valid v -> majorVersion v = _combined v / 2 ^ 32.
Proof.
  intros Hv. unfold majorVersion. rewrite shiftr_32. apply wrapU32_small.
  unfold valid in Hv. split; [apply Z.div_pos; lia|].
  apply Z.div_lt_upper_bound; lia.
Qed.

Lemma minorVersion_mod v : minorVersion v = _combined v mod 2 ^ 32.
Proof.
  unfold minorVersion. rewrite land_low_32. apply wrapU32_small.
  apply Z.mod_pos_bound. lia.
Qed.

Lemma combined_halves v :
  valid v -> _combined v = minorVersion v + majorVersion v * 2 ^ 32.
Proof.
  intros Hv. rewrite majorVersion_valid, minorVersion_mod by exact Hv.
  pose proof (Z.div_mod (_combined v) (2 ^ 32)). lia.
Qed.

Lemma combined_new major minor epoch timestamp :
  _combined (new major minor epoch timestamp) = wrapU32 minor + wrapU32 major * 2 ^ 32.
Proof.
  unfold new. simpl. pose proof (wrapU32_range major). pose proof (wrapU32_range minor).
  rewrite (wrapU64_small (wrapU32 minor)), (wrapU64_small (wrapU32 major)) by lia.
  rewrite shiftl_32, wrapU64_small by lia. apply lor_halves. lia.
Qed.

Lemma versions_of_halves c lo hi epoch timestamp :
  0 <= lo < 2 ^ 32 -> 0 <= hi < 2 ^ 32 -> c = lo + hi * 2 ^ 32 ->
  valid (mkChunkVersion c epoch timestamp) /\
  majorVersion (mkChunkVersion c epoch timestamp) = hi /\
  minorVersion (mkChunkVersion c epoch timestamp) = lo.
Proof.
  intros Hlo Hhi ->.
  assert (Hv : valid (mkChunkVersion (lo + hi * 2 ^ 32) epoch timestamp)).
  { unfold valid. simpl. lia. }
  split; [exact Hv|]. rewrite majorVersion_valid by exact Hv. rewrite minorVersion_mod. simpl.
  split.
  - rewrite Z.div_add by lia. rewrite Z.div_small by lia. lia.
  - rewrite Z.mod_add by lia. apply Z.mod_small. lia.
Qed.

(** The constructor packs the two versions and the accessors give them
    back, as [uint32_t] values; the version built fits a [uint64_t]. *)
Theorem new_majorVersion_minorVersion major minor epoch timestamp :
  let v := new major minor epoch timestamp in
  majorVersion v = wrapU32 major /\ minorVersion v = wrapU32 minor /\
  toLong v = wrapU32 minor + wrapU32 major * 2 ^ 32 /\
  chunk_version.epoch v = epoch /\ getTimestamp v = timestamp /\ valid v.
Proof.
  intros v. pose proof (combined_new major minor epoch timestamp) as Hc.
  destruct (versions_of_halves (_combined v) (wrapU32 minor) (wrapU32 major) epoch timestamp
              (wrapU32_range minor) (wrapU32_range major) Hc) as (Hv & Hmajor & Hminor).
  split_and!; [exact Hmajor|exact Hminor|exact Hc|reflexivity|reflexivity|exact Hv].
Qed.

(** What [incMajor] returns when it does not fail. *)
Lemma incMajor_Some v v' :
  incMajor v = Some v' ->
  majorVersion v < 2 ^ 32 - 1 /\
  majorVersion v' = majorVersion v + 1 /\ minorVersion v' = 0 /\
  chunk_version.epoch v' = chunk_version.epoch v /\ getTimestamp v' = getTimestamp v /\
  valid v'.
Proof.
  unfold incMajor. destruct (Z.eqb_spec (majorVersion v) (2 ^ 32 - 1)) as [Hmax|Hmax];
    [discriminate|].
  assert (Hrange : 0 <= majorVersion v < 2 ^ 32) by apply wrapU32_range.
  rewrite (wrapU32_small (majorVersion v + 1)) by lia.
  rewrite (wrapU64_small (majorVersion v + 1)) by lia.
  rewrite shiftl_32, wrapU64_small by lia.
  intros [= <-].
  destruct (versions_of_halves ((majorVersion v + 1) * 2 ^ 32) 0 (majorVersion v + 1)
              (_epoch v) (_timestamp v)) as (Hv & Hmajor & Hminor); [lia|lia|lia|].
  split_and!; [lia|exact Hmajor|exact Hminor|reflexivity|reflexivity|exact Hv].
Qed.

(** [incMajor] fails exactly at the largest major version; otherwise the
    major version goes up by one, the minor version starts again at 0, and
    the epoch and the timestamp stay. *)
Theorem incMajor_versions v :
  match incMajor v with
  | None => majorVersion v = 2 ^ 32 - 1
  | Some v' =>
      majorVersion v < 2 ^ 32 - 1 /\
      majorVersion v' = majorVersion v + 1 /\ minorVersion v' = 0 /\
      chunk_version.epoch v' = chunk_version.epoch v /\ getTimestamp v' = getTimestamp v /\
      valid v'
  end.
Proof.
  destruct (incMajor v) as [v'|] eqn:Hinc; [exact (incMajor_Some v v' Hinc)|].
  unfold incMajor in Hinc.
  destruct (Z.eqb_spec (majorVersion v) (2 ^ 32 - 1)) as [Hmax|Hmax];
    [exact Hmax|discriminate].
Qed.

(** What [incMinor] returns when it does not fail. *)
Lemma incMinor_Some v v' :
  valid v ->
  incMinor v = Some v' ->
  minorVersion v < 2 ^ 32 - 1 /\
  minorVersion v' = minorVersion v + 1 /\ majorVersion v' = majorVersion v /\
  chunk_version.epoch v' = chunk_version.epoch v /\ getTimestamp v' = getTimestamp v /\
  valid v'.
Proof.
  intros Hv. unfold incMinor.
  destruct (Z.eqb_spec (minorVersion v) (2 ^ 32 - 1)) as [Hmax|Hmax]; [discriminate|].
  assert (Hminor : 0 <= minorVersion v < 2 ^ 32) by apply wrapU32_range.
  assert (Hmajor : 0 <= majorVersion v < 2 ^ 32) by apply wrapU32_range.
  pose proof (combined_halves v Hv) as Hc.
  rewrite wrapU64_small by lia.
  intros [= <-].
  destruct (versions_of_halves (_combined v + 1) (minorVersion v + 1) (majorVersion v)
              (_epoch v) (_timestamp v)) as (Hv' & Hmajor' & Hminor'); [lia|lia|lia|].
  split_and!; [lia|exact Hminor'|exact Hmajor'|reflexivity|reflexivity|exact Hv'].
Qed.

(** [incMinor] fails exactly at the largest minor version; otherwise the
    minor version goes up by one and the major version, the epoch and the
    timestamp stay: the increment of [_combined] does not carry into the
    major version. *)
Theorem incMinor_versions v :
  valid v ->
  match incMinor v with
  | None => minorVersion v = 2 ^ 32 - 1
  | Some v' =>
      minorVersion v < 2 ^ 32 - 1 /\
      minorVersion v' = minorVersion v + 1 /\ majorVersion v' = majorVersion v /\
      chunk_version.epoch v' = chunk_version.epoch v /\ getTimestamp v' = getTimestamp v /\
      valid v'
  end.
Proof.
  intros Hv.
  destruct (incMinor v) as [v'|] eqn:Hinc; [exact (incMinor_Some v v' Hv Hinc)|].
  unfold incMinor in Hinc.
  destruct (Z.eqb_spec (minorVersion v) (2 ^ 32 - 1)) as [Hmax|Hmax];
    [exact Hmax|discriminate].
Qed.

(** The lexicographic test of [isOlderThan] on the three numbers. *)
Lemma older_lex ta Ma ma tb Mb mb :
  (if negb (ta =? tb) then ta <? tb
   else if negb (Ma =? Mb) then Ma <? Mb else ma <? mb) = true <->
  ta < tb \/ (ta = tb /\ (Ma < Mb \/ (Ma = Mb /\ ma < mb))).
Proof.
  destruct (Z.eqb_spec ta tb), (Z.eqb_spec Ma Mb); cbn [negb]; rewrite Z.ltb_lt; lia.
Qed.

Lemma isOlderThan_true a b :
  isOlderThan Timestamp_max OID_ignored a b = true <->
  isNotComparableWith Timestamp_max OID_ignored a b = false /\
  (getTimestamp a < getTimestamp b \/
   (getTimestamp a = getTimestamp b /\
    (majorVersion a < majorVersion b \/
     (majorVersion a = majorVersion b /\ minorVersion a < minorVersion b)))).
Proof.
  unfold isOlderThan. destruct (isNotComparableWith Timestamp_max OID_ignored a b).
  - split; [discriminate|intros [? _]; discriminate].
  - rewrite older_lex. tauto.
Qed.

Lemma isNotComparableWith_false a b :
  isNotComparableWith Timestamp_max OID_ignored a b = false <->
  isNotComparableWith Timestamp_max OID_ignored a a = false /\
  isNotComparableWith Timestamp_max OID_ignored b b = false.
Proof.
  unfold isNotComparableWith.
  destruct (operator_eq a UNSHARDED), (operator_eq b UNSHARDED),
    (operator_eq a (IGNORED Timestamp_max OID_ignored)),
    (operator_eq b (IGNORED Timestamp_max OID_ignored)); cbn [orb]; tauto.
Qed.

Lemma combined_UNSHARDED : _combined UNSHARDED = 0.
Proof. reflexivity. Qed.

Lemma combined_IGNORED : _combined (IGNORED Timestamp_max OID_ignored) = 0.
Proof. reflexivity. Qed.

(** [isOlderThan] is a strict order: it is transitive, and a version is
    never older than one that is older than it, nor than itself. *)
Theorem isOlderThan_transitive a b c :
  isOlderThan Timestamp_max OID_ignored a b = true ->
  isOlderThan Timestamp_max OID_ignored b c = true ->
  isOlderThan Timestamp_max OID_ignored a c = true /\
  isOlderThan Timestamp_max OID_ignored b a = false /\
  isOlderThan Timestamp_max OID_ignored a a = false.
Proof.
  intros Hab Hbc. apply isOlderThan_true in Hab as [Hcab Hab].
  apply isOlderThan_true in Hbc as [Hcbc Hbc].
  apply isNotComparableWith_false in Hcab as [Hca Hcb].
  apply isNotComparableWith_false in Hcbc as [_ Hcc].
  split_and!.
  - apply isOlderThan_true. split; [apply isNotComparableWith_false; tauto|lia].
  - apply not_true_is_false. intros H. apply isOlderThan_true in H as [_ H]. lia.
  - apply not_true_is_false. intros H. apply isOlderThan_true in H as [_ H]. lia.
Qed.

Lemma operator_eq_true a b :
  valid a -> valid b ->
  (operator_eq a b = true <->
   getTimestamp a = getTimestamp b /\ majorVersion a = majorVersion b /\
   minorVersion a = minorVersion b).
Proof.
  intros Ha Hb. pose proof (combined_halves a Ha) as Hca.
  pose proof (combined_halves b Hb) as Hcb.
  unfold operator_eq. rewrite andb_true_iff, !Z.eqb_eq. split.
  - intros [Ht Hc]. rewrite (majorVersion_valid a Ha), (majorVersion_valid b Hb).
    rewrite (minorVersion_mod a), (minorVersion_mod b), Hc. auto.
  - intros (Ht & HM & Hm). rewrite Hca, Hcb, HM, Hm. auto.
Qed.

(** Two versions that can be compared (neither is [UNSHARDED] nor
    [IGNORED]) are ordered: one is older than the other, or they are equal
    for [operator==], and only one of the three holds. *)
Theorem isOlderThan_total a b :
  valid a -> valid b ->
  isNotComparableWith Timestamp_max OID_ignored a b = false ->
  (isOlderThan Timestamp_max OID_ignored a b = true /\ operator_eq a b = false /\
   isOlderThan Timestamp_max OID_ignored b a = false) \/
  (isOlderThan Timestamp_max OID_ignored a b = false /\ operator_eq a b = true /\
   isOlderThan Timestamp_max OID_ignored b a = false) \/
  (isOlderThan Timestamp_max OID_ignored a b = false /\ operator_eq a b = false /\
   isOlderThan Timestamp_max OID_ignored b a = true).
Proof.
  intros Ha Hb Hcmp.
  assert (Hcmp' : isNotComparableWith Timestamp_max OID_ignored b a = false).
  { apply isNotComparableWith_false. apply isNotComparableWith_false in Hcmp. tauto. }
  assert (Hcases :
    (getTimestamp a < getTimestamp b \/
     (getTimestamp a = getTimestamp b /\
      (majorVersion a < majorVersion b \/
       (majorVersion a = majorVersion b /\ minorVersion a < minorVersion b)))) \/
    (getTimestamp a = getTimestamp b /\ majorVersion a = majorVersion b /\
     minorVersion a = minorVersion b) \/
    (getTimestamp b < getTimestamp a \/
     (getTimestamp b = getTimestamp a /\
      (majorVersion b < majorVersion a \/
       (majorVersion b = majorVersion a /\ minorVersion b < minorVersion a))))) by lia.
  destruct Hcases as [H|[H|H]]; [left|right; left|right; right]; split_and!.
  - apply isOlderThan_true. split; [exact Hcmp|exact H].
  - apply not_true_is_false. intros Hx. apply (operator_eq_true a b Ha Hb) in Hx. lia.
  - apply not_true_is_false. intros Hx. apply isOlderThan_true in Hx as [_ Hx]. lia.
  - apply not_true_is_false. intros Hx. apply isOlderThan_true in Hx as [_ Hx]. lia.
  - apply (operator_eq_true a b Ha Hb). exact H.
  - apply not_true_is_false. intros Hx. apply isOlderThan_true in Hx as [_ Hx]. lia.
  - apply not_true_is_false. intros Hx. apply isOlderThan_true in Hx as [_ Hx]. lia.
  - apply not_true_is_false. intros Hx. apply (operator_eq_true a b Ha Hb) in Hx. lia.
  - apply isOlderThan_true. split; [exact Hcmp'|exact H].
Qed.

(** A version that can be compared is older than the version [incMinor]
    or [incMajor] makes of it; the first can still be written with the old
    version, the second cannot. *)
Theorem inc_isOlderThan v :
  valid v ->
  isNotComparableWith Timestamp_max OID_ignored v v = false ->
  (forall v', incMinor v = Some v' ->
     isOlderThan Timestamp_max OID_ignored v v' = true /\
     isWriteCompatibleWith v v' = true) /\
  (forall v', incMajor v = Some v' ->
     isOlderThan Timestamp_max OID_ignored v v' = true /\
     isWriteCompatibleWith v v' = false).
Proof.
  intros Hv Hcmp.
  assert (Hnew : forall v', valid v' -> getTimestamp v' = getTimestamp v ->
            0 < _combined v' ->
            isNotComparableWith Timestamp_max OID_ignored v v' = false).
  { intros v' Hv' Ht Hpos. apply isNotComparableWith_false. split; [exact Hcmp|].
    unfold isNotComparableWith, operator_eq. rewrite combined_UNSHARDED, combined_IGNORED.
    destruct (Z.eqb_spec 0 (_combined v')) as [H0|H0]; [lia|].
    rewrite !andb_false_r. reflexivity. }
  split; intros v' Hinc.
  - destruct (incMinor_Some v v' Hv Hinc) as (Hlt & Hminor & Hmajor & _ & Ht & Hv').
    split.
    + apply isOlderThan_true. split; [|lia].
      apply Hnew; [exact Hv'|exact Ht|]. pose proof (combined_halves v' Hv').
      pose proof (wrapU32_range (Z.shiftr (_combined v') 32)) as HM.
      fold (majorVersion v') in HM.
      pose proof (wrapU32_range (Z.land (_combined v) 0xFFFFFFFF)) as Hm.
      fold (minorVersion v) in Hm. lia.
    + unfold isWriteCompatibleWith, isSameCollectionAs, isSameCollection.
      rewrite Ht, Hmajor, !Z.eqb_refl. reflexivity.
  - destruct (incMajor_Some v v' Hinc) as (Hlt & Hmajor & Hminor & _ & Ht & Hv').
    split.
    + apply isOlderThan_true. split; [|lia].
      apply Hnew; [exact Hv'|exact Ht|]. pose proof (combined_halves v' Hv').
      pose proof (wrapU32_range (Z.shiftr (_combined v) 32)) as HM.
      fold (majorVersion v) in HM. lia.
    + unfold isWriteCompatibleWith. rewrite Hmajor.
      destruct (Z.eqb_spec (majorVersion v) (majorVersion v + 1)); [lia|].
      apply andb_false_r.
Qed.

End ChunkVersionProperties.

(** * The phases that stream actions *)

(** ** [std::map::begin], [back] and [pop_back], the counter *)

Lemma foldr_begin_None {A} (l : list (ShardId * A)) :
  foldr (fun kv acc =>
           match acc with
           | None => Some kv
           | Some kv' => if String.ltb (fst kv) (fst kv') then Some kv else Some kv'
           end) None l = None -> l = [].
Proof.
  destruct l as [|kv l]; [reflexivity|]. simpl.
  destruct (foldr _ None l) as [kv'|]; [destruct (String.ltb _ _)|]; discriminate.
Qed.

Lemma foldr_begin_Some {A} (l : list (ShardId * A)) kv :
  foldr (fun kv acc =>
           match acc with
           | None => Some kv
           | Some kv' => if String.ltb (fst kv) (fst kv') then Some kv else Some kv'
           end) None l = Some kv -> kv ∈ l.
Proof.
  induction l as [|x l IH]; simpl; [discriminate|].
  destruct (foldr _ None l) as [kv'|].
  - destruct (String.ltb _ _); intros [= <-]; [left|right; apply IH; reflexivity].
  - intros [= <-]. left.
Qed.

Lemma map_begin_None {A} (m : gmap ShardId A) : map_begin m = None -> m = ∅.
Proof.
  unfold map_begin. intros H. apply foldr_begin_None in H.
  apply map_to_list_empty_iff. exact H.
Qed.

Lemma map_begin_Some {A} (m : gmap ShardId A) k v :
  map_begin m = Some (k, v) -> m !! k = Some v.
Proof.
  unfold map_begin. intros H. apply foldr_begin_Some in H.
  apply elem_of_map_to_list. exact H.
Qed.

Lemma removelast_last {A} (l : list A) x : last l = Some x -> removelast l ++ [x] = l.
Proof.
  induction l as [|y l IH]; [discriminate|]. destruct l as [|z l].
  - intros [= <-]. reflexivity.
  - intros H. change (y :: removelast (z :: l) ++ [x] = y :: z :: l). f_equal. apply IH. exact H.
Qed.

Lemma wrapU64_succ_pred c : 0 <= c < 2 ^ 64 - 1 -> wrapU64 (wrapU64 (c + 1) - 1) = c.
Proof.
  intros H. rewrite (wrapU64_small (c + 1)) by lia.
  replace (c + 1 - 1) with c by lia. apply wrapU64_small. lia.
Qed.


Lemma app_singleton_not_nil {A} (l : list A) x : l ++ [x] <> [].
Proof. intros H. apply app_eq_nil in H as [_ H]. discriminate. Qed.


(** ** MergeChunksPhase *)

Section MergeChunksPhaseProperties.

Import MergeChunksPhase PhaseInvariants.

Lemma mergePendingb_mergePending st : mergePendingb st = true -> mergePending st.
Proof.
  unfold mergePendingb. intros H s e Hl. apply elem_of_map_to_list in Hl.
  rewrite forallb_forall in H. apply list_elem_of_In in Hl. specialize (H _ Hl). simpl in H.
  apply orb_true_iff in H as [H|H]; [left|right]; apply negb_true_iff in H;
    apply bool_decide_eq_false in H; exact H.
Qed.

(** An action of a MergeChunks phase that ends in a retriable error is
    asked again: the acknowledgement puts the phase back in the state it had
    before [popNextStreamableAction] gave the action. *)
Theorem MergeChunksPhase_retriable_error_round_trip env st action st1 status :
  _aborted st = false ->
  0 <= _outstandingActions st < 2 ^ 64 - 1 ->
  popNextStreamableAction env st = Ok (Some action) st1 ->
  isRetriableForDefragmentation status = true ->
  forall value, applyActionResult env action
                  (match action with
                   | ActDataSizeInfo _ => RespDataSize status value
                   | _ => RespStatus status
                   end) st1 = Ok tt st.
Proof.
  intros Hab Hc Hpop Hretry.
  assert (Hok : isOK status = false) by (destruct status; [discriminate|reflexivity]).
  unfold popNextStreamableAction in Hpop.
  destruct (map_begin (_pendingActionsByShards st)) as [[shardId pa]|] eqn:Hbegin;
    [|discriminate].
  apply map_begin_Some in Hbegin.
  destruct (getShardVersion env shardId (_uuid st)) as [version|]; [|discriminate].
  assert (Hback : forall pa' e',
    <[shardId := pa]>
      (match rangesToMerge pa', rangesWithoutDataSize pa' with
       | [], [] => delete shardId (_pendingActionsByShards st)
       | _, _ => <[shardId := e']> (_pendingActionsByShards st)
       end) = _pendingActionsByShards st).
  { intros pa' e'. destruct (rangesToMerge pa'), (rangesWithoutDataSize pa');
      rewrite ?insert_delete_eq, ?insert_insert_eq; apply insert_id; exact Hbegin. }
  assert (Hentry : forall pa',
    entry (match rangesToMerge pa', rangesWithoutDataSize pa' with
           | [], [] => delete shardId (_pendingActionsByShards st)
           | _, _ => <[shardId := pa']> (_pendingActionsByShards st)
           end) shardId = pa').
  { intros pa'. unfold entry. destruct pa' as [m w]. simpl.
    destruct m, w; rewrite ?lookup_delete_eq, ?lookup_insert_eq; reflexivity. }
  destruct (bool_decide _).
  - destruct (last (rangesWithoutDataSize pa)) as [r|] eqn:Hlast; [|discriminate].
    injection Hpop as <- <-. apply removelast_last in Hlast.
    assert (forall value,
      applyActionResult env
        (ActDataSizeInfo (mkDataSizeInfo shardId (_nss st) (_uuid st) r version (_shardKey st)
                            false))
        (RespDataSize status value)
        (with_pendingActionsByShards
           (match rangesToMerge (mkPendingActions (rangesToMerge pa)
                                   (removelast (rangesWithoutDataSize pa))),
                  rangesWithoutDataSize (mkPendingActions (rangesToMerge pa)
                                   (removelast (rangesWithoutDataSize pa))) with
            | [], [] => delete shardId (_pendingActionsByShards st)
            | _, _ => <[shardId := mkPendingActions (rangesToMerge pa)
                                     (removelast (rangesWithoutDataSize pa))]>
                        (_pendingActionsByShards st)
            end)
           (with_outstandingActions (wrapU64 (_outstandingActions st + 1)) st)) = Ok tt st)
      as Hgoal; [|exact Hgoal].
    intros value.
    pose proof (Hentry (mkPendingActions (rangesToMerge pa)
                          (removelast (rangesWithoutDataSize pa)))) as He.
    pose proof (Hback (mkPendingActions (rangesToMerge pa)
                         (removelast (rangesWithoutDataSize pa)))
                      (mkPendingActions (rangesToMerge pa)
                         (removelast (rangesWithoutDataSize pa)))) as Hb.
    unfold applyActionResult. simpl in *. rewrite Hab.
    unfold handleActionResult. rewrite Hok, Hretry. f_equal.
    unfold scopedGuard, with_pendingActionsByShards, with_outstandingActions. simpl.
    rewrite He. simpl.
    rewrite Hlast. replace (mkPendingActions (rangesToMerge pa) (rangesWithoutDataSize pa))
      with pa by (destruct pa; reflexivity).
    rewrite Hb.
    rewrite wrapU64_succ_pred by exact Hc. destruct st; reflexivity.
  - destruct (last (rangesToMerge pa)) as [r|] eqn:Hlast; [|discriminate].
    injection Hpop as <- <-. apply removelast_last in Hlast.
    assert (forall value : DataSizeResponse,
      applyActionResult env
        (ActMergeInfo (mkMergeInfo shardId (_nss st) (_uuid st) version r))
        (RespStatus status)
        (with_pendingActionsByShards
           (match rangesToMerge (mkPendingActions (removelast (rangesToMerge pa))
                                   (rangesWithoutDataSize pa)),
                  rangesWithoutDataSize (mkPendingActions (removelast (rangesToMerge pa))
                                   (rangesWithoutDataSize pa)) with
            | [], [] => delete shardId (_pendingActionsByShards st)
            | _, _ => <[shardId := mkPendingActions (removelast (rangesToMerge pa))
                                     (rangesWithoutDataSize pa)]>
                        (_pendingActionsByShards st)
            end)
           (with_outstandingActions (wrapU64 (_outstandingActions st + 1)) st)) = Ok tt st)
      as Hgoal; [|exact Hgoal].
    intros _.
    pose proof (Hentry (mkPendingActions (removelast (rangesToMerge pa))
                          (rangesWithoutDataSize pa))) as He.
    pose proof (Hback (mkPendingActions (removelast (rangesToMerge pa))
                         (rangesWithoutDataSize pa))
                      (mkPendingActions (removelast (rangesToMerge pa))
                         (rangesWithoutDataSize pa))) as Hb.
    unfold applyActionResult. simpl in *. rewrite Hab.
    unfold handleActionResult. rewrite Hok, Hretry. f_equal.
    unfold scopedGuard, with_pendingActionsByShards, with_outstandingActions. simpl.
    rewrite He. simpl. rewrite !insert_insert_eq.
    rewrite Hlast. replace (mkPendingActions (rangesToMerge pa) (rangesWithoutDataSize pa))
      with pa by (destruct pa; reflexivity).
    rewrite Hb.
    rewrite wrapU64_succ_pred by exact Hc. destruct st; reflexivity.
Qed.


Lemma mergePending_insert st shardId e :
  mergePending st ->
  rangesToMerge e <> [] \/ rangesWithoutDataSize e <> [] ->
  mergePending (with_pendingActionsByShards
                  (<[shardId := e]> (_pendingActionsByShards st)) st).
Proof.
  intros Hinv He s e'. simpl. intros Hl.
  apply lookup_insert_Some in Hl as [[_ <-]|[_ Hl]]; [exact He|exact (Hinv s e' Hl)].
Qed.

Lemma mergePending_frame st pending c :
  (forall s e, pending !! s = Some e ->
     rangesToMerge e <> [] \/ rangesWithoutDataSize e <> []) ->
  mergePending (with_pendingActionsByShards pending (with_outstandingActions c st)).
Proof. intros H s e. simpl. apply H. Qed.

Lemma MergeChunksPhase_findPendingActions_entries fuel zones chunks pending :
  (forall s e, pending !! s = Some e ->
     rangesToMerge e <> [] \/ rangesWithoutDataSize e <> []) ->
  forall s e, findPendingActions fuel zones chunks pending !! s = Some e ->
    rangesToMerge e <> [] \/ rangesWithoutDataSize e <> [].
Proof.
  revert chunks pending. induction fuel as [|fuel IH]; intros chunks pending Hinv; simpl;
    [destruct chunks; exact Hinv|].
  destruct chunks as [|upper below]; [exact Hinv|].
  destruct (lowerBoundOfRange zones upper false below) as [[lower moved] rest].
  apply IH. intros s e. destruct moved.
  - intros Hl. apply lookup_insert_Some in Hl as [[_ <-]|[_ Hl]]; [|exact (Hinv s e Hl)].
    left. simpl. intros Hnil. apply app_eq_nil in Hnil as [_ Hnil]. discriminate.
  - destruct (ct_estimatedSizeBytes upper); [apply Hinv|].
    intros Hl. apply lookup_insert_Some in Hl as [[_ <-]|[_ Hl]]; [|exact (Hinv s e Hl)].
    right. simpl. intros Hnil. apply app_eq_nil in Hnil as [_ Hnil]. discriminate.
Qed.

(** No shard of a MergeChunks phase is left with an entry that holds no
    range: [build] makes none, and [popNextStreamableAction] and
    [applyActionResult] leave none, whatever the action and the response. *)
Theorem MergeChunksPhase_keeps_entries_non_empty env :
  (forall coll p, build env coll = Some p -> mergePending p) /\
  (forall st action st',
     mergePending st -> popNextStreamableAction env st = Ok action st' -> mergePending st') /\
  (forall st action response,
     mergePending st ->
     match applyActionResult env action response st with
     | Ok _ st' | Throw st' => mergePending st'
     | _ => True
     end).
Proof.
  split_and!.
  - intros coll p. unfold build.
    destruct (getCollectionChunks env coll) as [chunks|]; [|discriminate]. simpl.
    destruct (env_addTagsFromCatalog env (coll_nss coll)) as [zones|]; [|discriminate]. simpl.
    intros [= <-] s e. simpl. apply MergeChunksPhase_findPendingActions_entries.
    intros s' e' H. rewrite lookup_empty in H. discriminate.
  - intros st action st' Hinv. unfold popNextStreamableAction.
    destruct (map_begin (_pendingActionsByShards st)) as [[shardId pa]|] eqn:Hbegin;
      [|intros [= _ <-]; exact Hinv].
    destruct (getShardVersion env shardId (_uuid st)) as [version|]; [|discriminate].
    assert (Hgo : forall pa',
      mergePending
        (with_pendingActionsByShards
           (match rangesToMerge pa', rangesWithoutDataSize pa' with
            | [], [] => delete shardId (_pendingActionsByShards st)
            | _, _ => <[shardId := pa']> (_pendingActionsByShards st)
            end)
           (with_outstandingActions (wrapU64 (_outstandingActions st + 1)) st))).
    { intros pa'. apply mergePending_frame. intros s e.
      destruct (rangesToMerge pa') eqn:Hm; [destruct (rangesWithoutDataSize pa') eqn:Hw|].
      - intros Hl. apply lookup_delete_Some in Hl as [_ Hl]. exact (Hinv s e Hl).
      - intros Hl. apply lookup_insert_Some in Hl as [[_ <-]|[_ Hl]]; [|exact (Hinv s e Hl)].
        right. rewrite Hw. discriminate.
      - intros Hl. apply lookup_insert_Some in Hl as [[_ <-]|[_ Hl]]; [|exact (Hinv s e Hl)].
        left. rewrite Hm. discriminate. }
    destruct (bool_decide _).
    + destruct (last (rangesWithoutDataSize pa)); [|intros [= _ <-]; exact Hinv].
      intros [= _ <-].
      exact (Hgo (mkPendingActions (rangesToMerge pa) (removelast (rangesWithoutDataSize pa)))).
    + destruct (last (rangesToMerge pa)); [|intros [= _ <-]; exact Hinv].
      intros [= _ <-].
      exact (Hgo (mkPendingActions (removelast (rangesToMerge pa)) (rangesWithoutDataSize pa))).
  - intros st action response Hinv. unfold applyActionResult.
    assert (Hguard : forall st0, mergePending st0 -> mergePending (scopedGuard st0)).
    { intros st0 H0 s e. exact (H0 s e). }
    assert (Habort : forall k, mergePending (scopedGuard (_abort k st))).
    { intros k s e. simpl. rewrite lookup_empty. discriminate. }
    destruct (_aborted st); [apply Hguard; exact Hinv|].
    destruct action as [a|a|a|a|a|a]; try (apply Hguard; exact Hinv).
    + destruct response as [status|status v|status v]; try exact I.
      unfold handleActionResult.
      destruct (isOK status); [|destruct (isRetriableForDefragmentation status)].
      * apply Hguard. intros s e. simpl. rewrite insert_insert_eq. intros Hl.
        apply lookup_insert_Some in Hl as [[_ <-]|[_ Hl]]; [|exact (Hinv s e Hl)].
        right. apply app_singleton_not_nil.
      * apply Hguard. intros s e. simpl. rewrite insert_insert_eq. intros Hl.
        apply lookup_insert_Some in Hl as [[_ <-]|[_ Hl]]; [|exact (Hinv s e Hl)].
        left. apply app_singleton_not_nil.
      * intros s e. simpl. rewrite lookup_empty. discriminate.
    + destruct response as [status|status v|status v]; try exact I.
      unfold handleActionResult.
      destruct (isOK status); [|destruct (isRetriableForDefragmentation status)].
      * destruct (env_setChunkEstimatedSize env _ _); apply Hguard; exact Hinv.
      * apply Hguard. intros s e. simpl. intros Hl.
        apply lookup_insert_Some in Hl as [[_ <-]|[_ Hl]]; [|exact (Hinv s e Hl)].
        right. apply app_singleton_not_nil.
      * apply Habort.
Qed.

(** [popNextStreamableAction] of a MergeChunks phase returns no action only
    when nothing is pending; when it throws (the shard version cannot be
    read) the phase is as it was; when it gives an action the counter of
    outstanding actions goes up by one. *)
Theorem MergeChunksPhase_popNextStreamableAction_progress env st :
  mergePending st ->
  match popNextStreamableAction env st with
  | Ok None st' => st' = st /\ _pendingActionsByShards st = ∅
  | Ok (Some action) st' =>
      _pendingActionsByShards st <> ∅ /\
      _outstandingActions st' = wrapU64 (_outstandingActions st + 1)
  | Throw st' => st' = st /\ _pendingActionsByShards st <> ∅
  | _ => False
  end.
Proof.
  intros Hinv. unfold popNextStreamableAction.
  destruct (map_begin (_pendingActionsByShards st)) as [[shardId pa]|] eqn:Hbegin.
  2:{ split; [reflexivity|]. apply map_begin_None. exact Hbegin. }
  apply map_begin_Some in Hbegin.
  assert (Hne : _pendingActionsByShards st <> ∅).
  { intros H. rewrite H, lookup_empty in Hbegin. discriminate. }
  destruct (getShardVersion env shardId (_uuid st)) as [version|];
    [|split; [reflexivity|exact Hne]].
  destruct (bool_decide _) eqn:Hdec.
  - apply bool_decide_eq_true in Hdec.
    destruct (last (rangesWithoutDataSize pa)) eqn:Hlast; [split; [exact Hne|reflexivity]|].
    apply last_None in Hlast. rewrite Hlast in Hdec. simpl in Hdec. lia.
  - apply bool_decide_eq_false in Hdec.
    destruct (last (rangesToMerge pa)) eqn:Hlast; [split; [exact Hne|reflexivity]|].
    apply last_None in Hlast. rewrite Hlast in Hdec. simpl in Hdec.
    destruct (Hinv shardId pa Hbegin) as [Hm|Hw]; [contradiction|].
    destruct (rangesWithoutDataSize pa); [contradiction|simpl in Hdec; lia].
Qed.


(** The loop of [build] on the chunks from the last one down leaves nothing
    pending exactly when every chunk has a size and no chunk is consecutive
    with the one before it. *)
Lemma findPendingActions_empty_iff fuel zones chunks :
  (length chunks <= fuel)%nat ->
  findPendingActions fuel zones chunks ∅ = ∅ <->
  Forall (fun c => is_Some (ct_estimatedSizeBytes c)) chunks /\
  forall l1 upper prev l2,
    chunks = l1 ++ upper :: prev :: l2 -> areConsecutive zones prev upper = false.
Proof.
  revert chunks. induction fuel as [|fuel IH]; intros chunks Hlen.
  { destruct chunks; [|simpl in Hlen; lia]. simpl. split; [|reflexivity].
    intros _. split; [constructor|]. intros l1 u p l2 H. destruct l1; discriminate. }
  destruct chunks as [|upper below].
  { simpl. split; [|reflexivity].
    intros _. split; [constructor|]. intros l1 u p l2 H. destruct l1; discriminate. }
  simpl in Hlen. specialize (IH below ltac:(lia)). simpl.
  destruct (lowerBoundOfRange zones upper false below) as [[lower moved] rest] eqn:Hlb.
  destruct moved.
  - split.
    + intros H. exfalso. revert H. apply findPendingActions_non_empty. apply insert_non_empty.
    + intros [_ Hiso]. exfalso. destruct below as [|prev below']; [discriminate|].
      simpl in Hlb. rewrite (Hiso [] upper prev below' eq_refl) in Hlb. discriminate.
  - pose proof (lowerBoundOfRange_unmoved _ _ _ _ _ Hlb) as ->.
    assert (Hfirst : forall prev below', below = prev :: below' ->
                                         areConsecutive zones prev upper = false).
    { intros prev below' ->. simpl in Hlb.
      destruct (areConsecutive zones prev upper); [|reflexivity].
      pose proof (lowerBoundOfRange_moved zones prev below') as Hm.
      rewrite Hlb in Hm. discriminate. }
    destruct (ct_estimatedSizeBytes upper) as [size|] eqn:Hsize.
    + rewrite IH. split.
      * intros [Hall Hiso]. split; [constructor; [rewrite Hsize; eauto|exact Hall]|].
        intros l1 u p l2 Heq. destruct l1 as [|x l1].
        -- injection Heq as <- Heq. exact (Hfirst _ _ Heq).
        -- injection Heq as _ Heq. exact (Hiso _ _ _ _ Heq).
      * intros [Hall Hiso]. split; [inversion Hall; assumption|].
        intros l1 u p l2 Heq. apply (Hiso (upper :: l1) u p l2). rewrite Heq. reflexivity.
    + split.
      * intros H. exfalso. revert H. apply findPendingActions_non_empty.
        apply insert_non_empty.
      * intros [Hall _]. inversion Hall as [|? ? Hu _]. rewrite Hsize in Hu.
        destruct Hu as [? Hu]. discriminate.
Qed.

Lemma reverse_split {A} (l l1 l2 : list A) a b :
  reverse l = l1 ++ a :: b :: l2 -> l = reverse l2 ++ b :: a :: reverse l1.
Proof.
  intros H. rewrite <- (reverse_involutive l), H.
  rewrite reverse_app, !reverse_cons, <- !app_assoc. reflexivity.
Qed.

(** A MergeChunks phase is complete as soon as it is built exactly when the
    catalog gives it nothing to do: every chunk has an estimated size and no
    two adjacent chunks are consecutive (same shard, same zone, the second
    starting where the first ends). *)
Theorem MergeChunksPhase_build_isComplete env coll p chunks zones :
  build env coll = Some p ->
  getCollectionChunks env coll = Some chunks ->
  env_addTagsFromCatalog env (coll_nss coll) = Some zones ->
  (isComplete p = true <->
   Forall (fun c => is_Some (ct_estimatedSizeBytes c)) chunks /\
   forall l1 firstChunk secondChunk l2,
     chunks = l1 ++ firstChunk :: secondChunk :: l2 ->
     areConsecutive zones firstChunk secondChunk = false).
Proof.
  unfold build. intros Hb Hchunks Hzones. rewrite Hchunks, Hzones in Hb. simpl in Hb.
  injection Hb as <-. unfold isComplete. simpl. rewrite andb_true_r, bool_decide_eq_true.
  rewrite findPendingActions_empty_iff by (rewrite length_reverse; lia).
  rewrite Forall_reverse. split; intros [Hall Hiso]; (split; [exact Hall|]).
  - intros l1 a b l2 Heq. apply (Hiso (reverse l2) b a (reverse l1)).
    rewrite Heq, reverse_app, !reverse_cons, <- !app_assoc. reflexivity.
  - intros l1 u prev l2 Heq. apply reverse_split in Heq. exact (Hiso _ _ _ _ Heq).
Qed.

End MergeChunksPhaseProperties.

(** ** SplitChunksPhase *)

Section SplitChunksPhaseProperties.

Import SplitChunksPhase PhaseInvariants.

Lemma splitPendingb_splitPending st : splitPendingb st = true -> splitPending st.
Proof.
  unfold splitPendingb. intros H s e Hl. apply elem_of_map_to_list in Hl.
  rewrite forallb_forall in H. apply list_elem_of_In in Hl. specialize (H _ Hl). simpl in H.
  apply orb_true_iff in H as [H|H]; [left|right]; apply negb_true_iff in H;
    apply bool_decide_eq_false in H; exact H.
Qed.

(** An action of a SplitChunks phase that ends in a retriable error is asked
    again: the acknowledgement puts the phase back in the state it had
    before [popNextStreamableAction] gave the action. *)
Theorem SplitChunksPhase_retriable_error_round_trip env st action st1 status :
  _aborted st = false ->
  0 <= _outstandingActions st < 2 ^ 64 - 1 ->
  popNextStreamableAction env st = Ok (Some action) st1 ->
  isRetriableForDefragmentation status = true ->
  forall value, applyActionResult env action
                  (match action with
                   | ActAutoSplitVectorInfo _ => RespSplitPoints status value
                   | _ => RespStatus status
                   end) st1 = Ok tt st.
Proof.
  intros Hab Hc Hpop Hretry.
  assert (Hok : isOK status = false) by (destruct status; [discriminate|reflexivity]).
  unfold popNextStreamableAction in Hpop.
  destruct (map_begin (_pendingActionsByShards st)) as [[shardId pa]|] eqn:Hbegin;
    [|discriminate].
  apply map_begin_Some in Hbegin.
  destruct (getShardVersion env shardId (_uuid st)) as [version|]; [|discriminate].
  assert (Hback : forall pa' e',
    <[shardId := pa]>
      (match rangesToFindSplitPoints pa', rangesToSplit pa' with
       | [], [] => delete shardId (_pendingActionsByShards st)
       | _, _ => <[shardId := e']> (_pendingActionsByShards st)
       end) = _pendingActionsByShards st).
  { intros pa' e'. destruct (rangesToFindSplitPoints pa'), (rangesToSplit pa');
      rewrite ?insert_delete_eq, ?insert_insert_eq; apply insert_id; exact Hbegin. }
  assert (Hentry : forall pa',
    entry (match rangesToFindSplitPoints pa', rangesToSplit pa' with
           | [], [] => delete shardId (_pendingActionsByShards st)
           | _, _ => <[shardId := pa']> (_pendingActionsByShards st)
           end) shardId = pa').
  { intros pa'. unfold entry. destruct pa' as [m w]. simpl.
    destruct m, w; rewrite ?lookup_delete_eq, ?lookup_insert_eq; reflexivity. }
  destruct (last (rangesToSplit pa)) as [[r keys]|] eqn:Hlast.
  - injection Hpop as <- <-. apply removelast_last in Hlast. intros _.
    pose proof (Hentry (mkPendingActions (rangesToFindSplitPoints pa)
                          (removelast (rangesToSplit pa)))) as He.
    pose proof (Hback (mkPendingActions (rangesToFindSplitPoints pa)
                         (removelast (rangesToSplit pa)))
                      (mkPendingActions (rangesToFindSplitPoints pa)
                         (removelast (rangesToSplit pa)))) as Hb.
    unfold applyActionResult. simpl in *. rewrite Hab.
    unfold handleActionResult. rewrite Hok, Hretry. f_equal.
    unfold scopedGuard, with_pendingActionsByShards, with_outstandingActions. simpl.
    rewrite He. simpl.
    replace (mkChunkRange (getMin r) (getMax r)) with r by (destruct r; reflexivity).
    rewrite Hlast.
    replace (mkPendingActions (rangesToFindSplitPoints pa) (rangesToSplit pa))
      with pa by (destruct pa; reflexivity).
    rewrite Hb.
    rewrite wrapU64_succ_pred by exact Hc. destruct st; reflexivity.
  - destruct (last (rangesToFindSplitPoints pa)) as [r|] eqn:Hlast'; [|discriminate].
    injection Hpop as <- <-. apply removelast_last in Hlast'. intros value.
    pose proof (Hentry (mkPendingActions (removelast (rangesToFindSplitPoints pa))
                          (rangesToSplit pa))) as He.
    pose proof (Hback (mkPendingActions (removelast (rangesToFindSplitPoints pa))
                         (rangesToSplit pa))
                      (mkPendingActions (removelast (rangesToFindSplitPoints pa))
                         (rangesToSplit pa))) as Hb.
    unfold applyActionResult. simpl in *. rewrite Hab.
    unfold handleActionResult. rewrite Hok, Hretry. f_equal.
    unfold scopedGuard, with_pendingActionsByShards, with_outstandingActions. simpl.
    rewrite He. simpl.
    replace (mkChunkRange (getMin r) (getMax r)) with r by (destruct r; reflexivity).
    rewrite Hlast'.
    replace (mkPendingActions (rangesToFindSplitPoints pa) (rangesToSplit pa))
      with pa by (destruct pa; reflexivity).
    rewrite Hb.
    rewrite wrapU64_succ_pred by exact Hc. destruct st; reflexivity.
Qed.


Lemma SplitChunksPhase_findPendingActions_entries maxChunkSizeBytes chunks
    (pending : gmap ShardId PendingActions) :
  (forall s e, pending !! s = Some e ->
     rangesToFindSplitPoints e <> [] \/ rangesToSplit e <> []) ->
  forall s e,
    foldl (fun pendingActionsByShards chunk =>
             if match ct_estimatedSizeBytes chunk with
                | None => true
                | Some chunkSize => maxChunkSizeBytes <? wrapU64 chunkSize
                end
             then
               let e := entry pendingActionsByShards (ct_shard chunk) in
               <[ct_shard chunk :=
                   mkPendingActions
                     (rangesToFindSplitPoints e ++
                      [mkChunkRange (getMin (ct_range chunk)) (getMax (ct_range chunk))])
                     (rangesToSplit e)]> pendingActionsByShards
             else pendingActionsByShards) pending chunks !! s = Some e ->
    rangesToFindSplitPoints e <> [] \/ rangesToSplit e <> [].
Proof.
  revert pending. induction chunks as [|c chunks IH]; intros pending Hinv; simpl; [exact Hinv|].
  apply IH. destruct (match ct_estimatedSizeBytes c with
                      | Some chunkSize => maxChunkSizeBytes <? wrapU64 chunkSize
                      | None => true
                      end); [|exact Hinv].
  intros s e Hl. apply lookup_insert_Some in Hl as [[_ <-]|[_ Hl]]; [|exact (Hinv s e Hl)].
  left. apply app_singleton_not_nil.
Qed.

(** No shard of a SplitChunks phase is left with an entry that holds no
    range: [build] makes none, and [popNextStreamableAction] and
    [applyActionResult] leave none, whatever the action and the response. *)
Theorem SplitChunksPhase_keeps_entries_non_empty env :
  (forall coll p, build env coll = Some p -> splitPending p) /\
  (forall st action st',
     splitPending st -> popNextStreamableAction env st = Ok action st' -> splitPending st') /\
  (forall st action response,
     splitPending st ->
     match applyActionResult env action response st with
     | Ok _ st' | Throw st' => splitPending st'
     | _ => True
     end).
Proof.
  split_and!.
  - intros coll p. unfold build.
    destruct (env_getChunks env (coll_uuid coll)) as [chunks|]; [|discriminate]. simpl.
    destruct (getCollectionMaxChunkSizeBytes env coll) as [m|]; [|discriminate]. simpl.
    intros [= <-]. unfold splitPending. simpl. apply SplitChunksPhase_findPendingActions_entries.
    intros s e H. rewrite lookup_empty in H. discriminate.
  - intros st action st' Hinv. unfold popNextStreamableAction.
    destruct (map_begin (_pendingActionsByShards st)) as [[shardId pa]|] eqn:Hbegin;
      [|intros [= _ <-]; exact Hinv].
    destruct (getShardVersion env shardId (_uuid st)) as [version|]; [|discriminate].
    assert (Hgo : forall pa',
      splitPending
        (with_pendingActionsByShards
           (match rangesToFindSplitPoints pa', rangesToSplit pa' with
            | [], [] => delete shardId (_pendingActionsByShards st)
            | _, _ => <[shardId := pa']> (_pendingActionsByShards st)
            end)
           (with_outstandingActions (wrapU64 (_outstandingActions st + 1)) st))).
    { intros pa' s e. simpl.
      destruct (rangesToFindSplitPoints pa') eqn:Hm; [destruct (rangesToSplit pa') eqn:Hw|].
      - intros Hl. apply lookup_delete_Some in Hl as [_ Hl]. exact (Hinv s e Hl).
      - intros Hl. apply lookup_insert_Some in Hl as [[_ <-]|[_ Hl]]; [|exact (Hinv s e Hl)].
        right. rewrite Hw. discriminate.
      - intros Hl. apply lookup_insert_Some in Hl as [[_ <-]|[_ Hl]]; [|exact (Hinv s e Hl)].
        left. rewrite Hm. discriminate. }
    destruct (last (rangesToSplit pa)) as [[r keys]|].
    + intros [= _ <-].
      exact (Hgo (mkPendingActions (rangesToFindSplitPoints pa) (removelast (rangesToSplit pa)))).
    + destruct (last (rangesToFindSplitPoints pa)); [|intros [= _ <-]; exact Hinv].
      intros [= _ <-].
      exact (Hgo (mkPendingActions (removelast (rangesToFindSplitPoints pa)) (rangesToSplit pa))).
  - intros st action response Hinv. unfold applyActionResult.
    assert (Hguard : forall st0, splitPending st0 -> splitPending (scopedGuard st0)).
    { intros st0 H0 s e. exact (H0 s e). }
    assert (Habort : forall k, splitPending (scopedGuard (_abort k st))).
    { intros k s e. simpl. rewrite lookup_empty. discriminate. }
    destruct (_aborted st); [apply Hguard; exact Hinv|].
    destruct action as [a|a|a|a|a|a]; try (apply Hguard; exact Hinv).
    + destruct response as [status|status v|status v]; try exact I.
      unfold handleActionResult.
      destruct (isOK status); [|destruct (isRetriableForDefragmentation status)].
      * apply Hguard. unfold onAutoSplitVectorSuccess.
        destruct (last v); [|exact Hinv].
        intros s e. simpl. intros Hl.
        apply lookup_insert_Some in Hl as [[_ <-]|[_ Hl]]; [|exact (Hinv s e Hl)].
        right. destruct (moreSplitPointsToReceive env v); simpl; apply app_singleton_not_nil.
      * apply Hguard. intros s e. simpl. intros Hl.
        apply lookup_insert_Some in Hl as [[_ <-]|[_ Hl]]; [|exact (Hinv s e Hl)].
        left. apply app_singleton_not_nil.
      * apply Habort.
    + destruct response as [status|status v|status v]; try exact I.
      unfold handleActionResult.
      destruct (isOK status); [|destruct (isRetriableForDefragmentation status)].
      * apply Hguard. exact Hinv.
      * apply Hguard. intros s e. simpl. intros Hl.
        apply lookup_insert_Some in Hl as [[_ <-]|[_ Hl]]; [|exact (Hinv s e Hl)].
        right. apply app_singleton_not_nil.
      * apply Habort.
Qed.

(** [popNextStreamableAction] of a SplitChunks phase returns no action only
    when nothing is pending; when it throws the phase is as it was; the
    action it gives is for the first shard in the order of the map: a split
    when that shard has one to do, a search of split points otherwise. *)
Theorem SplitChunksPhase_popNextStreamableAction_progress env st :
  splitPending st ->
  match popNextStreamableAction env st with
  | Ok None st' => st' = st /\ _pendingActionsByShards st = ∅
  | Ok (Some action) st' =>
      _outstandingActions st' = wrapU64 (_outstandingActions st + 1) /\
      exists shardId pendingActions,
        map_begin (_pendingActionsByShards st) = Some (shardId, pendingActions) /\
        match action with
        | ActSplitInfoWithKeyPattern a =>
            split_shardId a = shardId /\
            last (rangesToSplit pendingActions) =
              Some (mkChunkRange (split_minKey a) (split_maxKey a), split_splitKeys a)
        | ActAutoSplitVectorInfo a =>
            asv_shardId a = shardId /\ rangesToSplit pendingActions = [] /\
            last (rangesToFindSplitPoints pendingActions) =
              Some (mkChunkRange (asv_minKey a) (asv_maxKey a))
        | _ => False
        end
  | Throw st' => st' = st /\ _pendingActionsByShards st <> ∅
  | _ => False
  end.
Proof.
  intros Hinv. unfold popNextStreamableAction.
  destruct (map_begin (_pendingActionsByShards st)) as [[shardId pa]|] eqn:Hbegin.
  2:{ split; [reflexivity|]. apply map_begin_None. exact Hbegin. }
  pose proof (map_begin_Some _ _ _ Hbegin) as Hlookup.
  assert (Hne : _pendingActionsByShards st <> ∅).
  { intros H. rewrite H, lookup_empty in Hlookup. discriminate. }
  destruct (getShardVersion env shardId (_uuid st)) as [version|];
    [|split; [reflexivity|exact Hne]].
  destruct (last (rangesToSplit pa)) as [[r keys]|] eqn:Hlast.
  - split; [reflexivity|]. exists shardId, pa. split; [reflexivity|]. simpl.
    split; [reflexivity|]. destruct r; simpl. exact Hlast.
  - apply last_None in Hlast.
    destruct (last (rangesToFindSplitPoints pa)) as [r|] eqn:Hlast'.
    + split; [reflexivity|]. exists shardId, pa. split; [reflexivity|]. simpl.
      split_and!; [reflexivity|exact Hlast|]. destruct r; simpl. exact Hlast'.
    + apply last_None in Hlast'. destruct (Hinv shardId pa Hlookup); contradiction.
Qed.

Lemma findPendingActions_foldl_empty maxChunkSizeBytes chunks
    (pending : gmap ShardId PendingActions) :
  foldl (fun pendingActionsByShards chunk =>
           if match ct_estimatedSizeBytes chunk with
              | None => true
              | Some chunkSize => maxChunkSizeBytes <? wrapU64 chunkSize
              end
           then
             let e := entry pendingActionsByShards (ct_shard chunk) in
             <[ct_shard chunk :=
                 mkPendingActions
                   (rangesToFindSplitPoints e ++
                    [mkChunkRange (getMin (ct_range chunk)) (getMax (ct_range chunk))])
                   (rangesToSplit e)]> pendingActionsByShards
           else pendingActionsByShards) pending chunks = ∅ <->
  pending = ∅ /\
  Forall (fun c => exists size, ct_estimatedSizeBytes c = Some size /\
                                wrapU64 size <= maxChunkSizeBytes) chunks.
Proof.
  revert pending. induction chunks as [|c chunks IH]; intros pending; simpl.
  { split; [intros ->; split; [reflexivity|constructor]|intros [-> _]; reflexivity]. }
  rewrite IH. destruct (ct_estimatedSizeBytes c) as [size|] eqn:Hsize.
  - destruct (Z.ltb_spec maxChunkSizeBytes (wrapU64 size)) as [Hlt|Hle].
    + split.
      * intros [H _]. exfalso. revert H. apply insert_non_empty.
      * intros [_ H]. inversion H as [|? ? (sz & Hsz & Hle) _]. simplify_eq. lia.
    + split.
      * intros [-> H]. split; [reflexivity|]. constructor; [eauto|exact H].
      * intros [-> H]. split; [reflexivity|]. inversion H; assumption.
  - split.
    + intros [H _]. exfalso. revert H. apply insert_non_empty.
    + intros [_ H]. inversion H as [|? ? (sz & Hsz & _) _]. congruence.
Qed.

(** A SplitChunks phase is complete as soon as it is built exactly when
    every chunk of the catalog has an estimated size that, read as an
    unsigned number, is not above the maximum chunk size. *)
Theorem SplitChunksPhase_build_isComplete env coll p chunks maxChunkSizeBytes :
  build env coll = Some p ->
  env_getChunks env (coll_uuid coll) = Some chunks ->
  getCollectionMaxChunkSizeBytes env coll = Some maxChunkSizeBytes ->
  (isComplete p = true <->
   Forall (fun c => exists size, ct_estimatedSizeBytes c = Some size /\
                                 wrapU64 size <= maxChunkSizeBytes) chunks).
Proof.
  unfold build. intros Hb Hchunks Hmax. rewrite Hchunks, Hmax in Hb. simpl in Hb.
  injection Hb as <-. unfold isComplete. simpl. rewrite andb_true_r, bool_decide_eq_true.
  unfold findPendingActions. rewrite findPendingActions_foldl_empty. tauto.
Qed.

End SplitChunksPhaseProperties.

(** ** MoveAndMergeChunksPhase *)

Section MoveAndMergeChunksPhaseInvariants.

Import MoveAndMergeChunksPhase Invariants PhaseInvariants MoveAndMergeInvariants.

(** In every sequence of calls of a MoveAndMergeChunks phase, from its
    construction on, no chunk is part of two requests at a time, and the
    chunks of the requests that are still in the chunk list are busy. *)
Theorem requests_exclusive nss uuid chunks infos zones threshold tr st :
  run (new nss uuid chunks infos zones threshold) tr st ->
  NoDup (_collectionChunks st).*1 /\
  NoDup (requests st ≫= chunksOf) /\
  forall r it c,
    r ∈ requests st -> it ∈ chunksOf r ->
    deref (_collectionChunks st) it = Some c -> busyInOperation c = true.
Proof.
  intros Hrun. pose proof (invariant_run _ _ _ Hrun (new_invariant _ _ _ _ _ _)) as Hinv.
  destruct Hinv as (Hnd & [Hreq Hbusy] & _). split_and!; assumption.
Qed.

(** A MoveAndMergeChunks phase built over a catalog that has a chunk
    without an estimated size is aborted from the start: it is complete, it
    gives no migration and no action, and the phase that follows it is
    MergeChunks, which asks for the sizes. *)
Theorem new_of_unsized_chunk env usedShards nss uuid chunks infos zones threshold :
  ~ Forall (fun c => is_Some (ct_estimatedSizeBytes c)) chunks ->
  let st := new nss uuid chunks infos zones threshold in
  _aborted st = true /\ getNextPhase st = kMergeChunks /\ isComplete st = true /\
  popNextMigration env usedShards st = Ok None (st, usedShards) /\
  popNextStreamableAction env st = Ok None st.
Proof.
  intros Hnot st. subst st. unfold new.
  pose proof (loadChunks_ok 0 chunks) as Hok.
  destruct (loadChunks 0 chunks) as [l ok]. simpl in Hok.
  destruct ok; [exfalso; apply Hnot, Hok; reflexivity|]. simpl.
  split_and!; reflexivity.
Qed.


(** [std::list::sort] orders the list by any order the comparator decides. *)
Lemma insert_sorted_StronglySorted {A} (R : A -> A -> Prop) (comp : A -> A -> bool) x l :
  Transitive R ->
  (forall y, y ∈ l -> comp y x = true -> R y x) ->
  (forall y, y ∈ l -> comp y x = false -> R x y) ->
  StronglySorted R l -> StronglySorted R (insert_sorted comp x l).
Proof.
  intros Htrans Htrue Hfalse Hsorted. induction Hsorted as [|y l Hl IH Hy]; simpl.
  - repeat constructor.
  - destruct (comp y x) eqn:Hc.
    + constructor.
      * apply IH; intros z Hz; [apply Htrue|apply Hfalse]; right; exact Hz.
      * rewrite insert_sorted_perm. constructor; [apply Htrue; [left|exact Hc]|exact Hy].
    + assert (Hxy : R x y) by (apply Hfalse; [left|exact Hc]).
      constructor; [constructor; assumption|].
      constructor; [exact Hxy|]. eapply Forall_impl; [exact Hy|].
      intros z Hz. exact (Htrans _ _ _ Hxy Hz).
Qed.

Lemma list_sort_StronglySorted {A} (R : A -> A -> Prop) (comp : A -> A -> bool) l :
  Transitive R ->
  (forall x y, x ∈ l -> y ∈ l -> comp y x = true -> R y x) ->
  (forall x y, x ∈ l -> y ∈ l -> comp y x = false -> R x y) ->
  StronglySorted R (list_sort comp l).
Proof.
  intros Htrans. induction l as [|x l IH]; intros Htrue Hfalse; simpl; [constructor|].
  apply insert_sorted_StronglySorted; [exact Htrans| | |].
  - intros y Hy. apply Htrue; [left|right]. rewrite list_sort_perm in Hy. exact Hy.
  - intros y Hy. apply Hfalse; [left|right]. rewrite list_sort_perm in Hy. exact Hy.
  - apply IH; intros a b Ha Hb; [apply Htrue|apply Hfalse]; right; assumption.
Qed.

Lemma StronglySorted_lookup {A} (R : A -> A -> Prop) l i j a b :
  StronglySorted R l -> (i < j)%nat -> l !! i = Some a -> l !! j = Some b -> R a b.
Proof.
  intros Hs. revert i j. induction Hs as [|x l Hl IH Hx]; intros i j Hij Hi Hj;
    [rewrite lookup_nil in Hi; discriminate|].
  destruct j as [|j]; [lia|]. destruct i as [|i]; simpl in *.
  - injection Hi as <-. rewrite Forall_forall in Hx. apply Hx.
    eapply list_elem_of_lookup_2. exact Hj.
  - apply (IH i j); [lia|assumption|assumption].
Qed.

(** The shards are processed by decreasing size: the constructor lists every
    shard of the statistics once, a shard before the shards that hold less
    data. *)
Theorem new_shardProcessingOrder nss uuid chunks infos zones threshold :
  Forall (fun c => is_Some (ct_estimatedSizeBytes c)) chunks ->
  let st := new nss uuid chunks infos zones threshold in
  _shardInfos st = infos /\
  NoDup (_shardProcessingOrder st) /\
  (forall s, s ∈ _shardProcessingOrder st <-> is_Some (infos !! s)) /\
  forall i j a b ia ib,
    (i < j)%nat ->
    _shardProcessingOrder st !! i = Some a -> _shardProcessingOrder st !! j = Some b ->
    infos !! a = Some ia -> infos !! b = Some ib ->
    currentSizeBytes ib <= currentSizeBytes ia.
Proof.
  intros Hall st. subst st. unfold new.
  pose proof (loadChunks_ok 0 chunks) as Hok.
  destruct (loadChunks 0 chunks) as [l ok]. simpl in Hok.
  destruct ok; [|apply Hok in Hall; discriminate]. simpl.
  split; [reflexivity|].
  assert (Hperm : list_sort (shardOrderComp infos) (map_to_list infos).*1 ≡ₚ
                  (map_to_list infos).*1) by apply list_sort_perm.
  split; [rewrite Hperm; apply NoDup_fst_map_to_list|].
  assert (Hmem : forall s, s ∈ (map_to_list infos).*1 <-> is_Some (infos !! s)).
  { intros s. rewrite list_elem_of_fmap. split.
    - intros ([k v] & -> & Hin). apply elem_of_map_to_list in Hin. eauto.
    - intros [v Hv]. exists (s, v). split; [reflexivity|]. apply elem_of_map_to_list. exact Hv. }
  split; [intros s; rewrite Hperm; apply Hmem|].
  intros i j a b ia ib Hij Hi Hj Ha Hb.
  set (size := fun s => from_option currentSizeBytes 0 (infos !! s)).
  assert (Hsorted : StronglySorted (fun x y => size y <= size x)
                      (list_sort (shardOrderComp infos) (map_to_list infos).*1)).
  { apply list_sort_StronglySorted.
    - intros x y z Hxy Hyz. lia.
    - intros x y Hx Hy. apply Hmem in Hx as [vx Hx]. apply Hmem in Hy as [vy Hy].
      unfold shardOrderComp, size. rewrite Hx, Hy. simpl. intros H. apply Z.leb_le in H. exact H.
    - intros x y Hx Hy. apply Hmem in Hx as [vx Hx]. apply Hmem in Hy as [vy Hy].
      unfold shardOrderComp, size. rewrite Hx, Hy. simpl. intros H. apply Z.leb_gt in H. lia. }
  pose proof (StronglySorted_lookup _ _ _ _ _ _ Hsorted Hij Hi Hj) as H.
  unfold size in H. rewrite Ha, Hb in H. exact H.
Qed.


(** What the composition of the index puts under a shard. *)
Lemma indexSmallChunks_elem threshold (rest : ChunkRangeInfos)
    (m : gmap ShardId (list ChunkRangeInfoIterator)) s it :
  it ∈ default [] (foldl (fun m p =>
             if estimatedSizeBytes (snd p) <=? threshold
             then <[shard (snd p) := default [] (m !! shard (snd p)) ++ [fst p]]> m
             else m) m rest !! s) <->
  it ∈ default [] (m !! s) \/
  exists c, (it, c) ∈ rest /\ shard c = s /\ estimatedSizeBytes c <= threshold.
Proof.
  revert m. induction rest as [|[i c] rest IH]; intros m; simpl.
  - split; [auto|]. intros [H|(c & H & _)]; [exact H|inversion H].
  - rewrite IH. clear IH. destruct (Z.leb_spec (estimatedSizeBytes c) threshold) as [Hle|Hgt].
    + destruct (decide (shard c = s)) as [<-|Hne].
      * rewrite lookup_insert_eq. simpl. rewrite elem_of_app, list_elem_of_singleton. split.
        -- intros [[H| ->]|(c' & H & Hs & Hc)]; [auto| |].
           ++ right. exists c. split_and!; [left|reflexivity|exact Hle].
           ++ right. exists c'. split_and!; [right; exact H|exact Hs|exact Hc].
        -- intros [H|(c' & H & Hs & Hc)]; [auto|].
           apply elem_of_cons in H as [[= -> ->]|H]; [auto|].
           right. exists c'. split_and!; assumption.
      * rewrite lookup_insert_ne by exact Hne. split.
        -- intros [H|(c' & H & Hs & Hc)]; [auto|].
           right. exists c'. split_and!; [right; exact H|exact Hs|exact Hc].
        -- intros [H|(c' & H & Hs & Hc)]; [auto|].
           apply elem_of_cons in H as [[= -> ->]|H]; [contradiction|].
           right. exists c'. split_and!; assumption.
    + split.
      * intros [H|(c' & H & Hs & Hc)]; [auto|].
        right. exists c'. split_and!; [right; exact H|exact Hs|exact Hc].
      * intros [H|(c' & H & Hs & Hc)]; [auto|].
        apply elem_of_cons in H as [[= -> ->]|H]; [lia|].
        right. exists c'. split_and!; assumption.
Qed.

(** The index of small chunks the constructor composes: under every shard,
    the chunks of the shard whose size is not above the threshold, each
    once, by increasing size. *)
Theorem new_smallChunksByShard nss uuid chunks infos zones threshold :
  Forall (fun c => is_Some (ct_estimatedSizeBytes c)) chunks ->
  let st := new nss uuid chunks infos zones threshold in
  (forall s it,
     it ∈ default [] (_smallChunksByShard st !! s) <->
     exists c, deref (_collectionChunks st) it = Some c /\ shard c = s /\
               estimatedSizeBytes c <= _smallChunkSizeThresholdBytes st) /\
  (forall s l, _smallChunksByShard st !! s = Some l -> NoDup l) /\
  forall s l i j a b ca cb,
    _smallChunksByShard st !! s = Some l -> (i < j)%nat ->
    l !! i = Some a -> l !! j = Some b ->
    deref (_collectionChunks st) a = Some ca -> deref (_collectionChunks st) b = Some cb ->
    estimatedSizeBytes ca <= estimatedSizeBytes cb.
Proof.
  intros Hall st. pose proof (new_wf nss uuid chunks infos zones threshold) as [Hnd Hwf].
  fold st in Hnd, Hwf. split_and!; [|intros s l Hl; exact (proj1 (Hwf s l Hl))|].
  - subst st. unfold new in *.
    pose proof (loadChunks_ok 0 chunks) as Hok.
    destruct (loadChunks 0 chunks) as [l ok]. simpl in Hok.
    destruct ok; [|apply Hok in Hall; discriminate]. simpl in *.
    intros s it. rewrite lookup_fmap.
    assert (Hiff : it ∈ default [] (list_sort (compareChunkRangeInfoIterators l) <$>
                                      indexSmallChunks (wrapS64 threshold) l !! s) <->
                   it ∈ default [] (indexSmallChunks (wrapS64 threshold) l !! s)).
    { destruct (indexSmallChunks (wrapS64 threshold) l !! s); simpl; [|reflexivity].
      rewrite list_sort_perm. reflexivity. }
    rewrite Hiff. unfold indexSmallChunks. rewrite indexSmallChunks_elem.
    rewrite lookup_empty. simpl. split.
    + intros [H|(c & Hin & Hs & Hc)]; [inversion H|].
      exists c. split_and!; [apply elem_deref; assumption|exact Hs|exact Hc].
    + intros (c & Hd & Hs & Hc). right. exists c.
      split_and!; [apply deref_Some_elem; exact Hd|exact Hs|exact Hc].
  - intros s l i j a b ca cb Hl Hij Hi Hj Ha Hb.
    subst st. unfold new in *.
    destruct (loadChunks 0 chunks) as [l0 ok]. destruct ok; simpl in *;
      [|rewrite lookup_empty in Hl; discriminate].
    rewrite lookup_fmap in Hl.
    destruct (indexSmallChunks (wrapS64 threshold) l0 !! s) as [l1|] eqn:Hl1; [|discriminate].
    simpl in Hl. injection Hl as <-.
    set (size := fun it => from_option estimatedSizeBytes 0 (deref l0 it)).
    assert (Hsorted : StronglySorted (fun x y => size x <= size y)
                        (list_sort (compareChunkRangeInfoIterators l0) l1)).
    { apply list_sort_StronglySorted.
      - intros x y z Hxy Hyz. lia.
      - intros x y _ _. unfold compareChunkRangeInfoIterators, size.
        destruct (deref l0 y), (deref l0 x); simpl; try discriminate.
        intros H. apply Z.ltb_lt in H. lia.
      - intros x y Hx Hy. unfold compareChunkRangeInfoIterators, size.
        specialize (Hwf s (list_sort (compareChunkRangeInfoIterators l0) l1)).
        rewrite lookup_fmap, Hl1 in Hwf. destruct (Hwf eq_refl) as [_ Hderef].
        destruct (Hderef x) as (cx & Hcx & _); [rewrite list_sort_perm; exact Hx|].
        destruct (Hderef y) as (cy & Hcy & _); [rewrite list_sort_perm; exact Hy|].
        rewrite Hcx, Hcy. simpl. intros H. apply Z.ltb_ge in H. exact H. }
    pose proof (StronglySorted_lookup _ _ _ _ _ _ Hsorted Hij Hi Hj) as H.
    unfold size in H. rewrite Ha, Hb in H. exact H.
Qed.


(** An error that cannot be retried aborts the phase: from then on it gives
    no migration and no merge, it is complete once the requests in flight
    are acknowledged, and the phase that follows it is MergeChunks. *)
Theorem non_retriable_error_aborts env usedShards st action status st' :
  _aborted st = false ->
  isOK status = false -> isRetriableForDefragmentation status = false ->
  applyActionResult action (RespStatus status) st = Ok tt st' ->
  _aborted st' = true /\ getNextPhase st' = kMergeChunks /\
  popNextMigration env usedShards st' = Ok None (st', usedShards) /\
  popNextStreamableAction env st' = Ok None st' /\
  (isComplete st' = true <-> _outstandingMigrations st' = [] /\ _outstandingMerges st' = []).
Proof.
  intros Hab Hok Hretry.
  assert (Hgo : forall st0, st' = _abort kMergeChunks st0 ->
    _aborted st' = true /\ getNextPhase st' = kMergeChunks /\
    popNextMigration env usedShards st' = Ok None (st', usedShards) /\
    popNextStreamableAction env st' = Ok None st' /\
    (isComplete st' = true <->
     _outstandingMigrations st' = [] /\ _outstandingMerges st' = [])).
  { intros st0 ->. split_and!; try reflexivity. unfold isComplete. simpl.
    rewrite !andb_true_iff, !bool_decide_eq_true.
    split; [intros [[[_ H1] _] H2]; auto|intros [H1 H2]; auto]. }
  destruct action as [a|a|a|a|a|a]; simpl; try discriminate.
  - unfold applyMergeResult.
    destruct (extractFirst _ _) as [[[r rest]|]|]; try discriminate. simpl. rewrite Hab.
    unfold handleActionResult. rewrite Hok, Hretry. intros [= <-]. eapply Hgo. reflexivity.
  - unfold applyMigrationResult.
    destruct (extractFirst _ _) as [[[r rest]|]|]; try discriminate. simpl. rewrite Hab.
    unfold handleActionResult. rewrite Hok, Hretry. intros [= <-]. eapply Hgo. reflexivity.
Qed.

Lemma extractFirst_no_match p l :
  (forall r, r ∈ l -> p r <> Some true) ->
  extractFirst p l = None \/ extractFirst p l = Some None.
Proof.
  induction l as [|r l IH]; intros Hno; simpl; [right; reflexivity|].
  destruct (p r) as [[]|] eqn:Hp; simpl; [|  |left; reflexivity].
  - exfalso. apply (Hno r); [left|exact Hp].
  - destruct IH as [-> | ->]; [intros r' Hr'; apply Hno; right; exact Hr'| |];
      simpl; [left|right]; reflexivity.
Qed.

(** The acknowledgement of a migration or of a merge that the phase does not
    have in flight fails the [invariant] of the code; the acknowledgement of
    an action of another type throws and changes nothing. *)
Theorem applyActionResult_of_unknown_action st :
  (forall migrationAction response,
     (forall r, r ∈ _outstandingMigrations st ->
        matchesMigration st migrationAction r <> Some true) ->
     applyActionResult (ActMigrateInfo migrationAction) response st = Fatal) /\
  (forall mergeAction response,
     (forall r, r ∈ _outstandingMerges st -> matchesMerge st mergeAction r <> Some true) ->
     applyActionResult (ActMergeInfo mergeAction) response st = Fatal) /\
  (forall action response,
     match action with
     | ActMigrateInfo _ | ActMergeInfo _ => True
     | _ => applyActionResult action response st = Throw st
     end).
Proof.
  split_and!.
  - intros a response Hno. simpl. unfold applyMigrationResult.
    destruct response; try reflexivity.
    destruct (extractFirst_no_match _ _ Hno) as [-> | ->]; reflexivity.
  - intros a response Hno. simpl. unfold applyMergeResult.
    destruct response; try reflexivity.
    destruct (extractFirst_no_match _ _ Hno) as [-> | ->]; reflexivity.
  - intros action response. destruct action; try exact I; reflexivity.
Qed.


Lemma foldr_add_perm (l l' : list Z) : l ≡ₚ l' -> foldr Z.add 0 l = foldr Z.add 0 l'.
Proof. intros H. induction H; simpl; lia. Qed.

Lemma totalCurrentSizeBytes_insert (infos : gmap ShardId ShardInfo) s i i' :
  infos !! s = Some i ->
  totalCurrentSizeBytes (<[s := i']> infos) =
  totalCurrentSizeBytes infos - currentSizeBytes i + currentSizeBytes i'.
Proof.
  intros Hs. unfold totalCurrentSizeBytes.
  assert (H1 : map_to_list infos ≡ₚ (s, i) :: map_to_list (delete s infos)).
  { symmetry. apply map_to_list_delete. exact Hs. }
  assert (H2 : map_to_list (<[s := i']> infos) ≡ₚ (s, i') :: map_to_list (delete s infos)).
  { rewrite <- insert_delete_eq. apply map_to_list_insert. apply lookup_delete_eq. }
  rewrite (foldr_add_perm (currentSizeBytes <$> (map_to_list infos).*2)
             (currentSizeBytes <$> ((s, i) :: map_to_list (delete s infos)).*2))
    by (do 2 apply fmap_Permutation; exact H1).
  rewrite (foldr_add_perm (currentSizeBytes <$> (map_to_list (<[s := i']> infos)).*2)
             (currentSizeBytes <$> ((s, i') :: map_to_list (delete s infos)).*2))
    by (do 2 apply fmap_Permutation; exact H2).
  simpl. lia.
Qed.

Lemma wrapU64_eq z : wrapU64 z = z - 2 ^ 64 * (z / 2 ^ 64).
Proof. unfold wrapU64. apply Z.mod_eq. lia. Qed.

(** A migration acknowledged with success moves the size of the chunk from
    the statistics of the source shard to those of the destination: the
    total is the same modulo 2^64, the shards are the same, and the
    processing order lists the same shards, again by decreasing size. *)
Theorem migration_success_statistics st migrationAction st' :
  _aborted st = false ->
  applyActionResult (ActMigrateInfo migrationAction) (RespStatus StatusOK) st = Ok tt st' ->
  (totalCurrentSizeBytes (_shardInfos st') - totalCurrentSizeBytes (_shardInfos st))
    mod 2 ^ 64 = 0 /\
  (forall s, is_Some (_shardInfos st' !! s) <-> is_Some (_shardInfos st !! s)) /\
  _shardProcessingOrder st' ≡ₚ _shardProcessingOrder st /\
  (forall i j a b ia ib,
     (i < j)%nat ->
     _shardProcessingOrder st' !! i = Some a -> _shardProcessingOrder st' !! j = Some b ->
     _shardInfos st' !! a = Some ia -> _shardInfos st' !! b = Some ib ->
     currentSizeBytes ib <= currentSizeBytes ia) /\
  _collectionChunks st' = _collectionChunks st /\
  exists request,
    request ∈ _outstandingMigrations st /\
    _actionableMerges st' = _actionableMerges st ++ [request].
Proof.
  intros Hab. simpl. unfold applyMigrationResult.
  destruct (extractFirst _ _) as [[[r rest]|]|] eqn:Hex; try discriminate.
  apply extractFirst_Some in Hex as (Hin & _). simpl. rewrite Hab.
  unfold handleActionResult. simpl.
  destruct (onMigrationSuccess r (with_outstandingMigrations rest st)) as [st1|] eqn:Hs;
    [|discriminate].
  simpl. intros [= <-]. unfold onMigrationSuccess in Hs. simpl in Hs.
  destruct (getMovedDataSizeBytes (_collectionChunks st) r) as [amount|]; [|discriminate].
  destruct (getSourceShard (_collectionChunks st) r) as [source|]; [|discriminate].
  simpl in Hs. destruct (_shardInfos st !! source) as [si|] eqn:Hsi; [|discriminate].
  simpl in Hs.
  destruct (getDestinationShard (_collectionChunks st) r) as [destination|]; [|discriminate].
  simpl in Hs.
  set (infos1 := <[source := set_currentSizeBytes (wrapU64 (currentSizeBytes si - amount)) si]>
                   (_shardInfos st)) in *.
  destruct (infos1 !! destination) as [di|] eqn:Hdi; [|discriminate]. simpl in Hs.
  set (infos2 := <[destination :=
                     set_currentSizeBytes (wrapU64 (currentSizeBytes di + amount)) di]> infos1)
    in *.
  unfold sortShardProcessingOrder in Hs.
  destruct (forallb _ (_shardProcessingOrder st)) eqn:Hall; [|discriminate].
  simpl in Hs. injection Hs as <-. simpl.
  assert (Hdom1 : forall s, is_Some (infos1 !! s) <-> is_Some (_shardInfos st !! s)).
  { intros s. subst infos1. rewrite lookup_insert_is_Some.
    split; [intros [<-|[_ H]]; eauto|]. destruct (decide (source = s)); auto. }
  assert (Hdom : forall s, is_Some (infos2 !! s) <-> is_Some (_shardInfos st !! s)).
  { intros s. rewrite <- Hdom1. subst infos2. rewrite lookup_insert_is_Some.
    split; [intros [<-|[_ H]]; eauto|]. destruct (decide (destination = s)); auto. }
  split_and!.
  - subst infos2. rewrite (totalCurrentSizeBytes_insert _ _ _ _ Hdi).
    assert (Htotal1 : totalCurrentSizeBytes infos1 =
                      totalCurrentSizeBytes (_shardInfos st) - currentSizeBytes si +
                      wrapU64 (currentSizeBytes si - amount)).
    { subst infos1. rewrite (totalCurrentSizeBytes_insert _ _ _ _ Hsi). reflexivity. }
    rewrite Htotal1. simpl.
    assert (Hd : currentSizeBytes di = wrapU64 (currentSizeBytes si - amount) /\
                 source = destination \/
                 _shardInfos st !! destination = Some di /\ source <> destination).
    { subst infos1. destruct (decide (source = destination)) as [<-|Hne].
      - rewrite lookup_insert_eq in Hdi. injection Hdi as <-. left. split; reflexivity.
      - rewrite lookup_insert_ne in Hdi by exact Hne. right. split; assumption. }
    rewrite (wrapU64_eq (currentSizeBytes di + amount)).
    assert (Hk : exists k, wrapU64 (currentSizeBytes si - amount) =
                           currentSizeBytes si - amount + k * 2 ^ 64).
    { exists (- ((currentSizeBytes si - amount) / 2 ^ 64)). rewrite wrapU64_eq. lia. }
    destruct Hk as [k Hk]. rewrite Hk.
    match goal with
    | |- ?x mod _ = 0 =>
        replace x with ((k - (currentSizeBytes di + amount) / 2 ^ 64) * 2 ^ 64) by lia
    end.
    apply Z_mod_mult.
  - exact Hdom.
  - apply list_sort_perm.
  - intros i j a b ia ib Hij Hi Hj Ha Hb.
    set (size := fun s => from_option currentSizeBytes 0 (infos2 !! s)).
    assert (Hmem : forall s, s ∈ _shardProcessingOrder st -> is_Some (infos2 !! s)).
    { intros s Hs. rewrite forallb_forall in Hall. apply list_elem_of_In in Hs.
      specialize (Hall _ Hs). apply bool_decide_eq_true in Hall. exact Hall. }
    assert (Hsorted : StronglySorted (fun x y => size y <= size x)
                        (list_sort (shardOrderComp infos2) (_shardProcessingOrder st))).
    { apply list_sort_StronglySorted.
      - intros x y z Hxy Hyz. lia.
      - intros x y Hx Hy. apply Hmem in Hx as [vx Hx]. apply Hmem in Hy as [vy Hy].
        unfold shardOrderComp, size. rewrite Hx, Hy. simpl.
        intros H. apply Z.leb_le in H. exact H.
      - intros x y Hx Hy. apply Hmem in Hx as [vx Hx]. apply Hmem in Hy as [vy Hy].
        unfold shardOrderComp, size. rewrite Hx, Hy. simpl.
        intros H. apply Z.leb_gt in H. lia. }
    pose proof (StronglySorted_lookup _ _ _ _ _ _ Hsorted Hij Hi Hj) as H.
    unfold size in H. rewrite Ha, Hb in H. exact H.
  - reflexivity.
  - exists r. split; [exact Hin|reflexivity].
Qed.


(** ** What a migration moves, and where *)

Lemma _getChunkSiblings_adjacent st chunkIt siblings :
  _getChunkSiblings st chunkIt = Some siblings ->
  forall s, s ∈ siblings -> adjacent (_collectionChunks st) chunkIt s.
Proof.
  unfold _getChunkSiblings.
  destruct (position (_collectionChunks st) chunkIt) as [idx|] eqn:Hpos; [|discriminate].
  destruct (position_lookup _ _ _ Hpos) as (chunk & Hidx & Hchunk).
  simpl. rewrite Hchunk. simpl.
  assert (Hright : forall r info, _collectionChunks st !! S idx = Some (r, info) ->
            adjacent (_collectionChunks st) chunkIt r).
  { intros r info Hr. exists idx, chunk, info. left. split; assumption. }
  assert (Hleft : forall idx' l info, idx = S idx' ->
            _collectionChunks st !! idx' = Some (l, info) ->
            adjacent (_collectionChunks st) chunkIt l).
  { intros idx' l info -> Hl. exists idx', chunk, info. right. split; assumption. }
  destruct (_collectionChunks st !! S idx) as [[rightSibling rinfo]|] eqn:Hr.
  - destruct (canBeMoveAndMerged st chunk rinfo) as [okr|]; [|discriminate]. simpl.
    destruct idx as [|idx'].
    + simpl. intros [= <-] s Hs. rewrite app_nil_r in Hs. destruct okr; [|inversion Hs].
      apply list_elem_of_singleton in Hs as ->. eapply Hright; reflexivity.
    + destruct (_collectionChunks st !! idx') as [[leftSibling linfo]|] eqn:Hl; [|discriminate].
      destruct (canBeMoveAndMerged st chunk linfo) as [okl|]; [|discriminate]. simpl.
      intros [= <-] s Hs. apply elem_of_app in Hs as [Hs|Hs].
      * destruct okr; [|inversion Hs]. apply list_elem_of_singleton in Hs as ->.
        eapply Hright; reflexivity.
      * destruct okl; [|inversion Hs]. apply list_elem_of_singleton in Hs as ->.
        eapply Hleft; [reflexivity|exact Hl].
  - simpl. destruct idx as [|idx'].
    + simpl. intros [= <-] s Hs. inversion Hs.
    + destruct (_collectionChunks st !! idx') as [[leftSibling linfo]|] eqn:Hl; [|discriminate].
      destruct (canBeMoveAndMerged st chunk linfo) as [okl|]; [|discriminate]. simpl.
      intros [= <-] s Hs. destruct okl; [|inversion Hs]. apply list_elem_of_singleton in Hs as ->.
      eapply Hleft; [reflexivity|exact Hl].
Qed.

Lemma findInSmallChunks_adjacent st usedShards l l' c siblings :
  findInSmallChunks st usedShards l = Some (l', Some (c, siblings)) ->
  forall s, s ∈ siblings -> adjacent (_collectionChunks st) c s.
Proof.
  revert l'. induction l as [|x l IH]; intros l'; simpl; [discriminate|].
  destruct (deref (_collectionChunks st) x) as [candidate|] eqn:Hx; [|discriminate]. simpl.
  destruct (busyInOperation candidate) eqn:Hbusy.
  - destruct (findInSmallChunks st usedShards l) as [[l1 r1]|]; [|discriminate]. simpl.
    intros [= <- ->]. exact (IH _ eq_refl).
  - destruct (_getChunkSiblings st x) as [[|s sibs]|] eqn:Hsib; [| |discriminate];
      cbn -[availableSiblings].
    + intros H. exact (IH _ H).
    + destruct (availableSiblings st usedShards (s :: sibs)) as [[|a avail]|] eqn:Hav;
        [| |discriminate]; simpl.
      * destruct (findInSmallChunks st usedShards l) as [[l1 r1]|]; [|discriminate]. simpl.
        intros [= <- ->]. exact (IH _ eq_refl).
      * intros [= <- <- <-] s' Hs'.
        destruct (availableSiblings_spec _ _ _ _ Hav s' Hs') as (Hin & _).
        exact (_getChunkSiblings_adjacent _ _ _ Hsib s' Hin).
Qed.

Lemma _findNextSmallChunkInShard_adjacent shardId usedShards st c siblings st' :
  _findNextSmallChunkInShard shardId usedShards st = Some (Some (c, siblings), st') ->
  forall s, s ∈ siblings -> adjacent (_collectionChunks st) c s.
Proof.
  unfold _findNextSmallChunkInShard.
  destruct (_smallChunksByShard st !! shardId) as [small|]; [|discriminate].
  destruct (findInSmallChunks st usedShards small) as [[l1 [found|]]|] eqn:Hf; simpl;
    [| |discriminate]; [|discriminate].
  intros [= -> <-]. exact (findInSmallChunks_adjacent _ _ _ _ _ _ Hf).
Qed.

Lemma popNextMigrationFrom_adjacent env order usedShards st info st' usedShards' :
  popNextMigrationFrom env order usedShards st = Ok (Some info) (st', usedShards') ->
  exists r csmall,
    _outstandingMigrations st' = _outstandingMigrations st ++ [r] /\
    adjacent (_collectionChunks st) (chunkToMove r) (chunkToMergeWith r) /\
    deref (_collectionChunks st) (chunkToMove r) = Some csmall /\
    mig_maxKey info = getMax (range csmall) /\ mig_nss info = _nss st.
Proof.
  revert st. induction order as [|shardId rest IH]; intros st; simpl; [discriminate|].
  destruct (bool_decide (shardId ∈ usedShards)); [apply IH|].
  destruct (_findNextSmallChunkInShard shardId usedShards st) as [[[[c sibs]|] st1]|] eqn:Hfind;
    [| |discriminate];
    pose proof (_findNextSmallChunkInShard_frame _ _ _ _ _ Hfind) as Hframe.
  - intros Hbuild.
    pose proof (_findNextSmallChunkInShard_adjacent _ _ _ _ _ _ Hfind) as Hadj.
    destruct (buildMigration_Ok _ _ _ _ _ _ _ _ Hbuild)
      as (target & csmall & ctarget & Hchoose & Hds & Hdt & Hst' & _).
    destruct (buildMigration_maxKey _ _ _ _ _ _ _ _ Hbuild) as (csmall' & Hds' & Hmax & Hnss).
    rewrite Hframe in Hds', Hst', Hnss. simpl in Hds', Hnss.
    apply chooseTargetSibling_elem in Hchoose.
    eexists _, csmall'. split; [rewrite Hst'; reflexivity|]. simpl.
    split; [exact (Hadj _ Hchoose)|]. split; [exact Hds'|]. split; assumption.
  - intros H. destruct (IH _ H) as (r & csmall & Hout & Hadj & Hd & Hmax & Hnss).
    rewrite Hframe in Hout, Hadj, Hd, Hnss. simpl in Hout, Hadj, Hd, Hnss.
    exists r, csmall. split_and!; assumption.
Qed.

Lemma canBeMoveAndMerged_same_zone st chunk sibling :
  canBeMoveAndMerged st chunk sibling = Some true ->
  getZoneForChunk (_zoneInfo st) (range chunk) = getZoneForChunk (_zoneInfo st) (range sibling).
Proof.
  unfold canBeMoveAndMerged.
  destruct (if decide (shard chunk = shard sibling) then _ else _) as [b|]; [|discriminate].
  simpl. intros [= H]. apply andb_true_iff in H as [H _].
  apply bool_decide_eq_true in H. exact H.
Qed.

(** A migration that [popNextMigration] returns moves a chunk of the index of
    small chunks that is in no operation to the shard of a chunk next to it in
    the chunk list, in the same zone, in no operation and on a shard that is
    not in use; the migration has the range and the shard of the chunk to move,
    and the call marks both chunks as being in an operation and registers their
    request last. *)
Theorem popNextMigration_moves_small_chunk_to_sibling
    env usedShards st info st' usedShards' :
  NoDup (_collectionChunks st).*1 ->
  popNextMigration env usedShards st = Ok (Some info) (st', usedShards') ->
  exists r small target shardId l,
    _outstandingMigrations st' = _outstandingMigrations st ++ [r] /\
    (shardId ∈ _shardProcessingOrder st) /\ (shardId ∉ usedShards) /\
    _smallChunksByShard st !! shardId = Some l /\ (chunkToMove r ∈ l) /\
    deref (_collectionChunks st) (chunkToMove r) = Some small /\
    deref (_collectionChunks st) (chunkToMergeWith r) = Some target /\
    adjacent (_collectionChunks st) (chunkToMove r) (chunkToMergeWith r) /\
    busyInOperation small = false /\ busyInOperation target = false /\
    (shard target ∉ usedShards) /\
    getZoneForChunk (_zoneInfo st) (range small) =
      getZoneForChunk (_zoneInfo st) (range target) /\
    mig_from info = shard small /\ mig_to info = shard target /\
    mig_minKey info = getMin (range small) /\ mig_maxKey info = getMax (range small) /\
    deref (_collectionChunks st') (chunkToMove r) = Some (set_busyInOperation true small) /\
    deref (_collectionChunks st') (chunkToMergeWith r) = Some (set_busyInOperation true target).
Proof.
  intros Hnd Hpop.
  destruct (popNextMigrationFrom_Some _ _ _ _ _ _ _ Hnd Hpop)
    as (s & l & sm & tg & cs & ctg & idx & Hin & Hnu & Hl & Hsm & Hds & Hdt & Hneq
        & Hb1 & Hb2 & Htu & Hok & _ & Hst' & _ & Hto & Hfrom & Hmin & _).
  destruct (popNextMigrationFrom_adjacent _ _ _ _ _ _ _ Hpop)
    as (r & cs' & Hout & Hadj & Hd & Hmax & _).
  assert (Hr : r = mkMoveAndMergeRequest sm tg
                 (bool_decide (woCompare (getMax (range ctg)) (getMin (range cs)) = 0))).
  { rewrite Hst' in Hout. simpl in Hout. apply app_inj_tail in Hout as [_ Hout].
    symmetry. exact Hout. }
  subst r. simpl in *. rewrite Hds in Hd. injection Hd as <-.
  exists (mkMoveAndMergeRequest sm tg
            (bool_decide (woCompare (getMax (range ctg)) (getMin (range cs)) = 0))),
    cs, ctg, s, l. simpl.
  split_and!; try assumption.
  - apply canBeMoveAndMerged_same_zone. exact Hok.
  - rewrite Hst'. simpl. rewrite !deref_set_busy, Hds. simpl.
    destruct (decide (tg = sm)); [contradiction|].
    destruct (decide (sm = sm)); [reflexivity|contradiction].
  - rewrite Hst'. simpl. rewrite !deref_set_busy, Hdt. simpl.
    destruct (decide (tg = tg)); [|contradiction].
    destruct (decide (sm = tg)); [congruence|]. reflexivity.
Qed.

(** ** The index of small chunks along the calls *)

Lemma indexSmallChunks_nonEmpty threshold (rest : ChunkRangeInfos)
    (m : gmap ShardId (list ChunkRangeInfoIterator)) :
  (forall s l, m !! s = Some l -> l <> []) ->
  forall s l,
    foldl (fun m p =>
             if estimatedSizeBytes (snd p) <=? threshold
             then <[shard (snd p) := default [] (m !! shard (snd p)) ++ [fst p]]> m
             else m) m rest !! s = Some l ->
    l <> [].
Proof.
  revert m. induction rest as [|[i c] rest IH]; intros m Hm; simpl; [exact Hm|].
  apply IH. destruct (estimatedSizeBytes c <=? threshold); [|exact Hm].
  intros s l Hl. apply lookup_insert_Some in Hl as [[_ <-]|[_ Hl]]; [|eauto].
  apply app_singleton_not_nil.
Qed.

Lemma new_smallIndexSound nss uuid chunks infos zones threshold :
  smallIndexSound (new nss uuid chunks infos zones threshold).
Proof.
  unfold new, smallIndexSound. pose proof (loadChunks_NoDup 0 chunks) as Hnd.
  destruct (loadChunks 0 chunks) as [l ok]. simpl in Hnd.
  destruct ok; simpl; [|intros s l0; rewrite lookup_empty; discriminate].
  intros s sorted. rewrite lookup_fmap.
  destruct (indexSmallChunks (wrapS64 threshold) l !! s) as [l0|] eqn:Hl0; [|discriminate].
  simpl. intros [= <-]. split.
  - intros Hnil.
    apply (indexSmallChunks_nonEmpty (wrapS64 threshold) l ∅) with (s := s) (l := l0).
    + intros s' l'. rewrite lookup_empty. discriminate.
    + exact Hl0.
    + apply Permutation_nil_r. rewrite <- Hnil. symmetry. apply list_sort_perm.
  - intros it c Hit Hc. rewrite list_sort_perm in Hit.
    assert (Hin : it ∈ default [] (indexSmallChunks (wrapS64 threshold) l !! s))
      by (rewrite Hl0; exact Hit).
    unfold indexSmallChunks in Hin. apply indexSmallChunks_elem in Hin.
    rewrite lookup_empty in Hin. simpl in Hin.
    destruct Hin as [Hin|(c' & Hin & _ & Hle)]; [inversion Hin|].
    rewrite (elem_deref l it c' Hnd Hin) in Hc. injection Hc as <-. exact Hle.
Qed.

Lemma findInSmallChunks_found_nonEmpty st usedShards l l' found :
  findInSmallChunks st usedShards l = Some (l', Some found) -> l' <> [].
Proof.
  revert l'. induction l as [|x l IH]; intros l'; simpl; [discriminate|].
  destruct (deref (_collectionChunks st) x) as [candidate|]; [|discriminate]. simpl.
  destruct (busyInOperation candidate).
  - destruct (findInSmallChunks st usedShards l) as [[l1 r1]|]; [|discriminate]. simpl.
    intros [= <- _]. discriminate.
  - destruct (_getChunkSiblings st x) as [[|s sibs]|]; [| |discriminate];
      cbn -[availableSiblings].
    + apply IH.
    + destruct (availableSiblings st usedShards (s :: sibs)) as [[|a avail]|];
        [| |discriminate]; simpl.
      * destruct (findInSmallChunks st usedShards l) as [[l1 r1]|]; [|discriminate]. simpl.
        intros [= <- _]. discriminate.
      * intros [= <- _]. discriminate.
Qed.

Lemma _findNextSmallChunkInShard_nonEmpty shardId usedShards st r st' :
  nonEmptyIndex (_smallChunksByShard st) ->
  _findNextSmallChunkInShard shardId usedShards st = Some (r, st') ->
  nonEmptyIndex (_smallChunksByShard st').
Proof.
  intros Hne. unfold _findNextSmallChunkInShard.
  destruct (_smallChunksByShard st !! shardId) as [small|]; [|intros [= _ <-]; exact Hne].
  destruct (findInSmallChunks st usedShards small) as [[l1 [found|]]|] eqn:Hf; simpl;
    [| |discriminate]; intros [= _ <-]; simpl.
  - intros s l Hl. apply lookup_insert_Some in Hl as [[_ <-]|[_ Hl]]; [|eauto].
    eapply findInSmallChunks_found_nonEmpty. exact Hf.
  - destruct l1 as [|x l1]; intros s l Hl.
    + apply lookup_delete_Some in Hl as [_ Hl]. eauto.
    + apply lookup_insert_Some in Hl as [[_ <-]|[_ Hl]]; [discriminate|eauto].
Qed.

Lemma popNextMigrationFrom_nonEmpty env order usedShards st :
  nonEmptyIndex (_smallChunksByShard st) ->
  match popNextMigrationFrom env order usedShards st with
  | Ok _ (st', _) | Throw (st', _) => nonEmptyIndex (_smallChunksByShard st')
  | _ => True
  end.
Proof.
  revert st. induction order as [|shardId rest IH]; intros st Hne; simpl; [exact Hne|].
  destruct (bool_decide (shardId ∈ usedShards)); [apply IH; exact Hne|].
  destruct (_findNextSmallChunkInShard shardId usedShards st) as [[[[c sibs]|] st1]|] eqn:Hfind;
    [| |exact I];
    pose proof (_findNextSmallChunkInShard_nonEmpty _ _ _ _ _ Hne Hfind) as Hne1.
  - destruct (buildMigration env c sibs usedShards st1) as [[m|] [st' u']|[st' u']| |] eqn:Hb;
      try exact I.
    + destruct (buildMigration_Ok _ _ _ _ _ _ _ _ Hb) as (t & cs & ct & _ & _ & _ & -> & _).
      exact Hne1.
    + exfalso. exact (buildMigration_not_None _ _ _ _ _ _ Hb).
    + destruct (buildMigration_Throw _ _ _ _ _ _ _ Hb) as (t & -> & _). exact Hne1.
  - apply IH. exact Hne1.
Qed.

Lemma _removeIteratorFromSmallChunks_nonEmpty it s st :
  nonEmptyIndex (_smallChunksByShard st) ->
  nonEmptyIndex (_smallChunksByShard (_removeIteratorFromSmallChunks it s st)).
Proof.
  intros Hne. unfold _removeIteratorFromSmallChunks.
  destruct (_smallChunksByShard st !! s) as [l|] eqn:Hl; [|exact Hne].
  destruct (bool_decide (it ∈ l)); [|exact Hne].
  destruct (removeFirst it l) as [|x l']; simpl; intros s' l1 Hl1.
  - apply lookup_delete_Some in Hl1 as [_ Hl1]. eauto.
  - apply lookup_insert_Some in Hl1 as [[_ <-]|[_ Hl1]]; [discriminate|eauto].
Qed.

Lemma sameChunks_refl l : sameChunks l l.
Proof. split; [reflexivity|]. intros it. reflexivity. Qed.

Lemma sameChunks_set_busy b it l : sameChunks (update (set_busyInOperation b) it l) l.
Proof.
  split; [apply fst_update|]. intros it'. rewrite deref_update.
  destruct (decide (it = it')) as [->|]; [|reflexivity].
  destruct (deref l it'); reflexivity.
Qed.

Lemma sameChunks_trans l1 l2 l3 : sameChunks l1 l2 -> sameChunks l2 l3 -> sameChunks l1 l3.
Proof.
  intros [H1 H2] [H3 H4]. split; [congruence|]. intros it. rewrite H2. apply H4.
Qed.

(** The calls that change neither the chunks (their flags apart) nor the
    threshold, and take chunks out of the index at most, keep the index. *)
Lemma index_frame st st' :
  wf st -> smallIndexSound st ->
  sameChunks (_collectionChunks st') (_collectionChunks st) ->
  _smallChunkSizeThresholdBytes st' = _smallChunkSizeThresholdBytes st ->
  smallIndexShrinks (_smallChunksByShard st') (_smallChunksByShard st) ->
  nonEmptyIndex (_smallChunksByShard st') ->
  wf st' /\ smallIndexSound st'.
Proof.
  intros [Hnd Hwf] Hsound [Hfst Hsame] Hthr Hshr Hne. split; [split|].
  - rewrite Hfst. exact Hnd.
  - intros s l' Hl'. destruct (Hshr s l' Hl') as (l & Hl & Hsub).
    destruct (Hwf s l Hl) as [Hndl Hkeys]. split; [eapply sublist_NoDup; eassumption|].
    intros it Hit. destruct (Hkeys it (elem_of_sublist _ _ _ Hit Hsub)) as (c & Hc & Hs).
    specialize (Hsame it). rewrite Hc in Hsame.
    destruct (deref (_collectionChunks st') it) as [c'|]; [|discriminate].
    simpl in Hsame. injection Hsame as H1 H2. exists c'. split; [reflexivity|congruence].
  - intros s l' Hl'. split; [exact (Hne s l' Hl')|].
    destruct (Hshr s l' Hl') as (l & Hl & Hsub).
    intros it c' Hit Hc'. specialize (Hsame it). rewrite Hc' in Hsame.
    destruct (deref (_collectionChunks st) it) as [c|] eqn:Hc; [|discriminate].
    simpl in Hsame. injection Hsame as H1 H2. rewrite Hthr, H2.
    exact (proj2 (Hsound s l Hl) it c (elem_of_sublist _ _ _ Hit Hsub) Hc).
Qed.

Lemma smallIndexSound_nonEmpty st : smallIndexSound st -> nonEmptyIndex (_smallChunksByShard st).
Proof. intros H s l Hl. exact (proj1 (H s l Hl)). Qed.

Lemma onMergeSuccess_derefs r st st' :
  onMergeSuccess r st = Some st' ->
  exists cmove cwith,
    deref (_collectionChunks st) (chunkToMove r) = Some cmove /\
    deref (_collectionChunks st) (chunkToMergeWith r) = Some cwith.
Proof.
  unfold onMergeSuccess, asMergedRange.
  destruct (deref (_collectionChunks st) (chunkToMove r)) as [cmove|]; [|discriminate].
  destruct (deref (_collectionChunks st) (chunkToMergeWith r)) as [cwith|]; [|discriminate].
  eauto.
Qed.

(** What [onMergeSuccess] leaves in the index of small chunks: no empty
    list, and the merged chunk only when it is not above the threshold. *)
Lemma onMergeSuccess_index st request cmove cwith st' :
  wf st -> nonEmptyIndex (_smallChunksByShard st) ->
  chunkToMove request <> chunkToMergeWith request ->
  deref (_collectionChunks st) (chunkToMove request) = Some cmove ->
  deref (_collectionChunks st) (chunkToMergeWith request) = Some cwith ->
  onMergeSuccess request st = Some st' ->
  nonEmptyIndex (_smallChunksByShard st') /\
  forall s l', _smallChunksByShard st' !! s = Some l' -> chunkToMergeWith request ∈ l' ->
    wrapS64 (estimatedSizeBytes cwith + estimatedSizeBytes cmove) <=
    _smallChunkSizeThresholdBytes st.
Proof.
  intros [Hnd Hsmall] Hne0 Hne Hm Hw.
  unfold onMergeSuccess, asMergedRange. rewrite Hm, Hw. cbn -[update erase wrapS64].
  rewrite deref_update_eq, Hw. cbn -[update erase wrapS64].
  rewrite deref_update_ne, Hm by congruence. cbn -[update erase wrapS64].
  rewrite !deref_update_ne, Hm by congruence. cbn -[update erase wrapS64].
  set (merged := mkChunkRangeInfo
              (mkChunkRange
                 (if _isChunkToMergeLeftSibling request
                  then getMin (range cwith) else getMin (range cmove))
                 (if _isChunkToMergeLeftSibling request
                  then getMax (range cmove) else getMax (range cwith)))
              (shard cwith)
              (wrapS64 (estimatedSizeBytes cwith + estimatedSizeBytes cmove))
              false).
  set (chunks := erase (chunkToMove request) _).
  assert (Hmerged : deref chunks (chunkToMergeWith request) = Some merged).
  { unfold chunks. rewrite deref_erase_ne by exact Hne.
    rewrite !deref_update_eq, Hw. reflexivity. }
  set (st1 := _removeIteratorFromSmallChunks (chunkToMove request) (shard cmove)
                (with_collectionChunks chunks st)).
  assert (Hframe1 : st1 = with_smallChunksByShard (_smallChunksByShard st1)
                            (with_collectionChunks chunks st)).
  { unfold st1. rewrite <- _removeIteratorFromSmallChunks_frame. reflexivity. }
  assert (Hchunks1 : _collectionChunks st1 = chunks) by (rewrite Hframe1; reflexivity).
  assert (Hthr1 : _smallChunkSizeThresholdBytes st1 = _smallChunkSizeThresholdBytes st)
    by (rewrite Hframe1; reflexivity).
  assert (Hne1 : nonEmptyIndex (_smallChunksByShard st1)).
  { unfold st1. apply _removeIteratorFromSmallChunks_nonEmpty. exact Hne0. }
  assert (Hshr1 : smallIndexShrinks (_smallChunksByShard st1) (_smallChunksByShard st)).
  { unfold st1. apply (_removeIteratorFromSmallChunks_shrinks _ _
                         (with_collectionChunks chunks st)). }
  fold st1. rewrite Hchunks1, Hmerged. cbn -[wrapS64].
  destruct (_smallChunkSizeThresholdBytes st1 <? _) eqn:Hcmp.
  - intros [= <-]. split; [apply _removeIteratorFromSmallChunks_nonEmpty; exact Hne1|].
    intros s l' Hl' Hin. exfalso.
    destruct (_removeIteratorFromSmallChunks_shrinks _ _ st1 s l' Hl') as (l1 & Hl1 & Hsub1).
    destruct (Hshr1 s l1 Hl1) as (l & Hl & Hsub).
    destruct (Hsmall s l Hl) as [Hndl Hkeys].
    destruct (Hkeys (chunkToMergeWith request)) as (c & Hc & Hs).
    { eapply elem_of_sublist; [|exact Hsub]. eapply elem_of_sublist; eassumption. }
    rewrite Hw in Hc. injection Hc as <-. subst s.
    apply (_removeIteratorFromSmallChunks_removed (chunkToMergeWith request) (shard cwith)
             st1 l1 l'); [exact Hl1|eapply sublist_NoDup; eassumption|exact Hl'|exact Hin].
  - intros Hsort. apply sortSmallChunksOf_spec in Hsort as [_ Hperm]. split.
    + intros s l' Hl' ->. destruct (Hperm s [] Hl') as (l1 & Hl1 & Hp).
      symmetry in Hp. apply Permutation_nil_r in Hp. subst l1. exact (Hne1 s [] Hl1 eq_refl).
    + intros s l' Hl' _. apply Z.ltb_ge in Hcmp. rewrite <- Hthr1. exact Hcmp.
Qed.

Lemma onMergeSuccess_keeps_index st request st' :
  wf st -> smallIndexSound st ->
  chunkToMove request <> chunkToMergeWith request ->
  onMergeSuccess request st = Some st' ->
  wf st' /\ smallIndexSound st'.
Proof.
  intros Hwf Hsound Hne Hok.
  destruct (onMergeSuccess_derefs _ _ _ Hok) as (cmove & cwith & Hm & Hw).
  destruct (onMergeSuccess_index _ _ _ _ _ Hwf (smallIndexSound_nonEmpty _ Hsound) Hne Hm Hw Hok)
    as [Hne' Hsize].
  destruct (onMergeSuccess_spec _ _ _ _ Hwf Hne Hm Hw)
    as (st'' & Hok' & Hframe & Hmerged & Hgone & Hnd' & Hother & Hidx).
  rewrite Hok in Hok'. injection Hok' as <-.
  assert (Hthr : _smallChunkSizeThresholdBytes st' = _smallChunkSizeThresholdBytes st)
    by (rewrite Hframe; reflexivity).
  destruct Hwf as [Hnd Hkeys]. split; [split; [exact Hnd'|]|].
  - intros s l' Hl'. destruct (Hidx s l' Hl') as (Hni & l & Hl & Hndl' & Hincl).
    split; [exact Hndl'|]. intros it Hit.
    destruct (proj2 (Hkeys s l Hl) it (Hincl it Hit)) as (c & Hc & Hs).
    destruct (decide (it = chunkToMergeWith request)) as [->|Hitw].
    + rewrite Hw in Hc. injection Hc as <-. rewrite Hmerged. eexists. split; [reflexivity|].
      exact Hs.
    + rewrite Hother; [eauto| |exact Hitw]. intros ->. exact (Hni Hit).
  - intros s l' Hl'. split; [exact (Hne' s l' Hl')|].
    destruct (Hidx s l' Hl') as (Hni & l & Hl & Hndl' & Hincl).
    intros it c Hit Hc. rewrite Hthr.
    destruct (decide (it = chunkToMergeWith request)) as [->|Hitw].
    + rewrite Hmerged in Hc. injection Hc as <-. simpl. exact (Hsize s l' Hl' Hit).
    + rewrite Hother in Hc; [| |exact Hitw].
      * exact (proj2 (Hsound s l Hl) it c (Hincl it Hit) Hc).
      * intros ->. exact (Hni Hit).
Qed.

Lemma sameChunks_set_busy2 b small target l :
  sameChunks (update (set_busyInOperation b) target (update (set_busyInOperation b) small l)) l.
Proof.
  eapply sameChunks_trans; apply sameChunks_set_busy.
Qed.

Lemma index_step tr st ev st' :
  invariant tr st -> wf st /\ smallIndexSound st -> step st ev st' ->
  wf st' /\ smallIndexSound st'.
Proof.
  intros Hinv [Hwf Hsound] Hstep.
  pose proof (smallIndexSound_nonEmpty _ Hsound) as Hne.
  destruct Hstep.
  - pose proof (popNextMigrationFrom_nonEmpty env (_shardProcessingOrder st) usedShards st Hne)
      as Hne'.
    unfold popNextMigration in H. rewrite H in Hne'.
    destruct (popNextMigrationFrom_Some _ _ _ _ _ _ _ (proj1 Hwf) H)
      as (s & l & sm & tg & cs & ctg & idx & _ & _ & _ & _ & _ & _ & _ & _ & _ & _ & _
          & Hshr & Hst' & _).
    apply (index_frame st st' Hwf Hsound); [| | |exact Hne']; rewrite Hst'; simpl.
    + apply sameChunks_set_busy2.
    + reflexivity.
    + exact Hshr.
  - pose proof (popNextMigrationFrom_nonEmpty env (_shardProcessingOrder st) usedShards st Hne)
      as Hne'.
    unfold popNextMigration in H. rewrite H in Hne'.
    destruct (popNextMigrationFrom_None _ _ _ _ _ _ H) as (Hst' & Hshr & _).
    apply (index_frame st st' Hwf Hsound); [| |exact Hshr|exact Hne']; rewrite Hst'; simpl.
    + apply sameChunks_refl.
    + reflexivity.
  - pose proof (popNextMigrationFrom_nonEmpty env (_shardProcessingOrder st) usedShards st Hne)
      as Hne'.
    unfold popNextMigration in H. rewrite H in Hne'.
    destruct (popNextMigrationFrom_Throw _ _ _ _ _ _ H) as (sm & tg & Hst' & Hshr & _).
    apply (index_frame st st' Hwf Hsound); [| |exact Hshr|exact Hne']; rewrite Hst'; simpl.
    + apply sameChunks_set_busy2.
    + reflexivity.
  - destruct (popNextStreamableAction_moves env st st') as (r' & rest' & _ & ->);
      [left; eauto|].
    apply (index_frame st _ Hwf Hsound); simpl;
      [apply sameChunks_refl|reflexivity|apply smallIndexShrinks_refl|exact Hne].
  - apply popNextStreamableAction_None in H. subst st'. split; assumption.
  - destruct (popNextStreamableAction_moves env st st') as (r' & rest' & _ & ->);
      [right; assumption|].
    apply (index_frame st _ Hwf Hsound); simpl;
      [apply sameChunks_refl|reflexivity|apply smallIndexShrinks_refl|exact Hne].
  - destruct (applyMigrationResult_cases _ _ _ _ _ _ H H0)
      as [[_ ->]|[(_ & _ & Hok)|[(_ & _ & Hok)|(_ & _ & ->)]]].
    + apply (index_frame st _ Hwf Hsound); simpl;
        [apply sameChunks_refl|reflexivity|apply smallIndexShrinks_refl|exact Hne].
    + apply onMigrationSuccess_frame in Hok. rewrite Hok.
      apply (index_frame st _ Hwf Hsound); simpl;
        [apply sameChunks_refl|reflexivity|apply smallIndexShrinks_refl|exact Hne].
    + apply onMigrationRetriableError_frame in Hok. rewrite Hok.
      apply (index_frame st _ Hwf Hsound); simpl;
        [apply sameChunks_set_busy2|reflexivity|apply smallIndexShrinks_refl|exact Hne].
    + apply (index_frame st _ Hwf Hsound); simpl; [apply sameChunks_refl|reflexivity| |].
      * intros s l. rewrite lookup_empty. discriminate.
      * intros s l. rewrite lookup_empty. discriminate.
  - destruct (applyMergeResult_cases _ _ _ _ _ _ H H0)
      as [[_ ->]|[(_ & _ & Hok)|[(_ & _ & ->)|(_ & _ & ->)]]].
    + apply (index_frame st _ Hwf Hsound); simpl;
        [apply sameChunks_refl|reflexivity|apply smallIndexShrinks_refl|exact Hne].
    + assert (Hdistinct : chunkToMove r <> chunkToMergeWith r).
      { destruct Hinv as (_ & [Hndr _] & _).
        destruct (extractFirst_Some _ _ _ _ H) as (Hr & _).
        assert (Hreq : r ∈ requests st).
        { unfold requests. apply elem_of_app. right. apply elem_of_app. right. exact Hr. }
        apply list_elem_of_split in Hreq as (l1 & l2 & Hreq). rewrite Hreq in Hndr.
        rewrite bind_app in Hndr. apply NoDup_app in Hndr as (_ & _ & Hndr).
        simpl in Hndr. apply NoDup_cons in Hndr as [Hni _].
        intros Heq. apply Hni. rewrite Heq. left. }
      apply (onMergeSuccess_keeps_index (with_outstandingMerges rest st) r);
        [exact Hwf|exact Hsound|exact Hdistinct|exact Hok].
    + apply (index_frame st _ Hwf Hsound); simpl;
        [apply sameChunks_refl|reflexivity|apply smallIndexShrinks_refl|exact Hne].
    + apply (index_frame st _ Hwf Hsound); simpl; [apply sameChunks_refl|reflexivity| |].
      * intros s l. rewrite lookup_empty. discriminate.
      * intros s l. rewrite lookup_empty. discriminate.
  - apply applyActionResult_Throw in H. subst st'. split; assumption.
Qed.

(** In every sequence of calls of a MoveAndMergeChunks phase, from its
    construction on, the index of small chunks has no empty list, and every
    list has, each once, chunks of the chunk list that are on the shard of the
    list and not above the threshold of small chunks. *)
Theorem small_chunks_index_invariant nss uuid chunks infos zones threshold tr st :
  run (new nss uuid chunks infos zones threshold) tr st ->
  NoDup (_collectionChunks st).*1 /\
  forall s l, _smallChunksByShard st !! s = Some l ->
    l <> [] /\ NoDup l /\
    forall it, it ∈ l ->
      exists c, deref (_collectionChunks st) it = Some c /\ shard c = s /\
                estimatedSizeBytes c <= _smallChunkSizeThresholdBytes st.
Proof.
  intros Hrun.
  assert (H : invariant tr st /\ wf st /\ smallIndexSound st).
  { remember (new nss uuid chunks infos zones threshold) as st0 eqn:Hst0.
    induction Hrun as [|st0 tr st1 ev st2 Hrun IH Hstep].
    - subst. split_and!; [apply new_invariant|apply new_wf|apply new_smallIndexSound].
    - destruct (IH Hst0) as (Hinv & Hidx). split.
      + eapply invariant_step; eassumption.
      + eapply index_step; eassumption. }
  destruct H as (_ & [Hnd Hkeys] & Hsound). split; [exact Hnd|].
  intros s l Hl. destruct (Hkeys s l Hl) as [Hndl Hin]. destruct (Hsound s l Hl) as [Hne Hsz].
  split_and!; [exact Hne|exact Hndl|].
  intros it Hit. destruct (Hin it Hit) as (c & Hc & Hs). exists c.
  split_and!; [exact Hc|exact Hs|exact (Hsz it c Hit Hc)].
Qed.

(** ** A migration that is to be retried *)

Lemma extractFirst_last p (l : list MoveAndMergeRequest) r :
  Forall (fun r' => p r' = Some false) l -> p r = Some true ->
  extractFirst p (l ++ [r]) = Some (Some (r, l)).
Proof.
  intros Hall Hr. induction Hall as [|x l Hx Hall IH]; simpl.
  - rewrite Hr. reflexivity.
  - rewrite Hx. simpl. rewrite IH. reflexivity.
Qed.

Lemma update_comm f g it it' (l : ChunkRangeInfos) :
  it <> it' -> update f it (update g it' l) = update g it' (update f it l).
Proof.
  intros Hne. induction l as [|[i c] l IH]; simpl; [reflexivity|].
  destruct (decide (i = it')) as [->|Hi']; simpl.
  - destruct (decide (it' = it)) as [->|_]; [contradiction|]. simpl.
    destruct (decide (it' = it')); [reflexivity|contradiction].
  - destruct (decide (i = it)) as [->|Hi]; simpl.
    + destruct (decide (it = it')); [contradiction|reflexivity].
    + destruct (decide (i = it')); [contradiction|]. f_equal. exact IH.
Qed.

Lemma update_id f it (l : ChunkRangeInfos) c :
  deref l it = Some c -> f c = c -> update f it l = l.
Proof.
  induction l as [|[i c'] l IH]; simpl; [reflexivity|].
  destruct (decide (i = it)) as [->|Hi].
  - intros [= ->] Hf. rewrite Hf. reflexivity.
  - intros Hd Hf. f_equal. exact (IH Hd Hf).
Qed.

Lemma set_busyInOperation_restore c :
  busyInOperation c = false ->
  set_busyInOperation false (set_busyInOperation true c) = c.
Proof. destruct c as [r s e b]. simpl. intros ->. reflexivity. Qed.

Lemma update_busy_restore small target (l : ChunkRangeInfos) csmall ctarget :
  target <> small ->
  deref l small = Some csmall -> deref l target = Some ctarget ->
  busyInOperation csmall = false -> busyInOperation ctarget = false ->
  update (set_busyInOperation false) target
    (update (set_busyInOperation false) small
       (update (set_busyInOperation true) target
          (update (set_busyInOperation true) small l))) = l.
Proof.
  intros Hne Hs Ht Hbs Hbt.
  rewrite (update_comm (set_busyInOperation false) (set_busyInOperation true) small target)
    by congruence.
  rewrite !update_update.
  rewrite (update_id _ small l csmall Hs (set_busyInOperation_restore _ Hbs)).
  exact (update_id _ target l ctarget Ht (set_busyInOperation_restore _ Hbt)).
Qed.

Lemma getMigrationMinKey_set_busy b it (l : ChunkRangeInfos) r :
  getMigrationMinKey (update (set_busyInOperation b) it l) r = getMigrationMinKey l r.
Proof.
  unfold getMigrationMinKey. rewrite deref_set_busy.
  destruct (deref l (chunkToMove r)) as [c|]; [|reflexivity]. simpl.
  destruct (decide (it = chunkToMove r)); reflexivity.
Qed.

(** A migration that [popNextMigration] returns and that fails with an error
    that can be retried leaves the phase as it was before the migration, but
    for the chunks the search took out of the index of small chunks: the
    request is dropped and its two chunks are in no operation again. *)
Theorem migration_retriable_error_round_trip
    env usedShards st info st1 usedShards1 status :
  NoDup (_collectionChunks st).*1 ->
  _aborted st = false ->
  Forall (fun r => matchesMigration st info r = Some false) (_outstandingMigrations st) ->
  popNextMigration env usedShards st = Ok (Some info) (st1, usedShards1) ->
  isRetriableForDefragmentation status = true ->
  applyActionResult (ActMigrateInfo info) (RespStatus status) st1 =
    Ok tt (with_smallChunksByShard (_smallChunksByShard st1) st).
Proof.
  intros Hnd Hab Hothers Hpop Hretry.
  destruct (popNextMigrationFrom_Some _ _ _ _ _ _ _ Hnd Hpop)
    as (s & l & sm & tg & cs & ctg & idx & _ & _ & _ & _ & Hds & Hdt & Hneq
        & Hb1 & Hb2 & _ & _ & _ & Hst1 & _ & _ & _ & Hmin & _).
  set (r := mkMoveAndMergeRequest sm tg
              (bool_decide (woCompare (getMax (range ctg)) (getMin (range cs)) = 0))) in *.
  assert (Hkey : forall r', matchesMigration st1 info r' = matchesMigration st info r').
  { intros r'. unfold matchesMigration. rewrite Hst1. simpl.
    rewrite !getMigrationMinKey_set_busy. reflexivity. }
  assert (Hextract : extractFirst (matchesMigration st1 info) (_outstandingMigrations st1) =
                     Some (Some (r, _outstandingMigrations st))).
  { rewrite Hst1 at 2. simpl. apply extractFirst_last.
    - eapply Forall_impl; [exact Hothers|]. intros r' Hr'. rewrite Hkey. exact Hr'.
    - rewrite Hkey. unfold matchesMigration, getMigrationMinKey. simpl. rewrite Hds. simpl.
      rewrite Hmin. f_equal. apply bool_decide_eq_true. apply woCompare_eq. reflexivity. }
  unfold applyActionResult, applyMigrationResult. rewrite Hextract.
  cbn -[onMigrationSuccess onMigrationRetriableError _abort].
  replace (_aborted st1) with false by (rewrite Hst1; simpl; congruence).
  unfold handleActionResult. rewrite Hretry.
  destruct status as [|code]; [discriminate|]. simpl isOK. cbv iota.
  unfold onMigrationRetriableError. rewrite Hst1. cbn -[update].
  rewrite !deref_set_busy, Hds, Hdt. cbn -[update].
  rewrite (update_busy_restore sm tg _ cs ctg Hneq Hds Hdt Hb1 Hb2).
  destruct st; reflexivity.
Qed.


(** ** [popNextMigration] and its fatal errors *)

Lemma shardsKnownb_shardsKnown st : shardsKnownb st = true -> shardsKnown st.
Proof.
  unfold shardsKnownb. intros H it c Hc.
  rewrite forallb_forall in H. apply deref_Some_elem in Hc.
  apply list_elem_of_In in Hc. apply H in Hc. apply bool_decide_eq_true in Hc. exact Hc.
Qed.

Lemma deref_position (l : ChunkRangeInfos) it c :
  deref l it = Some c -> is_Some (position l it).
Proof.
  induction l as [|[i c'] l IH]; simpl; [discriminate|].
  destruct (decide (i = it)); [eauto|]. intros H. destruct (IH H) as [k ->]. simpl. eauto.
Qed.

Lemma canBeMoveAndMerged_Some st chunk sibling :
  is_Some (_shardInfos st !! shard sibling) -> is_Some (canBeMoveAndMerged st chunk sibling).
Proof.
  intros [i Hi]. unfold canBeMoveAndMerged.
  destruct (decide (shard chunk = shard sibling)); simpl; [eauto|].
  rewrite Hi. simpl. eauto.
Qed.

Lemma _getChunkSiblings_total st chunkIt chunk :
  NoDup (_collectionChunks st).*1 -> shardsKnown st ->
  deref (_collectionChunks st) chunkIt = Some chunk ->
  exists siblings,
    _getChunkSiblings st chunkIt = Some siblings /\ (length siblings <= 2)%nat.
Proof.
  intros Hnd Hknown Hchunk. unfold _getChunkSiblings.
  destruct (deref_position _ _ _ Hchunk) as [idx Hpos]. rewrite Hpos. simpl.
  rewrite Hchunk. simpl.
  destruct (position_lookup _ _ _ Hpos) as (chunk' & Hidx & _).
  assert (Hok : forall n s info, _collectionChunks st !! n = Some (s, info) ->
            exists b, canBeMoveAndMerged st chunk info = Some b).
  { intros n s info Hn. apply canBeMoveAndMerged_Some. apply (Hknown s).
    eapply lookup_deref; eassumption. }
  assert (Hright : exists right,
            match _collectionChunks st !! S idx with
            | Some (rightSibling, info) =>
                ok ← canBeMoveAndMerged st chunk info;
                Some (if ok : bool then [rightSibling] else [])
            | None => Some []
            end = Some right /\ (length right <= 1)%nat).
  { destruct (_collectionChunks st !! S idx) as [[r info]|] eqn:Hr.
    - destruct (Hok _ _ _ Hr) as [b ->]. simpl. eexists. split; [reflexivity|].
      destruct b; simpl; lia.
    - eexists. split; [reflexivity|]. simpl. lia. }
  destruct Hright as (right & -> & Hlr). simpl.
  destruct idx as [|idx'].
  - simpl. eexists. split; [reflexivity|]. rewrite length_app. simpl. lia.
  - destruct (_collectionChunks st !! idx') as [[l info]|] eqn:Hl.
    + destruct (Hok _ _ _ Hl) as [b ->]. simpl. eexists. split; [reflexivity|].
      rewrite length_app. destruct b; simpl; lia.
    + exfalso. apply lookup_ge_None in Hl. apply lookup_lt_Some in Hidx. lia.
Qed.

Lemma availableSiblings_total st usedShards candidates :
  (forall s, s ∈ candidates -> is_Some (deref (_collectionChunks st) s)) ->
  exists available,
    availableSiblings st usedShards candidates = Some available /\
    (length available <= length candidates)%nat.
Proof.
  induction candidates as [|c l IH]; intros Hd; simpl.
  - exists []. split; [reflexivity|]. simpl. lia.
  - destruct (Hd c) as [info ->]; [left|]. simpl.
    destruct IH as (others & -> & Hlen); [intros s Hs; apply Hd; right; exact Hs|]. simpl.
    eexists. split; [reflexivity|].
    destruct (negb (busyInOperation info) && bool_decide (shard info ∉ usedShards)); simpl; lia.
Qed.

Lemma findInSmallChunks_total st usedShards l :
  NoDup (_collectionChunks st).*1 -> shardsKnown st ->
  (forall it, it ∈ l -> is_Some (deref (_collectionChunks st) it)) ->
  exists l' r,
    findInSmallChunks st usedShards l = Some (l', r) /\
    forall c siblings, r = Some (c, siblings) -> (length siblings <= 2)%nat.
Proof.
  intros Hnd Hknown. induction l as [|x l IH]; intros Hd; simpl.
  - exists [], None. split; [reflexivity|]. discriminate.
  - destruct (Hd x) as [candidate Hx]; [left|]. rewrite Hx. simpl.
    destruct IH as (l1 & r1 & Hrest & Hlen1); [intros it Hit; apply Hd; right; exact Hit|].
    destruct (busyInOperation candidate).
    + rewrite Hrest. simpl. eauto.
    + destruct (_getChunkSiblings_total _ _ _ Hnd Hknown Hx) as (sibs & Hsib & Hlen).
      rewrite Hsib. cbn -[availableSiblings].
      destruct sibs as [|s sibs]; [eauto|].
      destruct (availableSiblings_total st usedShards (s :: sibs)) as (av & Hav & Hlav).
      { intros s' Hs'.
        destruct (_getChunkSiblings_mergeable _ _ _ Hnd Hsib) as (chunk & _ & Hall).
        destruct (Hall s' Hs') as (_ & info & Hinfo & _). eauto. }
      rewrite Hav. cbn -[availableSiblings]. destruct av as [|a av].
      * rewrite Hrest. simpl. eauto.
      * eexists _, _. split; [reflexivity|]. intros c siblings [= <- <-]. lia.
Qed.

Lemma _findNextSmallChunkInShard_total shardId usedShards st :
  wf st -> shardsKnown st ->
  exists r st',
    _findNextSmallChunkInShard shardId usedShards st = Some (r, st') /\
    forall c siblings, r = Some (c, siblings) -> (length siblings <= 2)%nat.
Proof.
  intros [Hnd Hkeys] Hknown. unfold _findNextSmallChunkInShard.
  destruct (_smallChunksByShard st !! shardId) as [small|] eqn:Hsmall.
  - destruct (findInSmallChunks_total st usedShards small Hnd Hknown)
      as (l' & r & Hf & Hlen).
    { intros it Hit. destruct (proj2 (Hkeys _ _ Hsmall) it Hit) as (c & Hc & _). eauto. }
    rewrite Hf. simpl. destruct r as [found|]; eexists _, _; (split; [reflexivity|]).
    + intros c siblings [= ->]. eapply Hlen. reflexivity.
    + discriminate.
  - eexists _, _. split; [reflexivity|]. discriminate.
Qed.

Lemma chooseTargetSibling_total st small csmall siblings :
  shardsKnown st ->
  deref (_collectionChunks st) small = Some csmall ->
  siblings <> [] -> (length siblings <= 2)%nat ->
  (forall s, s ∈ siblings -> is_Some (deref (_collectionChunks st) s)) ->
  is_Some (chooseTargetSibling st small siblings).
Proof.
  intros Hknown Hs Hne Hlen Hd. unfold chooseTargetSibling.
  rewrite bool_decide_eq_true_2 by exact Hlen.
  destruct siblings as [|a rest]; [contradiction|]. cbn [head mbind option_bind].
  assert (Hlast : exists b, last (a :: rest) = Some b /\ b ∈ a :: rest).
  { destruct (last (a :: rest)) as [b|] eqn:Hb.
    - exists b. split; [reflexivity|]. apply last_Some_elem_of. exact Hb.
    - apply last_None in Hb. discriminate. }
  destruct Hlast as (b & -> & Hb). cbn [mbind option_bind].
  destruct (decide (a = b)); [eauto|].
  rewrite Hs. cbn [mbind option_bind].
  destruct (Hd a) as [ca Ha]; [left|]. destruct (Hd b Hb) as [cb Hcb].
  rewrite Ha, Hcb. cbn [mbind option_bind].
  destruct (_ <? _); [eauto|]. destruct (_ =? _); [|eauto].
  destruct (Hknown b cb Hcb) as [ib ->]. destruct (Hknown a ca Ha) as [ia ->].
  cbn [mbind option_bind]. eauto.
Qed.

Lemma buildMigration_not_Fatal env small csmall siblings usedShards st :
  shardsKnown st ->
  deref (_collectionChunks st) small = Some csmall ->
  siblings <> [] -> (length siblings <= 2)%nat ->
  (forall s, s ∈ siblings -> is_Some (deref (_collectionChunks st) s)) ->
  buildMigration env small siblings usedShards st <> Fatal.
Proof.
  intros Hknown Hs Hne Hlen Hd. unfold buildMigration.
  destruct (chooseTargetSibling_total st small csmall siblings Hknown Hs Hne Hlen Hd)
    as [target Hchoose].
  rewrite Hchoose, Hs.
  destruct (Hd target (chooseTargetSibling_elem _ _ _ _ Hchoose)) as [ctarget Ht].
  rewrite Ht. cbn -[update].
  destruct (getShardVersion _ _ _) as [v|]; [|discriminate].
  unfold newMoveAndMergeRequest, asMigrateInfo. cbn -[update].
  rewrite !deref_set_busy, Hs, Ht. cbn -[update].
  rewrite !deref_set_busy, Hs, Ht. cbn -[update]. discriminate.
Qed.

Lemma popNextMigrationFrom_not_Fatal env order usedShards st :
  wf st -> shardsKnown st ->
  popNextMigrationFrom env order usedShards st <> Fatal.
Proof.
  revert st. induction order as [|shardId rest IH]; intros st Hwf Hknown; simpl; [discriminate|].
  destruct (bool_decide (shardId ∈ usedShards)); [apply IH; assumption|].
  destruct (_findNextSmallChunkInShard_total shardId usedShards st Hwf Hknown)
    as (r & st1 & Hfind & Hlen).
  rewrite Hfind.
  pose proof (_findNextSmallChunkInShard_frame _ _ _ _ _ Hfind) as Hframe.
  assert (Hknown1 : shardsKnown st1).
  { intros it c. rewrite Hframe. simpl. apply Hknown. }
  destruct r as [[c sibs]|].
  - destruct (_findNextSmallChunkInShard_found _ _ _ _ _ _ (proj1 Hwf) Hfind)
      as (_ & Hne & candidate & Hcand & _ & Hsibs).
    apply (buildMigration_not_Fatal env c candidate sibs usedShards st1 Hknown1).
    + rewrite Hframe. simpl. exact Hcand.
    + exact Hne.
    + eapply Hlen. reflexivity.
    + intros s Hs. destruct (Hsibs s Hs) as (_ & info & Hinfo & _).
      rewrite Hframe. simpl. eauto.
  - apply IH; [|exact Hknown1].
    rewrite Hframe. apply wf_shrink; [exact Hwf|].
    eapply _findNextSmallChunkInShard_shrinks. exact Hfind.
Qed.

(** When the nodes of the chunk list are distinct, the index of small chunks
    lists nodes of the chunk list and every shard of a chunk has its
    statistics, [popNextMigration] reaches neither its [invariant] on the
    number of siblings nor a shard without statistics: it returns, with a
    migration or without one, or throws what the read of the shard version
    throws. *)
Theorem popNextMigration_returns_or_throws env usedShards st :
  wf st -> shardsKnown st ->
  match popNextMigration env usedShards st with
  | Ok _ _ | Throw _ => True
  | _ => False
  end.
Proof.
  intros Hwf Hknown.
  pose proof (popNextMigrationFrom_not_Fatal env (_shardProcessingOrder st) usedShards st
                Hwf Hknown) as Hnf.
  pose proof (popNextMigration_ends env usedShards st) as Hfuel.
  unfold popNextMigration in *.
  destruct (popNextMigrationFrom env (_shardProcessingOrder st) usedShards st);
    [exact I|exact I|contradiction|contradiction].
Qed.

End MoveAndMergeChunksPhaseInvariants.

(** * The policy object *)

Section PolicyStreams.

Import BalancerDefragmentationPolicyImpl Invariants PolicyInvariants.

Lemma transitionWhileComplete_not_complete fuel env coll phase ph :
  transitionWhileComplete fuel env coll phase = Some (Some ph) -> Phase.isComplete ph = false.
Proof.
  revert phase. induction fuel as [|fuel IH]; intros phase; simpl.
  - destruct phase as [p|]; [|discriminate].
    destruct (Phase.isComplete p) eqn:Hc; [discriminate|]. intros [= <-]. exact Hc.
  - destruct phase as [p|]; [|discriminate].
    destruct (Phase.isComplete p) eqn:Hc; [apply IH|]. intros [= <-]. exact Hc.
Qed.

(** [_initializeCollectionState] returns: its loop builds at most four
    phases.  It enrolls the collection with a phase that has work to do, or
    it leaves the policy as it was; a complete phase is never stored. *)
Theorem _initializeCollectionState_ends fuel env coll st :
  (4 <= fuel)%nat ->
  exists st',
    _initializeCollectionState fuel env coll st = Ok tt st' /\
    (st' = st \/
     exists phase, st' = assign (coll_uuid coll) (Some phase) st /\
                   Phase.isComplete phase = false).
Proof.
  intros Hfuel. unfold _initializeCollectionState.
  set (built := _transitionPhases env coll _ _).
  pose proof (transitionWhileComplete_terminates fuel env coll built Hfuel) as Hterm.
  destruct (transitionWhileComplete fuel env coll built) as [[ph|]|] eqn:Hloop;
    [| |congruence].
  - exists (assign (coll_uuid coll) (Some ph) st). split; [reflexivity|]. right.
    exists ph. split; [reflexivity|]. eapply transitionWhileComplete_not_complete. exact Hloop.
  - exists st. split; [reflexivity|]. left. reflexivity.
Qed.

(** [_refreshDefragmentationPhaseFor] returns for a collection of the
    policy: it reads the catalog only when the phase is complete, and then
    it leaves the collection with no phase or with a phase that has work to
    do.  The other collections are not touched. *)
Theorem _refreshDefragmentationPhaseFor_ends fuel env collUuid st currentPhase :
  (4 <= fuel)%nat ->
  _defragmentationStates st !! collUuid = Some currentPhase ->
  match _refreshDefragmentationPhaseFor fuel env collUuid st with
  | Ok _ st' =>
      exists phase,
        st' = assign collUuid phase st /\
        from_option Phase.isComplete false phase = false /\
        (from_option Phase.isComplete false currentPhase = false -> phase = currentPhase)
  | Throw st' =>
      st' = st /\ env_getCollection env collUuid = None /\
      from_option Phase.isComplete false currentPhase = true
  | _ => False
  end.
Proof.
  intros Hfuel Hcur. unfold _refreshDefragmentationPhaseFor. rewrite Hcur.
  assert (Hsame : st = assign collUuid currentPhase st).
  { unfold assign. rewrite insert_id by exact Hcur. destruct st; reflexivity. }
  destruct currentPhase as [p|]; simpl.
  - destruct (Phase.isComplete p) eqn:Hc.
    + destruct (env_getCollection env collUuid) as [coll|]; [|auto].
      pose proof (transitionWhileComplete_terminates fuel env coll (Some p) Hfuel) as Hterm.
      destruct (transitionWhileComplete fuel env coll (Some p)) as [phase|] eqn:Hloop;
        [|congruence].
      exists phase. split; [reflexivity|]. split; [|discriminate].
      destruct phase as [ph|]; [|reflexivity]. simpl.
      eapply transitionWhileComplete_not_complete. exact Hloop.
    + exists (Some p). split; [exact Hsame|]. split; [exact Hc|reflexivity].
  - exists None. split; [exact Hsame|]. split; reflexivity.
Qed.


Lemma Phase_popNextStreamableAction_ends env phase :
  Phase.popNextStreamableAction env phase <> OutOfFuel.
Proof.
  destruct phase as [p|p|p]; simpl.
  - unfold MergeChunksPhase.popNextStreamableAction.
    destruct (map_begin _) as [[shardId pa]|]; [|discriminate].
    destruct (getShardVersion _ _ _); [|discriminate].
    destruct (bool_decide _); destruct (last _); discriminate.
  - unfold MoveAndMergeChunksPhase.popNextStreamableAction.
    destruct (MoveAndMergeChunksPhase._actionableMerges p); [discriminate|].
    destruct (MoveAndMergeChunksPhase.getDestinationShard _ _); [|discriminate].
    destruct (getShardVersion _ _ _); [|discriminate].
    destruct (MoveAndMergeChunksPhase.asMergeInfo _ _ _ _ _); discriminate.
  - unfold SplitChunksPhase.popNextStreamableAction.
    destruct (map_begin _) as [[shardId pa]|]; [|discriminate].
    destruct (getShardVersion _ _ _); [|discriminate].
    destruct (last (SplitChunksPhase.rangesToSplit pa)) as [[r k]|]; [discriminate|].
    destruct (last _); discriminate.
Qed.

Lemma within_refl st : within st st.
Proof. repeat split; auto. Qed.

Lemma within_trans st1 st2 st3 : within st1 st2 -> within st2 st3 -> within st1 st3.
Proof.
  intros (H1 & H2 & H3 & H4) (H1' & H2' & H3' & H4').
  repeat split; try congruence. auto.
Qed.

Lemma within_erase uuid st : within (erase uuid st) st.
Proof.
  repeat split; try reflexivity. intros u. simpl. rewrite lookup_delete_is_Some. tauto.
Qed.

Lemma within_assign uuid phase st :
  is_Some (_defragmentationStates st !! uuid) -> within (assign uuid phase st) st.
Proof.
  intros Hin. repeat split; try reflexivity. intros u. simpl.
  rewrite lookup_insert_is_Some. intros [<-|[_ H]]; assumption.
Qed.

Lemma _refreshDefragmentationPhaseFor_within fuel env uuid st :
  (4 <= fuel)%nat ->
  match _refreshDefragmentationPhaseFor fuel env uuid st with
  | Ok _ st' => within st' st /\ is_Some (_defragmentationStates st' !! uuid)
  | Throw st' => st' = st
  | Fatal => True
  | OutOfFuel => False
  end.
Proof.
  intros Hfuel. unfold _refreshDefragmentationPhaseFor.
  destruct (_defragmentationStates st !! uuid) as [cur|] eqn:Hcur; [|exact I].
  destruct (match cur with Some p => Phase.isComplete p | None => false end);
    [|split; [apply within_refl|eauto]].
  destruct (env_getCollection env uuid) as [coll|]; [|reflexivity].
  pose proof (transitionWhileComplete_terminates fuel env coll cur Hfuel) as Hterm.
  destruct (transitionWhileComplete fuel env coll cur) as [phase|]; [|congruence].
  split; [apply within_assign; eauto|]. simpl. rewrite lookup_insert_eq. eauto.
Qed.

Lemma nextStreamingActionFrom_within fuel env uuids :
  (4 <= fuel)%nat ->
  forall st,
    match nextStreamingActionFrom fuel env uuids st with
    | Ok _ st' => within st' st
    | Fatal => True
    | _ => False
    end.
Proof.
  intros Hfuel. induction uuids as [|uuid rest IH]; intros st; simpl; [apply within_refl|].
  assert (Hnext : forall st1, within st1 st ->
    match nextStreamingActionFrom fuel env rest st1 with
    | Ok _ st' => within st' st
    | Fatal => True
    | _ => False
    end).
  { intros st1 H1. specialize (IH st1).
    destruct (nextStreamingActionFrom fuel env rest st1); try exact IH.
    eapply within_trans; [exact IH|exact H1]. }
  pose proof (_refreshDefragmentationPhaseFor_within fuel env uuid st Hfuel) as Hr.
  destruct (_refreshDefragmentationPhaseFor fuel env uuid st) as [[] st1|st1| |];
    [|subst st1; apply Hnext, within_erase|exact I|contradiction].
  destruct Hr as [Hw Hin].
  destruct (_defragmentationStates st1 !! uuid) as [[phase|]|] eqn:Hph;
    [| |exact I].
  - pose proof (Phase_popNextStreamableAction_ends env phase) as Hends.
    destruct (Phase.popNextStreamableAction env phase) as [[a|] ph'|ph'| |];
      [| | |exact I|congruence].
    + eapply within_trans; [apply within_assign; rewrite Hph; eauto|exact Hw].
    + apply Hnext. eapply within_trans; [apply within_assign; rewrite Hph; eauto|exact Hw].
    + apply Hnext. eapply within_trans; [apply within_erase|exact Hw].
  - apply Hnext. eapply within_trans; [apply within_erase|exact Hw].
Qed.

Lemma _nextStreamingAction_within fuel env st :
  (4 <= fuel)%nat ->
  match _nextStreamingAction fuel env st with
  | Ok action st' =>
      within st' st /\ forall a, action = Some a -> isEndOfActionStream a = false
  | Fatal => True
  | _ => False
  end.
Proof.
  intros Hfuel. unfold _nextStreamingAction.
  pose proof (nextStreamingActionFrom_within fuel env
                (map_to_list (_defragmentationStates st)).*1 Hfuel st) as Hw.
  destruct (nextStreamingActionFrom fuel env (map_to_list (_defragmentationStates st)).*1 st)
    as [[a|] st'|st'| |] eqn:Hfrom; try exact Hw.
  - split; [exact Hw|]. intros a' [= <-]. eapply nextStreamingActionFrom_action. exact Hfrom.
  - split; [exact Hw|]. destruct (_streamClosed st'); simpl; discriminate.
Qed.

(** [getNextStreamingAction] returns: the loops inside end, and the
    exceptions of the catalog are caught.  It enrolls no collection.  A
    ready future carries an action of a phase and raises the counter by
    one; otherwise the consumer is parked and the counter stays. *)
Theorem getNextStreamingAction_ends fuel env st :
  (4 <= fuel)%nat ->
  match getNextStreamingAction fuel env st with
  | Ok future st' =>
      (forall uuid, is_Some (_defragmentationStates st' !! uuid) ->
                    is_Some (_defragmentationStates st !! uuid)) /\
      _streamClosed st' = _streamClosed st /\
      match future with
      | makeReady action =>
          _concurrentStreamingOps st < kMaxConcurrentOperations env /\
          _concurrentStreamingOps st' = _concurrentStreamingOps st + 1 /\
          _nextStreamingActionPromise st' = _nextStreamingActionPromise st /\
          isEndOfActionStream action = false
      | pending =>
          _concurrentStreamingOps st' = _concurrentStreamingOps st /\
          _nextStreamingActionPromise st' = Some mkPromise
      end
  | Fatal => True
  | _ => False
  end.
Proof.
  intros Hfuel. unfold getNextStreamingAction.
  destruct (Z.ltb_spec (_concurrentStreamingOps st) (kMaxConcurrentOperations env)) as [Hlt|Hge].
  - pose proof (_nextStreamingAction_within fuel env st Hfuel) as Hw.
    destruct (_nextStreamingAction fuel env st) as [[a|] st'|st'| |]; try exact Hw.
    + destruct Hw as [(Hc & Hp & Hs & Hk) Ha]. simpl.
      split_and!; [exact Hk|exact Hs|exact Hlt|lia|exact Hp|apply Ha; reflexivity].
    + destruct Hw as [(Hc & Hp & Hs & Hk) _]. simpl.
      split_and!; [exact Hk|exact Hs|exact Hc|reflexivity].
  - simpl. split_and!; auto.
Qed.

(** An acknowledgement for a collection of the policy does one of two
    things: it hands the next action to the parked consumer and leaves the
    counter, or it lowers the counter by one.  When the phase throws (the
    action is not of a type the phase gives) the exception leaves the
    function before the counter is lowered. *)
Theorem acknowledge_bookkeeping fuel env uuid action result st phase :
  (4 <= fuel)%nat ->
  _defragmentationStates st !! uuid = Some (Some phase) ->
  match acknowledge fuel env uuid action result st with
  | Ok delivered st' =>
      _streamClosed st' = _streamClosed st /\
      (forall u, is_Some (_defragmentationStates st' !! u) ->
                 is_Some (_defragmentationStates st !! u)) /\
      match delivered with
      | Some a =>
          _nextStreamingActionPromise st = Some mkPromise /\
          _nextStreamingActionPromise st' = None /\
          _concurrentStreamingOps st' = _concurrentStreamingOps st /\
          isEndOfActionStream a = false
      | None =>
          _nextStreamingActionPromise st' = _nextStreamingActionPromise st /\
          _concurrentStreamingOps st' = _concurrentStreamingOps st - 1
      end
  | Throw st' =>
      _concurrentStreamingOps st' = _concurrentStreamingOps st /\
      _nextStreamingActionPromise st' = _nextStreamingActionPromise st /\
      exists phase', Phase.applyActionResult env action result phase = Throw phase' /\
                     st' = assign uuid (Some phase') st
  | Fatal => True
  | OutOfFuel => False
  end.
Proof.
  intros Hfuel Hph. unfold acknowledge. rewrite Hph.
  assert (Hends : Phase.applyActionResult env action result phase <> OutOfFuel).
  { destruct phase as [p|p|p]; simpl.
    - unfold MergeChunksPhase.applyActionResult.
      destruct (MergeChunksPhase._aborted p); [discriminate|].
      destruct action; try discriminate; destruct result; try discriminate;
        unfold handleActionResult;
        destruct (isOK _); try discriminate;
        try (destruct (env_setChunkEstimatedSize _ _ _); discriminate);
        destruct (isRetriableForDefragmentation _); discriminate.
    - destruct action; simpl; try discriminate.
      + unfold MoveAndMergeChunksPhase.applyMergeResult.
        destruct result; try discriminate.
        destruct (MoveAndMergeChunksPhase.extractFirst _ _) as [[[r rest]|]|]; try discriminate.
        destruct (MoveAndMergeChunksPhase._aborted _); [discriminate|].
        unfold handleActionResult. destruct (isOK _).
        * destruct (MoveAndMergeChunksPhase.onMergeSuccess _ _); discriminate.
        * destruct (isRetriableForDefragmentation _); discriminate.
      + unfold MoveAndMergeChunksPhase.applyMigrationResult.
        destruct result; try discriminate.
        destruct (MoveAndMergeChunksPhase.extractFirst _ _) as [[[r rest]|]|]; try discriminate.
        destruct (MoveAndMergeChunksPhase._aborted _); [discriminate|].
        unfold handleActionResult. destruct (isOK _).
        * destruct (MoveAndMergeChunksPhase.onMigrationSuccess _ _); discriminate.
        * destruct (isRetriableForDefragmentation _).
          -- destruct (MoveAndMergeChunksPhase.onMigrationRetriableError _ _); discriminate.
          -- discriminate.
    - unfold SplitChunksPhase.applyActionResult.
      destruct (SplitChunksPhase._aborted p); [discriminate|].
      destruct action; try discriminate; destruct result; try discriminate;
        unfold handleActionResult;
        destruct (isOK _); try discriminate;
        destruct (isRetriableForDefragmentation _); discriminate. }
  destruct (Phase.applyActionResult env action result phase) as [[] phase'|phase'| |];
    [| |exact I|congruence].
  2:{ split_and!; [reflexivity|reflexivity|]. exists phase'. split; reflexivity. }
  assert (Hin : within (assign uuid (Some phase') st) st) by (apply within_assign; eauto).
  set (st1 := assign uuid (Some phase') st) in *.
  unfold _processEndOfAction.
  destruct (_nextStreamingActionPromise st1) as [[]|] eqn:Hpromise.
  - pose proof (_nextStreamingAction_within fuel env st1 Hfuel) as Hw.
    destruct (_nextStreamingAction fuel env st1) as [[a|] st'|st'| |]; try exact Hw;
      try contradiction.
    + destruct Hw as [Hw Ha]. destruct (within_trans _ _ _ Hw Hin) as (Hc & Hp & Hs & Hk).
      simpl. split_and!; [exact Hs|exact Hk| | |exact Hc|apply Ha; reflexivity].
      * destruct Hin as (_ & Hp' & _). rewrite <- Hp'. exact Hpromise.
      * reflexivity.
    + destruct Hw as [Hw _]. destruct (within_trans _ _ _ Hw Hin) as (Hc & Hp & Hs & Hk).
      simpl. split_and!; [exact Hs|exact Hk|exact Hp|lia].
  - destruct Hin as (Hc & Hp & Hs & Hk). simpl. split_and!; [exact Hs|exact Hk|exact Hp|lia].
Qed.

(** [closeActionStream] empties the policy: a consumer that was parked
    receives [EndOfActionStream]; the acknowledgements that come later are
    dropped, and [selectChunksToMove] has nothing to select. *)
Theorem closeActionStream_drops_everything st :
  let delivered := fst (closeActionStream st) in
  let st' := snd (closeActionStream st) in
  (delivered = Some (ActEndOfActionStream mkEndOfActionStream) <->
   is_Some (_nextStreamingActionPromise st)) /\
  (delivered = None <-> _nextStreamingActionPromise st = None) /\
  _defragmentationStates st' = ∅ /\ _streamClosed st' = true /\
  _nextStreamingActionPromise st' = None /\
  _concurrentStreamingOps st' = _concurrentStreamingOps st /\
  (forall fuel env uuid action result,
     acknowledge fuel env uuid action result st' = Ok None st') /\
  (forall fuel env usedShards,
     selectChunksToMove (S fuel) env usedShards st' = Ok [] (st', usedShards)).
Proof.
  assert (Hack : forall st0 fuel env uuid action result,
            _defragmentationStates st0 = ∅ ->
            acknowledge fuel env uuid action result st0 = Ok None st0).
  { intros st0 fuel env uuid action result H0. unfold acknowledge.
    rewrite H0, lookup_empty. reflexivity. }
  assert (Hsel : forall st0 fuel env usedShards,
            _defragmentationStates st0 = ∅ ->
            selectChunksToMove (S fuel) env usedShards st0 = Ok [] (st0, usedShards)).
  { intros st0 fuel env usedShards H0. unfold selectChunksToMove. simpl.
    rewrite H0, map_to_list_empty. reflexivity. }
  unfold closeActionStream. simpl.
  destruct (_nextStreamingActionPromise st) as [[]|]; simpl;
    split_and!; try reflexivity;
    try (intros; apply Hack; reflexivity); try (intros; apply Hsel; reflexivity);
    split; try discriminate; try reflexivity; eauto.
  intros [? H]. discriminate.
Qed.

End PolicyStreams.


(** ** Runs of the scenarios *)

Section Runs.

Import MoveAndMergeChunksPhase Invariants.

Lemma MergeChunksPhase_abort_on_non_retriable_error_witness :
  exists st',
    MergeChunksPhase.applyActionResult Scenario.envS1 (ActMergeInfo Scenario.mergeS1)
      (RespStatus Scenario.permissionError) Scenario.mergePhaseS1 = Ok tt st' /\
    MergeChunksPhase.getNextPhase st' = kMergeChunks.
Proof.
  destruct (MergeChunksPhase_abort_on_non_retriable_error Scenario.envS1
              (ActMergeInfo Scenario.mergeS1) (RespStatus Scenario.permissionError)
              Scenario.permissionError Scenario.mergePhaseS1)
    as (st' & Hrun & _ & _ & _ & Hnext);
    [reflexivity|reflexivity|reflexivity|left; eexists; split; reflexivity|].
  exists st'. split; assumption.
Defined.

(** The claim C2 as stated fails in scenario S1: after a permission error of
    the merge the next phase of the MergeChunks phase is not
    MoveAndMergeChunks. *)
Lemma MergeChunksPhase_abort_next_phase_counterexample :
  exists st',
    MergeChunksPhase.applyActionResult Scenario.envS1 (ActMergeInfo Scenario.mergeS1)
      (RespStatus Scenario.permissionError) Scenario.mergePhaseS1 = Ok tt st' /\
    MergeChunksPhase._pendingActionsByShards st' = ∅ /\
    MergeChunksPhase.getNextPhase st' <> kMoveAndMergeChunks.
Proof.
  eexists. split; [reflexivity|]. split; [reflexivity|]. simpl. discriminate.
Qed.

Lemma SplitChunksPhase_autoSplitVector_success_witness :
  exists st',
    SplitChunksPhase.applyActionResult Scenario.envS1
      (ActAutoSplitVectorInfo Scenario.autoSplitVector)
      (RespSplitPoints StatusOK [Scenario.key 15]) Scenario.splitPhase = Ok tt st' /\
    SplitChunksPhase._pendingActionsByShards st' =
      {[ "A" := SplitChunksPhase.mkPendingActions []
                  [(Scenario.rangeOf 0 30, [Scenario.key 15])] ]}.
Proof.
  destruct (SplitChunksPhase_autoSplitVector_success Scenario.envS1 Scenario.autoSplitVector
              [Scenario.key 15] Scenario.splitPhase)
    as (st' & Hrun & Hpending);
    [reflexivity|repeat constructor; simpl; lia|simpl; lia|].
  exists st'. split; [exact Hrun|]. exact Hpending.
Defined.

(** The claim C9 as stated fails for a key list of exactly
    [BSONObjMaxUserSize - 4096] bytes: the size does not exceed the bound,
    and the rest of the range is enqueued for more split points all the
    same. *)
Lemma SplitChunksPhase_continuation_counterexample :
  exists st',
    SplitChunksPhase.applyActionResult Scenario.envS1
      (ActAutoSplitVectorInfo Scenario.autoSplitVector)
      (RespSplitPoints StatusOK [Scenario.longKey]) Scenario.splitPhase = Ok tt st' /\
    SplitChunksPhase.rangesToFindSplitPoints
      (SplitChunksPhase.entry (SplitChunksPhase._pendingActionsByShards st') "A") =
      [mkChunkRange Scenario.longKey (Scenario.key 30)] /\
    ~ (BSONObjMaxUserSize Scenario.envS1 - 4096 < objsize Scenario.longKey).
Proof.
  eexists. split; [reflexivity|]. split; [reflexivity|]. simpl. lia.
Qed.

Lemma acknowledge_of_absent_collection_witness :
  BalancerDefragmentationPolicyImpl.acknowledgeMoveResult 0 Scenario.envS2
    (mkMigrateInfo "B" "db.coll" 1%N "A" (Scenario.key 0) (Scenario.key 10) Scenario.version)
    StatusOK (Scenario.idlePolicy 1 false) = Ok None (Scenario.idlePolicy 1 false).
Proof.
  apply (proj2 (proj2 (proj2 (proj2
          (acknowledge_of_absent_collection 0 Scenario.envS2 (Scenario.idlePolicy 1 false)))))).
  reflexivity.
Defined.

Lemma popNextMigration_Three :
  popNextMigration Scenario.envThree ∅ Scenario.phaseThree =
  Ok (Some Scenario.migrationThree) (fst Scenario.afterMigrationThree, snd Scenario.afterMigrationThree).
Proof. vm_compute. reflexivity. Qed.

Lemma NoDup_phaseThree : NoDup (_collectionChunks Scenario.phaseThree).*1.
Proof. apply wfb_wf. vm_compute. reflexivity. Qed.

Lemma popNextMigration_rank_and_target_witness :
  exists r ctarget siblings candidates,
    _outstandingMigrations (fst Scenario.afterMigrationThree) =
      _outstandingMigrations Scenario.phaseThree ++ [r] /\
    deref (_collectionChunks Scenario.phaseThree) (chunkToMergeWith r) = Some ctarget /\
    mig_to Scenario.migrationThree = shard ctarget /\
    _getChunkSiblings Scenario.phaseThree (chunkToMove r) = Some siblings /\
    availableSiblings Scenario.phaseThree ∅ siblings = Some candidates.
Proof.
  destruct (popNextMigration_rank_and_target
              Scenario.envThree ∅ Scenario.phaseThree Scenario.migrationThree
              (fst Scenario.afterMigrationThree) (snd Scenario.afterMigrationThree)
              NoDup_phaseThree
              ltac:(apply (bool_decide_unpack _); vm_compute; exact I)
              popNextMigration_Three)
    as (_ & r & csmall & ctarget & siblings & candidates & Hout & _ & Ht & _ & Hto & _
        & Hsib & Hav & _).
  exists r, ctarget, siblings, candidates. split_and!; assumption.
Defined.

Lemma popNextMigration_destination_witness :
  mig_to Scenario.migrationThree = mig_from Scenario.migrationThree \/
  exists i, _shardInfos Scenario.phaseThree !! mig_to Scenario.migrationThree = Some i /\
            draining i = false /\
            (maxSizeBytes i = 0 \/ currentSizeBytes i < maxSizeBytes i).
Proof.
  exact (proj1 (popNextMigration_destination Scenario.envThree ∅ Scenario.phaseThree
                  Scenario.migrationThree (fst Scenario.afterMigrationThree)
                  (snd Scenario.afterMigrationThree) NoDup_phaseThree popNextMigration_Three)).
Defined.

(** The claim C8 as stated fails for two small adjacent chunks on a draining
    shard: the migration that merges them names the draining shard as its
    destination. *)
Lemma popNextMigration_draining_destination_counterexample :
  exists info st' usedShards' i,
    popNextMigration Scenario.envDraining ∅ Scenario.phaseDraining =
      Ok (Some info) (st', usedShards') /\
    _shardInfos Scenario.phaseDraining !! mig_to info = Some i /\
    draining i = true.
Proof.
  vm_compute. do 4 eexists. split; [reflexivity|]. split; reflexivity.
Qed.

Lemma popNextStreamableAction_Three :
  popNextStreamableAction Scenario.envThree Scenario.afterMigrationAckThree =
  Ok (Some (ActMergeInfo Scenario.mergeThree)) Scenario.mergingThree.
Proof. vm_compute. reflexivity. Qed.

Lemma merge_success_witness :
  exists st' merged,
    applyActionResult (ActMergeInfo Scenario.mergeThree) (RespStatus StatusOK)
      Scenario.mergingThree = Ok tt st' /\
    deref (_collectionChunks st') 0%nat = Some merged /\
    range merged = Scenario.rangeOf 0 20 /\
    estimatedSizeBytes merged = 35 /\
    busyInOperation merged = false /\
    deref (_collectionChunks st') 1%nat = None.
Proof.
  destruct (merge_success Scenario.mergingThree Scenario.mergeThree Scenario.requestThree []
              (mkChunkRangeInfo (Scenario.rangeOf 10 20) "B" 5 true)
              (mkChunkRangeInfo (Scenario.rangeOf 0 10) "A" 30 true)
              ltac:(apply wfb_wf; vm_compute; reflexivity) eq_refl ltac:(discriminate)
              eq_refl eq_refl eq_refl eq_refl eq_refl (or_introl eq_refl)
              ltac:(simpl; lia)) as [_ Hmerge].
  destruct (Hmerge eq_refl)
    as (st' & merged & Hrun & Hmerged & Hrange & Hsize & Hbusy & _ & _ & Hgone & _).
  exists st', merged. split_and!; assumption.
Defined.

Lemma run_Three :
  run Scenario.phaseThree
      [EvMigration Scenario.requestThree Scenario.migrationThree;
       EvMigrationAck Scenario.requestThree Scenario.migrationThree StatusOK;
       EvMerge Scenario.requestThree (ActMergeInfo Scenario.mergeThree)]
      Scenario.mergingThree.
Proof.
  apply (run_step _ [EvMigration Scenario.requestThree Scenario.migrationThree;
                     EvMigrationAck Scenario.requestThree Scenario.migrationThree StatusOK]
                  Scenario.afterMigrationAckThree
                  (Some (EvMerge Scenario.requestThree (ActMergeInfo Scenario.mergeThree)))).
  - apply (run_step _ [EvMigration Scenario.requestThree Scenario.migrationThree]
                    (fst Scenario.afterMigrationThree)
                    (Some (EvMigrationAck Scenario.requestThree Scenario.migrationThree
                             StatusOK))).
    + apply (run_step _ [] Scenario.phaseThree
                      (Some (EvMigration Scenario.requestThree Scenario.migrationThree)));
        [apply run_start|].
      eapply step_migration; [exact popNextMigration_Three|]. vm_compute. reflexivity.
    + eapply (step_migration_ack _ Scenario.migrationThree); vm_compute; reflexivity.
  - eapply step_merge; [|exact popNextStreamableAction_Three]. vm_compute. reflexivity.
Qed.

Lemma run_Four :
  run Scenario.phaseFour
      [EvMigration Scenario.requestFourD Scenario.migrationFourD;
       EvMigration Scenario.requestFourB Scenario.migrationFourB;
       EvMigrationAck Scenario.requestFourD Scenario.migrationFourD StatusOK;
       EvMerge Scenario.requestFourD (ActMergeInfo Scenario.mergeFour);
       EvMigrationAck Scenario.requestFourB Scenario.migrationFourB Scenario.permissionError]
      Scenario.abortedFour.
Proof.
  eapply (run_step _ [_; _; _; _] Scenario.mergingFour (Some _)).
  - eapply (run_step _ [_; _; _] _ (Some _)).
    + eapply (run_step _ [_; _] Scenario.migratingFour (Some _)).
      * eapply (run_step _ [_] _ (Some _)).
        -- eapply (run_step _ [] Scenario.phaseFour (Some _)); [apply run_start|].
           eapply (step_migration Scenario.envFour ∅); vm_compute; reflexivity.
        -- eapply (step_migration Scenario.envFour ∅); vm_compute; reflexivity.
      * eapply (step_migration_ack _ Scenario.migrationFourD); vm_compute; reflexivity.
    + eapply (step_merge Scenario.envFour); vm_compute; reflexivity.
  - eapply (step_migration_ack _ Scenario.migrationFourB); vm_compute; reflexivity.
Qed.

(** The claim C3 as stated fails in an aborted phase.  In [phaseFour] two
    migrations are out; the first is acknowledged with success and its merge
    is returned; the second fails with an error that is not retried, which
    aborts the phase.  The merge is then acknowledged with success: the moved
    chunk is still in the chunk list, and the chunk it was to be merged with
    keeps its range and its size and stays busy. *)
Lemma merge_success_aborted_counterexample :
  run Scenario.phaseFour
      [EvMigration Scenario.requestFourD Scenario.migrationFourD;
       EvMigration Scenario.requestFourB Scenario.migrationFourB;
       EvMigrationAck Scenario.requestFourD Scenario.migrationFourD StatusOK;
       EvMerge Scenario.requestFourD (ActMergeInfo Scenario.mergeFour);
       EvMigrationAck Scenario.requestFourB Scenario.migrationFourB Scenario.permissionError]
      Scenario.abortedFour /\
  extractFirst (matchesMerge Scenario.abortedFour Scenario.mergeFour)
    (_outstandingMerges Scenario.abortedFour) = Some (Some (Scenario.requestFourD, [])) /\
  exists st',
    applyActionResult (ActMergeInfo Scenario.mergeFour) (RespStatus StatusOK)
      Scenario.abortedFour = Ok tt st' /\
    deref (_collectionChunks st') (chunkToMove Scenario.requestFourD) =
      Some (mkChunkRangeInfo (Scenario.rangeOf 30 40) "D" 5 true) /\
    deref (_collectionChunks st') (chunkToMergeWith Scenario.requestFourD) =
      Some (mkChunkRangeInfo (Scenario.rangeOf 20 30) "C" 30 true).
Proof.
  split; [exact run_Four|]. split; [vm_compute; reflexivity|].
  eexists. split; [vm_compute; reflexivity|]. split; vm_compute; reflexivity.
Qed.

Lemma merge_after_acknowledged_migration_witness :
  exists k j info acked m,
    (k < j)%nat /\ (j < 2)%nat /\
    [EvMigration Scenario.requestThree Scenario.migrationThree;
     EvMigrationAck Scenario.requestThree Scenario.migrationThree StatusOK;
     EvMerge Scenario.requestThree (ActMergeInfo Scenario.mergeThree)] !! k =
       Some (EvMigration Scenario.requestThree info) /\
    [EvMigration Scenario.requestThree Scenario.migrationThree;
     EvMigrationAck Scenario.requestThree Scenario.migrationThree StatusOK;
     EvMerge Scenario.requestThree (ActMergeInfo Scenario.mergeThree)] !! j =
       Some (EvMigrationAck Scenario.requestThree acked StatusOK) /\
    woCompare (mig_minKey acked) (mig_minKey info) = 0 /\
    ActMergeInfo Scenario.mergeThree = ActMergeInfo m /\
    merge_shardId m = mig_to info /\
    getMax (merge_chunkRange m) = mig_maxKey info.
Proof.
  destruct (merge_after_acknowledged_migration _ _ _ _ _ _ _ _ 2%nat Scenario.requestThree
              (ActMergeInfo Scenario.mergeThree) run_Three eq_refl)
    as (k & j & info & acked & m & Hkj & Hj & Hk & Hack & Hkey & _ & Hm & Hshard & _ & _
        & Hrange).
  exists k, j, info, acked, m. split_and!; assumption.
Defined.



(** A call on the policy of [phaseThree] returns the one migration of the
    phase. *)
Lemma selectChunksToMove_Three :
  exists st' usedShards',
    BalancerDefragmentationPolicyImpl.selectChunksToMove 8 Scenario.envThree ∅
      Scenario.policyThree = Ok [Scenario.migrationThree] (st', usedShards').
Proof. vm_compute. do 2 eexists. reflexivity. Qed.

Lemma selectChunksToMove_terminates_witness :
  match BalancerDefragmentationPolicyImpl.selectChunksToMove 8 Scenario.envThree ∅
          Scenario.policyThree with
  | Ok chunksToMove (st', usedShards') =>
      exclusive chunksToMove /\
      (forall m, m ∈ chunksToMove ->
         (mig_from m ∉ (∅ : gset ShardId)) /\ (mig_to m ∉ (∅ : gset ShardId)) /\
         migrationShards m ⊆ usedShards' /\
         migrationShards m ⊆ knownShards Scenario.envThree Scenario.policyThree) /\
      (∅ : gset ShardId) ⊆ usedShards' /\
      (length chunksToMove <=
         size (knownShards Scenario.envThree Scenario.policyThree ∖ ∅))%nat
  | Fatal => True
  | _ => False
  end.
Proof.
  apply selectChunksToMove_terminates.
  - apply wfPolicyb_wfPolicy. vm_compute. reflexivity.
  - vm_compute. lia.
Defined.

End Runs.

(** * Runs for the properties of ChunkVersion and of the phases *)

Section ChunkVersionRuns.

Import chunk_version.

Lemma incMinor_versions_witness :
  match incMinor (new 1 7 5 9) with
  | None => minorVersion (new 1 7 5 9) = 2 ^ 32 - 1
  | Some v' =>
      minorVersion (new 1 7 5 9) < 2 ^ 32 - 1 /\
      minorVersion v' = minorVersion (new 1 7 5 9) + 1 /\
      majorVersion v' = majorVersion (new 1 7 5 9) /\
      chunk_version.epoch v' = chunk_version.epoch (new 1 7 5 9) /\
      getTimestamp v' = getTimestamp (new 1 7 5 9) /\
      valid v'
  end.
Proof.
  apply (incMinor_versions (new 1 7 5 9)). unfold valid. vm_compute. split; [discriminate|reflexivity].
Defined.

Lemma isOlderThan_transitive_witness :
  isOlderThan (2 ^ 64 - 1) (2 ^ 64 - 1) (new 1 7 5 9) (new 2 1 5 9) = true /\
  isOlderThan (2 ^ 64 - 1) (2 ^ 64 - 1) (new 1 8 5 9) (new 1 7 5 9) = false /\
  isOlderThan (2 ^ 64 - 1) (2 ^ 64 - 1) (new 1 7 5 9) (new 1 7 5 9) = false.
Proof.
  apply (isOlderThan_transitive (2 ^ 64 - 1) (2 ^ 64 - 1)
           (new 1 7 5 9) (new 1 8 5 9) (new 2 1 5 9)); vm_compute; reflexivity.
Defined.

Lemma isOlderThan_total_witness :
  (isOlderThan (2 ^ 64 - 1) (2 ^ 64 - 1) (new 1 7 5 9) (new 1 8 5 9) = true /\
   operator_eq (new 1 7 5 9) (new 1 8 5 9) = false /\
   isOlderThan (2 ^ 64 - 1) (2 ^ 64 - 1) (new 1 8 5 9) (new 1 7 5 9) = false) \/
  (isOlderThan (2 ^ 64 - 1) (2 ^ 64 - 1) (new 1 7 5 9) (new 1 8 5 9) = false /\
   operator_eq (new 1 7 5 9) (new 1 8 5 9) = true /\
   isOlderThan (2 ^ 64 - 1) (2 ^ 64 - 1) (new 1 8 5 9) (new 1 7 5 9) = false) \/
  (isOlderThan (2 ^ 64 - 1) (2 ^ 64 - 1) (new 1 7 5 9) (new 1 8 5 9) = false /\
   operator_eq (new 1 7 5 9) (new 1 8 5 9) = false /\
   isOlderThan (2 ^ 64 - 1) (2 ^ 64 - 1) (new 1 8 5 9) (new 1 7 5 9) = true).
Proof.
  apply (isOlderThan_total (2 ^ 64 - 1) (2 ^ 64 - 1) (new 1 7 5 9) (new 1 8 5 9)).
  - unfold valid. vm_compute. split; [discriminate|reflexivity].
  - unfold valid. vm_compute. split; [discriminate|reflexivity].
  - vm_compute. reflexivity.
Defined.

Lemma inc_isOlderThan_witness :
  (forall v', incMinor (new 1 7 5 9) = Some v' ->
     isOlderThan (2 ^ 64 - 1) (2 ^ 64 - 1) (new 1 7 5 9) v' = true /\
     isWriteCompatibleWith (new 1 7 5 9) v' = true) /\
  (forall v', incMajor (new 1 7 5 9) = Some v' ->
     isOlderThan (2 ^ 64 - 1) (2 ^ 64 - 1) (new 1 7 5 9) v' = true /\
     isWriteCompatibleWith (new 1 7 5 9) v' = false).
Proof.
  apply (inc_isOlderThan (2 ^ 64 - 1) (2 ^ 64 - 1) (new 1 7 5 9)).
  - unfold valid. vm_compute. split; [discriminate|reflexivity].
  - vm_compute. reflexivity.
Defined.

End ChunkVersionRuns.

Section PhaseRuns.

Import PhaseInvariants.

Lemma MergeChunksPhase_popNextStreamableAction_S1 :
  MergeChunksPhase.popNextStreamableAction Scenario.envS1 Scenario.mergeBuiltS1 =
  Ok (Some (ActMergeInfo Scenario.mergeS1)) Scenario.mergePhaseS1.
Proof. vm_compute. reflexivity. Qed.

Lemma MergeChunksPhase_build_S1 :
  MergeChunksPhase.build Scenario.envS1 (Scenario.collection None) = Some Scenario.mergeBuiltS1.
Proof. vm_compute. reflexivity. Qed.

Lemma MergeChunksPhase_retriable_error_round_trip_witness :
  MergeChunksPhase.applyActionResult Scenario.envS1 (ActMergeInfo Scenario.mergeS1)
    (RespStatus Scenario.staleConfig) Scenario.mergePhaseS1 = Ok tt Scenario.mergeBuiltS1.
Proof.
  refine (MergeChunksPhase_retriable_error_round_trip Scenario.envS1 Scenario.mergeBuiltS1
            (ActMergeInfo Scenario.mergeS1) Scenario.mergePhaseS1 Scenario.staleConfig
            _ _ _ _ (mkDataSizeResponse 0 0)).
  - reflexivity.
  - simpl. lia.
  - exact MergeChunksPhase_popNextStreamableAction_S1.
  - reflexivity.
Defined.

Lemma MergeChunksPhase_keeps_entries_non_empty_witness :
  mergePending Scenario.mergeBuiltS1 /\ mergePending Scenario.mergePhaseS1.
Proof.
  destruct (MergeChunksPhase_keeps_entries_non_empty Scenario.envS1) as (Hbuild & Hpop & _).
  pose proof (Hbuild (Scenario.collection None) Scenario.mergeBuiltS1
                MergeChunksPhase_build_S1) as H.
  split; [exact H|].
  exact (Hpop Scenario.mergeBuiltS1 _ Scenario.mergePhaseS1 H
           MergeChunksPhase_popNextStreamableAction_S1).
Defined.

Lemma MergeChunksPhase_popNextStreamableAction_progress_witness :
  MergeChunksPhase._pendingActionsByShards Scenario.mergeBuiltS1 <> ∅ /\
  MergeChunksPhase._outstandingActions Scenario.mergePhaseS1 =
    wrapU64 (MergeChunksPhase._outstandingActions Scenario.mergeBuiltS1 + 1).
Proof.
  pose proof (MergeChunksPhase_popNextStreamableAction_progress Scenario.envS1
                Scenario.mergeBuiltS1
                ltac:(apply mergePendingb_mergePending; vm_compute; reflexivity)) as H.
  rewrite MergeChunksPhase_popNextStreamableAction_S1 in H. exact H.
Defined.

Lemma MergeChunksPhase_build_isComplete_witness :
  MergeChunksPhase.isComplete Scenario.mergeBuiltS1 = true <->
  Forall (fun c => is_Some (ct_estimatedSizeBytes c)) Scenario.chunksS1 /\
  forall l1 firstChunk secondChunk l2,
    Scenario.chunksS1 = l1 ++ firstChunk :: secondChunk :: l2 ->
    MergeChunksPhase.areConsecutive [] firstChunk secondChunk = false.
Proof.
  apply (MergeChunksPhase_build_isComplete Scenario.envS1 (Scenario.collection None)).
  - exact MergeChunksPhase_build_S1.
  - reflexivity.
  - reflexivity.
Defined.

Lemma SplitChunksPhase_popNextStreamableAction_run :
  SplitChunksPhase.popNextStreamableAction Scenario.envS1 Scenario.splitBuilt =
  Ok (Some (ActAutoSplitVectorInfo Scenario.autoSplitVector)) Scenario.splitPhase.
Proof. vm_compute. reflexivity. Qed.

Lemma SplitChunksPhase_build_unsized :
  SplitChunksPhase.build Scenario.envUnsized (Scenario.collection None) =
  Some Scenario.splitBuilt.
Proof. vm_compute. reflexivity. Qed.

Lemma SplitChunksPhase_retriable_error_round_trip_witness :
  SplitChunksPhase.applyActionResult Scenario.envS1
    (ActAutoSplitVectorInfo Scenario.autoSplitVector)
    (RespSplitPoints Scenario.staleConfig []) Scenario.splitPhase =
  Ok tt Scenario.splitBuilt.
Proof.
  refine (SplitChunksPhase_retriable_error_round_trip Scenario.envS1 Scenario.splitBuilt
            (ActAutoSplitVectorInfo Scenario.autoSplitVector) Scenario.splitPhase
            Scenario.staleConfig _ _ _ _ []).
  - reflexivity.
  - simpl. lia.
  - exact SplitChunksPhase_popNextStreamableAction_run.
  - reflexivity.
Defined.

Lemma SplitChunksPhase_keeps_entries_non_empty_witness :
  splitPending Scenario.splitBuilt /\ splitPending Scenario.splitPhase.
Proof.
  destruct (SplitChunksPhase_keeps_entries_non_empty Scenario.envUnsized)
    as (Hbuild & _ & _).
  destruct (SplitChunksPhase_keeps_entries_non_empty Scenario.envS1) as (_ & Hpop & _).
  pose proof (Hbuild (Scenario.collection None) Scenario.splitBuilt
                SplitChunksPhase_build_unsized) as H.
  split; [exact H|].
  exact (Hpop Scenario.splitBuilt _ Scenario.splitPhase H
           SplitChunksPhase_popNextStreamableAction_run).
Defined.

Lemma SplitChunksPhase_popNextStreamableAction_progress_witness :
  SplitChunksPhase._outstandingActions Scenario.splitPhase =
    wrapU64 (SplitChunksPhase._outstandingActions Scenario.splitBuilt + 1) /\
  exists shardId pendingActions,
    map_begin (SplitChunksPhase._pendingActionsByShards Scenario.splitBuilt) =
      Some (shardId, pendingActions) /\
    asv_shardId Scenario.autoSplitVector = shardId /\
    SplitChunksPhase.rangesToSplit pendingActions = [] /\
    last (SplitChunksPhase.rangesToFindSplitPoints pendingActions) =
      Some (mkChunkRange (asv_minKey Scenario.autoSplitVector)
              (asv_maxKey Scenario.autoSplitVector)).
Proof.
  pose proof (SplitChunksPhase_popNextStreamableAction_progress Scenario.envS1
                Scenario.splitBuilt
                ltac:(apply splitPendingb_splitPending; vm_compute; reflexivity)) as H.
  rewrite SplitChunksPhase_popNextStreamableAction_run in H. exact H.
Defined.

Lemma SplitChunksPhase_build_isComplete_witness :
  SplitChunksPhase.isComplete Scenario.splitBuilt = true <->
  Forall (fun c => exists size, ct_estimatedSizeBytes c = Some size /\ wrapU64 size <= 100)
         Scenario.chunksUnsized.
Proof.
  apply (SplitChunksPhase_build_isComplete Scenario.envUnsized (Scenario.collection None)).
  - exact SplitChunksPhase_build_unsized.
  - reflexivity.
  - reflexivity.
Defined.

End PhaseRuns.

Section MoveAndMergeChunksPhaseRuns.

Import MoveAndMergeChunksPhase Invariants PhaseInvariants MoveAndMergeInvariants.

Lemma requests_exclusive_witness :
  NoDup (_collectionChunks Scenario.mergingThree).*1 /\
  NoDup (requests Scenario.mergingThree ≫= chunksOf) /\
  forall r it c,
    r ∈ requests Scenario.mergingThree -> it ∈ chunksOf r ->
    deref (_collectionChunks Scenario.mergingThree) it = Some c -> busyInOperation c = true.
Proof.
  exact (requests_exclusive _ _ _ _ _ _ _ _ run_Three).
Defined.

Lemma new_of_unsized_chunk_witness :
  let st := new "db.coll" 1%N Scenario.chunksUnsized ∅ [] 25 in
  _aborted st = true /\ getNextPhase st = kMergeChunks /\ isComplete st = true /\
  popNextMigration Scenario.envUnsized ∅ st = Ok None (st, ∅) /\
  popNextStreamableAction Scenario.envUnsized st = Ok None st.
Proof.
  apply new_of_unsized_chunk. intros H. apply Forall_cons in H as [[x Hx] _]. discriminate.
Defined.

Lemma chunksThree_sized :
  Forall (fun c => is_Some (ct_estimatedSizeBytes c)) Scenario.chunksThree.
Proof. repeat constructor; eexists; reflexivity. Qed.

Lemma new_shardProcessingOrder_witness :
  _shardInfos Scenario.phaseThree = emplaceShardInfos Scenario.statsThree /\
  NoDup (_shardProcessingOrder Scenario.phaseThree) /\
  (forall s, s ∈ _shardProcessingOrder Scenario.phaseThree <->
             is_Some (emplaceShardInfos Scenario.statsThree !! s)) /\
  forall i j a b ia ib,
    (i < j)%nat ->
    _shardProcessingOrder Scenario.phaseThree !! i = Some a ->
    _shardProcessingOrder Scenario.phaseThree !! j = Some b ->
    emplaceShardInfos Scenario.statsThree !! a = Some ia ->
    emplaceShardInfos Scenario.statsThree !! b = Some ib ->
    currentSizeBytes ib <= currentSizeBytes ia.
Proof.
  exact (new_shardProcessingOrder "db.coll" 1%N Scenario.chunksThree
           (emplaceShardInfos Scenario.statsThree) [] 25 chunksThree_sized).
Defined.

Lemma new_smallChunksByShard_witness :
  (forall s it,
     it ∈ default [] (_smallChunksByShard Scenario.phaseThree !! s) <->
     exists c, deref (_collectionChunks Scenario.phaseThree) it = Some c /\ shard c = s /\
               estimatedSizeBytes c <= _smallChunkSizeThresholdBytes Scenario.phaseThree) /\
  (forall s l, _smallChunksByShard Scenario.phaseThree !! s = Some l -> NoDup l) /\
  forall s l i j a b ca cb,
    _smallChunksByShard Scenario.phaseThree !! s = Some l -> (i < j)%nat ->
    l !! i = Some a -> l !! j = Some b ->
    deref (_collectionChunks Scenario.phaseThree) a = Some ca ->
    deref (_collectionChunks Scenario.phaseThree) b = Some cb ->
    estimatedSizeBytes ca <= estimatedSizeBytes cb.
Proof.
  exact (new_smallChunksByShard "db.coll" 1%N Scenario.chunksThree
           (emplaceShardInfos Scenario.statsThree) [] 25 chunksThree_sized).
Defined.

Lemma applyActionResult_permissionError_Three :
  applyActionResult (ActMigrateInfo Scenario.migrationThree)
    (RespStatus Scenario.permissionError) (fst Scenario.afterMigrationThree) =
  Ok tt Scenario.abortedThree.
Proof. vm_compute. reflexivity. Qed.

Lemma non_retriable_error_aborts_witness :
  _aborted Scenario.abortedThree = true /\ getNextPhase Scenario.abortedThree = kMergeChunks /\
  popNextMigration Scenario.envThree ∅ Scenario.abortedThree = Ok None (Scenario.abortedThree, ∅) /\
  popNextStreamableAction Scenario.envThree Scenario.abortedThree = Ok None Scenario.abortedThree /\
  (isComplete Scenario.abortedThree = true <->
   _outstandingMigrations Scenario.abortedThree = [] /\
   _outstandingMerges Scenario.abortedThree = []).
Proof.
  apply (non_retriable_error_aborts Scenario.envThree ∅ (fst Scenario.afterMigrationThree)
           (ActMigrateInfo Scenario.migrationThree) Scenario.permissionError).
  - vm_compute. reflexivity.
  - reflexivity.
  - reflexivity.
  - exact applyActionResult_permissionError_Three.
Defined.

Lemma applyActionResult_of_unknown_action_witness :
  applyActionResult (ActMigrateInfo Scenario.migrationThree) (RespStatus StatusOK)
    Scenario.phaseThree = Fatal.
Proof.
  destruct (applyActionResult_of_unknown_action Scenario.phaseThree) as (Hmigration & _ & _).
  apply Hmigration. intros r Hr. vm_compute in Hr. inversion Hr.
Defined.

Lemma applyActionResult_StatusOK_Three :
  applyActionResult (ActMigrateInfo Scenario.migrationThree) (RespStatus StatusOK)
    (fst Scenario.afterMigrationThree) = Ok tt Scenario.afterMigrationAckThree.
Proof. vm_compute. reflexivity. Qed.

Lemma migration_success_statistics_witness :
  (totalCurrentSizeBytes (_shardInfos Scenario.afterMigrationAckThree) -
   totalCurrentSizeBytes (_shardInfos (fst Scenario.afterMigrationThree))) mod 2 ^ 64 = 0.
Proof.
  apply (migration_success_statistics (fst Scenario.afterMigrationThree)
           Scenario.migrationThree Scenario.afterMigrationAckThree).
  - vm_compute. reflexivity.
  - exact applyActionResult_StatusOK_Three.
Defined.

Lemma popNextMigration_moves_small_chunk_to_sibling_witness :
  exists r small target,
    _outstandingMigrations (fst Scenario.afterMigrationThree) =
      _outstandingMigrations Scenario.phaseThree ++ [r] /\
    deref (_collectionChunks Scenario.phaseThree) (chunkToMove r) = Some small /\
    deref (_collectionChunks Scenario.phaseThree) (chunkToMergeWith r) = Some target /\
    adjacent (_collectionChunks Scenario.phaseThree) (chunkToMove r) (chunkToMergeWith r) /\
    busyInOperation small = false /\ busyInOperation target = false /\
    mig_from Scenario.migrationThree = shard small /\
    mig_to Scenario.migrationThree = shard target /\
    mig_minKey Scenario.migrationThree = getMin (range small) /\
    mig_maxKey Scenario.migrationThree = getMax (range small).
Proof.
  destruct (popNextMigration_moves_small_chunk_to_sibling
              Scenario.envThree ∅ Scenario.phaseThree Scenario.migrationThree
              (fst Scenario.afterMigrationThree) (snd Scenario.afterMigrationThree)
              NoDup_phaseThree popNextMigration_Three)
    as (r & small & target & s & l & Hout & _ & _ & _ & _ & Hs & Ht & Hadj & Hbs & Hbt & _ & _
        & Hfrom & Hto & Hmin & Hmax & _).
  exists r, small, target. split_and!; assumption.
Defined.

Lemma small_chunks_index_invariant_witness :
  exists c,
    deref (_collectionChunks Scenario.mergingThree) 1%nat = Some c /\ shard c = "B" /\
    estimatedSizeBytes c <= _smallChunkSizeThresholdBytes Scenario.mergingThree.
Proof.
  destruct (small_chunks_index_invariant _ _ _ _ _ _ _ _ run_Three) as [_ H].
  destruct (H "B" [1%nat] ltac:(vm_compute; reflexivity)) as (_ & _ & Hin).
  apply Hin. left.
Defined.

Lemma migration_retriable_error_round_trip_witness :
  applyActionResult (ActMigrateInfo Scenario.migrationThree) (RespStatus Scenario.staleConfig)
    (fst Scenario.afterMigrationThree) =
  Ok tt (with_smallChunksByShard (_smallChunksByShard (fst Scenario.afterMigrationThree))
           Scenario.phaseThree).
Proof.
  apply (migration_retriable_error_round_trip
           Scenario.envThree ∅ Scenario.phaseThree Scenario.migrationThree
           (fst Scenario.afterMigrationThree) (snd Scenario.afterMigrationThree)
           Scenario.staleConfig NoDup_phaseThree).
  - vm_compute. reflexivity.
  - vm_compute. constructor.
  - exact popNextMigration_Three.
  - reflexivity.
Defined.

Lemma popNextMigration_returns_or_throws_witness :
  match popNextMigration Scenario.envThree ∅ Scenario.phaseThree with
  | Ok _ _ | Throw _ => True
  | _ => False
  end.
Proof.
  apply popNextMigration_returns_or_throws.
  - apply wfb_wf. vm_compute. reflexivity.
  - apply shardsKnownb_shardsKnown. vm_compute. reflexivity.
Defined.

End MoveAndMergeChunksPhaseRuns.

Section PolicyRuns.

Import BalancerDefragmentationPolicyImpl Invariants.

Lemma _initializeCollectionState_ends_witness :
  exists st',
    _initializeCollectionState 4 Scenario.envThree (Scenario.collection None)
      (Scenario.idlePolicy 0 false) = Ok tt st' /\
    (st' = Scenario.idlePolicy 0 false \/
     exists phase,
       st' = assign (coll_uuid (Scenario.collection None)) (Some phase)
               (Scenario.idlePolicy 0 false) /\
       Phase.isComplete phase = false).
Proof. apply _initializeCollectionState_ends. lia. Defined.

Lemma _refreshDefragmentationPhaseFor_ends_witness :
  match _refreshDefragmentationPhaseFor 4 Scenario.envThree 1%N Scenario.policyThree with
  | Ok _ st' =>
      exists phase,
        st' = assign 1%N phase Scenario.policyThree /\
        from_option Phase.isComplete false phase = false /\
        (from_option Phase.isComplete false (Some (MoveAndMergeChunks Scenario.phaseThree)) =
           false ->
         phase = Some (MoveAndMergeChunks Scenario.phaseThree))
  | Throw st' =>
      st' = Scenario.policyThree /\ env_getCollection Scenario.envThree 1%N = None /\
      from_option Phase.isComplete false (Some (MoveAndMergeChunks Scenario.phaseThree)) = true
  | _ => False
  end.
Proof.
  apply _refreshDefragmentationPhaseFor_ends; [lia|]. vm_compute. reflexivity.
Defined.

Lemma getNextStreamingAction_ends_witness :
  match getNextStreamingAction 4 Scenario.envThree Scenario.policyThree with
  | Ok future st' =>
      (forall uuid, is_Some (_defragmentationStates st' !! uuid) ->
                    is_Some (_defragmentationStates Scenario.policyThree !! uuid)) /\
      _streamClosed st' = _streamClosed Scenario.policyThree /\
      match future with
      | makeReady action =>
          _concurrentStreamingOps Scenario.policyThree <
            kMaxConcurrentOperations Scenario.envThree /\
          _concurrentStreamingOps st' = _concurrentStreamingOps Scenario.policyThree + 1 /\
          _nextStreamingActionPromise st' = _nextStreamingActionPromise Scenario.policyThree /\
          isEndOfActionStream action = false
      | pending =>
          _concurrentStreamingOps st' = _concurrentStreamingOps Scenario.policyThree /\
          _nextStreamingActionPromise st' = Some mkPromise
      end
  | Fatal => True
  | _ => False
  end.
Proof. apply getNextStreamingAction_ends. lia. Defined.

Lemma acknowledge_bookkeeping_witness :
  exists st',
    acknowledge 4 Scenario.envThree 1%N (ActMigrateInfo Scenario.migrationThree)
      (RespStatus StatusOK) Scenario.policyMigratingThree = Ok None st' /\
    _concurrentStreamingOps st' = 0.
Proof.
  pose proof (acknowledge_bookkeeping 4 Scenario.envThree 1%N
                (ActMigrateInfo Scenario.migrationThree) (RespStatus StatusOK)
                Scenario.policyMigratingThree
                (MoveAndMergeChunks (fst Scenario.afterMigrationThree))
                ltac:(lia) ltac:(vm_compute; reflexivity)) as H.
  destruct (acknowledge 4 Scenario.envThree 1%N (ActMigrateInfo Scenario.migrationThree)
              (RespStatus StatusOK) Scenario.policyMigratingThree) as [[a|] st'|st'| |] eqn:Hack;
    try (vm_compute in Hack; discriminate).
  exists st'. split; [reflexivity|]. destruct H as (_ & _ & _ & Hc). exact Hc.
Defined.

End PolicyRuns.
